(** * K# front end: scanner, keyword DFA, token table, recursive-descent parser

    A shallow embedding of [KSHARP2.0.C] (the scanner and the table writer)
    and of [KSHARP_SYNTAX2.0.c] (the table loader and the parser), followed
    by the properties of the specification that are proved about them.

    Conventions of the embedding.
    - A C [char] is an [ascii]; a C string or a byte buffer is a
      [list ascii] (a [text]).  The buffer of the scanner holds the bytes
      of the file, whatever they are.
    - [peek] and [advance] return an [int] in C; here they return an
      [option ascii], [None] being [EOF].  Plain [char] is signed on the
      target, and the two functions return the character as it is read
      from the buffer: the byte 255 comes out as -1, which is [EOF], so
      [None] stands for the end of the input and for that byte.  The bytes
      from 128 to 254 come out as negative numbers other than [EOF]; they
      are equal to no character constant and pass no test of [<ctype.h>],
      and a cast to [char] gives the byte back.
    - [malloc] is assumed to succeed.
    - [int] line and column counters, token counts and token indices are
      integers of [Z]; their values stay far below the 32-bit range.
    - A C loop is a [Fixpoint] on the number of iterations that are left
      at most; every such counter is given next to the loop together with
      a lemma that the loop ends by its own test. *)

From Stdlib Require Import List Ascii String ZArith Lia Bool Arith.
Import ListNotations.

Set Implicit Arguments.

Local Open Scope char_scope.
Local Open Scope nat_scope.
Abbreviation length := Datatypes.length (only parsing).

(** * Part I. The program *)

(** ** Characters and C strings *)

Definition text := list ascii.

Definition str (s : string) : text := list_ascii_of_string s.
Arguments str s%_string.

Definition NUL : ascii := Ascii.zero.
Definition LF : ascii := ascii_of_nat 10.
Definition CR : ascii := ascii_of_nat 13.
Definition TAB : ascii := ascii_of_nat 9.
Definition VT : ascii := ascii_of_nat 11.
Definition FF : ascii := ascii_of_nat 12.

Definition ch_eqb (a b : ascii) : bool := Ascii.eqb a b.

Fixpoint text_eqb (a b : text) : bool :=
  match a, b with
  | [], [] => true
  | x :: a', y :: b' => ch_eqb x y && text_eqb a' b'
  | _, _ => false
  end.

(** [s[i]] on a C string: the bytes of the text, then the terminator. *)
Definition char_at (s : text) (i : nat) : ascii := nth i s NUL.

(** The C string held by a byte array: the bytes before the first NUL. *)
Fixpoint cstr (s : text) : text :=
  match s with
  | [] => []
  | c :: r => if ch_eqb c NUL then [] else c :: cstr r
  end.

Definition in_range (lo hi : nat) (c : ascii) : bool :=
  let n := nat_of_ascii c in (lo <=? n) && (n <=? hi).

(** <ctype.h> in the C locale. *)
Definition isdigit (c : ascii) : bool := in_range 48 57 c.
Definition isupper (c : ascii) : bool := in_range 65 90 c.
Definition islower (c : ascii) : bool := in_range 97 122 c.
Definition isalpha (c : ascii) : bool := isupper c || islower c.
Definition isalnum (c : ascii) : bool := isalpha c || isdigit c.
Definition isspace (c : ascii) : bool :=
  ch_eqb c " " || in_range 9 13 c.

(** [lowerc]: one ASCII letter to lower case. *)
Definition lowerc (ch : ascii) : ascii :=
  if isupper ch then ascii_of_nat (nat_of_ascii ch - 65 + 97) else ch.

(** [dup_n]: the first [n] bytes of [s]; [dup_s]: the whole C string. *)
Definition dup_n (s : text) (n : nat) : text := firstn n s.
Definition dup_s (s : text) : text := cstr s.

(** ** Tokens *)

Inductive TokenType :=
| TOK_IDENTIFIER | TOK_KEYWORD | TOK_RESERVED_TYPE
| TOK_CONST_INT | TOK_CONST_FLOAT | TOK_CONST_CHAR | TOK_CONST_BOOL
| TOK_CONST_STRING
| TOK_OP_ARITH | TOK_OP_REL | TOK_OP_LOGIC | TOK_ASSIGN
| TOK_DELIM | TOK_BRACKET | TOK_COMMENT | TOK_NOISE | TOK_UNKNOWN | TOK_EOF.

Definition TokenType_eqb (a b : TokenType) : bool :=
  match a, b with
  | TOK_IDENTIFIER, TOK_IDENTIFIER | TOK_KEYWORD, TOK_KEYWORD
  | TOK_RESERVED_TYPE, TOK_RESERVED_TYPE | TOK_CONST_INT, TOK_CONST_INT
  | TOK_CONST_FLOAT, TOK_CONST_FLOAT | TOK_CONST_CHAR, TOK_CONST_CHAR
  | TOK_CONST_BOOL, TOK_CONST_BOOL | TOK_CONST_STRING, TOK_CONST_STRING
  | TOK_OP_ARITH, TOK_OP_ARITH | TOK_OP_REL, TOK_OP_REL
  | TOK_OP_LOGIC, TOK_OP_LOGIC | TOK_ASSIGN, TOK_ASSIGN
  | TOK_DELIM, TOK_DELIM | TOK_BRACKET, TOK_BRACKET
  | TOK_COMMENT, TOK_COMMENT | TOK_NOISE, TOK_NOISE
  | TOK_UNKNOWN, TOK_UNKNOWN | TOK_EOF, TOK_EOF => true
  | _, _ => false
  end.

(** A token: kind, text ([None] is the NULL pointer), start position and
    the optional subtype label. *)
Record Token := mkToken {
  type : TokenType;
  lexeme : option text;
  tline : Z;
  tcol : Z;
  extra : option text
}.

Definition set_col (t : Token) (c : Z) : Token :=
  mkToken (type t) (lexeme t) (tline t) c (extra t).

(** ** Lexer state and cursor *)

Record Lexer := mkLexer {
  buf : text;   (* the whole file text; [len] is its length *)
  pos : nat;    (* next index to read *)
  line : Z;
  col : Z
}.

Definition len (L : Lexer) : nat := length (buf L).

(** Characters that are still unread; the bound of every scanning loop. *)
Definition remaining (L : Lexer) : nat := len L - pos L.

(** [peek] and [advance] return an [int]: a character of the buffer or
    [EOF], written [None] here.  The buffer is an array of plain [char],
    signed on the target, and the character is not converted to
    [unsigned char] before it is returned: the byte 255 is read as -1,
    which is [EOF].  [advance] has moved the cursor when it returns that
    byte as [EOF]. *)
Definition EOF_BYTE : ascii := ascii_of_nat 255.

Definition char_int (c : ascii) : option ascii :=
  if ch_eqb c EOF_BYTE then None else Some c.

Definition peek (L : Lexer) : option ascii :=
  if pos L <? len L then char_int (char_at (buf L) (pos L)) else None.

Definition advance (L : Lexer) : option ascii * Lexer :=
  if len L <=? pos L then (None, L)
  else
    let c := char_at (buf L) (pos L) in
    (char_int c,
     if ch_eqb c LF
     then mkLexer (buf L) (S (pos L)) (line L + 1)%Z 1%Z
     else mkLexer (buf L) (S (pos L)) (line L) (col L + 1)%Z).

Definition match_ (L : Lexer) (ch : ascii) : bool * Lexer :=
  match peek L with
  | Some c => if ch_eqb c ch then (true, snd (advance L)) else (false, L)
  | None => (false, L)
  end.

(** [while (p(peek(L))) advance(L);] with at most [n] iterations left. *)
Fixpoint advance_while (p : ascii -> bool) (n : nat) (L : Lexer) : Lexer :=
  match n with
  | 0 => L
  | S n' =>
      match peek L with
      | Some c => if p c then advance_while p n' (snd (advance L)) else L
      | None => L
      end
  end.

Definition is_ws (c : ascii) : bool :=
  ch_eqb c " " || ch_eqb c TAB || ch_eqb c CR || ch_eqb c LF.

Definition skip_ws (L : Lexer) : Lexer := advance_while is_ws (remaining L) L.

Definition make (L : Lexer) (ty : TokenType) (s : option text) (n : nat)
    (extra : option text) : Token :=
  mkToken ty (option_map (fun s => dup_n s n) s) (line L) (col L)
          (option_map dup_s extra).

(** ** The keyword DFA *)

Definition KEYWORDS : list text :=
  map str
    [ "if"; "else"; "elseif"; "for"; "while"; "do";
      "switch"; "case"; "default"; "break"; "continue"; "return";
      "print"; "input"; "writeln"; "readln";
      "begin"; "end"; "then"; "of"; "repeat"; "until" ]%string.

Definition KEYWORD_COUNT : nat := length KEYWORDS.
Definition DFA_MAX_ROOTS : nat := 64.
Definition DFA_MAX_CHILDREN : nat := 31.

(** A node owns the array of its children; [cSize] is the number of
    entries in use, which are the entries kept here. *)
#[warnings="-register-all"]
Inductive DFANode := mkNode (val : ascii) (isLeaf : bool) (children : list DFANode).

Definition val (n : DFANode) : ascii := let 'mkNode v _ _ := n in v.
Definition isLeaf (n : DFANode) : bool := let 'mkNode _ l _ := n in l.
Definition children (n : DFANode) : list DFANode := let 'mkNode _ _ c := n in c.
Definition cSize (n : DFANode) : nat := length (children n).

Record DFA := mkDFA { start : list DFANode }.
Definition sSize (d : DFA) : nat := length (start d).

(** [dfa_init_chain]: a chain of nodes for [symbol[index..len-1]];
    [k] counts the characters left, [len - index]. *)
Fixpoint dfa_init_chain (k : nat) (symbol : text) (index len : nat)
    : option DFANode :=
  if (len =? 0) || (index =? len) then None
  else
    match k with
    | 0 => None
    | S k' =>
        let child := dfa_init_chain k' symbol (S index) len in
        Some (mkNode (char_at symbol index) (index =? len - 1)
                (match child with
                 | Some c => if 0 <? DFA_MAX_CHILDREN then [c] else []
                 | None => []
                 end))
    end.

(** The search loops [for (i = 0; i < size; i++) if (c == node[i]->val)]:
    the first node of the array that carries [c]. *)
Fixpoint find_node (c : ascii) (nodes : list DFANode) : option DFANode :=
  match nodes with
  | [] => None
  | n :: rest => if ch_eqb c (val n) then Some n else find_node c rest
  end.

(** Replace by [f] the first node that carries [c]; [None] when no node
    carries it. *)
Fixpoint update_node (c : ascii) (f : DFANode -> DFANode)
    (nodes : list DFANode) : option (list DFANode) :=
  match nodes with
  | [] => None
  | n :: rest =>
      if ch_eqb c (val n) then Some (f n :: rest)
      else option_map (cons n) (update_node c f rest)
  end.

(** [dfa_brute_LCA]: reuse the states on the path of [symbol], append the
    missing suffix as a fresh chain; [k] is [len - index]. *)
Fixpoint dfa_brute_LCA (k : nat) (root : DFANode) (symbol : text)
    (index len : nat) : DFANode :=
  match k with
  | 0 => mkNode (val root) true (children root)
  | S k' =>
      match update_node (char_at symbol index)
              (fun child => dfa_brute_LCA k' child symbol (S index) len)
              (children root) with
      | Some cs => mkNode (val root) (isLeaf root) cs
      | None =>
          if cSize root <? DFA_MAX_CHILDREN then
            match dfa_init_chain (len - index) symbol index len with
            | Some child =>
                mkNode (val root) (isLeaf root) (children root ++ [child])
            | None => root
            end
          else root
      end
  end.

Definition dfa_add_symbol (head : DFA) (symbol : text) : DFA :=
  let len := length (cstr symbol) in
  if len =? 0 then head
  else
    match update_node (char_at symbol 0)
            (fun root => dfa_brute_LCA (len - 1) root symbol 1 len)
            (start head) with
    | Some roots => mkDFA roots
    | None =>
        if sSize head <? DFA_MAX_ROOTS then
          match dfa_init_chain len symbol 0 len with
          | Some chain => mkDFA (start head ++ [chain])
          | None => head
          end
        else head
    end.

(** The walk of [dfa_match]: [while (idx < len)], [k] being [len - idx]. *)
Fixpoint dfa_walk (k : nat) (node : DFANode) (symbol : text) (idx : nat)
    : bool :=
  match k with
  | 0 => isLeaf node
  | S k' =>
      match find_node (char_at symbol idx) (children node) with
      | None => false
      | Some next => dfa_walk k' next symbol (S idx)
      end
  end.

Definition dfa_match (head : DFA) (symbol : text) (len : nat) : bool :=
  if len =? 0 then false
  else
    match find_node (char_at symbol 0) (start head) with
    | None => false
    | Some node => dfa_walk (len - 1) node symbol 1
    end.

(** The global [kw_dfa] with its build-once flag. *)
Record KwState := mkKwState { kw_dfa : DFA; kw_dfa_built : bool }.

Definition kw_initial : KwState := mkKwState (mkDFA []) false.

Definition build_keyword_dfa (g : KwState) : KwState :=
  if kw_dfa_built g then g
  else mkKwState (fold_left dfa_add_symbol KEYWORDS (mkDFA [])) true.

(** [is_keyword] as the program runs it, on the global state. *)
Definition is_keyword_st (g : KwState) (s : text) (n : nat) : bool * KwState :=
  let g' := build_keyword_dfa g in
  (dfa_match (kw_dfa g') s n, g').

(** The states of the global that a run of the scanner goes through. *)
Inductive kw_reachable : KwState -> Prop :=
| kw_reach_init : kw_reachable kw_initial
| kw_reach_call : forall g s n,
    kw_reachable g -> kw_reachable (snd (is_keyword_st g s n)).

(** The answer of [is_keyword] does not depend on the calls made before
    (see [is_keyword_st_pure]), so the scanner below uses this function. *)
Definition is_keyword (s : text) (n : nat) : bool :=
  fst (is_keyword_st kw_initial s n).

(** ** Word classifiers *)

Definition is_type (s : text) (n : nat) : bool :=
  let c := lowerc (char_at s 0) in
  if ch_eqb c "i" then
    (n =? 3) && ch_eqb (char_at s 1) "n" && ch_eqb (char_at s 2) "t"
  else if ch_eqb c "f" then
    (n =? 5) && ch_eqb (char_at s 1) "l" && ch_eqb (char_at s 2) "o"
    && ch_eqb (char_at s 3) "a" && ch_eqb (char_at s 4) "t"
  else if ch_eqb c "c" then
    (n =? 4) && ch_eqb (char_at s 1) "h" && ch_eqb (char_at s 2) "a"
    && ch_eqb (char_at s 3) "r"
  else if ch_eqb c "b" then
    (n =? 4) && ch_eqb (char_at s 1) "o" && ch_eqb (char_at s 2) "o"
    && ch_eqb (char_at s 3) "l"
  else if ch_eqb c "v" then
    (n =? 4) && ch_eqb (char_at s 1) "o" && ch_eqb (char_at s 2) "i"
    && ch_eqb (char_at s 3) "d"
  else false.

Definition is_noise (s : text) (n : nat) : bool :=
  let c := lowerc (char_at s 0) in
  if ch_eqb c "p" then
    (n =? 6) && ch_eqb (char_at s 1) "l" && ch_eqb (char_at s 2) "e"
    && ch_eqb (char_at s 3) "a" && ch_eqb (char_at s 4) "s"
    && ch_eqb (char_at s 5) "e"
  else if ch_eqb c "t" then
    if (n =? 4) && ch_eqb (char_at s 1) "h" && ch_eqb (char_at s 2) "e"
       && ch_eqb (char_at s 3) "n" then true
    else if (n =? 2) && ch_eqb (char_at s 1) "o" then true
    else false
  else if ch_eqb c "d" then (n =? 2) && ch_eqb (char_at s 1) "o"
  else if ch_eqb c "e" then
    (n =? 3) && ch_eqb (char_at s 1) "n" && ch_eqb (char_at s 2) "d"
  else if ch_eqb c "b" then
    (n =? 5) && ch_eqb (char_at s 1) "e" && ch_eqb (char_at s 2) "g"
    && ch_eqb (char_at s 3) "i" && ch_eqb (char_at s 4) "n"
  else if ch_eqb c "o" then (n =? 2) && ch_eqb (char_at s 1) "f"
  else if ch_eqb c "a" then
    (n =? 3) && ch_eqb (char_at s 1) "n" && ch_eqb (char_at s 2) "d"
  else if ch_eqb c "f" then
    (n =? 4) && ch_eqb (char_at s 1) "r" && ch_eqb (char_at s 2) "o"
    && ch_eqb (char_at s 3) "m"
  else false.

(** [is_bool_lit]: 1 for true, 0 for false, -1 for any other word. *)
Definition is_bool_lit (s : text) (n : nat) : Z :=
  if (n =? 4) && ch_eqb (lowerc (char_at s 0)) "t"
     && ch_eqb (char_at s 1) "r" && ch_eqb (char_at s 2) "u"
     && ch_eqb (char_at s 3) "e" then 1%Z
  else if (n =? 5) && ch_eqb (lowerc (char_at s 0)) "f"
     && ch_eqb (char_at s 1) "a" && ch_eqb (char_at s 2) "l"
     && ch_eqb (char_at s 3) "s" && ch_eqb (char_at s 4) "e" then 0%Z
  else (-1)%Z.

(** [is_word_op]: the flag and the value left in [*out_extra]. *)
Definition is_word_op (s : text) (n : nat) : bool * option text :=
  if n =? 3 then
    let a := lowerc (char_at s 0) in
    let b := lowerc (char_at s 1) in
    let c := lowerc (char_at s 2) in
    if ch_eqb a "d" && ch_eqb b "i" && ch_eqb c "v" then (true, Some (str "DIV"))
    else if ch_eqb a "m" && ch_eqb b "o" && ch_eqb c "d" then (true, Some (str "MOD"))
    else (false, None)
  else (false, None).

(** ** Scanners *)

Definition DQUOTE : ascii := ascii_of_nat 34.
Definition SQUOTE : ascii := "'".
Definition BACKSLASH : ascii := "\".

Definition peek_is (L : Lexer) (c : ascii) : bool :=
  match peek L with Some d => ch_eqb d c | None => false end.

Definition peek_in (p : ascii -> bool) (L : Lexer) : bool :=
  match peek L with Some d => p d | None => false end.

(** The loop of [scan_string]; it runs at most once per unread character. *)
Fixpoint scan_string_loop (n : nat) (L : Lexer) (p : nat) (col0 : Z)
    : Token * Lexer :=
  match n with
  | 0 => (make L TOK_UNKNOWN (Some (str "<unterminated_string>")) 22 None, L)
  | S n' =>
      match peek L with
      | None =>
          (make L TOK_UNKNOWN (Some (str "<unterminated_string>")) 22 None, L)
      | Some c =>
          if ch_eqb c BACKSLASH then
            let L1 := snd (advance L) in
            let L2 := match peek L1 with
                      | Some _ => snd (advance L1)
                      | None => L1
                      end in
            scan_string_loop n' L2 p col0
          else if ch_eqb c DQUOTE then
            let n := pos L - p in
            let t := make L TOK_CONST_STRING (Some (skipn p (buf L))) n None in
            let L1 := snd (advance L) in
            (set_col t col0, L1)
          else if ch_eqb c LF then
            (make L TOK_UNKNOWN (Some (str "<unterminated_string>")) 22 None, L)
          else scan_string_loop n' (snd (advance L)) p col0
      end
  end.

Definition scan_string (L : Lexer) : Token * Lexer :=
  let col0 := col L in
  let L1 := snd (advance L) in
  let p := pos L1 in
  scan_string_loop (remaining L1) L1 p col0.

Definition scan_char (L : Lexer) : Token * Lexer :=
  let col0 := col L in
  let L1 := snd (advance L) in
  let '(c, L2) := advance L1 in
  let L3 := match c with
            | Some d => if ch_eqb d BACKSLASH then snd (advance L2) else L2
            | None => L2
            end in
  if peek_is L3 SQUOTE then
    let L4 := snd (advance L3) in
    (set_col (make L4 TOK_CONST_CHAR (Some (str "<char>")) 6 None) col0, L4)
  else (make L3 TOK_UNKNOWN (Some (str "<unterminated_char>")) 20 None, L3).

Definition scan_number (L : Lexer) : Token * Lexer :=
  let start := pos L in
  let col0 := col L in
  let L1 := advance_while isdigit (remaining L) L in
  if peek_is L1 "." then
    let L2 := snd (advance L1) in
    if negb (peek_in isdigit L2) then
      (make L2 TOK_UNKNOWN (Some (str "<bad_float>")) 10 None, L2)
    else
      let L3 := advance_while isdigit (remaining L2) L2 in
      let n := pos L3 - start in
      (set_col (make L3 TOK_CONST_FLOAT (Some (skipn start (buf L3))) n None)
         col0, L3)
  else
    let n := pos L1 - start in
    (set_col (make L1 TOK_CONST_INT (Some (skipn start (buf L1))) n None)
       col0, L1).

Definition is_word_char (c : ascii) : bool := isalnum c || ch_eqb c "_".

Definition scan_identifier_or_keyword (L : Lexer) : Token * Lexer :=
  let start := pos L in
  let col0 := col L in
  let L0 := snd (advance L) in
  let L1 := advance_while is_word_char (remaining L0) L0 in
  let n := pos L1 - start in
  let s := skipn start (buf L1) in
  let b := is_bool_lit s n in
  if negb (b =? -1)%Z then
    (set_col (make L1 TOK_CONST_BOOL (Some s) n None) col0, L1)
  else
    let '(wop, extra) := is_word_op s n in
    if wop then (set_col (make L1 TOK_OP_ARITH (Some s) n extra) col0, L1)
    else if is_type s n then
      (set_col (make L1 TOK_RESERVED_TYPE (Some s) n None) col0, L1)
    else if is_keyword s n then
      (set_col (make L1 TOK_KEYWORD (Some s) n None) col0, L1)
    else if is_noise s n then
      (set_col (make L1 TOK_NOISE (Some s) n None) col0, L1)
    else (set_col (make L1 TOK_IDENTIFIER (Some s) n None) col0, L1).

Definition not_newline (c : ascii) : bool := negb (ch_eqb c LF).

(** The loop of a block comment: [while ((cur = advance(L)) != EOF)]. *)
Fixpoint block_comment_loop (n : nat) (L : Lexer) (prev : ascii) (col0 : Z)
    : Token * Lexer :=
  match advance L with
  | (None, L1) =>
      (make L1 TOK_UNKNOWN (Some (str "<unterminated_comment>")) 22 None, L1)
  | (Some cur, L1) =>
      if ch_eqb prev "*" && ch_eqb cur "/" then
        (set_col (make L1 TOK_COMMENT (Some (str "/* */")) 5 None) col0, L1)
      else
        match n with
        | 0 => (make L1 TOK_UNKNOWN (Some (str "<unterminated_comment>")) 22 None, L1)
        | S n' => block_comment_loop n' L1 cur col0
        end
  end.

Definition scan_slash_comment_or_op (L : Lexer) : Token * Lexer :=
  let col0 := col L in
  let '(m1, L1) := match_ L "/" in
  if m1 then
    let '(m2, L2) := match_ L1 "/" in
    if m2 then
      let L3 := advance_while not_newline (remaining L2) L2 in
      (set_col (make L3 TOK_COMMENT (Some (str "//")) 2 None) col0, L3)
    else
      let '(m3, L3) := match_ L2 "*" in
      if m3 then block_comment_loop (remaining L3) L3 NUL col0
      else
        (set_col (make L3 TOK_OP_ARITH (Some (str "/")) 1 (Some (str "/"))) col0,
         L3)
  else
    let '(c, L2) := advance L1 in
    let s2 := match c with Some d => [d; NUL] | None => [ascii_of_nat 255; NUL] end in
    (make L2 TOK_UNKNOWN (Some s2) 1 None, L2).

Definition scan_operator (L : Lexer) : Token * Lexer :=
  let col0 := col L in
  let '(oc, L1) := advance L in
  let c := match oc with Some d => d | None => ascii_of_nat 255 end in
  let try2 (first second : ascii) (ty : TokenType) (s : text)
           (otherwise : Token * Lexer) : Token * Lexer :=
      if ch_eqb c first then
        let '(m, L2) := match_ L1 second in
        if m then (set_col (make L2 ty (Some s) 2 (Some s)) col0, L2)
        else otherwise
      else otherwise in
  let s2 := [c; NUL] in
  try2 "=" "=" TOK_OP_REL (str "==")
  (try2 "!" "=" TOK_OP_REL (str "!=")
  (try2 "<" "=" TOK_OP_REL (str "<=")
  (try2 ">" "=" TOK_OP_REL (str ">=")
  (try2 "&" "&" TOK_OP_LOGIC (str "&&")
  (try2 "|" "|" TOK_OP_LOGIC (str "||")
  (try2 "*" "*" TOK_OP_ARITH (str "**")
  (if ch_eqb c "=" then
     (set_col (make L1 TOK_ASSIGN (Some (str "=")) 1 (Some (str "="))) col0, L1)
   else if ch_eqb c "+" || ch_eqb c "-" || ch_eqb c "*" || ch_eqb c "/"
           || ch_eqb c "%" then
     (set_col (make L1 TOK_OP_ARITH (Some s2) 1 (Some s2)) col0, L1)
   else if ch_eqb c "<" || ch_eqb c ">" then
     (set_col (make L1 TOK_OP_REL (Some s2) 1 (Some s2)) col0, L1)
   else if ch_eqb c "!" then
     (set_col (make L1 TOK_OP_LOGIC (Some (str "!")) 1 (Some (str "!"))) col0, L1)
   else (make L1 TOK_UNKNOWN (Some s2) 1 None, L1)))))))).

Definition is_delim (c : ascii) : bool :=
  ch_eqb c ";" || ch_eqb c "," || ch_eqb c ":" || ch_eqb c ".".

Definition is_bracket (c : ascii) : bool :=
  ch_eqb c "(" || ch_eqb c ")" || ch_eqb c "{" || ch_eqb c "}"
  || ch_eqb c "[" || ch_eqb c "]".

Definition next_token (L0 : Lexer) : Token * Lexer :=
  let L := skip_ws L0 in
  match peek L with
  | None => (make L TOK_EOF None 0 None, L)
  | Some c =>
      if is_delim c then
        let L1 := snd (advance L) in
        (make L1 TOK_DELIM (Some [c; NUL]) 1 (Some [c; NUL]), L1)
      else if is_bracket c then
        let L1 := snd (advance L) in
        (make L1 TOK_BRACKET (Some [c; NUL]) 1 (Some [c; NUL]), L1)
      else if isalpha c || ch_eqb c "_" then scan_identifier_or_keyword L
      else if isdigit c then scan_number L
      else if ch_eqb c DQUOTE then scan_string L
      else if ch_eqb c SQUOTE then scan_char L
      else if ch_eqb c "/" then scan_slash_comment_or_op L
      else if ch_eqb c "*" || ch_eqb c "+" || ch_eqb c "-" || ch_eqb c "%"
              || ch_eqb c "=" || ch_eqb c "<" || ch_eqb c ">" || ch_eqb c "!"
              || ch_eqb c "&" || ch_eqb c "|" then scan_operator L
      else
        let L1 := snd (advance L) in
        (make L1 TOK_UNKNOWN (Some [c; NUL]) 1 None, L1)
  end.

(** The scanning loop of [main]: call [next_token] until it returns the
    [eof] token.  [n] bounds the number of calls; [None] would mean that
    the bound was reached before [eof]. *)
Fixpoint scan_loop (n : nat) (L : Lexer) : option (list Token) :=
  match n with
  | 0 => None
  | S n' =>
      let '(t, L') := next_token L in
      if TokenType_eqb (type t) TOK_EOF then Some [t]
      else option_map (cons t) (scan_loop n' L')
  end.

Definition initial_lexer (b : text) : Lexer := mkLexer b 0 1 1.

Definition scan_tokens (b : text) : option (list Token) :=
  scan_loop (S (length b)) (initial_lexer b).

(** ** The symbol table written by the scanner *)

Definition tname (t : TokenType) : text :=
  match t with
  | TOK_IDENTIFIER => str "identifier"
  | TOK_KEYWORD => str "keyword"
  | TOK_RESERVED_TYPE => str "type"
  | TOK_CONST_INT => str "const_int"
  | TOK_CONST_FLOAT => str "const_float"
  | TOK_CONST_CHAR => str "const_char"
  | TOK_CONST_STRING => str "const_string"
  | TOK_CONST_BOOL => str "const_bool"
  | TOK_OP_ARITH => str "operator"
  | TOK_OP_REL => str "operator"
  | TOK_OP_LOGIC => str "operator"
  | TOK_ASSIGN => str "operator"
  | TOK_DELIM => str "punctuator"
  | TOK_BRACKET => str "punctuator"
  | TOK_COMMENT => str "comment"
  | TOK_NOISE => str "noise"
  | TOK_UNKNOWN => str "unknown"
  | TOK_EOF => str "eof"
  end.

(** The conversion [%-ws] of [fprintf]: the C string, then blanks up to
    the width [w]; a longer string is printed whole. *)
Definition pad_right (w : nat) (s : text) : text :=
  cstr s ++ repeat " "%char (w - length (cstr s)).

Definition border : text :=
  str "+----------------------+------------------+" ++ [LF].

Definition table_line (lex tok : text) : text :=
  str "| " ++ pad_right 20 lex ++ str " | " ++ pad_right 16 tok ++ str " |"
  ++ [LF].

Definition write_head (src : text) : text :=
  str "Source: " ++ cstr src ++ [LF]
  ++ border ++ table_line (str "Lexeme") (str "Token") ++ border.

(** [write_row]: a lexeme of more than 20 characters is clipped to its
    first 19 characters and a dot. *)
Definition write_row (lex tok : text) : text :=
  let n := length (cstr lex) in
  let lex := if 20 <? n then firstn 19 (cstr lex) ++ ["."%char] else lex in
  table_line lex tok.

Definition write_foot : text := border.

(** The text of the left column: the subtype label when there is a
    non-empty one, else the lexeme, else the empty string. *)
Definition shown (t : Token) : text :=
  match extra t with
  | Some e =>
      match cstr e with
      | _ :: _ => e
      | [] => match lexeme t with Some s => s | None => [] end
      end
  | None => match lexeme t with Some s => s | None => [] end
  end.

(** What [main] writes to [SymbolTable.txt] for the tokens it scanned. *)
Definition symbol_table (src : text) (toks : list Token) : text :=
  write_head src
  ++ List.concat (map (fun t => write_row (shown t) (tname (type t))) toks)
  ++ write_foot.

Definition ends_with_ksh (name : text) : bool :=
  let n := length (cstr name) in
  if n <? 4 then false
  else ch_eqb (char_at name (n - 4)) "." && ch_eqb (char_at name (n - 3)) "k"
       && ch_eqb (char_at name (n - 2)) "s" && ch_eqb (char_at name (n - 1)) "h".

(** [main] of the scanner on the path [path] and the contents [file] of
    that file: the exit code and the table written. *)
Definition scanner_main (path file : text) : Z * option text :=
  if negb (ends_with_ksh path) then (1%Z, None)
  else
    match scan_tokens file with
    | Some toks => (0%Z, Some (symbol_table path toks))
    | None => (0%Z, None)
    end.

(** ** The syntax analyzer: string helpers, token stream, loader *)

Module Syntax.

Definition MAX_LEXEME : nat := 128.
Definition MAX_TOKENS : nat := 2000.
Definition MAX_LINE : nat := 512.

(** The helpers compare C strings; every text they receive here is the
    content of a C string, so the end of the list is the terminator. *)
Fixpoint str_eq (a b : text) : bool :=
  match a, b with
  | x :: a', y :: b' => if ch_eqb x y then str_eq a' b' else false
  | [], [] => true
  | _, _ => false
  end.

Fixpoint str_starts_with (s prefix : text) {struct prefix} : bool :=
  match prefix with
  | [] => true
  | p :: prefix' =>
      match s with
      | [] => false
      | c :: s' => if ch_eqb c p then str_starts_with s' prefix' else false
      end
  end.

(** [str_contains]: the inner loop compares [sub] with the text at [i] and
    succeeds when it reaches the end of [sub], that is when [sub] is a
    prefix of the text at [i]. *)
Fixpoint str_contains (s sub : text) : bool :=
  match sub with
  | [] => true
  | _ :: _ =>
      match s with
      | [] => false
      | _ :: s' => if str_starts_with s sub then true else str_contains s' sub
      end
  end.

Inductive ParserTokKind :=
| PT_KEYWORD | PT_IDENTIFIER | PT_TYPE | PT_INTCONST | PT_FLOATCONST
| PT_CHARCONST | PT_BOOLCONST | PT_OPERATOR | PT_SYMBOL | PT_COMMENT
| PT_NOISE | PT_EOF | PT_UNKNOWN.

Definition kind_eqb (a b : ParserTokKind) : bool :=
  match a, b with
  | PT_KEYWORD, PT_KEYWORD | PT_IDENTIFIER, PT_IDENTIFIER | PT_TYPE, PT_TYPE
  | PT_INTCONST, PT_INTCONST | PT_FLOATCONST, PT_FLOATCONST
  | PT_CHARCONST, PT_CHARCONST | PT_BOOLCONST, PT_BOOLCONST
  | PT_OPERATOR, PT_OPERATOR | PT_SYMBOL, PT_SYMBOL | PT_COMMENT, PT_COMMENT
  | PT_NOISE, PT_NOISE | PT_EOF, PT_EOF | PT_UNKNOWN, PT_UNKNOWN => true
  | _, _ => false
  end.

Record ParserToken := mkParserToken {
  kind : ParserTokKind;
  lexeme : text
}.

(** [trim]: the length left by the first loop, which cuts the blanks at
    the right end. *)
Fixpoint rtrim_len (len : nat) (s : text) : nat :=
  match len with
  | 0 => 0
  | S l =>
      let c := char_at s l in
      if ch_eqb c LF || ch_eqb c CR || isspace c then rtrim_len l s else S l
  end.

(** The index [start] found by the second loop. *)
Fixpoint ltrim_start (s : text) : nat :=
  match s with
  | c :: r => if isspace c then S (ltrim_start r) else 0
  | [] => 0
  end.

Definition trim (s : text) : text :=
  let s0 := cstr s in
  let s1 := firstn (rtrim_len (length s0) s0) s0 in
  let start := ltrim_start s1 in
  if 0 <? start then skipn start s1 else s1.

Definition map_kind (kind : text) : ParserTokKind :=
  if str_eq kind (str "keyword") then PT_KEYWORD
  else if str_eq kind (str "identifier") then PT_IDENTIFIER
  else if str_eq kind (str "type") then PT_TYPE
  else if str_eq kind (str "const_int") then PT_INTCONST
  else if str_eq kind (str "const_float") then PT_FLOATCONST
  else if str_eq kind (str "const_char") then PT_CHARCONST
  else if str_eq kind (str "const_bool") then PT_BOOLCONST
  else if str_eq kind (str "operator") then PT_OPERATOR
  else if str_eq kind (str "punctuator") then PT_SYMBOL
  else if str_eq kind (str "comment") then PT_COMMENT
  else if str_eq kind (str "noise") then PT_NOISE
  else if str_eq kind (str "eof") then PT_EOF
  else PT_UNKNOWN.

(** [fgets(line, n + 1, fp)] on the unread part [fp] of the file: the
    characters stored, up to [n] of them and up to the first newline
    included, and the part left unread. *)
Fixpoint fgets (n : nat) (fp : text) : text * text :=
  match n, fp with
  | 0, _ => ([], fp)
  | _, [] => ([], [])
  | S n', c :: r =>
      if ch_eqb c LF then ([c], r)
      else let '(l, r') := fgets n' r in (c :: l, r')
  end.

(** The white-space directive of [sscanf]. *)
Fixpoint skip_space (s : text) : text :=
  match s with
  | c :: r => if isspace c then skip_space r else s
  | [] => []
  end.

(** The conversion [%n[^|]] of [sscanf]: up to [n] characters other than
    the bar, and the input left. *)
Fixpoint scanset (n : nat) (s : text) : text * text :=
  match n, s with
  | S n', c :: r =>
      if ch_eqb c "|" then ([], s)
      else let '(f, r') := scanset n' r in (c :: f, r')
  | _, _ => ([], s)
  end.

(** [sscanf(line, "| %127[^|]| %127[^|]|", rawLex, rawKind)]: the two
    fields when the call returns 2, [None] otherwise.  A conversion that
    matches no character stops the call. *)
Definition sscanf_row (line : text) : option (text * text) :=
  match line with
  | "|"%char :: r0 =>
      let '(rawLex, r1) := scanset 127 (skip_space r0) in
      match rawLex, r1 with
      | _ :: _, "|"%char :: r2 =>
          let '(rawKind, _) := scanset 127 (skip_space r2) in
          match rawKind with
          | _ :: _ => Some (rawLex, rawKind)
          | [] => None
          end
      | _, _ => None
      end
  | _ => None
  end.

(** The body of the reading loop for one line; [toks] are the tokens
    stored so far, [g_tok_count] is their number. *)
Definition load_line (line0 : text) (toks : list ParserToken)
    : list ParserToken :=
  let line := trim line0 in
  match line with
  | [] => toks
  | c0 :: _ =>
      if str_starts_with line (str "Source:") then toks
      else if ch_eqb c0 "+" || ch_eqb c0 "-" then toks
      else if str_contains line (str "Lexeme") && str_contains line (str "Token")
      then toks
      else if negb (ch_eqb c0 "|") then toks
      else
        match sscanf_row line with
        | None => toks
        | Some (rawLex, rawKind) =>
            let rawLex := trim rawLex in
            let rawKind := trim rawKind in
            let pk := map_kind rawKind in
            if length toks <? MAX_TOKENS then
              toks ++ [mkParserToken pk (firstn (MAX_LEXEME - 1) rawLex)]
            else toks
        end
  end.

(** [while (fgets(line, sizeof(line), fp))]: one line per iteration; a
    call of [fgets] on a non-empty rest reads at least one character, so
    the length of the file bounds the iterations. *)
Fixpoint load_loop (n : nat) (fp : text) (toks : list ParserToken)
    : list ParserToken :=
  match n, fp with
  | S n', _ :: _ =>
      let '(line, fp') := fgets (MAX_LINE - 1) fp in
      load_loop n' fp' (load_line line toks)
  | _, _ => toks
  end.

Definition eof_token : ParserToken := mkParserToken PT_EOF (str "EOF").

(** The end of the loader: an [eof] token is stored in the next slot when
    the last stored token is not one.  This store is not guarded by the
    capacity: after [MAX_TOKENS] rows the slot is [g_tokens[MAX_TOKENS]],
    past the end of the array.  The list keeps that token as its element
    [MAX_TOKENS]; a list of more than [MAX_TOKENS] tokens stands for a run
    that has written outside the array, of which nothing more is said. *)
Definition append_eof (toks : list ParserToken) : list ParserToken :=
  match last (map (fun t => Some (kind t)) toks) None with
  | Some PT_EOF => toks
  | _ => toks ++ [eof_token]
  end.

(** [load_tokens_from_symbol_table]: [file] is the contents of the table
    file, [None] when it cannot be opened.  The result is the value
    returned, [g_tok_count], and the tokens stored in [g_tokens]. *)
Definition load_tokens_from_symbol_table (file : option text)
    : Z * list ParserToken :=
  match file with
  | None => (0%Z, [])
  | Some fp =>
      let toks := append_eof (load_loop (length fp) fp []) in
      (Z.of_nat (length toks), toks)
  end.

(** ** The syntax analyzer: parser state *)

(** The parse tree is printed while parsing; the model keeps the tags in
    the order they are printed (indentation and blank lines are left out). *)
Inductive Event :=
| Open (name : text)
| Close (name : text)
| Leaf (name : text) (content : text).

(** The globals of the parser.  [g_tok_count] is the number of tokens in
    [g_tokens]; [diagnostics] are the lines written to [stderr]. *)
Record PState := mkPState {
  g_tokens : list ParserToken;
  g_tok_index : Z;
  g_error : bool;
  diagnostics : list (text * text);
  trace : list Event
}.

Definition g_tok_count (st : PState) : Z := Z.of_nat (length (g_tokens st)).

(** The outcome of a run: a value and the new state; or the bound on the
    number of calls and iterations was reached; or a token was read
    outside [g_tokens[0 .. g_tok_count - 1]]. *)
Inductive Res (A : Type) :=
| Ok (a : A) (st : PState)
| OutOfFuel
| BadRead.

Arguments Ok {A} a st.
Arguments OutOfFuel {A}.
Arguments BadRead {A}.

Definition M (A : Type) : Type := PState -> Res A.

Definition ret {A : Type} (a : A) : M A := fun st => Ok a st.

Definition bind {A B : Type} (c : M A) (k : A -> M B) : M B :=
  fun st =>
    match c st with
    | Ok a st' => k a st'
    | OutOfFuel => OutOfFuel
    | BadRead => BadRead
    end.

Declare Scope parser_scope.
Delimit Scope parser_scope with parser.
Notation "x <- c ;; k" := (bind c (fun x => k))
  (at level 61, c at next level, right associativity) : parser_scope.
Notation "c ;; k" := (bind c (fun _ => k))
  (at level 61, right associativity) : parser_scope.
Local Open Scope parser_scope.

Definition out_of_fuel {A : Type} : M A := fun _ => OutOfFuel.

Definition emit (e : Event) : M unit :=
  fun st =>
    Ok tt (mkPState (g_tokens st) (g_tok_index st) (g_error st)
             (diagnostics st) (trace st ++ [e])).

Definition open_tag (name : text) : M unit := emit (Open name).
Definition close_tag (name : text) : M unit := emit (Close name).
Definition leaf_tag (name content : text) : M unit := emit (Leaf name content).

(** A read of [g_tokens[i]]. *)
Definition token_at (st : PState) (i : Z) : option ParserToken :=
  if (i <? 0)%Z || (g_tok_count st <=? i)%Z then None
  else nth_error (g_tokens st) (Z.to_nat i).

Definition cur_tok : M ParserToken :=
  fun st =>
    let i := if (g_tok_index st >=? g_tok_count st)%Z
             then (g_tok_count st - 1)%Z
             else g_tok_index st in
    match token_at st i with
    | Some t => Ok t st
    | None => BadRead
    end.

Definition next_tok : M unit :=
  fun st =>
    if (g_tok_index st <? g_tok_count st - 1)%Z then
      Ok tt (mkPState (g_tokens st) (g_tok_index st + 1)%Z (g_error st)
               (diagnostics st) (trace st))
    else Ok tt st.

Definition syntax_error (msg : text) : M unit :=
  t <- cur_tok ;;
  fun st =>
    let near := match lexeme t with [] => str "(EOF)" | _ :: _ => lexeme t end in
    Ok tt (mkPState (g_tokens st) (g_tok_index st) true
             (diagnostics st ++ [(msg, near)]) (trace st)).

Definition is_symbol (t : ParserToken) (sym : text) : bool :=
  kind_eqb (kind t) PT_SYMBOL && str_eq (lexeme t) sym.

Definition is_operator (t : ParserToken) (op : text) : bool :=
  kind_eqb (kind t) PT_OPERATOR && str_eq (lexeme t) op.

Definition is_keyword_tok (t : ParserToken) (kw : text) : bool :=
  kind_eqb (kind t) PT_KEYWORD && str_eq (lexeme t) kw.

(** [panic_recover]: skip to the next semicolon, right brace or [eof]. *)
Fixpoint panic_recover (fuel : nat) : M unit :=
  match fuel with
  | 0 => out_of_fuel
  | S f =>
      t <- cur_tok ;;
      if negb (kind_eqb (kind t) PT_EOF) then
        if is_symbol t (str ";") || is_symbol t (str "}") then next_tok
        else next_tok ;; panic_recover f
      else ret tt
  end.

Definition accept_symbol (sym : text) : M bool :=
  t <- cur_tok ;;
  if is_symbol t sym then
    leaf_tag (str "symbol") (lexeme t) ;; next_tok ;; ret true
  else ret false.

Definition expect_symbol (fuel : nat) (sym errmsg : text) : M unit :=
  ok <- accept_symbol sym ;;
  if ok then ret tt else syntax_error errmsg ;; panic_recover fuel.

(** ** The syntax analyzer: productions *)

Definition parse_decl_stmt (fuel : nat) : M unit :=
  open_tag (str "declStatement") ;;
  t <- cur_tok ;;
  leaf_tag (str "type") (lexeme t) ;;
  next_tok ;;
  t <- cur_tok ;;
  (if kind_eqb (kind t) PT_IDENTIFIER then
     leaf_tag (str "identifier") (lexeme t) ;; next_tok
   else syntax_error (str "Expected identifier after type")) ;;
  expect_symbol fuel (str ";") (str "Missing ';' after declaration") ;;
  close_tag (str "declStatement").

Definition parse_input_stmt (fuel : nat) : M unit :=
  open_tag (str "inputStatement") ;;
  t <- cur_tok ;;
  leaf_tag (str "keyword") (lexeme t) ;;
  next_tok ;;
  t <- cur_tok ;;
  (if kind_eqb (kind t) PT_IDENTIFIER then
     leaf_tag (str "identifier") (lexeme t) ;; next_tok
   else syntax_error (str "Expected identifier after 'input'")) ;;
  expect_symbol fuel (str ";") (str "Missing ';' after input statement") ;;
  close_tag (str "inputStatement").

Definition is_relop (op : text) : bool :=
  str_eq op (str "==") || str_eq op (str "!=") || str_eq op (str "<")
  || str_eq op (str "<=") || str_eq op (str ">") || str_eq op (str ">=").

Definition is_add_op (t : ParserToken) : bool :=
  kind_eqb (kind t) PT_OPERATOR
  && (str_eq (lexeme t) (str "+") || str_eq (lexeme t) (str "-")
      || str_eq (lexeme t) (str "||")).

Definition is_mul_op (t : ParserToken) : bool :=
  kind_eqb (kind t) PT_OPERATOR
  && (str_eq (lexeme t) (str "*") || str_eq (lexeme t) (str "/")
      || str_eq (lexeme t) (str "%") || str_eq (lexeme t) (str "&&")).

Definition is_constant (t : ParserToken) : bool :=
  kind_eqb (kind t) PT_INTCONST || kind_eqb (kind t) PT_FLOATCONST
  || kind_eqb (kind t) PT_CHARCONST || kind_eqb (kind t) PT_BOOLCONST.

(** The productions call one another; [fuel] bounds the depth of the
    calls and the iterations of the loops, and [OutOfFuel] is the outcome
    of a run that would go beyond it. *)
Fixpoint parse_expression (fuel : nat) : M unit :=
  match fuel with
  | 0 => out_of_fuel
  | S f =>
      open_tag (str "relExpression") ;;
      parse_simple_expr f ;;
      t <- cur_tok ;;
      (if kind_eqb (kind t) PT_OPERATOR && is_relop (lexeme t) then
         leaf_tag (str "symbol") (lexeme t) ;; next_tok ;; parse_simple_expr f
       else ret tt) ;;
      close_tag (str "relExpression")
  end

with parse_simple_expr (fuel : nat) : M unit :=
  match fuel with
  | 0 => out_of_fuel
  | S f =>
      open_tag (str "simpleExpression") ;;
      parse_term f ;;
      parse_simple_expr_loop f ;;
      close_tag (str "simpleExpression")
  end

(** The loop of [parse_simple_expr] over the additive operators. *)
with parse_simple_expr_loop (fuel : nat) : M unit :=
  match fuel with
  | 0 => out_of_fuel
  | S f =>
      t <- cur_tok ;;
      if is_add_op t then
        leaf_tag (str "symbol") (lexeme t) ;;
        next_tok ;;
        parse_term f ;;
        parse_simple_expr_loop f
      else ret tt
  end

with parse_term (fuel : nat) : M unit :=
  match fuel with
  | 0 => out_of_fuel
  | S f =>
      open_tag (str "term") ;;
      parse_factor f ;;
      parse_term_loop f ;;
      close_tag (str "term")
  end

(** The loop of [parse_term] over the multiplicative operators. *)
with parse_term_loop (fuel : nat) : M unit :=
  match fuel with
  | 0 => out_of_fuel
  | S f =>
      t <- cur_tok ;;
      if is_mul_op t then
        leaf_tag (str "symbol") (lexeme t) ;;
        next_tok ;;
        parse_factor f ;;
        parse_term_loop f
      else ret tt
  end

with parse_factor (fuel : nat) : M unit :=
  match fuel with
  | 0 => out_of_fuel
  | S f =>
      t <- cur_tok ;;
      if is_symbol t (str "(") then
        leaf_tag (str "symbol") (str "(") ;;
        next_tok ;;
        open_tag (str "expression") ;;
        parse_expression f ;;
        close_tag (str "expression") ;;
        t' <- cur_tok ;;
        if is_symbol t' (str ")") then
          leaf_tag (str "symbol") (str ")") ;; next_tok
        else syntax_error (str "Missing ')' after grouped expression")
      else if kind_eqb (kind t) PT_IDENTIFIER then
        leaf_tag (str "identifier") (lexeme t) ;; next_tok
      else if is_constant t then
        leaf_tag (str "literal") (lexeme t) ;; next_tok
      else
        syntax_error (str "Expected identifier, literal, or '(' in expression") ;;
        panic_recover f
  end.

Definition parse_print_stmt (fuel : nat) : M unit :=
  open_tag (str "printStatement") ;;
  t <- cur_tok ;;
  leaf_tag (str "keyword") (lexeme t) ;;
  next_tok ;;
  open_tag (str "expression") ;;
  parse_expression fuel ;;
  close_tag (str "expression") ;;
  expect_symbol fuel (str ";") (str "Missing ';' after print statement") ;;
  close_tag (str "printStatement").

Definition parse_assign_stmt (fuel : nat) : M unit :=
  open_tag (str "assignStatement") ;;
  t <- cur_tok ;;
  (if kind_eqb (kind t) PT_IDENTIFIER then
     leaf_tag (str "identifier") (lexeme t) ;; next_tok
   else syntax_error (str "Expected identifier at start of assignment")) ;;
  t <- cur_tok ;;
  (if is_operator t (str "=") then
     leaf_tag (str "symbol") (str "=") ;; next_tok
   else syntax_error (str "Expected '=' in assignment")) ;;
  open_tag (str "expression") ;;
  parse_expression fuel ;;
  close_tag (str "expression") ;;
  expect_symbol fuel (str ";") (str "Missing ';' after assignment") ;;
  close_tag (str "assignStatement").

Definition parse_assign_no_semicolon (fuel : nat) : M unit :=
  open_tag (str "assignUpdate") ;;
  t <- cur_tok ;;
  if kind_eqb (kind t) PT_IDENTIFIER then
    leaf_tag (str "identifier") (lexeme t) ;;
    next_tok ;;
    t <- cur_tok ;;
    if is_operator t (str "=") then
      leaf_tag (str "symbol") (str "=") ;;
      next_tok ;;
      open_tag (str "expression") ;;
      parse_expression fuel ;;
      close_tag (str "expression") ;;
      close_tag (str "assignUpdate")
    else
      syntax_error (str "Expected '=' in for-update") ;;
      close_tag (str "assignUpdate")
  else
    syntax_error (str "Expected identifier in for-update") ;;
    close_tag (str "assignUpdate").

Fixpoint parse_statement (fuel : nat) : M unit :=
  match fuel with
  | 0 => out_of_fuel
  | S f =>
      t <- cur_tok ;;
      if kind_eqb (kind t) PT_TYPE then parse_decl_stmt f
      else if is_keyword_tok t (str "input") then parse_input_stmt f
      else if is_keyword_tok t (str "print") || is_keyword_tok t (str "writeln")
      then parse_print_stmt f
      else if is_keyword_tok t (str "if") then parse_if_stmt f
      else if is_keyword_tok t (str "while") then parse_while_stmt f
      else if is_keyword_tok t (str "for") then parse_for_stmt f
      else if kind_eqb (kind t) PT_IDENTIFIER then parse_assign_stmt f
      else
        syntax_error (str "Unexpected token at start of statement") ;;
        panic_recover f
  end

with parse_block (fuel : nat) : M unit :=
  match fuel with
  | 0 => out_of_fuel
  | S f =>
      t <- cur_tok ;;
      if is_symbol t (str "{") then
        leaf_tag (str "symbol") (str "{") ;;
        next_tok ;;
        open_tag (str "statements") ;;
        parse_block_loop f ;;
        close_tag (str "statements") ;;
        expect_symbol f (str "}") (str "Missing '}' at end of block")
      else parse_statement f
  end

(** The loop of [parse_block] over the statements between the braces. *)
with parse_block_loop (fuel : nat) : M unit :=
  match fuel with
  | 0 => out_of_fuel
  | S f =>
      t <- cur_tok ;;
      if negb (kind_eqb (kind t) PT_EOF) && negb (is_symbol t (str "}")) then
        parse_statement f ;; parse_block_loop f
      else ret tt
  end

with parse_if_stmt (fuel : nat) : M unit :=
  match fuel with
  | 0 => out_of_fuel
  | S f =>
      open_tag (str "ifStatement") ;;
      t <- cur_tok ;;
      leaf_tag (str "keyword") (lexeme t) ;;
      next_tok ;;
      expect_symbol f (str "(") (str "Expected '(' after 'if'") ;;
      open_tag (str "expression") ;;
      parse_expression f ;;
      close_tag (str "expression") ;;
      expect_symbol f (str ")") (str "Expected ')' after condition") ;;
      parse_block f ;;
      t <- cur_tok ;;
      (if is_keyword_tok t (str "else") then
         leaf_tag (str "keyword") (str "else") ;; next_tok ;; parse_block f
       else ret tt) ;;
      close_tag (str "ifStatement")
  end

with parse_while_stmt (fuel : nat) : M unit :=
  match fuel with
  | 0 => out_of_fuel
  | S f =>
      open_tag (str "whileStatement") ;;
      t <- cur_tok ;;
      leaf_tag (str "keyword") (lexeme t) ;;
      next_tok ;;
      expect_symbol f (str "(") (str "Expected '(' after 'while'") ;;
      open_tag (str "expression") ;;
      parse_expression f ;;
      close_tag (str "expression") ;;
      expect_symbol f (str ")") (str "Expected ')' after while condition") ;;
      parse_block f ;;
      close_tag (str "whileStatement")
  end

with parse_for_stmt (fuel : nat) : M unit :=
  match fuel with
  | 0 => out_of_fuel
  | S f =>
      open_tag (str "forStatement") ;;
      t <- cur_tok ;;
      leaf_tag (str "keyword") (lexeme t) ;;
      next_tok ;;
      expect_symbol f (str "(") (str "Expected '(' after 'for'") ;;
      open_tag (str "forInit") ;;
      parse_assign_stmt f ;;
      close_tag (str "forInit") ;;
      open_tag (str "forCondition") ;;
      parse_expression f ;;
      close_tag (str "forCondition") ;;
      expect_symbol f (str ";") (str "Missing ';' in for condition") ;;
      open_tag (str "forUpdate") ;;
      parse_assign_no_semicolon f ;;
      close_tag (str "forUpdate") ;;
      expect_symbol f (str ")") (str "Expected ')' after for header") ;;
      parse_block f ;;
      close_tag (str "forStatement")
  end.

(** [parse_stmt_list]: the value returned is the number of iterations the
    loop made; the program does not compute it. *)
Fixpoint parse_stmt_list (fuel : nat) : M nat :=
  match fuel with
  | 0 => out_of_fuel
  | S f =>
      t <- cur_tok ;;
      if negb (kind_eqb (kind t) PT_EOF) then
        parse_statement f ;;
        n <- parse_stmt_list f ;;
        ret (S n)
      else ret 0
  end.

Definition parse_program (fuel : nat) : M nat :=
  open_tag (str "program") ;;
  n <- parse_stmt_list fuel ;;
  close_tag (str "program") ;;
  ret n.

Definition initial_state (toks : list ParserToken) : PState :=
  mkPState toks 0 false [] [].

(** [main] of the syntax analyzer: the exit code and the final state. *)
Definition main (fuel : nat) (file : option text) : Res Z :=
  let '(n, toks) := load_tokens_from_symbol_table file in
  if (n =? 0)%Z then Ok 1%Z (initial_state toks)
  else
    (parse_program fuel ;;
     t <- cur_tok ;;
     (if negb (kind_eqb (kind t) PT_EOF)
      then syntax_error (str "Unexpected extra code after program")
      else ret tt) ;;
     ret 0%Z) (initial_state toks).

End Syntax.

(** * Part II. Vocabulary of the statements *)

(** The cursor never moves backward, never changes the buffer and never
    passes the end of the buffer. *)
Definition forward (L L' : Lexer) : Prop :=
  buf L' = buf L /\ pos L <= pos L' /\ pos L' <= Nat.max (pos L) (len L).

Definition forward1 (L L' : Lexer) : Prop :=
  buf L' = buf L /\ pos L < pos L' /\ pos L' <= len L.

(** [at_cursor L pre rest]: the cursor of [L] splits its buffer into the
    characters read, [pre], and the characters unread, [rest]. *)
Definition at_cursor (L : Lexer) (pre rest : text) : Prop :=
  buf L = pre ++ rest /\ pos L = length pre.

(** A source in Latin-1: the letter [a], the byte 255 and the letter
    [b]. *)
Definition latin1_source : text := str "a" ++ EOF_BYTE :: str "b".

(** A block comment in Latin-1, with the byte 255 in front of a word. *)
Definition latin1_comment : text := str "/*" ++ EOF_BYTE :: str " key */".

(** A byte that is read as itself, not as [EOF]. *)
Definition plain (c : ascii) : bool := negb (ch_eqb c EOF_BYTE).

(** What [peek] shows in front of [rest]. *)
Definition head_int (rest : text) : option ascii :=
  match rest with
  | [] => None
  | c :: _ => char_int c
  end.

(** [stops p rest]: a loop [while (p(peek(L)))] ends in front of [rest]. *)
Definition stops (p : ascii -> bool) (rest : text) : bool :=
  match rest with
  | [] => true
  | c :: _ => negb (p c)
  end.


(** No two nodes of an array carry the same character. *)
Fixpoint distinct_vals (nodes : list DFANode) : bool :=
  match nodes with
  | [] => true
  | n :: rest =>
      negb (existsb (fun m => ch_eqb (val n) (val m)) rest)
      && distinct_vals rest
  end.

(** The invariant of the keyword structure: below every node, no two
    children share a character. *)
Fixpoint node_ok (n : DFANode) : bool :=
  match n with
  | mkNode _ _ cs => distinct_vals cs && forallb node_ok cs
  end.

Definition dfa_ok (d : DFA) : bool :=
  distinct_vals (start d) && forallb node_ok (start d).

(** The words spelled by the paths from a node to the nodes marked as
    the end of a keyword. *)
Fixpoint words_node (n : DFANode) : list text :=
  match n with
  | mkNode v l cs =>
      (if l then [[v]] else []) ++ map (cons v) (flat_map words_node cs)
  end.

Definition words_dfa (d : DFA) : list text := flat_map words_node (start d).

(** The structure that [build_keyword_dfa] builds. *)
Definition kw_built : KwState :=
  mkKwState (fold_left dfa_add_symbol KEYWORDS (mkDFA [])) true.

Definition proper_prefix (a b : text) : Prop :=
  exists r : text, r <> [] /\ b = a ++ r.

(** Mutual inclusion of two lists of words, as a test. *)
Definition same_words (l1 l2 : list text) : bool :=
  forallb (fun w => existsb (text_eqb w) l2) l1
  && forallb (fun w => existsb (text_eqb w) l1) l2.

(** The word with its first letter in lower case: the classifiers of
    types, noise words and boolean literals look at the first character
    through [lowerc] only. *)
Definition lower_first (w : text) : text :=
  match w with
  | [] => []
  | c :: r => lowerc c :: r
  end.

Definition BOOL_WORDS : list text := map str ["true"; "false"]%string.
Definition WORD_OPS : list text := map str ["div"; "mod"]%string.
Definition TYPE_WORDS : list text :=
  map str ["int"; "float"; "char"; "bool"; "void"]%string.
Definition NOISE_WORDS : list text :=
  map str ["please"; "then"; "to"; "do"; "end"; "begin"; "of"; "and"; "from"]%string.

(** The five tests of [scan_identifier_or_keyword] on a word. *)
Definition word_is_bool (w : text) : bool :=
  negb (is_bool_lit w (length w) =? -1)%Z.
Definition word_is_op (w : text) : bool := fst (is_word_op w (length w)).
Definition word_is_type (w : text) : bool := is_type w (length w).
Definition word_is_keyword (w : text) : bool := is_keyword w (length w).
Definition word_is_noise (w : text) : bool := is_noise w (length w).

(** The category of a word by the priority order of the scanner. *)
Definition word_kind (w : text) : TokenType :=
  if word_is_bool w then TOK_CONST_BOOL
  else if word_is_op w then TOK_OP_ARITH
  else if word_is_type w then TOK_RESERVED_TYPE
  else if word_is_keyword w then TOK_KEYWORD
  else if word_is_noise w then TOK_NOISE
  else TOK_IDENTIFIER.

(** No word of [l1] is a word of [l2], as a test. *)
Definition no_common_word (l1 l2 : list text) : bool :=
  forallb (fun w => negb (existsb (text_eqb w) l2)) l1.

(** The words that are both a keyword and a noise word. *)
Definition KEYWORD_AND_NOISE : list text :=
  map str ["then"; "do"; "end"; "begin"; "of"]%string.

(** The four spellings that the scanner takes for a boolean literal. *)
Definition BOOL_SPELLINGS : list text :=
  map str ["true"; "True"; "false"; "False"]%string.

(** ** Vocabulary for the parser *)

(** [wp total c st Q]: the run of [c] from [st] reads no token outside
    the stream and, when it ends, ends in a value and a state that
    satisfy [Q]; with [total] set, it also ends within its fuel. *)
Definition wp {A : Type} (total : bool) (c : Syntax.M A) (st : Syntax.PState)
    (Q : A -> Syntax.PState -> Prop) : Prop :=
  match c st with
  | Syntax.Ok a st' => Q a st'
  | Syntax.OutOfFuel => total = false
  | Syntax.BadRead => False
  end.

(** The part of the state that the control flow of the parser depends
    on: the token stream and the index of the current token. *)
Definition at_index (toks : list Syntax.ParserToken) (i : Z)
    (st : Syntax.PState) : Prop :=
  Syntax.g_tokens st = toks /\ Syntax.g_tok_index st = i.

(** The token [g_tokens[i]] of a stream. *)
Definition token_of (toks : list Syntax.ParserToken) (i : Z)
    : Syntax.ParserToken :=
  nth (Z.to_nat i) toks Syntax.eof_token.

(** The last token of the stream is an [eof] token. *)
Definition eof_last (toks : list Syntax.ParserToken) : Prop :=
  Syntax.kind (token_of toks (Z.of_nat (length toks) - 1)) = Syntax.PT_EOF.

(** Fuel that lets a production run to its end from index [i]: [K] units
    for each token still ahead and [c] units for the calls that are made
    before a token is consumed. *)
Definition fuel_for (toks : list Syntax.ParserToken) (c : Z) (i : Z)
    (fuel : nat) : Prop :=
  (10 * (Z.of_nat (length toks) - 1 - i) + c <= Z.of_nat fuel)%Z.

(** After a run from index [i]: the stream is the same, the index is [j]
    with [i <= j], inside the stream, and beyond [i] when [P] holds. *)
Definition reaches (toks : list Syntax.ParserToken) (i : Z) (P : Prop)
    {A : Type} (_ : A) (st' : Syntax.PState) : Prop :=
  exists j : Z,
    at_index toks j st'
    /\ (i <= j < Z.of_nat (length toks))%Z
    /\ (P -> (i < j)%Z).

(** [runs toks total c rank fuel pre strict]: from every index [i] of the
    stream, [c] reads inside the stream only and moves the index forward
    (strictly when [strict i]); with [total] set, [c] is given fuel of
    rank [rank] at an index that satisfies [pre], and ends within it. *)
Definition runs (toks : list Syntax.ParserToken) (total : bool) {A : Type}
    (c : Syntax.M A) (rank : Z) (fuel : nat) (pre strict : Z -> Prop)
    : Prop :=
  forall (i : Z) (st : Syntax.PState),
    at_index toks i st ->
    (0 <= i < Z.of_nat (length toks))%Z ->
    (total = true -> fuel_for toks rank i fuel /\ pre i) ->
    wp total c st (reaches toks i (total = true /\ strict i)).

Definition not_eof (toks : list Syntax.ParserToken) (i : Z) : Prop :=
  Syntax.kind (token_of toks i) <> Syntax.PT_EOF.

Definition any_index (_ : Z) : Prop := True.
Definition no_index (_ : Z) : Prop := False.

Definition identifier_at (toks : list Syntax.ParserToken) (i : Z) : Prop :=
  Syntax.kind (token_of toks i) = Syntax.PT_IDENTIFIER.

(** A stream in which every statement is malformed. *)
Definition malformed_stream : list Syntax.ParserToken :=
  [ Syntax.mkParserToken Syntax.PT_SYMBOL (str ")");
    Syntax.mkParserToken Syntax.PT_KEYWORD (str "if");
    Syntax.mkParserToken Syntax.PT_OPERATOR (str "+");
    Syntax.mkParserToken Syntax.PT_SYMBOL (str ";");
    Syntax.mkParserToken Syntax.PT_TYPE (str "int");
    Syntax.mkParserToken Syntax.PT_EOF (str "EOF") ].


(** ** Vocabulary for the token table *)

(** A table with 2000 rows of an identifier and no [eof] row. *)
Definition oversized_table : text :=
  List.concat (repeat (str "| x | identifier |" ++ [LF]) 2000).

(** What the loader makes of a scanner token: the kind that [map_kind]
    gives to its label and the text of the left column. *)
Definition parser_view (t : Token) : Syntax.ParserToken :=
  Syntax.mkParserToken (Syntax.map_kind (tname (type t))) (shown t).

(** A row as [write_row] prints it, without the newline. *)
Definition row_text (lex tok : text) : text :=
  str "| " ++ pad_right 20 lex ++ str " | " ++ pad_right 16 tok ++ str " |".

Definition plain_char (c : ascii) : bool :=
  negb (ch_eqb c "|") && negb (ch_eqb c NUL) && negb (ch_eqb c LF).

(** A text that the table carries unchanged: not empty, at most 20
    characters, without a bar, a NUL or a newline, and with no white
    space at either end. *)
Definition table_text (s : text) : bool :=
  match s with
  | [] => false
  | c :: _ => negb (isspace c)
  end
  && negb (isspace (last s " "%char))
  && forallb plain_char s
  && (length s <=? 20).

(** The test by which the loader takes a line for the header row. *)
Definition header_like (line : text) : bool :=
  Syntax.str_contains line (str "Lexeme")
  && Syntax.str_contains line (str "Token").

(** A token whose row the loader reads back. *)
Definition table_token (t : Token) : bool :=
  negb (TokenType_eqb (type t) TOK_EOF)
  && table_text (shown t)
  && negb (header_like (row_text (shown t) (tname (type t)))).

(** A path that [write_head] prints on one line that [fgets] reads whole. *)
Definition table_path (src : text) : bool :=
  forallb (fun c => negb (ch_eqb c LF)) (cstr src)
  && (length (cstr src) <=? 502).

Definition no_nul (s : text) : bool :=
  forallb (fun c => negb (ch_eqb c NUL)) s.

(** The second field of the row of a token kind, as [sscanf] stores it. *)
Definition kind_field (ty : TokenType) : text :=
  fst (Syntax.scanset 127
         (Syntax.skip_space (str " " ++ pad_right 16 (tname ty) ++ str " |"))).

(** A text file as the list of its lines, each ended by a newline. *)
Definition file_of_lines (lines : list text) : text :=
  List.concat (map (fun l => l ++ [LF]) lines).

(** A line that [fgets] reads in one call. *)
Definition short_line (l : text) : bool :=
  forallb (fun c => negb (ch_eqb c LF)) l && (length l <? Syntax.MAX_LINE - 1).

Definition row_of_token (t : Token) : text :=
  row_text (shown t) (tname (type t)).

Definition border_line : text :=
  str "+----------------------+------------------+".

(** The lines of the table that [main] writes for a list of tokens. *)
Definition table_lines (src : text) (toks : list Token) : list text :=
  [ str "Source: " ++ cstr src; border_line;
    row_text (str "Lexeme") (str "Token"); border_line ]
  ++ map row_of_token toks ++ [border_line].

(** The text of the lexeme of a scanner token, empty for the NULL pointer. *)
Definition lexeme_text (t : Token) : text :=
  match lexeme t with
  | Some s => s
  | None => []
  end.

(** The tokens that the scanner produces for a source text. *)
Definition scanned (source : string) : list Token :=
  match scan_tokens (str source) with
  | Some toks => toks
  | None => []
  end.

(** What the loader reads in the table written for a source text. *)
Definition reloaded (source : string) : list Syntax.ParserToken :=
  snd (Syntax.load_tokens_from_symbol_table
         (Some (symbol_table (str "sample.ksh") (scanned source)))).

(** The tokens of [int x;] before the [eof] token, and that token. *)
Definition decl_tokens : list Token :=
  [ mkToken TOK_RESERVED_TYPE (Some (str "int")) 1 1 None;
    mkToken TOK_IDENTIFIER (Some (str "x")) 1 5 None;
    mkToken TOK_DELIM (Some (str ";")) 1 7 (Some (str ";")) ].

Definition decl_eof : Token := mkToken TOK_EOF None 1 7 None.

(** [stable c c']: a run of [c] that ends is also the run of [c']. *)
Definition stable {A : Type} (c c' : Syntax.M A) : Prop :=
  forall (st : Syntax.PState) (a : A) (st' : Syntax.PState),
    c st = Syntax.Ok a st' -> c' st = Syntax.Ok a st'.

(** ** Vocabulary for the positions kept by the scanner *)

(** Line and column after reading the characters [w] from line [l] and
    column [c], as [advance] counts them. *)
Fixpoint line_col (l c : Z) (w : text) : Z * Z :=
  match w with
  | [] => (l, c)
  | x :: r => if ch_eqb x LF then line_col (l + 1) 1 r else line_col l (c + 1) r
  end.

(** [tracking L]: the cursor is inside the buffer, and the line and the
    column of [L] are those of the characters read so far, counted from
    line 1 and column 1. *)
Definition tracking (L : Lexer) : Prop :=
  pos L <= len L
  /\ (line L, col L) = line_col 1 1 (firstn (pos L) (buf L)).
(** ** Vocabulary for literals and operators *)

(** The text between the quotes of a string literal: a backslash takes
    the character after it along, whatever it is; outside such a pair
    there is no double quote and no newline. *)
Fixpoint string_payload (s : text) : bool :=
  match s with
  | [] => true
  | c :: r =>
      if ch_eqb c BACKSLASH then
        match r with
        | [] => false
        | _ :: r' => string_payload r'
        end
      else negb (ch_eqb c DQUOTE) && negb (ch_eqb c LF) && string_payload r
  end.

(** The text between the quotes of a character literal: one character
    other than a backslash, or a backslash and one character. *)
Definition char_payload (s : text) : bool :=
  match s with
  | [c] => negb (ch_eqb c BACKSLASH)
  | [b; _] => ch_eqb b BACKSLASH
  | _ => false
  end.

Definition TWO_CHAR_OPS : list text :=
  map str ["=="; "!="; "<="; ">="; "&&"; "||"; "**"]%string.

Definition ONE_CHAR_OPS : text := str "=+-*/%<>!".

(** The operator at the head of [c :: rest]: the two characters when they
    form a two-character operator, the first character otherwise. *)
Definition operator_text (c : ascii) (rest : text) : text :=
  match rest with
  | d :: _ => if existsb (text_eqb [c; d]) TWO_CHAR_OPS then [c; d] else [c]
  | [] => [c]
  end.
(** What [scan_operator] returns in front of [c :: rest]. *)
Definition operator_result (L : Lexer) (pre : text) (c : ascii) (rest : text)
    (r : Token * Lexer) : Prop :=
  let w := operator_text c rest in
  lexeme (fst r) = Some w
  /\ at_cursor (snd r) (pre ++ w) (skipn (length w - 1) rest)
  /\ (type (fst r) = TOK_UNKNOWN <-> w = [c] /\ ~ In c ONE_CHAR_OPS)
  /\ (type (fst r) <> TOK_UNKNOWN ->
      extra (fst r) = Some w /\ tcol (fst r) = col L).

(** ** Vocabulary for the loaded stream *)

(** A lexeme that fits the array [lexeme[MAX_LEXEME]] with its
    terminator. *)
Definition stored_lexeme (t : Syntax.ParserToken) : Prop :=
  length (Syntax.lexeme t) < Syntax.MAX_LEXEME
  /\ no_nul (Syntax.lexeme t) = true.

(** The table of the declaration [int x;], as the scanner writes it. *)
Definition decl_table : text :=
  symbol_table (str "sample.ksh") (decl_tokens ++ [decl_eof]).

(** ** Vocabulary for the runs of the parser *)

(** The state [st] with the index of the current token set to [i]. *)
Definition with_index (st : Syntax.PState) (i : Z) : Syntax.PState :=
  Syntax.mkPState (Syntax.g_tokens st) i (Syntax.g_error st)
    (Syntax.diagnostics st) (Syntax.trace st).

(** A token at which [panic_recover] stops skipping: a semicolon or a
    right brace. *)
Definition is_boundary (t : Syntax.ParserToken) : bool :=
  Syntax.is_symbol t (str ";") || Syntax.is_symbol t (str "}").

(** A token that [panic_recover] skips. *)
Definition is_skipped (t : Syntax.ParserToken) : bool :=
  negb (Syntax.kind_eqb (Syntax.kind t) Syntax.PT_EOF) && negb (is_boundary t).

(** [stream_at st pre rest]: the tokens before the current one are [pre],
    the current token and those after it are [rest]. *)
Definition stream_at (st : Syntax.PState) (pre rest : list Syntax.ParserToken)
    : Prop :=
  Syntax.g_tokens st = pre ++ rest
  /\ Syntax.g_tok_index st = Z.of_nat (length pre).
(** [hoare P c Q]: a run of [c] that starts in a state of [P] and ends,
    ends in a state of [Q]. *)
Definition hoare {A : Type} (P : Syntax.PState -> Prop) (c : Syntax.M A)
    (Q : Syntax.PState -> Prop) : Prop :=
  forall (st : Syntax.PState) (a : A) (st' : Syntax.PState),
    P st -> c st = Syntax.Ok a st' -> Q st'.

(** The tags that a list of printed tags leaves open, innermost first,
    starting from the open tags [stack]; [None] when a closing tag does
    not close the innermost open tag.  The length of the result is the
    indentation [g_indent] of the next line. *)
Fixpoint open_tags (stack : list text) (evs : list Syntax.Event)
    : option (list text) :=
  match evs with
  | [] => Some stack
  | Syntax.Open n :: r => open_tags (n :: stack) r
  | Syntax.Close n :: r =>
      match stack with
      | m :: s => if text_eqb m n then open_tags s r else None
      | [] => None
      end
  | Syntax.Leaf _ _ :: r => open_tags stack r
  end.

Definition tags_are (s : list text) (st : Syntax.PState) : Prop :=
  open_tags [] (Syntax.trace st) = Some s.

Definition is_nil {A : Type} (l : list A) : bool :=
  match l with
  | [] => true
  | _ :: _ => false
  end.

(** [grows st st']: from [st] to [st'] the token stream is the same, the
    index has not gone back, tags and diagnostics were only added, and
    the error flag was set exactly if it was set before or a diagnostic
    was added. *)
Definition grows (st st' : Syntax.PState) : Prop :=
  Syntax.g_tokens st' = Syntax.g_tokens st
  /\ (Syntax.g_tok_index st <= Syntax.g_tok_index st')%Z
  /\ (exists ev, Syntax.trace st' = Syntax.trace st ++ ev)
  /\ (exists d,
         Syntax.diagnostics st' = Syntax.diagnostics st ++ d
         /\ Syntax.g_error st' = Syntax.g_error st || negb (is_nil d)).

(** The run of [parse_program] on the malformed stream: the number of
    statements and the final state. *)
Definition malformed_run : nat * Syntax.PState :=
  match Syntax.parse_program 60 (Syntax.initial_state malformed_stream) with
  | Syntax.Ok n st' => (n, st')
  | _ => (0, Syntax.initial_state [])
  end.

(** ** Vocabulary for the keyword DFA as a data structure *)

(** Every array of the structure has a free slot: fewer roots than
    [DFA_MAX_ROOTS] and, at every node, fewer children than
    [DFA_MAX_CHILDREN]. *)
Fixpoint node_roomy (n : DFANode) : bool :=
  match n with
  | mkNode _ _ cs => (length cs <? DFA_MAX_CHILDREN) && forallb node_roomy cs
  end.

Definition dfa_roomy (d : DFA) : bool :=
  (sSize d <? DFA_MAX_ROOTS) && forallb node_roomy (start d).

(** A structure whose array of roots is full: one root for each of the
    64 characters from [@] on. *)
Definition full_roots : DFA :=
  mkDFA (map (fun k => mkNode (ascii_of_nat (64 + k)) true []) (seq 0 64)).

(** ** Vocabulary for comments *)

(** [closes s]: the two characters that end a block comment occur in
    [s]. *)
Fixpoint closes (s : text) : bool :=
  match s with
  | [] => false
  | c :: r =>
      (ch_eqb c "*"
       && match r with
          | d :: _ => ch_eqb d "/"
          | [] => false
          end)
      || closes r
  end.

(** ** The grammar of the language, over the tokens of the parser *)

Section Grammar.

Import Syntax.

(** A relational operator token. *)
Definition is_rel_op (t : ParserToken) : bool :=
  kind_eqb (kind t) PT_OPERATOR && is_relop (lexeme t).

(**  factor      -> identifier | constant | ( expression )
     term        -> factor { mulop factor }
     simple_expr -> term { addop term }
     expression  -> simple_expr [ relop simple_expr ]  *)
Inductive Factor : list ParserToken -> Prop :=
| F_identifier (t : ParserToken) :
    kind t = PT_IDENTIFIER -> Factor [t]
| F_constant (t : ParserToken) :
    is_constant t = true -> Factor [t]
| F_group (lp : ParserToken) (e : list ParserToken) (rp : ParserToken) :
    is_symbol lp (str "(") = true -> Expression e ->
    is_symbol rp (str ")") = true -> Factor (lp :: e ++ [rp])

with MulTail : list ParserToken -> Prop :=
| MT_end : MulTail []
| MT_more (op : ParserToken) (f tl : list ParserToken) :
    is_mul_op op = true -> Factor f -> MulTail tl -> MulTail (op :: f ++ tl)

with Term : list ParserToken -> Prop :=
| T_factors (f tl : list ParserToken) :
    Factor f -> MulTail tl -> Term (f ++ tl)

with AddTail : list ParserToken -> Prop :=
| AT_end : AddTail []
| AT_more (op : ParserToken) (t tl : list ParserToken) :
    is_add_op op = true -> Term t -> AddTail tl -> AddTail (op :: t ++ tl)

with SimpleExpr : list ParserToken -> Prop :=
| SE_terms (t tl : list ParserToken) :
    Term t -> AddTail tl -> SimpleExpr (t ++ tl)

with Expression : list ParserToken -> Prop :=
| E_simple (s : list ParserToken) :
    SimpleExpr s -> Expression s
| E_relation (s1 : list ParserToken) (op : ParserToken)
    (s2 : list ParserToken) :
    SimpleExpr s1 -> is_rel_op op = true -> SimpleExpr s2 ->
    Expression (s1 ++ op :: s2).

(** Statements.  The flag of a statement or block is set when it ends
    with an [if] that has no [else]: such a statement cannot be the first
    branch of an [if] with an [else], because the parser gives an [else]
    to the nearest [if].

     statement -> type identifier ;
                | input identifier ;
                | (print | writeln) expression ;
                | identifier = expression ;
                | if ( expression ) block [ else block ]
                | while ( expression ) block
                | for ( identifier = expression ; expression ;
                        identifier = expression ) block
     block     -> { { statement } } | statement  *)
Inductive Statement : bool -> list ParserToken -> Prop :=
| S_decl (ty id semi : ParserToken) :
    kind ty = PT_TYPE -> kind id = PT_IDENTIFIER ->
    is_symbol semi (str ";") = true ->
    Statement false [ty; id; semi]
| S_input (kw id semi : ParserToken) :
    is_keyword_tok kw (str "input") = true -> kind id = PT_IDENTIFIER ->
    is_symbol semi (str ";") = true ->
    Statement false [kw; id; semi]
| S_print (kw : ParserToken) (e : list ParserToken) (semi : ParserToken) :
    is_keyword_tok kw (str "print") || is_keyword_tok kw (str "writeln") = true ->
    Expression e -> is_symbol semi (str ";") = true ->
    Statement false (kw :: e ++ [semi])
| S_assign (id eq : ParserToken) (e : list ParserToken) (semi : ParserToken) :
    kind id = PT_IDENTIFIER -> is_operator eq (str "=") = true ->
    Expression e -> is_symbol semi (str ";") = true ->
    Statement false (id :: eq :: e ++ [semi])
| S_if (kw lp : ParserToken) (e : list ParserToken) (rp : ParserToken)
    (o : bool) (b : list ParserToken) :
    is_keyword_tok kw (str "if") = true -> is_symbol lp (str "(") = true ->
    Expression e -> is_symbol rp (str ")") = true -> Block o b ->
    Statement true (kw :: lp :: e ++ rp :: b)
| S_if_else (kw lp : ParserToken) (e : list ParserToken) (rp : ParserToken)
    (b1 : list ParserToken) (el : ParserToken) (o : bool)
    (b2 : list ParserToken) :
    is_keyword_tok kw (str "if") = true -> is_symbol lp (str "(") = true ->
    Expression e -> is_symbol rp (str ")") = true -> Block false b1 ->
    is_keyword_tok el (str "else") = true -> Block o b2 ->
    Statement o (kw :: lp :: e ++ rp :: b1 ++ el :: b2)
| S_while (kw lp : ParserToken) (e : list ParserToken) (rp : ParserToken)
    (o : bool) (b : list ParserToken) :
    is_keyword_tok kw (str "while") = true -> is_symbol lp (str "(") = true ->
    Expression e -> is_symbol rp (str ")") = true -> Block o b ->
    Statement o (kw :: lp :: e ++ rp :: b)
| S_for (kw lp id1 eq1 : ParserToken) (e1 : list ParserToken)
    (semi1 : ParserToken) (e2 : list ParserToken)
    (semi2 id2 eq2 : ParserToken) (e3 : list ParserToken) (rp : ParserToken)
    (o : bool) (b : list ParserToken) :
    is_keyword_tok kw (str "for") = true -> is_symbol lp (str "(") = true ->
    kind id1 = PT_IDENTIFIER -> is_operator eq1 (str "=") = true ->
    Expression e1 -> is_symbol semi1 (str ";") = true ->
    Expression e2 -> is_symbol semi2 (str ";") = true ->
    kind id2 = PT_IDENTIFIER -> is_operator eq2 (str "=") = true ->
    Expression e3 -> is_symbol rp (str ")") = true -> Block o b ->
    Statement o
      (kw :: lp :: id1 :: eq1 :: e1 ++ semi1 :: e2 ++ semi2 :: id2 :: eq2
          :: e3 ++ rp :: b)

with Block : bool -> list ParserToken -> Prop :=
| B_braces (lb : ParserToken) (ss : list ParserToken) (rb : ParserToken) :
    is_symbol lb (str "{") = true -> Statements ss ->
    is_symbol rb (str "}") = true -> Block false (lb :: ss ++ [rb])
| B_statement (o : bool) (s : list ParserToken) :
    Statement o s -> Block o s

with Statements : list ParserToken -> Prop :=
| SS_end : Statements []
| SS_more (o : bool) (s ss : list ParserToken) :
    Statement o s -> Statements ss -> Statements (s ++ ss).

(** [next_is p rest]: there is a next token, and it satisfies [p]. *)
Definition next_is (p : ParserToken -> bool) (rest : list ParserToken)
    : Prop :=
  exists (u : ParserToken) (r : list ParserToken), rest = u :: r /\ p u = true.

(** The contents of the leaves of a printed tree, in the order in which
    they are printed. *)
Definition leaf_texts (tr : list Event) : list text :=
  flat_map (fun e => match e with Leaf _ c => [c] | _ => [] end) tr.

(** The tokens in front of the current one. *)
Definition tokens_read (st : PState) : list ParserToken :=
  firstn (Z.to_nat (g_tok_index st)) (g_tokens st).

(** [faithful st more]: the leaves printed so far are the lexemes of the
    tokens read, followed by [more]. *)
Definition faithful (st : PState) (more : list text) : Prop :=
  leaf_texts (trace st) = map lexeme (tokens_read st) ++ more.

(** [quiet st0 st]: since [st0] the token stream is the same and nothing
    was reported: the error flag and the diagnostics are those of
    [st0]; and if the leaves printed were the lexemes of the tokens read
    in [st0], they are so in [st]. *)
Definition quiet (st0 st : PState) : Prop :=
  g_tokens st = g_tokens st0 /\ g_error st = g_error st0
  /\ diagnostics st = diagnostics st0
  /\ (faithful st0 [] -> faithful st []).

(** [pending st0 c st]: as [quiet], between the moment the leaf [c] of
    the current token is printed and the moment the token is passed. *)
Definition pending (st0 : PState) (c : text) (st : PState) : Prop :=
  g_tokens st = g_tokens st0 /\ g_error st = g_error st0
  /\ diagnostics st = diagnostics st0
  /\ (faithful st0 [] -> faithful st [c]).

(** [accepts c ts follow]: with enough fuel, in front of the tokens [ts]
    and a rest of the stream that satisfies [follow], the production [c]
    consumes exactly [ts] and reports nothing. *)
Definition accepts (c : nat -> M unit) (ts : list ParserToken)
    (follow : list ParserToken -> Prop) : Prop :=
  exists f0 : nat,
    forall f : nat, f0 <= f ->
    forall (st0 st : PState) (pre rest : list ParserToken)
           (Q : unit -> PState -> Prop),
      stream_at st pre (ts ++ rest) -> quiet st0 st -> follow rest ->
      (forall st', stream_at st' (pre ++ ts) rest -> quiet st0 st' ->
                   Q tt st') ->
      wp true (c f) st Q.

(** What may follow each part of an expression: any token after a
    factor, no multiplicative operator after a term, no additive one
    either after a simple expression, no operator after an expression. *)
Definition any_token (u : ParserToken) : bool := true.
Definition no_mul_op (u : ParserToken) : bool := negb (is_mul_op u).
Definition no_add_op (u : ParserToken) : bool :=
  negb (is_mul_op u) && negb (is_add_op u).
Definition no_operator (u : ParserToken) : bool :=
  negb (kind_eqb (kind u) PT_OPERATOR).

(** What may follow a statement with flag [o]: no [else] when the flag is
    set. *)
Definition no_else (o : bool) (u : ParserToken) : bool :=
  negb (o && is_keyword_tok u (str "else")).

(** The tokens at which the loop of [parse_block] stops. *)
Definition ends_block (u : ParserToken) : bool :=
  kind_eqb (kind u) PT_EOF || is_symbol u (str "}").

(** The tokens that [parse_statement] dispatches on. *)
Definition starts_statement (t : ParserToken) : bool :=
  kind_eqb (kind t) PT_TYPE || kind_eqb (kind t) PT_IDENTIFIER
  || is_keyword_tok t (str "input") || is_keyword_tok t (str "print")
  || is_keyword_tok t (str "writeln") || is_keyword_tok t (str "if")
  || is_keyword_tok t (str "while") || is_keyword_tok t (str "for").

End Grammar.

(** The tokens of [int x; x = 1;], a program of the grammar. *)
Definition small_program : list Syntax.ParserToken :=
  [ Syntax.mkParserToken Syntax.PT_TYPE (str "int");
    Syntax.mkParserToken Syntax.PT_IDENTIFIER (str "x");
    Syntax.mkParserToken Syntax.PT_SYMBOL (str ";");
    Syntax.mkParserToken Syntax.PT_IDENTIFIER (str "x");
    Syntax.mkParserToken Syntax.PT_OPERATOR (str "=");
    Syntax.mkParserToken Syntax.PT_INTCONST (str "1");
    Syntax.mkParserToken Syntax.PT_SYMBOL (str ";") ].

(** ** Runs of the parser that report nothing *)

Section GrammarRuns.

Import Syntax.

(** [triple P c Q]: a run of [c] that starts in a state of [P] and ends
    with the value [a], ends in a state of [Q a]. *)
Definition triple {A : Type} (P : PState -> Prop) (c : M A)
    (Q : A -> PState -> Prop) : Prop :=
  forall (st : PState) (a : A) (st' : PState),
    P st -> c st = Ok a st' -> Q a st'.

(** The stream ends with an [eof] token. *)
Definition eof_ended (rest : list ParserToken) : Prop :=
  exists (body : list ParserToken) (e : ParserToken),
    rest = body ++ [e] /\ kind e = PT_EOF.

(** [so_far known pre rest st]: either an error has been reported, or
    [known] holds of the tokens read and the parser is in front of
    [rest], after [pre]. *)
Definition so_far (known : Prop) (pre rest : list ParserToken)
    (st : PState) : Prop :=
  g_error st = true
  \/ (known /\ stream_at st pre rest /\ eof_ended rest).

(** [reads c G]: a run of [c] either reports an error or reads tokens
    [ts] with [G ts rest'], where [rest'] is what is left of the
    stream. *)
Definition reads {A : Type} (c : M A)
    (G : list ParserToken -> list ParserToken -> Prop) : Prop :=
  forall (known : Prop) (pre rest : list ParserToken),
    triple (so_far known pre rest) c
      (fun _ st' =>
         exists ts rest',
           so_far (known /\ rest = ts ++ rest' /\ G ts rest')
             (pre ++ ts) rest' st').

(** After a statement with the flag set comes a token that is not
    [else]. *)
Definition else_free (o : bool) (rest : list ParserToken) : Prop :=
  o = true ->
  exists (u : ParserToken) (r : list ParserToken),
    rest = u :: r /\ is_keyword_tok u (str "else") = false.

Definition statement_read (ts rest : list ParserToken) : Prop :=
  exists o : bool, Statement o ts /\ else_free o rest.

Definition block_read (ts rest : list ParserToken) : Prop :=
  exists o : bool, Block o ts /\ else_free o rest.

End GrammarRuns.

(** The kinds of the tokens of the grammar: every kind but [comment],
    [noise], [unknown] and [eof]. *)
Definition grammar_kind (t : Syntax.ParserToken) : bool :=
  match Syntax.kind t with
  | Syntax.PT_COMMENT | Syntax.PT_NOISE | Syntax.PT_UNKNOWN | Syntax.PT_EOF =>
      false
  | _ => true
  end.

Definition not_eof_token (t : Syntax.ParserToken) : bool :=
  negb (Syntax.kind_eqb (Syntax.kind t) Syntax.PT_EOF).

(** The token that the loader stores for a line comment of the source,
    which the scanner writes to the table with the text of its two
    slashes. *)
Definition comment_token : Syntax.ParserToken :=
  Syntax.mkParserToken Syntax.PT_COMMENT (str "//").

(** A character that starts no token: the last case of [next_token].  The
    byte 255 does not come that far: [peek] returns it as [EOF]. *)
Definition is_stray (c : ascii) : bool :=
  negb (ch_eqb c EOF_BYTE
        || is_ws c || is_delim c || is_bracket c || isalpha c || ch_eqb c "_"
        || isdigit c || ch_eqb c DQUOTE || ch_eqb c SQUOTE || ch_eqb c "/"
        || ch_eqb c "*" || ch_eqb c "+" || ch_eqb c "-" || ch_eqb c "%"
        || ch_eqb c "=" || ch_eqb c "<" || ch_eqb c ">" || ch_eqb c "!"
        || ch_eqb c "&" || ch_eqb c "|").

(** The text that [syntax_error] prints after [near]: the lexeme of the
    current token, or [(EOF)] when it is empty. *)
Definition near (t : Syntax.ParserToken) : text :=
  match Syntax.lexeme t with
  | [] => str "(EOF)"
  | _ :: _ => Syntax.lexeme t
  end.

(** The state after [syntax_error msg] in front of the token [t]. *)
Definition reported (st : Syntax.PState) (msg : text)
    (t : Syntax.ParserToken) : Syntax.PState :=
  Syntax.mkPState (Syntax.g_tokens st) (Syntax.g_tok_index st) true
    (Syntax.diagnostics st ++ [(msg, near t)]) (Syntax.trace st).

(** The tokens of [# x ; int x; x = 1;]: a stray token, skipped with what
    follows it up to the semicolon, in front of a program. *)
Definition stray_program : list Syntax.ParserToken :=
  Syntax.mkParserToken Syntax.PT_UNKNOWN (str "#")
  :: Syntax.mkParserToken Syntax.PT_IDENTIFIER (str "x")
  :: Syntax.mkParserToken Syntax.PT_SYMBOL (str ";")
  :: small_program ++ [Syntax.eof_token].

(** * Part III. Properties *)

(** ** The cursor *)

Section Cursor.

Lemma ch_eqb_eq (a b : ascii) : ch_eqb a b = true <-> a = b.
Proof. apply Ascii.eqb_eq. Qed.

Lemma ch_eqb_refl (a : ascii) : ch_eqb a a = true.
Proof. apply Ascii.eqb_refl. Qed.

Lemma ch_eqb_neq (a b : ascii) : ch_eqb a b = false <-> a <> b.
Proof. apply Ascii.eqb_neq. Qed.

Lemma text_eqb_eq (a b : text) : text_eqb a b = true <-> a = b.
Proof.
  revert b; induction a as [|x a IH]; intros [|y b]; simpl; split;
    try congruence; auto.
  - intros H. apply andb_true_iff in H as [H1 H2].
    apply ch_eqb_eq in H1. apply IH in H2. congruence.
  - intros H. injection H as -> ->. rewrite ch_eqb_refl.
    now apply IH.
Qed.

Lemma peek_Some_lt (L : Lexer) (c : ascii) :
  peek L = Some c -> pos L < len L.
Proof.
  unfold peek. destruct (pos L <? len L) eqn:E; [|discriminate].
  intros _. now apply Nat.ltb_lt.
Qed.

Lemma char_int_Some (c d : ascii) : char_int c = Some d -> d = c.
Proof. unfold char_int. destruct (ch_eqb c EOF_BYTE); congruence. Qed.

Lemma char_int_plain (c : ascii) : c <> EOF_BYTE -> char_int c = Some c.
Proof.
  intros H. unfold char_int. apply ch_eqb_neq in H. now rewrite H.
Qed.

Lemma char_int_None (c : ascii) : char_int c = None <-> c = EOF_BYTE.
Proof.
  unfold char_int. destruct (ch_eqb c EOF_BYTE) eqn:E.
  - apply ch_eqb_eq in E. split; auto.
  - apply ch_eqb_neq in E. split; [discriminate | contradiction].
Qed.

(** [EOF] is read at the end of the buffer and at a byte 255. *)
Lemma peek_None (L : Lexer) :
  peek L = None <->
  len L <= pos L \/ (pos L < len L /\ char_at (buf L) (pos L) = EOF_BYTE).
Proof.
  unfold peek. destruct (Nat.ltb_spec (pos L) (len L)) as [H|H].
  - rewrite char_int_None. split; [auto | intros [H'|[_ H']]; [lia | auto]].
  - split; [auto | reflexivity].
Qed.

Lemma peek_char_at (L : Lexer) (c : ascii) :
  peek L = Some c -> char_at (buf L) (pos L) = c.
Proof.
  intros H. pose proof (peek_Some_lt _ H) as Hlt.
  unfold peek in H. apply Nat.ltb_lt in Hlt. rewrite Hlt in H.
  symmetry. now apply char_int_Some.
Qed.

(** What [advance] returns is what [peek] shows. *)
Lemma advance_fst (L : Lexer) : fst (advance L) = peek L.
Proof.
  unfold advance, peek. destruct (Nat.ltb_spec (pos L) (len L)) as [H|H].
  - destruct (Nat.leb_spec (len L) (pos L)); [lia | reflexivity].
  - destruct (Nat.leb_spec (len L) (pos L)); [reflexivity | lia].
Qed.

(** Inside the buffer [advance] moves by one character, whatever it
    returns. *)
Lemma advance_inside (L : Lexer) :
  pos L < len L ->
  forward1 L (snd (advance L)) /\ pos (snd (advance L)) = S (pos L).
Proof.
  intros Hlt. unfold advance.
  destruct (Nat.leb_spec (len L) (pos L)); [lia|].
  unfold forward1, len in *.
  destruct (ch_eqb (char_at (buf L) (pos L)) LF); simpl; repeat split; auto.
Qed.

Lemma advance_end (L : Lexer) : len L <= pos L -> advance L = (None, L).
Proof.
  intros H. unfold advance. apply Nat.leb_le in H. now rewrite H.
Qed.

Lemma forward_refl (L : Lexer) : forward L L.
Proof. unfold forward. repeat split; auto; lia. Qed.

Lemma forward_trans (L1 L2 L3 : Lexer) :
  forward L1 L2 -> forward L2 L3 -> forward L1 L3.
Proof.
  unfold forward, len. intros (H1 & H2 & H2') (H3 & H4 & H4').
  rewrite H1 in *. repeat split; [congruence | lia | lia].
Qed.

Lemma forward1_forward (L L' : Lexer) : forward1 L L' -> forward L L'.
Proof. unfold forward, forward1. intros (H1 & H2 & H3). repeat split; auto; lia. Qed.

Lemma forward1_l (L1 L2 L3 : Lexer) :
  forward1 L1 L2 -> forward L2 L3 -> forward1 L1 L3.
Proof.
  unfold forward, forward1, len. intros (H1 & H2 & H2') (H3 & H4 & H4').
  rewrite H1 in *. repeat split; [congruence | lia | lia].
Qed.

Lemma forward1_r (L1 L2 L3 : Lexer) :
  forward L1 L2 -> forward1 L2 L3 -> forward1 L1 L3.
Proof.
  unfold forward, forward1, len. intros (H1 & H2 & H2') (H3 & H4 & H4').
  rewrite H1 in *. repeat split; [congruence | lia | lia].
Qed.

Lemma advance_Some (L : Lexer) (c : ascii) :
  peek L = Some c ->
  fst (advance L) = Some c /\ forward1 L (snd (advance L))
  /\ pos (snd (advance L)) = S (pos L).
Proof.
  intros H. pose proof (peek_Some_lt _ H) as Hlt.
  destruct (advance_inside L Hlt) as [H1 H2].
  rewrite advance_fst. auto.
Qed.

Lemma advance_forward (L : Lexer) : forward L (snd (advance L)).
Proof.
  destruct (Nat.ltb_spec (pos L) (len L)) as [H|H].
  - apply forward1_forward. now apply advance_inside.
  - rewrite (advance_end L H). apply forward_refl.
Qed.

Lemma match_forward (L : Lexer) (ch : ascii) : forward L (snd (match_ L ch)).
Proof.
  unfold match_. destruct (peek L) eqn:E; [|apply forward_refl].
  destruct (ch_eqb a ch); simpl; [apply advance_forward | apply forward_refl].
Qed.

Lemma match_true (L : Lexer) (ch : ascii) :
  peek L = Some ch ->
  fst (match_ L ch) = true /\ snd (match_ L ch) = snd (advance L).
Proof.
  intros H. unfold match_. rewrite H, ch_eqb_refl. auto.
Qed.

Lemma advance_while_forward (p : ascii -> bool) (n : nat) (L : Lexer) :
  forward L (advance_while p n L).
Proof.
  revert L; induction n as [|n IH]; intros L; simpl; [apply forward_refl|].
  destruct (peek L) eqn:E; [|apply forward_refl].
  destruct (p a); [|apply forward_refl].
  eapply forward_trans; [apply advance_forward | apply IH].
Qed.

(** With the unread characters as bound, the loop ends by its own test:
    at the end of the input or before a character that fails [p]. *)
Lemma advance_while_stops (p : ascii -> bool) (n : nat) (L : Lexer) :
  remaining L <= n ->
  peek_in p (advance_while p n L) = false.
Proof.
  revert L; induction n as [|n IH]; intros L Hn; simpl.
  - unfold peek_in. destruct (peek L) eqn:E; auto.
    apply peek_Some_lt in E. unfold remaining in Hn. lia.
  - unfold peek_in. destruct (peek L) eqn:E.
    + destruct (p a) eqn:Ep.
      * apply IH. destruct (advance_Some L E) as (_ & (Hb & _) & Hp).
        unfold remaining, len in *. rewrite Hb, Hp. lia.
      * now rewrite E.
    + now rewrite E.
Qed.

(** More iterations than unread characters change nothing. *)
Lemma advance_while_enough (p : ascii -> bool) (n : nat) (L : Lexer) :
  remaining L <= n ->
  advance_while p n L = advance_while p (remaining L) L.
Proof.
  revert L; induction n as [|n IH]; intros L Hn.
  - assert (remaining L = 0) as -> by lia. reflexivity.
  - simpl. destruct (peek L) eqn:E.
    + pose proof (peek_Some_lt _ E) as Hlt.
      destruct (remaining L) as [|r] eqn:Er; [unfold remaining in Er; lia|].
      simpl. rewrite E. destruct (p a); auto.
      destruct (advance_Some L E) as (_ & (Hb & _) & Hp).
      assert (remaining (snd (advance L)) = r) as Hr.
      { unfold remaining, len in *. rewrite Hb, Hp. lia. }
      rewrite IH by lia. now rewrite Hr.
    + destruct (remaining L); simpl; now rewrite ?E.
Qed.

End Cursor.

(** ** Every scanner moves the cursor forward *)

Section ScannerProgress.

Lemma advance_while_first (p : ascii -> bool) (n : nat) (L : Lexer) (c : ascii) :
  peek L = Some c -> p c = true -> 0 < n ->
  forward1 L (advance_while p n L).
Proof.
  intros Hc Hp Hn. destruct n as [|n]; [lia|]. simpl. rewrite Hc, Hp.
  eapply forward1_l; [apply (advance_Some L Hc) | apply advance_while_forward].
Qed.

Lemma remaining_pos (L : Lexer) (c : ascii) : peek L = Some c -> 0 < remaining L.
Proof. intros H. apply peek_Some_lt in H. unfold remaining. lia. Qed.

Lemma scan_string_loop_forward (n : nat) (L : Lexer) (p : nat) (col0 : Z) :
  forward L (snd (scan_string_loop n L p col0))
  /\ type (fst (scan_string_loop n L p col0)) <> TOK_EOF.
Proof.
  revert L; induction n as [|n IH]; intros L; simpl.
  - split; [apply forward_refl | discriminate].
  - destruct (peek L) eqn:E; [|split; [apply forward_refl | discriminate]].
    destruct (ch_eqb a BACKSLASH).
    + destruct (IH (match peek (snd (advance L)) with
                    | Some _ => snd (advance (snd (advance L)))
                    | None => snd (advance L)
                    end)) as [H1 H2].
      split; [|exact H2].
      eapply forward_trans; [|exact H1].
      eapply forward_trans; [apply advance_forward|].
      destruct (peek (snd (advance L)));
        [apply advance_forward | apply forward_refl].
    + destruct (ch_eqb a DQUOTE); simpl.
      { split; [apply advance_forward | discriminate]. }
      destruct (ch_eqb a LF); simpl.
      { split; [apply forward_refl | discriminate]. }
      destruct (IH (snd (advance L))) as [H1 H2]. split; [|exact H2].
      eapply forward_trans; [apply advance_forward | exact H1].
Qed.

Lemma scan_string_progress (L : Lexer) (c : ascii) :
  peek L = Some c ->
  forward1 L (snd (scan_string L)) /\ type (fst (scan_string L)) <> TOK_EOF.
Proof.
  intros Hc. unfold scan_string.
  destruct (scan_string_loop_forward (remaining (snd (advance L)))
              (snd (advance L)) (pos (snd (advance L))) (col L)) as [H1 H2].
  split; [|exact H2].
  eapply forward1_l; [apply (advance_Some L Hc) | exact H1].
Qed.

Lemma scan_char_progress (L : Lexer) (c : ascii) :
  peek L = Some c ->
  forward1 L (snd (scan_char L)) /\ type (fst (scan_char L)) <> TOK_EOF.
Proof.
  intros Hc. unfold scan_char.
  pose proof (advance_Some L Hc) as (_ & H1 & _).
  set (L1 := snd (advance L)) in *.
  pose proof (advance_forward L1) as H2.
  destruct (advance L1) as [c2 L2] eqn:E2. simpl in H2.
  set (L3 := match c2 with
             | Some d => if ch_eqb d BACKSLASH then snd (advance L2) else L2
             | None => L2
             end).
  assert (forward L2 L3) as H3.
  { subst L3. destruct c2 as [d|]; [|apply forward_refl].
    destruct (ch_eqb d BACKSLASH); [apply advance_forward | apply forward_refl]. }
  assert (forward1 L L3) as H13.
  { eapply forward1_l; [exact H1|]. eapply forward_trans; eassumption. }
  destruct (peek_is L3 SQUOTE); simpl; (split; [|discriminate]); auto.
  eapply forward1_l; [exact H13 | apply advance_forward].
Qed.

Lemma scan_number_progress (L : Lexer) (c : ascii) :
  peek L = Some c -> isdigit c = true ->
  forward1 L (snd (scan_number L)) /\ type (fst (scan_number L)) <> TOK_EOF.
Proof.
  intros Hc Hd. unfold scan_number.
  pose proof (advance_while_first isdigit L Hc Hd (remaining_pos L Hc)) as H1.
  set (L1 := advance_while isdigit (remaining L) L) in *.
  destruct (peek_is L1 "."); [|simpl; split; [exact H1 | discriminate]].
  pose proof (advance_forward L1) as H2.
  set (L2 := snd (advance L1)) in *.
  destruct (peek_in isdigit L2); simpl; (split; [|discriminate]).
  - eapply forward1_l; [exact H1|].
    eapply forward_trans; [exact H2 | apply advance_while_forward].
  - eapply forward1_l; eassumption.
Qed.

Lemma scan_identifier_or_keyword_cursor (L : Lexer) :
  snd (scan_identifier_or_keyword L)
  = advance_while is_word_char (remaining (snd (advance L))) (snd (advance L)).
Proof.
  unfold scan_identifier_or_keyword.
  repeat match goal with
         | |- context [if ?b then _ else _] => destruct b
         | |- context [let '(_, _) := ?p in _] => destruct p
         end; reflexivity.
Qed.

Lemma scan_identifier_or_keyword_progress (L : Lexer) (c : ascii) :
  peek L = Some c ->
  forward1 L (snd (scan_identifier_or_keyword L))
  /\ type (fst (scan_identifier_or_keyword L)) <> TOK_EOF.
Proof.
  intros Hc. split.
  - rewrite scan_identifier_or_keyword_cursor.
    eapply forward1_l; [apply (advance_Some L Hc) | apply advance_while_forward].
  - unfold scan_identifier_or_keyword.
    repeat match goal with
           | |- context [if ?b then _ else _] => destruct b
           | |- context [let '(_, _) := ?p in _] => destruct p
           end; simpl; discriminate.
Qed.

Lemma block_comment_loop_forward (n : nat) (L : Lexer) (prev : ascii) (col0 : Z) :
  forward L (snd (block_comment_loop n L prev col0))
  /\ type (fst (block_comment_loop n L prev col0)) <> TOK_EOF.
Proof.
  revert L prev; induction n as [|n IH]; intros L prev; simpl;
    pose proof (advance_forward L) as HA;
    destruct (advance L) as [[cur|] L1]; simpl in *;
    try (split; [exact HA | discriminate]).
  - destruct (ch_eqb prev "*" && ch_eqb cur "/"); simpl;
      (split; [exact HA | discriminate]).
  - destruct (ch_eqb prev "*" && ch_eqb cur "/"); simpl;
      [split; [exact HA | discriminate]|].
    destruct (IH L1 cur) as [H1 H2]. split; [|exact H2].
    eapply forward_trans; eassumption.
Qed.

Lemma scan_slash_comment_or_op_progress (L : Lexer) :
  peek L = Some "/"%char ->
  forward1 L (snd (scan_slash_comment_or_op L))
  /\ type (fst (scan_slash_comment_or_op L)) <> TOK_EOF.
Proof.
  intros Hc. unfold scan_slash_comment_or_op.
  destruct (match_true L Hc) as [Hm Hs].
  pose proof (advance_Some L Hc) as (_ & H1 & _).
  destruct (match_ L "/") as [m1 L1]. simpl in Hm, Hs. subst m1 L1.
  set (L1 := snd (advance L)) in *.
  pose proof (match_forward L1 "/") as H2.
  destruct (match_ L1 "/") as [m2 L2]. simpl in H2.
  destruct m2; simpl.
  - split; [|discriminate].
    eapply forward1_l; [exact H1|].
    eapply forward_trans; [exact H2 | apply advance_while_forward].
  - pose proof (match_forward L2 "*") as H3.
    destruct (match_ L2 "*") as [m3 L3]. simpl in H3.
    assert (forward1 L L3) as H13.
    { eapply forward1_l; [exact H1|]. eapply forward_trans; eassumption. }
    destruct m3; simpl.
    + destruct (block_comment_loop_forward (remaining L3) L3 NUL (col L))
        as [H4 H5].
      split; [|exact H5]. eapply forward1_l; eassumption.
    + split; [exact H13 | discriminate].
Qed.

Lemma scan_operator_progress (L : Lexer) (c : ascii) :
  peek L = Some c ->
  forward1 L (snd (scan_operator L)) /\ type (fst (scan_operator L)) <> TOK_EOF.
Proof.
  intros Hc. unfold scan_operator.
  pose proof (advance_Some L Hc) as (Hf & H1 & _).
  destruct (advance L) as [oc L1]. simpl in Hf, H1. subst oc.
  repeat match goal with
         | |- context [match_ L1 ?x] =>
             let H := fresh "Hm" in
             pose proof (match_forward L1 x) as H;
             destruct (match_ L1 x) as [[|] ?]; simpl in H
         | |- context [if ?b then _ else _] => destruct b
         end; simpl;
    (split; [first [exact H1 | eapply forward1_l; eassumption] | discriminate]).
Qed.

End ScannerProgress.

(** ** Termination of the scanning loop *)

Section ScanLoop.

Lemma next_token_step (L : Lexer) :
  forward L (snd (next_token L))
  /\ ((type (fst (next_token L)) = TOK_EOF
       /\ snd (next_token L) = skip_ws L /\ peek (skip_ws L) = None)
      \/ (type (fst (next_token L)) <> TOK_EOF
          /\ pos L < pos (snd (next_token L)))).
Proof.
  unfold next_token.
  pose proof (advance_while_forward is_ws (remaining L) L) as Hws.
  fold (skip_ws L) in Hws. set (L1 := skip_ws L) in *.
  destruct (peek L1) as [c|] eqn:Hc.
  - assert (forall r : Token * Lexer,
              forward1 L1 (snd r) /\ type (fst r) <> TOK_EOF ->
              forward L (snd r)
              /\ ((type (fst r) = TOK_EOF /\ snd r = L1 /\ Some c = None)
                  \/ (type (fst r) <> TOK_EOF /\ pos L < pos (snd r)))) as K.
    { intros r [H1 H2].
      pose proof (forward1_r Hws H1) as H3. split.
      - now apply forward1_forward.
      - right. split; [exact H2 | apply H3]. }
    pose proof (advance_Some L1 Hc) as (_ & HA & _).
    destruct (is_delim c); [apply K; simpl; split; [exact HA | discriminate]|].
    destruct (is_bracket c); [apply K; simpl; split; [exact HA | discriminate]|].
    destruct (isalpha c || ch_eqb c "_");
      [apply K; now apply scan_identifier_or_keyword_progress with c|].
    destruct (isdigit c) eqn:Hd; [apply K; now apply scan_number_progress with c|].
    destruct (ch_eqb c DQUOTE); [apply K; now apply scan_string_progress with c|].
    destruct (ch_eqb c SQUOTE); [apply K; now apply scan_char_progress with c|].
    destruct (ch_eqb c "/") eqn:Hs.
    { apply ch_eqb_eq in Hs. subst c. apply K.
      now apply scan_slash_comment_or_op_progress. }
    match goal with |- context [if ?b then _ else _] => destruct b end;
      [apply K; now apply scan_operator_progress with c|].
    apply K; simpl; split; [exact HA | discriminate].
  - simpl. split; [exact Hws|]. left. auto.
Qed.

Lemma TokenType_eqb_eq (a b : TokenType) : TokenType_eqb a b = true <-> a = b.
Proof. destruct a, b; simpl; split; congruence. Qed.

Lemma scan_loop_terminates (n : nat) (L : Lexer) :
  remaining L < n ->
  exists pre t,
    scan_loop n L = Some (pre ++ [t]) /\ type t = TOK_EOF
    /\ Forall (fun u => type u <> TOK_EOF) pre.
Proof.
  revert L; induction n as [|n IH]; intros L Hn; [lia|].
  simpl. destruct (next_token_step L) as [(Hb & Hle & Hmax) Hstep].
  destruct (next_token L) as [t L']. simpl in *.
  destruct (TokenType_eqb (type t) TOK_EOF) eqn:Et.
  - exists [], t. apply TokenType_eqb_eq in Et. auto.
  - destruct Hstep as [[He _] | [Hne Hlt]].
    { apply TokenType_eqb_eq in He. congruence. }
    destruct (IH L') as (pre & u & Hs & Hu & Hall).
    { unfold remaining, len in *. rewrite Hb. lia. }
    exists (t :: pre), u. rewrite Hs. simpl. auto.
Qed.

(** X30. The scanning loop of [main] ends on every buffer, and the
    stream it produced ends with its only [eof] token: a call of
    [next_token] that does not return [eof] leaves the cursor strictly
    further, and [eof] is returned exactly when [peek] shows [EOF] after
    the white space, that is at the end of the buffer or in front of a
    byte 255; the cursor then stays where the white space ends. *)
Theorem scanning_always_terminates :
  (forall L : Lexer,
      let r := next_token L in
      buf (snd r) = buf L
      /\ (type (fst r) = TOK_EOF <-> peek (skip_ws L) = None)
      /\ ((type (fst r) = TOK_EOF /\ snd r = skip_ws L
           /\ (len L <= pos (skip_ws L)
               \/ char_at (buf L) (pos (skip_ws L)) = EOF_BYTE))
          \/ (type (fst r) <> TOK_EOF /\ pos L < pos (snd r))))
  /\ (forall b : text,
         exists pre t,
           scan_tokens b = Some (pre ++ [t]) /\ type t = TOK_EOF
           /\ Forall (fun u => type u <> TOK_EOF) pre).
Proof.
  split.
  - intros L r. subst r.
    destruct (next_token_step L) as [(Hb & _) H]. split; [exact Hb|].
    assert (buf (skip_ws L) = buf L) as Hb'
      by apply (advance_while_forward is_ws (remaining L) L).
    split.
    + destruct H as [(He & _ & Hp)|(Hne & _)].
      * split; auto.
      * split; [contradiction|]. intros Hp. exfalso. apply Hne.
        unfold next_token. now rewrite Hp.
    + destruct H as [(He & Hs & Hp)|H]; [left|now right].
      split; [exact He|]. split; [exact Hs|].
      apply peek_None in Hp. unfold len in *. rewrite Hb' in Hp.
      destruct Hp as [Hp|[_ Hp]]; auto.
  - intros b. apply scan_loop_terminates.
    unfold remaining, len, initial_lexer. simpl. lia.
Qed.

(** C3, at its failing input: the [eof] token is not only returned at the
    end of the input.  On the three bytes [a], 255, [b] the second call of
    [next_token] returns [eof] in front of the byte 255, with the cursor
    at position 1 of 3, and the scanning loop stops there: the [b] is
    never scanned. *)
Theorem eof_token_before_end_of_input :
  scan_tokens latin1_source
  = Some [ mkToken TOK_IDENTIFIER (Some (str "a")) 1 1 None;
           mkToken TOK_EOF None 1 2 None ]
  /\ pos (snd (next_token (snd (next_token (initial_lexer latin1_source)))))
     = 1
  /\ length latin1_source = 3.
Proof. vm_compute. auto. Qed.

End ScanLoop.

(** ** The cursor against the contents of the buffer *)

Section BufferView.

Lemma at_cursor_char (L : Lexer) (pre : text) (c : ascii) (rest : text) :
  at_cursor L pre (c :: rest) ->
  pos L < len L /\ char_at (buf L) (pos L) = c.
Proof.
  intros [Hb Hp]. unfold len, char_at. rewrite Hb, Hp, length_app.
  cbn [length]. split; [lia|].
  rewrite app_nth2 by lia. now rewrite Nat.sub_diag.
Qed.

Lemma at_cursor_peek (L : Lexer) (pre rest : text) :
  at_cursor L pre rest -> peek L = head_int rest.
Proof.
  intros H. destruct rest as [|c r].
  - destruct H as [Hb Hp]. unfold peek, len.
    rewrite Hb, Hp, length_app, Nat.add_0_r, Nat.ltb_irrefl. reflexivity.
  - destruct (at_cursor_char H) as [Hlt Hc]. unfold peek.
    apply Nat.ltb_lt in Hlt. now rewrite Hlt, Hc.
Qed.

Lemma plain_char_int (c : ascii) : plain c = true -> char_int c = Some c.
Proof.
  unfold plain, char_int. intros H. apply negb_true_iff in H. now rewrite H.
Qed.

Lemma at_cursor_peek_plain (L : Lexer) (pre : text) (c : ascii)
    (rest : text) :
  at_cursor L pre (c :: rest) -> plain c = true -> peek L = Some c.
Proof.
  intros H Hc. rewrite (at_cursor_peek H). cbn [head_int].
  now apply plain_char_int.
Qed.

Lemma at_cursor_remaining (L : Lexer) (pre rest : text) :
  at_cursor L pre rest -> remaining L = length rest.
Proof.
  intros [Hb Hp]. unfold remaining, len. rewrite Hb, Hp, length_app. lia.
Qed.

Lemma at_cursor_advance (L : Lexer) (pre : text) (c : ascii) (rest : text) :
  at_cursor L pre (c :: rest) ->
  fst (advance L) = char_int c
  /\ at_cursor (snd (advance L)) (pre ++ [c]) rest.
Proof.
  intros H. destruct (at_cursor_char H) as [Hlt Hc].
  destruct (advance_inside L Hlt) as ((Hb & _) & Hp).
  split.
  - rewrite advance_fst, (at_cursor_peek H). reflexivity.
  - destruct H as [Hb0 Hp0]. split.
    + rewrite Hb, Hb0, <- app_assoc. reflexivity.
    + rewrite Hp, Hp0, length_app. simpl. lia.
Qed.

Lemma at_cursor_match (L : Lexer) (pre : text) (c : ascii) (rest : text) :
  at_cursor L pre (c :: rest) -> plain c = true ->
  fst (match_ L c) = true /\ at_cursor (snd (match_ L c)) (pre ++ [c]) rest.
Proof.
  intros H Hpl. pose proof (at_cursor_peek_plain H Hpl) as Hc.
  destruct (match_true L Hc) as [H1 H2]. rewrite H1, H2.
  split; [reflexivity | apply (at_cursor_advance H)].
Qed.

Lemma at_cursor_no_match (L : Lexer) (pre rest : text) (c : ascii) :
  at_cursor L pre rest -> hd_error rest <> Some c -> match_ L c = (false, L).
Proof.
  intros H Hne. unfold match_. rewrite (at_cursor_peek H).
  destruct rest as [|d r]; simpl in *; [reflexivity|].
  unfold char_int. destruct (ch_eqb d EOF_BYTE); [reflexivity|].
  destruct (ch_eqb d c) eqn:E; [|reflexivity].
  apply ch_eqb_eq in E. congruence.
Qed.

(** A loop [while (p(peek(L)))] over a run of plain bytes. *)
Lemma at_cursor_while (p : ascii -> bool) (run : text) :
  forall (n : nat) (L : Lexer) (pre rest : text),
    at_cursor L pre (run ++ rest) ->
    forallb p run = true -> forallb plain run = true ->
    stops p rest = true -> length run <= n ->
    at_cursor (advance_while p n L) (pre ++ run) rest.
Proof.
  induction run as [|c run IH]; intros n L pre rest Hat Hrun Hpl Hstop Hn.
  - simpl in *. rewrite app_nil_r.
    destruct n as [|n]; simpl; [exact Hat|].
    rewrite (at_cursor_peek Hat).
    destruct rest as [|d r]; simpl in *; [exact Hat|].
    unfold char_int. destruct (ch_eqb d EOF_BYTE); [exact Hat|].
    apply negb_true_iff in Hstop. now rewrite Hstop.
  - simpl in Hrun, Hpl. apply andb_true_iff in Hrun as [Hc Hrun].
    apply andb_true_iff in Hpl as [Hpc Hpl].
    destruct n as [|n]; [simpl in Hn; lia|]. simpl.
    rewrite (at_cursor_peek_plain Hat Hpc). rewrite Hc.
    destruct (at_cursor_advance Hat) as [_ Hat'].
    replace (pre ++ c :: run) with ((pre ++ [c]) ++ run)
      by (rewrite <- app_assoc; reflexivity).
    apply IH; auto. simpl in Hn. lia.
Qed.

(** A test that [EOF] fails is failed by the byte 255: the characters of
    its runs are plain. *)
Lemma run_plain (p : ascii -> bool) (run : text) :
  p EOF_BYTE = false -> forallb p run = true -> forallb plain run = true.
Proof.
  intros He. induction run as [|c run IH]; [reflexivity|].
  cbn [forallb]. intros H. apply andb_true_iff in H as [Hc Hr].
  rewrite (IH Hr), andb_true_r. unfold plain. apply negb_true_iff.
  apply ch_eqb_neq. intros ->. congruence.
Qed.

Lemma test_plain (p : ascii -> bool) (c : ascii) :
  p EOF_BYTE = false -> p c = true -> plain c = true.
Proof.
  intros He Hc. unfold plain. apply negb_true_iff, ch_eqb_neq.
  intros ->. congruence.
Qed.

(** The tests of the next character: [EOF] fails them, and so does the
    byte 255. *)
Lemma at_cursor_peek_is (L : Lexer) (pre rest : text) (c : ascii) :
  at_cursor L pre rest -> plain c = true ->
  peek_is L c
  = match hd_error rest with Some d => ch_eqb d c | None => false end.
Proof.
  intros H Hc. unfold peek_is. rewrite (at_cursor_peek H).
  destruct rest as [|d r]; [reflexivity|]. cbn [head_int hd_error].
  unfold char_int. destruct (ch_eqb d EOF_BYTE) eqn:E; [|reflexivity].
  apply ch_eqb_eq in E. subst d. symmetry. apply ch_eqb_neq. intros <-.
  discriminate Hc.
Qed.

Lemma at_cursor_peek_in (p : ascii -> bool) (L : Lexer) (pre rest : text) :
  at_cursor L pre rest -> p EOF_BYTE = false ->
  peek_in p L = match hd_error rest with Some d => p d | None => false end.
Proof.
  intros H Hp. unfold peek_in. rewrite (at_cursor_peek H).
  destruct rest as [|d r]; [reflexivity|]. cbn [head_int hd_error].
  unfold char_int. destruct (ch_eqb d EOF_BYTE) eqn:E; [|reflexivity].
  apply ch_eqb_eq in E. subst d. now rewrite Hp.
Qed.

Lemma at_cursor_lexeme (L : Lexer) (pre w rest : text) :
  at_cursor L (pre ++ w) rest ->
  dup_n (skipn (length pre) (buf L)) (pos L - length pre) = w.
Proof.
  intros [Hb Hp]. unfold dup_n. rewrite Hb, Hp, <- app_assoc.
  rewrite skipn_app, skipn_all, Nat.sub_diag. simpl.
  rewrite length_app.
  replace (length pre + length w - length pre) with (length w + 0) by lia.
  rewrite firstn_app_2. simpl. now rewrite app_nil_r.
Qed.

End BufferView.

(** ** Numbers *)

Section Numbers.

Variables (pre ds rest : text) (l c : Z).
Hypothesis ds_nonempty : ds <> [].
Hypothesis ds_digits : forallb isdigit ds = true.
Hypothesis ds_maximal : stops isdigit rest = true.

Let L : Lexer := mkLexer (pre ++ ds ++ rest) (length pre) l c.

Lemma scan_number_start : at_cursor L pre (ds ++ rest).
Proof. split; reflexivity. Qed.

Lemma scan_number_digits :
  at_cursor (advance_while isdigit (remaining L) L) (pre ++ ds) rest.
Proof.
  apply at_cursor_while; auto using scan_number_start.
  - now apply (@run_plain isdigit).
  - rewrite (at_cursor_remaining scan_number_start), length_app. lia.
Qed.

Lemma scan_number_int :
  hd_error rest <> Some "."%char ->
  type (fst (scan_number L)) = TOK_CONST_INT
  /\ lexeme (fst (scan_number L)) = Some ds
  /\ at_cursor (snd (scan_number L)) (pre ++ ds) rest.
Proof.
  intros Hdot. unfold scan_number.
  pose proof scan_number_digits as H1.
  set (L1 := advance_while isdigit (remaining L) L) in *.
  assert (peek_is L1 "." = false) as ->.
  { rewrite (at_cursor_peek_is "." H1 eq_refl).
    destruct rest as [|d r]; simpl in *; [reflexivity|].
    apply ch_eqb_neq. congruence. }
  simpl. repeat split; try apply H1.
  f_equal. apply (at_cursor_lexeme pre ds H1).
Qed.

Lemma scan_number_after_dot (rest1 : text) :
  rest = "."%char :: rest1 ->
  peek_is (advance_while isdigit (remaining L) L) "." = true
  /\ at_cursor (snd (advance (advance_while isdigit (remaining L) L)))
       (pre ++ ds ++ ["."%char]) rest1.
Proof.
  intros Hr. pose proof scan_number_digits as H1. rewrite Hr in H1.
  split.
  - rewrite (at_cursor_peek_is "." H1 eq_refl). apply ch_eqb_refl.
  - destruct (at_cursor_advance H1) as [_ H2].
    now rewrite <- app_assoc in H2.
Qed.

Lemma scan_number_float (ds2 rest2 : text) :
  rest = "."%char :: ds2 ++ rest2 -> ds2 <> [] ->
  forallb isdigit ds2 = true -> stops isdigit rest2 = true ->
  type (fst (scan_number L)) = TOK_CONST_FLOAT
  /\ lexeme (fst (scan_number L)) = Some (ds ++ "."%char :: ds2)
  /\ at_cursor (snd (scan_number L)) (pre ++ ds ++ "."%char :: ds2) rest2.
Proof.
  intros Hr Hne Hd2 Hstop. unfold scan_number.
  destruct (scan_number_after_dot Hr) as [Hdot H2]. rewrite Hdot.
  set (L2 := snd (advance (advance_while isdigit (remaining L) L))) in *.
  assert (peek_in isdigit L2 = true) as ->.
  { rewrite (at_cursor_peek_in isdigit H2 eq_refl).
    destruct ds2 as [|d r]; [congruence|]. simpl in *.
    now apply andb_true_iff in Hd2 as [-> _]. }
  simpl.
  assert (at_cursor (advance_while isdigit (remaining L2) L2)
            ((pre ++ ds ++ ["."%char]) ++ ds2) rest2) as H3.
  { apply at_cursor_while; auto.
    - now apply (@run_plain isdigit).
    - rewrite (at_cursor_remaining H2), length_app. lia. }
  replace ((pre ++ ds ++ ["."%char]) ++ ds2)
    with (pre ++ ds ++ "."%char :: ds2) in H3
    by (rewrite <- !app_assoc; reflexivity).
  repeat split; try apply H3.
  f_equal. apply (at_cursor_lexeme pre (ds ++ "."%char :: ds2) H3).
Qed.

Lemma scan_number_bad_float (rest1 : text) :
  rest = "."%char :: rest1 -> stops isdigit rest1 = true ->
  type (fst (scan_number L)) = TOK_UNKNOWN
  /\ lexeme (fst (scan_number L)) = Some (str "<bad_float")
  /\ extra (fst (scan_number L)) = None
  /\ at_cursor (snd (scan_number L)) (pre ++ ds ++ ["."%char]) rest1.
Proof.
  intros Hr Hstop. unfold scan_number.
  destruct (scan_number_after_dot Hr) as [Hdot H2]. rewrite Hdot.
  set (L2 := snd (advance (advance_while isdigit (remaining L) L))) in *.
  assert (peek_in isdigit L2 = false) as ->.
  { rewrite (at_cursor_peek_in isdigit H2 eq_refl).
    destruct rest1 as [|d r]; simpl in *; [reflexivity|].
    now apply negb_true_iff. }
  simpl. repeat split; apply H2.
Qed.

End Numbers.

(** C8. In front of a digit, [scan_number] reads the maximal run of digits
    [ds].  When the next character is not a dot the token is a [const_int]
    with lexeme [ds]; when it is a dot followed by the maximal non-empty
    run of digits [ds2] the token is a [const_float] with lexeme
    [ds.ds2]; when it is a dot that no digit follows, the dot is consumed
    and the token is an [unknown] token carrying the bad-float tag (the
    first ten characters of the tag, as the call of [make] copies them). *)
Theorem scan_number_spec (pre ds rest : text) (l c : Z) :
  ds <> [] -> forallb isdigit ds = true -> stops isdigit rest = true ->
  let r := scan_number (mkLexer (pre ++ ds ++ rest) (length pre) l c) in
  (hd_error rest <> Some "."%char ->
     type (fst r) = TOK_CONST_INT /\ lexeme (fst r) = Some ds
     /\ at_cursor (snd r) (pre ++ ds) rest)
  /\ (forall ds2 rest2 : text,
        rest = "."%char :: ds2 ++ rest2 ->
        forallb isdigit ds2 = true -> stops isdigit rest2 = true ->
        (ds2 <> [] ->
           type (fst r) = TOK_CONST_FLOAT
           /\ lexeme (fst r) = Some (ds ++ "."%char :: ds2)
           /\ at_cursor (snd r) (pre ++ ds ++ "."%char :: ds2) rest2)
        /\ (ds2 = [] ->
              type (fst r) = TOK_UNKNOWN
              /\ lexeme (fst r) = Some (str "<bad_float")
              /\ at_cursor (snd r) (pre ++ ds ++ ["."%char]) rest2)).
Proof.
  intros Hne Hd Hstop r. subst r. split.
  - intros Hdot. now apply scan_number_int.
  - intros ds2 rest2 Hr Hd2 Hstop2. split.
    + intros Hne2. now apply scan_number_float.
    + intros ->. simpl in Hr.
      edestruct (@scan_number_bad_float pre ds rest l c)
        as (H1 & H2 & _ & H4); eauto.
Qed.

(** The three shapes of a number on the inputs [12;], [12.5;] and [12.;]. *)
Lemma scan_number_spec_witness :
  (let r := scan_number (mkLexer (str "x=12;") 2 1 3) in
   type (fst r) = TOK_CONST_INT /\ lexeme (fst r) = Some (str "12")
   /\ at_cursor (snd r) (str "x=12") (str ";"))
  /\ (let r := scan_number (mkLexer (str "x=12.5;") 2 1 3) in
      type (fst r) = TOK_CONST_FLOAT /\ lexeme (fst r) = Some (str "12.5")
      /\ at_cursor (snd r) (str "x=12.5") (str ";"))
  /\ (let r := scan_number (mkLexer (str "x=12.;") 2 1 3) in
      type (fst r) = TOK_UNKNOWN /\ lexeme (fst r) = Some (str "<bad_float")
      /\ at_cursor (snd r) (str "x=12.") (str ";")).
Proof.
  split; [|split].
  - refine (proj1 (@scan_number_spec (str "x=") (str "12") (str ";") 1 3
                     _ eq_refl eq_refl) _);
      simpl; discriminate.
  - refine (proj1 (proj2 (@scan_number_spec (str "x=") (str "12") (str ".5;") 1 3
                            _ eq_refl eq_refl)
                     (str "5") (str ";") eq_refl eq_refl eq_refl) _);
      simpl; discriminate.
  - refine (proj2 (proj2 (@scan_number_spec (str "x=") (str "12") (str ".;") 1 3
                            _ eq_refl eq_refl)
                     [] (str ";") eq_refl eq_refl eq_refl) eq_refl).
    simpl; discriminate.
Defined.

(** ** The keyword DFA accepts exactly the keywords *)

Section KeywordDFA.

Lemma find_node_Some (c : ascii) (nodes : list DFANode) (n : DFANode) :
  find_node c nodes = Some n -> In n nodes /\ val n = c.
Proof.
  induction nodes as [|m nodes IH]; simpl; [discriminate|].
  destruct (ch_eqb c (val m)) eqn:E.
  - intros H. injection H as <-. apply ch_eqb_eq in E. auto.
  - intros H. destruct (IH H). auto.
Qed.

Lemma find_node_None (c : ascii) (nodes : list DFANode) :
  find_node c nodes = None -> forall n, In n nodes -> val n <> c.
Proof.
  induction nodes as [|m nodes IH]; simpl; [tauto|].
  destruct (ch_eqb c (val m)) eqn:E; [discriminate|].
  intros H n [<-|Hn]; [|now apply IH].
  apply ch_eqb_neq in E. congruence.
Qed.

Lemma distinct_vals_unique (nodes : list DFANode) (m n : DFANode) :
  distinct_vals nodes = true -> In m nodes -> In n nodes ->
  val m = val n -> m = n.
Proof.
  induction nodes as [|x nodes IH]; simpl; [tauto|].
  intros H Hm Hn Hv. apply andb_true_iff in H as [Hx Hd].
  apply negb_true_iff in Hx.
  assert (forall y, In y nodes -> val x <> val y) as Hfresh.
  { intros y Hy Heq.
    assert (existsb (fun m => ch_eqb (val x) (val m)) nodes = true) as K.
    { apply existsb_exists. exists y. split; [exact Hy|].
      now apply ch_eqb_eq. }
    congruence. }
  destruct Hm as [<-|Hm], Hn as [<-|Hn]; auto.
  - exfalso. now apply (Hfresh n).
  - exfalso. apply (Hfresh m); auto.
Qed.

Lemma words_node_head (n : DFANode) (w : text) :
  In w (words_node n) -> exists r, w = val n :: r.
Proof.
  destruct n as [v l cs]. simpl. intros H. apply in_app_or in H as [H|H].
  - destruct l; simpl in H; [|tauto]. destruct H as [<-|[]]. now exists [].
  - apply in_map_iff in H as (r & <- & _). now exists r.
Qed.

Lemma words_node_leaf (n : DFANode) :
  In [val n] (words_node n) <-> isLeaf n = true.
Proof.
  destruct n as [v l cs]. simpl. split.
  - intros H. apply in_app_or in H as [H|H].
    + destruct l; simpl in H; tauto.
    + apply in_map_iff in H as (r & Hr & Hin). injection Hr as ->.
      apply in_flat_map in Hin as (m & _ & Hm).
      apply words_node_head in Hm as (r & Hr). discriminate.
  - intros ->. apply in_or_app. left. now left.
Qed.

Lemma words_node_step (n : DFANode) (c : ascii) (w : text) :
  In (val n :: c :: w) (words_node n)
  <-> exists m, In m (children n) /\ In (c :: w) (words_node m).
Proof.
  destruct n as [v l cs]. simpl. split.
  - intros H. apply in_app_or in H as [H|H].
    + destruct l; simpl in H; [|tauto]. destruct H as [H|[]]. discriminate.
    + apply in_map_iff in H as (r & Hr & Hin). injection Hr as ->.
      now apply in_flat_map in Hin.
  - intros H. apply in_or_app. right. apply in_map. now apply in_flat_map.
Qed.

Lemma node_ok_children (n : DFANode) :
  node_ok n = true ->
  distinct_vals (children n) = true
  /\ forall m, In m (children n) -> node_ok m = true.
Proof.
  destruct n as [v l cs]. simpl. intros H.
  apply andb_true_iff in H as [H1 H2]. split; [exact H1|].
  now apply forallb_forall.
Qed.

Lemma char_at_app (pre : text) (c : ascii) (rest : text) :
  char_at (pre ++ c :: rest) (length pre) = c.
Proof.
  unfold char_at. rewrite app_nth2 by lia. now rewrite Nat.sub_diag.
Qed.

(** The walk reads the characters [w] of the symbol and nothing else. *)
Lemma dfa_walk_words (w : text) :
  forall (n : DFANode) (pre rest : text),
    node_ok n = true ->
    (dfa_walk (length w) n (pre ++ w ++ rest) (length pre) = true
     <-> In (val n :: w) (words_node n)).
Proof.
  induction w as [|c w IH]; intros n pre rest Hok.
  - simpl. symmetry. apply words_node_leaf.
  - destruct (node_ok_children n Hok) as [Hd Hc].
    cbn [length dfa_walk app]. rewrite char_at_app.
    rewrite words_node_step.
    destruct (find_node c (children n)) as [next|] eqn:E.
    + apply find_node_Some in E as [Hin Hv].
      replace (pre ++ c :: w ++ rest) with ((pre ++ [c]) ++ w ++ rest)
        by (rewrite <- app_assoc; reflexivity).
      replace (S (length pre)) with (length (pre ++ [c]))
        by (rewrite length_app; simpl; lia).
      rewrite (IH next (pre ++ [c]) rest (Hc next Hin)). rewrite Hv. split.
      * intros H. now exists next.
      * intros (m & Hm & Hw).
        destruct (words_node_head _ _ Hw) as (r & Hr). injection Hr as Hcm _.
        assert (m = next) as <-; [|exact Hw].
        apply (distinct_vals_unique (children n)); auto. congruence.
    + split; [discriminate|]. intros (m & Hm & Hw).
      destruct (words_node_head _ _ Hw) as (r & Hr). injection Hr as Hcm _.
      exfalso. apply (find_node_None _ E m Hm). congruence.
Qed.

Lemma dfa_match_words (d : DFA) (w rest : text) :
  dfa_ok d = true ->
  (dfa_match d (w ++ rest) (length w) = true <-> In w (words_dfa d)).
Proof.
  intros Hok. apply andb_true_iff in Hok as [Hd Hn].
  unfold dfa_match, words_dfa. destruct w as [|c w]; simpl.
  - split; [discriminate|]. intros H.
    apply in_flat_map in H as (m & _ & Hm).
    apply words_node_head in Hm as (r & Hr). discriminate.
  - rewrite Nat.sub_0_r. unfold char_at at 1. simpl.
    destruct (find_node c (start d)) as [node|] eqn:E.
    + apply find_node_Some in E as [Hin Hv].
      assert (node_ok node = true) as Hnode
        by (eapply forallb_forall in Hn; eauto).
      pose proof (dfa_walk_words w node [c] rest Hnode) as K.
      simpl in K. rewrite K, Hv. split.
      * intros H. apply in_flat_map. now exists node.
      * intros H. apply in_flat_map in H as (m & Hm & Hw).
        destruct (words_node_head _ _ Hw) as (r & Hr). injection Hr as Hcm _.
        assert (m = node) as <-; [|exact Hw].
        apply (distinct_vals_unique (start d)); auto. congruence.
    + split; [discriminate|]. intros H.
      apply in_flat_map in H as (m & Hm & Hw).
      destruct (words_node_head _ _ Hw) as (r & Hr). injection Hr as Hcm _.
      exfalso. apply (find_node_None _ E m Hm). congruence.
Qed.

Lemma same_words_In (l1 l2 : list text) (w : text) :
  same_words l1 l2 = true -> (In w l1 <-> In w l2).
Proof.
  unfold same_words. intros H. apply andb_true_iff in H as [H1 H2].
  rewrite forallb_forall in H1, H2. split; intros Hin.
  - apply H1 in Hin. apply existsb_exists in Hin as (x & Hx & He).
    apply text_eqb_eq in He. congruence.
  - apply H2 in Hin. apply existsb_exists in Hin as (x & Hx & He).
    apply text_eqb_eq in He. congruence.
Qed.

Lemma kw_built_ok : dfa_ok (kw_dfa kw_built) = true.
Proof. vm_compute. reflexivity. Qed.

Lemma kw_built_words : same_words (words_dfa (kw_dfa kw_built)) KEYWORDS = true.
Proof. vm_compute. reflexivity. Qed.

Lemma build_keyword_dfa_reachable (g : KwState) :
  kw_reachable g -> build_keyword_dfa g = kw_built.
Proof.
  induction 1 as [|g s n _ IH]; [reflexivity|].
  unfold is_keyword_st. cbn [snd]. rewrite IH. reflexivity.
Qed.

Lemma is_keyword_built (s : text) (n : nat) :
  is_keyword s n = dfa_match (kw_dfa kw_built) s n.
Proof. reflexivity. Qed.

(** Whatever calls came before, [is_keyword] answers as on the first call. *)
Lemma is_keyword_st_pure (g : KwState) (s : text) (n : nat) :
  kw_reachable g -> fst (is_keyword_st g s n) = is_keyword s n.
Proof.
  intros H. rewrite is_keyword_built. unfold is_keyword_st. cbn [fst].
  now rewrite (build_keyword_dfa_reachable H).
Qed.

Lemma is_keyword_words (w rest : text) :
  is_keyword (w ++ rest) (length w) = true <-> In w KEYWORDS.
Proof.
  rewrite is_keyword_built.
  rewrite (dfa_match_words _ w rest kw_built_ok).
  apply same_words_In, kw_built_words.
Qed.

Lemma is_keyword_iff (w : text) :
  is_keyword w (length w) = true <-> In w KEYWORDS.
Proof.
  pose proof (is_keyword_words w []) as H. now rewrite app_nil_r in H.
Qed.

End KeywordDFA.

(** C1 (amended). Once the keyword structure is built, [is_keyword]
    answers true exactly on the 22 keywords; so it answers false on every
    proper prefix and on every proper extension of a keyword that is not
    a keyword itself. *)
Theorem is_keyword_exact (g : KwState) (s : text) :
  kw_reachable g ->
  (fst (is_keyword_st g s (length s)) = true <-> In s KEYWORDS)
  /\ (forall k : text,
        In k KEYWORDS -> proper_prefix s k \/ proper_prefix k s ->
        ~ In s KEYWORDS ->
        fst (is_keyword_st g s (length s)) = false).
Proof.
  intros Hg. rewrite (is_keyword_st_pure s (length s) Hg). split.
  - apply is_keyword_iff.
  - intros k _ _ Hs. apply not_true_is_false. intros H.
    now apply is_keyword_iff in H.
Qed.

Lemma is_keyword_exact_witness :
  fst (is_keyword_st kw_initial (str "if") 2) = true
  /\ fst (is_keyword_st kw_built (str "ifx") 3) = false.
Proof.
  split.
  - apply (proj1 (@is_keyword_exact kw_initial (str "if") kw_reach_init)).
    vm_compute. tauto.
  - apply (proj2 (@is_keyword_exact kw_built (str "ifx")
                    (kw_reach_call (str "if") 2 kw_reach_init))
             (str "if")).
    + vm_compute. tauto.
    + right. exists (str "x"). split; [discriminate | reflexivity].
    + vm_compute. intuition discriminate.
Defined.

(** C1 as stated fails on [else]: it is a proper prefix of the keyword
    [elseif] (and [elseif] a proper extension of the keyword [else]), and
    both are keywords. *)
Lemma is_keyword_else_is_prefix_of_elseif :
  In (str "elseif") KEYWORDS
  /\ proper_prefix (str "else") (str "elseif")
  /\ fst (is_keyword_st kw_initial (str "else") 4) = true
  /\ fst (is_keyword_st kw_initial (str "elseif") 6) = true.
Proof.
  split; [|split; [|split]].
  - vm_compute. tauto.
  - exists (str "if"). split; [discriminate | reflexivity].
  - vm_compute. reflexivity.
  - vm_compute. reflexivity.
Qed.

(** ** The word classifiers *)

Section Classifiers.

Ltac bool_hyps :=
  repeat match goal with
         | H : _ && _ = true |- _ => apply andb_true_iff in H; destruct H
         | H : ch_eqb _ _ = true |- _ => apply ch_eqb_eq in H
         | H : (_ =? _) = true |- _ => apply Nat.eqb_eq in H
         end.

Ltac split_len w H :=
  repeat (destruct w as [|? w]; cbn [length] in H; try (exfalso; lia)).

Ltac first_letter_cases c0 w :=
  repeat match goal with
         | |- (if ch_eqb (lowerc c0) ?x then _ else _) = true -> _ =>
             let E := fresh "E" in
             let H := fresh "H" in
             destruct (ch_eqb (lowerc c0) x) eqn:E;
             [apply ch_eqb_eq in E; rewrite E; intros H; bool_hyps;
              split_len w H; cbn in *; subst; vm_compute; tauto |]
         end.

Lemma char_at_cons0 (c : ascii) (s : text) : char_at (c :: s) 0 = c.
Proof. reflexivity. Qed.

Lemma is_type_words (w rest : text) :
  0 < length w ->
  (is_type (w ++ rest) (length w) = true <-> In (lower_first w) TYPE_WORDS).
Proof.
  intros Hw. destruct w as [|c0 w]; [simpl in Hw; lia|]. clear Hw.
  cbn [app lower_first]. unfold is_type. rewrite char_at_cons0. split.
  - first_letter_cases c0 w. discriminate.
  - unfold TYPE_WORDS. cbn [map In]. intros H.
    repeat destruct H as [H|H]; try contradiction;
      injection H as <- <-; reflexivity.
Qed.

Lemma is_noise_words (w rest : text) :
  0 < length w ->
  (is_noise (w ++ rest) (length w) = true <-> In (lower_first w) NOISE_WORDS).
Proof.
  intros Hw. destruct w as [|c0 w]; [simpl in Hw; lia|]. clear Hw.
  cbn [app lower_first]. unfold is_noise. rewrite char_at_cons0. split.
  - repeat match goal with
           | |- (if ch_eqb (lowerc c0) ?x then _ else _) = true -> _ =>
               let E := fresh "E" in
               let H := fresh "H" in
               destruct (ch_eqb (lowerc c0) x) eqn:E;
               [apply ch_eqb_eq in E; rewrite E;
                repeat match goal with
                       | |- (if ?b then _ else _) = true -> _ =>
                           let B := fresh "B" in
                           destruct b eqn:B;
                           [intros _; bool_hyps;
                            match goal with
                            | L : length _ = _ |- _ => split_len w L
                            end; cbn in *; subst; vm_compute; tauto |]
                       end;
                try discriminate;
                intros H; bool_hyps; split_len w H; cbn in *; subst;
                vm_compute; tauto |]
           end.
    discriminate.
  - unfold NOISE_WORDS. cbn [map In]. intros H.
    repeat destruct H as [H|H]; try contradiction;
      injection H as <- <-; reflexivity.
Qed.

Lemma is_bool_lit_words (w rest : text) :
  is_bool_lit (w ++ rest) (length w) <> (-1)%Z
  <-> In (lower_first w) BOOL_WORDS.
Proof.
  unfold is_bool_lit. split.
  - match goal with
    | |- (if ?a then _ else if ?b then _ else _) <> _ -> _ =>
        destruct a eqn:A; [|destruct b eqn:B; [|congruence]]
    end; intros _; bool_hyps;
      match goal with L : length _ = _ |- _ => split_len w L end;
      cbn in *; subst;
      match goal with E : lowerc _ = _ |- _ => rewrite E end;
      vm_compute; tauto.
  - unfold BOOL_WORDS. cbn [map In]. intros H.
    destruct w as [|c0 w]; cbn [lower_first] in H;
      [intuition discriminate|].
    cbn [app]. rewrite !char_at_cons0.
    repeat destruct H as [H|H]; try contradiction;
      injection H as <- <-; cbn; discriminate.
Qed.

Lemma is_word_op_words (w rest : text) :
  fst (is_word_op (w ++ rest) (length w)) = true
  <-> In (map lowerc w) WORD_OPS.
Proof.
  unfold is_word_op. split.
  - destruct (length w =? 3) eqn:E; [|discriminate].
    apply Nat.eqb_eq in E. split_len w E. cbn [app char_at nth map].
    repeat match goal with
           | |- fst (if ?b then _ else _) = true -> _ =>
               let B := fresh "B" in
               destruct b eqn:B;
               [intros _; bool_hyps;
                repeat match goal with
                       | E : lowerc _ = _ |- _ => rewrite E; clear E
                       end;
                vm_compute; tauto |]
           end.
    discriminate.
  - unfold WORD_OPS. cbn [map In]. intros H.
    repeat destruct H as [H|H]; try contradiction;
      destruct w as [|c0 [|c1 [|c2 [|c3 w]]]]; try discriminate;
      cbn [map app length Nat.eqb char_at nth] in *;
      injection H as <- <- <-; reflexivity.
Qed.

End Classifiers.

(** ** The category of a scanned word *)

Section WordKind.

Lemma bool_eq_by_iff (a b : bool) (P : Prop) :
  (a = true <-> P) -> (b = true <-> P) -> a = b.
Proof. destruct a, b; intuition congruence. Qed.

Lemma is_bool_lit_test (s : text) (n : nat) :
  negb (is_bool_lit s n =? -1)%Z = true <-> is_bool_lit s n <> (-1)%Z.
Proof.
  rewrite negb_true_iff. split.
  - intros H. now apply Z.eqb_neq.
  - intros H. now apply Z.eqb_neq.
Qed.

Lemma word_is_bool_iff (w : text) :
  word_is_bool w = true <-> In (lower_first w) BOOL_WORDS.
Proof.
  unfold word_is_bool. rewrite is_bool_lit_test.
  pose proof (is_bool_lit_words w []) as H. now rewrite app_nil_r in H.
Qed.

Lemma word_is_op_iff (w : text) :
  word_is_op w = true <-> In (map lowerc w) WORD_OPS.
Proof.
  pose proof (is_word_op_words w []) as H. now rewrite app_nil_r in H.
Qed.

Lemma word_is_type_iff (w : text) :
  word_is_type w = true <-> In (lower_first w) TYPE_WORDS.
Proof.
  destruct w as [|c w]; [vm_compute; intuition discriminate|].
  pose proof (@is_type_words (c :: w) []) as H. rewrite app_nil_r in H.
  apply H. simpl. lia.
Qed.

Lemma word_is_noise_iff (w : text) :
  word_is_noise w = true <-> In (lower_first w) NOISE_WORDS.
Proof.
  destruct w as [|c w]; [vm_compute; intuition discriminate|].
  pose proof (@is_noise_words (c :: w) []) as H. rewrite app_nil_r in H.
  apply H. simpl. lia.
Qed.

Lemma word_is_keyword_iff (w : text) :
  word_is_keyword w = true <-> In w KEYWORDS.
Proof. apply is_keyword_iff. Qed.

(** The classifiers read the [n] characters of the word only. *)
Lemma word_tests_suffix (w rest : text) :
  0 < length w ->
  negb (is_bool_lit (w ++ rest) (length w) =? -1)%Z = word_is_bool w
  /\ fst (is_word_op (w ++ rest) (length w)) = word_is_op w
  /\ is_type (w ++ rest) (length w) = word_is_type w
  /\ is_keyword (w ++ rest) (length w) = word_is_keyword w
  /\ is_noise (w ++ rest) (length w) = word_is_noise w.
Proof.
  intros Hw. repeat split.
  - eapply bool_eq_by_iff; [|apply word_is_bool_iff].
    rewrite is_bool_lit_test. apply is_bool_lit_words.
  - eapply bool_eq_by_iff; [apply is_word_op_words | apply word_is_op_iff].
  - eapply bool_eq_by_iff; [now apply is_type_words | apply word_is_type_iff].
  - eapply bool_eq_by_iff; [apply is_keyword_words | apply word_is_keyword_iff].
  - eapply bool_eq_by_iff; [now apply is_noise_words | apply word_is_noise_iff].
Qed.

(** [scan_identifier_or_keyword] in front of the word [c :: w]: it reads
    the word and gives it the category [word_kind]. *)
Lemma scan_word (L : Lexer) (pre : text) (c : ascii) (w rest : text) :
  at_cursor L pre (c :: w ++ rest) ->
  forallb is_word_char w = true -> stops is_word_char rest = true ->
  type (fst (scan_identifier_or_keyword L)) = word_kind (c :: w)
  /\ lexeme (fst (scan_identifier_or_keyword L)) = Some (c :: w)
  /\ at_cursor (snd (scan_identifier_or_keyword L)) (pre ++ c :: w) rest.
Proof.
  intros Hat Hw Hstop.
  destruct (at_cursor_advance Hat) as [_ H0].
  set (L0 := snd (advance L)) in *.
  assert (at_cursor (advance_while is_word_char (remaining L0) L0)
            (pre ++ c :: w) rest) as H1.
  { replace (pre ++ c :: w) with ((pre ++ [c]) ++ w)
      by (rewrite <- app_assoc; reflexivity).
    apply at_cursor_while; auto;
      [now apply (@run_plain is_word_char)|].
    rewrite (at_cursor_remaining H0), length_app. lia. }
  assert (pos L = length pre) as Hp by apply Hat.
  unfold scan_identifier_or_keyword. fold L0.
  set (L1 := advance_while is_word_char (remaining L0) L0) in *.
  assert (skipn (pos L) (buf L1) = (c :: w) ++ rest) as Hs.
  { destruct H1 as [Hb _]. rewrite Hb, Hp, <- app_assoc.
    rewrite skipn_app, skipn_all, Nat.sub_diag. reflexivity. }
  assert (pos L1 - pos L = length (c :: w)) as Hn.
  { destruct H1 as [_ Hq]. rewrite Hq, Hp, length_app. lia. }
  rewrite Hs, Hn.
  assert (0 < length (c :: w)) as Hlen by (simpl; lia).
  destruct (word_tests_suffix (c :: w) rest Hlen) as (T1 & T2 & T3 & T4 & T5).
  rewrite T1, T3, T4, T5. clear T1 T3 T4 T5.
  assert (dup_n ((c :: w) ++ rest) (length (c :: w)) = c :: w) as Hd.
  { unfold dup_n. replace (length (c :: w)) with (length (c :: w) + 0) by lia.
    rewrite firstn_app_2. simpl. now rewrite app_nil_r. }
  unfold word_kind.
  assert (forall ty ex,
             let t := set_col (make L1 ty (Some ((c :: w) ++ rest))
                                 (length (c :: w)) ex) (col L) in
             type t = ty /\ lexeme t = Some (c :: w)) as K.
  { intros ty ex. cbn [set_col make type lexeme option_map]. rewrite Hd.
    split; reflexivity. }
  destruct (word_is_bool (c :: w)).
  { cbn [negb fst snd]. split; [apply K | split; [apply K | exact H1]]. }
  destruct (is_word_op ((c :: w) ++ rest) (length (c :: w))) as [wop ex].
  cbn [fst] in T2. rewrite <- T2.
  destruct wop.
  { cbn [negb fst snd]. split; [apply K | split; [apply K | exact H1]]. }
  destruct (word_is_type (c :: w)).
  { cbn [negb fst snd]. split; [apply K | split; [apply K | exact H1]]. }
  destruct (word_is_keyword (c :: w)).
  { cbn [negb fst snd]. split; [apply K | split; [apply K | exact H1]]. }
  destruct (word_is_noise (c :: w)); cbn [negb fst snd];
    (split; [apply K | split; [apply K | exact H1]]).
Qed.

Lemma lowerc_idempotent (c : ascii) : lowerc (lowerc c) = lowerc c.
Proof. destruct c as [[] [] [] [] [] [] [] []]; reflexivity. Qed.

Lemma lowerc_t (c : ascii) : lowerc c = "t"%char <-> c = "t"%char \/ c = "T"%char.
Proof.
  split.
  - destruct c as [[] [] [] [] [] [] [] []]; vm_compute; intros H;
      solve [discriminate H | auto].
  - intros [->| ->]; reflexivity.
Qed.

Lemma lowerc_f (c : ascii) : lowerc c = "f"%char <-> c = "f"%char \/ c = "F"%char.
Proof.
  split.
  - destruct c as [[] [] [] [] [] [] [] []]; vm_compute; intros H;
      solve [discriminate H | auto].
  - intros [->| ->]; reflexivity.
Qed.

Lemma bool_spellings (w : text) :
  In (lower_first w) BOOL_WORDS <-> In w BOOL_SPELLINGS.
Proof.
  unfold BOOL_WORDS, BOOL_SPELLINGS. cbn [map In].
  destruct w as [|c w]; cbn [lower_first]; [intuition discriminate|]. split.
  - intros [H|[H|[]]]; injection H as H1 <-; symmetry in H1.
    + apply lowerc_t in H1 as [->| ->]; vm_compute; tauto.
    + apply lowerc_f in H1 as [->| ->]; vm_compute; tauto.
  - intros [H|[H|[H|[H|[]]]]]; injection H as <- <-; vm_compute; tauto.
Qed.

Lemma word_kind_bool (w : text) :
  word_kind w = TOK_CONST_BOOL <-> word_is_bool w = true.
Proof.
  unfold word_kind. destruct (word_is_bool w); [tauto|].
  split; [|discriminate].
  destruct (word_is_op w), (word_is_type w), (word_is_keyword w),
    (word_is_noise w); discriminate.
Qed.

End WordKind.

(** C5 (amended). A scanned word is classified as [const_bool] exactly
    when it is one of [true], [True], [false], [False]: the first letter
    is compared through [lowerc], the other letters as they are. *)
Theorem bool_literal_spellings (L : Lexer) (pre : text) (c : ascii)
    (w rest : text) :
  at_cursor L pre (c :: w ++ rest) ->
  forallb is_word_char w = true -> stops is_word_char rest = true ->
  lexeme (fst (scan_identifier_or_keyword L)) = Some (c :: w)
  /\ (type (fst (scan_identifier_or_keyword L)) = TOK_CONST_BOOL
      <-> In (c :: w) BOOL_SPELLINGS).
Proof.
  intros Hat Hw Hstop.
  destruct (@scan_word L pre c w rest Hat Hw Hstop) as (Hty & Hlex & _).
  split; [exact Hlex|].
  rewrite Hty, word_kind_bool, word_is_bool_iff. apply bool_spellings.
Qed.

Lemma bool_literal_spellings_witness :
  type (fst (scan_identifier_or_keyword (mkLexer (str "x=False;") 2 1 3)))
  = TOK_CONST_BOOL.
Proof.
  refine (proj2 (proj2 (@bool_literal_spellings
                          (mkLexer (str "x=False;") 2 1 3)
                          (str "x=") "F"%char (str "alse") (str ";")
                          _ eq_refl eq_refl)) _).
  - split; reflexivity.
  - vm_compute. tauto.
Defined.

(** C5 as stated fails on [True]: the scanner makes it a [const_bool]
    although it is neither [true] nor [false]. *)
Lemma capitalised_True_is_const_bool :
  let t := fst (next_token (initial_lexer (str "True"))) in
  type t = TOK_CONST_BOOL /\ lexeme t = Some (str "True")
  /\ str "True" <> str "true" /\ str "True" <> str "false".
Proof. vm_compute. repeat split; discriminate. Qed.

(** ** The word categories against one another *)

Section Categories.

Lemma no_common_word_spec (l1 l2 : list text) (w : text) :
  no_common_word l1 l2 = true -> In w l1 -> In w l2 -> False.
Proof.
  unfold no_common_word. intros H H1 H2.
  rewrite forallb_forall in H. apply H in H1. apply negb_true_iff in H1.
  assert (existsb (text_eqb w) l2 = true) as K.
  { apply existsb_exists. exists w. split; [exact H2|]. now apply text_eqb_eq. }
  congruence.
Qed.

Lemma map_lowerc_lower_first (w : text) :
  map lowerc (lower_first w) = map lowerc w.
Proof. destruct w as [|c w]; simpl; [reflexivity|]. now rewrite lowerc_idempotent. Qed.

(** A keyword matches none of the three categories tested before it. *)
Lemma keyword_not_earlier (w : text) :
  In w KEYWORDS ->
  word_is_bool w = false /\ word_is_op w = false /\ word_is_type w = false.
Proof.
  intros H.
  assert (forallb (fun k => negb (word_is_bool k) && negb (word_is_op k)
                            && negb (word_is_type k)) KEYWORDS = true) as K
    by (vm_compute; reflexivity).
  rewrite forallb_forall in K. apply K in H.
  apply andb_true_iff in H as [H H3]. apply andb_true_iff in H as [H1 H2].
  now rewrite negb_true_iff in H1, H2, H3.
Qed.

Lemma keyword_and_noise (w : text) :
  word_is_keyword w = true /\ word_is_noise w = true
  <-> In w KEYWORD_AND_NOISE.
Proof.
  split.
  - intros [Hk Hn]. apply word_is_keyword_iff in Hk.
    unfold KEYWORDS in Hk. cbn [map In] in Hk.
    repeat destruct Hk as [<-|Hk]; try contradiction;
      first [ now (vm_compute; tauto)
            | (exfalso; vm_compute in Hn; discriminate Hn) ].
  - unfold KEYWORD_AND_NOISE. cbn [map In]. intros H.
    repeat destruct H as [<-|H]; try contradiction;
      split; vm_compute; reflexivity.
Qed.

Lemma bool_excludes (w : text) :
  word_is_bool w = true ->
  word_is_op w = false /\ word_is_type w = false
  /\ word_is_keyword w = false /\ word_is_noise w = false.
Proof.
  intros H. pose proof H as Hb. apply word_is_bool_iff in H.
  repeat split; apply not_true_is_false; intros K.
  - apply word_is_op_iff in K. rewrite <- map_lowerc_lower_first in K.
    apply (in_map (map lowerc)) in H.
    apply (@no_common_word_spec (map (map lowerc) BOOL_WORDS) WORD_OPS
             (map lowerc (lower_first w))); auto.
  - apply word_is_type_iff in K.
    apply (@no_common_word_spec BOOL_WORDS TYPE_WORDS (lower_first w)); auto.
  - apply word_is_keyword_iff, keyword_not_earlier in K. intuition congruence.
  - apply word_is_noise_iff in K.
    apply (@no_common_word_spec BOOL_WORDS NOISE_WORDS (lower_first w)); auto.
Qed.

Lemma op_excludes (w : text) :
  word_is_op w = true ->
  word_is_type w = false /\ word_is_keyword w = false
  /\ word_is_noise w = false.
Proof.
  intros H. pose proof H as Ho. apply word_is_op_iff in H.
  repeat split; apply not_true_is_false; intros K.
  - apply word_is_type_iff in K. apply (in_map (map lowerc)) in K.
    rewrite map_lowerc_lower_first in K.
    apply (@no_common_word_spec WORD_OPS (map (map lowerc) TYPE_WORDS)
             (map lowerc w)); auto.
  - apply word_is_keyword_iff, keyword_not_earlier in K. intuition congruence.
  - apply word_is_noise_iff in K. apply (in_map (map lowerc)) in K.
    rewrite map_lowerc_lower_first in K.
    apply (@no_common_word_spec WORD_OPS (map (map lowerc) NOISE_WORDS)
             (map lowerc w)); auto.
Qed.

Lemma type_excludes (w : text) :
  word_is_type w = true ->
  word_is_keyword w = false /\ word_is_noise w = false.
Proof.
  intros H. pose proof H as Ht. apply word_is_type_iff in H.
  repeat split; apply not_true_is_false; intros K.
  - apply word_is_keyword_iff, keyword_not_earlier in K. intuition congruence.
  - apply word_is_noise_iff in K.
    apply (@no_common_word_spec TYPE_WORDS NOISE_WORDS (lower_first w)); auto.
Qed.

End Categories.

(** C6 (amended). Boolean literals, word operators and reserved types
    are disjoint from one another and from the keywords and the noise
    words; keywords and noise words share exactly [then], [do], [end],
    [begin] and [of]; and a scanned word gets the first category of the
    priority order that it matches, which makes these five words
    keywords. *)
Theorem word_categories (w : text) :
  (word_is_bool w = true ->
     word_is_op w = false /\ word_is_type w = false
     /\ word_is_keyword w = false /\ word_is_noise w = false)
  /\ (word_is_op w = true ->
        word_is_type w = false /\ word_is_keyword w = false
        /\ word_is_noise w = false)
  /\ (word_is_type w = true ->
        word_is_keyword w = false /\ word_is_noise w = false)
  /\ (word_is_keyword w = true /\ word_is_noise w = true
      <-> In w KEYWORD_AND_NOISE)
  /\ (In w KEYWORD_AND_NOISE -> word_kind w = TOK_KEYWORD)
  /\ (forall (L : Lexer) (pre : text) (c : ascii) (v rest : text),
        w = c :: v -> at_cursor L pre (w ++ rest) ->
        forallb is_word_char v = true -> stops is_word_char rest = true ->
        type (fst (scan_identifier_or_keyword L)) = word_kind w).
Proof.
  split; [apply bool_excludes|].
  split; [apply op_excludes|].
  split; [apply type_excludes|].
  split; [apply keyword_and_noise|].
  split.
  - intros H. apply keyword_and_noise in H as [Hk _].
    pose proof Hk as Hk'. apply word_is_keyword_iff, keyword_not_earlier in Hk'.
    destruct Hk' as (H1 & H2 & H3).
    unfold word_kind. now rewrite H1, H2, H3, Hk.
  - intros L pre c v rest -> Hat Hv Hstop.
    now apply (@scan_word L pre c v rest).
Qed.

Lemma word_categories_witness :
  word_kind (str "then") = TOK_KEYWORD
  /\ type (fst (scan_identifier_or_keyword (mkLexer (str "int x") 0 1 1)))
     = TOK_RESERVED_TYPE.
Proof.
  split.
  - apply (proj1 (proj2 (proj2 (proj2 (proj2
             (word_categories (str "then"))))))).
    vm_compute. tauto.
  - refine (eq_trans
              (proj2 (proj2 (proj2 (proj2 (proj2
                 (word_categories (str "int"))))))
                 (mkLexer (str "int x") 0 1 1) [] "i"%char (str "nt")
                 (str " x") eq_refl _ eq_refl eq_refl) _).
    + split; reflexivity.
    + vm_compute. reflexivity.
Defined.

(** C6 as stated fails on [then]: it is both in the keyword list and
    accepted by the noise-word test. *)
Lemma then_is_keyword_and_noise :
  In (str "then") KEYWORDS
  /\ word_is_keyword (str "then") = true
  /\ word_is_noise (str "then") = true.
Proof. vm_compute. tauto. Qed.

(** ** Comments *)

(** C10, at its failing input: a terminated block comment does not always
    give a comment token, and its text can reach the token stream.  With a
    byte 255 inside, as in the ten bytes of [latin1_comment], the loop of
    [scan_slash_comment_or_op] takes the byte for the end of the input and
    returns an [unknown] token with the tag of an unterminated comment;
    the cursor is left right after that byte, at position 3 of 10, and the
    rest of the comment is scanned as tokens: the word [key] of the
    comment is an identifier of the stream, and the two characters that
    close the comment are two operators. *)
Theorem block_comment_cut_at_byte_255 :
  (let r := scan_slash_comment_or_op (initial_lexer latin1_comment) in
   type (fst r) = TOK_UNKNOWN
   /\ lexeme (fst r) = Some (str "<unterminated_comment>")
   /\ pos (snd r) = 3)
  /\ length latin1_comment = 10
  /\ option_map (map (fun t => (type t, lexeme t)))
       (scan_tokens latin1_comment)
     = Some [ (TOK_UNKNOWN, Some (str "<unterminated_comment>"));
              (TOK_IDENTIFIER, Some (str "key"));
              (TOK_OP_ARITH, Some (str "*"));
              (TOK_OP_ARITH, Some (str "/"));
              (TOK_EOF, None) ].
Proof. vm_compute. auto. Qed.

(** ** The parser: rules for running the productions *)

Unset Implicit Arguments.

Section ParserRules.

Import Syntax.

Variable A B : Type.
Variable total : bool.

Lemma wp_ret (a : A) (st : PState) (Q : A -> PState -> Prop) :
  Q a st -> wp total (ret a) st Q.
Proof. intros H. exact H. Qed.

Lemma wp_bind (c : M A) (k : A -> M B) (st : PState)
    (Q : B -> PState -> Prop) :
  wp total c st (fun a st' => wp total (k a) st' Q) ->
  wp total (bind c k) st Q.
Proof.
  unfold wp, bind. destruct (c st) as [a st'| |]; auto.
Qed.

Lemma wp_mono (c : M A) (st : PState) (Q Q' : A -> PState -> Prop) :
  wp total c st Q -> (forall a st', Q a st' -> Q' a st') ->
  wp total c st Q'.
Proof.
  unfold wp. destruct (c st) as [a st'| |]; auto.
Qed.

Lemma wp_out_of_fuel (st : PState) (Q : A -> PState -> Prop) :
  total = false -> wp total (@out_of_fuel A) st Q.
Proof. intros H. exact H. Qed.

End ParserRules.

Section ParserPrimitives.

Import Syntax.

Variable toks : list ParserToken.
Variable total : bool.

Let n : Z := Z.of_nat (length toks).

Lemma token_at_index (i : Z) (st : PState) :
  at_index toks i st -> (0 <= i < n)%Z ->
  token_at st i = Some (token_of toks i).
Proof.
  intros [Ht Hi] Hr. unfold token_at, g_tok_count, token_of. rewrite Ht.
  fold n.
  destruct (Z.ltb_spec i 0); [lia|]. destruct (Z.leb_spec n i); [lia|].
  simpl. apply nth_error_nth'. subst n. lia.
Qed.

Lemma wp_cur_tok (i : Z) (st : PState) (Q : ParserToken -> PState -> Prop) :
  at_index toks i st -> (0 <= i < n)%Z ->
  Q (token_of toks i) st -> wp total cur_tok st Q.
Proof.
  intros Hat Hr HQ. unfold wp, cur_tok.
  assert (g_tok_index st = i /\ g_tok_count st = n) as [Hi Hc].
  { destruct Hat as [Ht Hi]. unfold g_tok_count. now rewrite Ht. }
  rewrite Hi, Hc.
  destruct (Z.geb_spec i n); [lia|].
  now rewrite (token_at_index i st Hat Hr).
Qed.

Lemma wp_next_tok (i : Z) (st : PState) (Q : unit -> PState -> Prop) :
  at_index toks i st ->
  (forall st' j, at_index toks j st' ->
                 ((i < n - 1)%Z -> j = (i + 1)%Z) ->
                 ((n - 1 <= i)%Z -> j = i) -> Q tt st') ->
  wp total next_tok st Q.
Proof.
  intros [Ht Hi] HQ. unfold wp, next_tok, g_tok_count. rewrite Ht, Hi.
  fold n. destruct (Z.ltb_spec i (n - 1)).
  - apply (HQ _ (i + 1)%Z); [split; reflexivity | auto | lia].
  - apply (HQ _ i); [split; auto | lia | auto].
Qed.

Lemma wp_emit (e : Event) (i : Z) (st : PState) (Q : unit -> PState -> Prop) :
  at_index toks i st ->
  (forall st', at_index toks i st' -> Q tt st') ->
  wp total (emit e) st Q.
Proof.
  intros [Ht Hi] HQ. unfold wp, emit. apply HQ. split; assumption.
Qed.

Lemma wp_syntax_error (msg : text) (i : Z) (st : PState)
    (Q : unit -> PState -> Prop) :
  at_index toks i st -> (0 <= i < n)%Z ->
  (forall st', at_index toks i st' -> Q tt st') ->
  wp total (syntax_error msg) st Q.
Proof.
  intros Hat Hr HQ. unfold syntax_error. apply wp_bind.
  apply (wp_cur_tok i st _ Hat Hr). unfold wp. apply HQ.
  destruct Hat as [Ht Hi]. split; assumption.
Qed.

End ParserPrimitives.

(** ** The parser: every production moves forward inside the stream *)

Section ParserRuns.

Import Syntax.

Variable toks : list ParserToken.
Variable total : bool.
Hypothesis stream_ends_with_eof : total = true -> eof_last toks.

Local Abbreviation n := (Z.of_nat (length toks)).

Lemma kind_eqb_eq (a b : ParserTokKind) : kind_eqb a b = true <-> a = b.
Proof. destruct a, b; simpl; split; congruence. Qed.

Lemma kind_eqb_neq (a b : ParserTokKind) : kind_eqb a b = false <-> a <> b.
Proof. destruct a, b; simpl; split; congruence. Qed.

(** A token that is not [eof] is not the last one of the stream. *)
Lemma not_eof_not_last (i : Z) :
  total = true -> not_eof toks i -> (0 <= i < n)%Z -> (i < n - 1)%Z.
Proof.
  intros Ht Hk Hr. pose proof (stream_ends_with_eof Ht) as He.
  unfold eof_last, not_eof in *.
  destruct (Z.eq_dec i (n - 1)) as [->|]; [contradiction | lia].
Qed.

Lemma is_symbol_not_eof (i : Z) (sym : text) :
  is_symbol (token_of toks i) sym = true -> not_eof toks i.
Proof.
  unfold is_symbol, not_eof. intros H. apply andb_true_iff in H as [H _].
  apply kind_eqb_eq in H. congruence.
Qed.

Lemma is_keyword_tok_not_eof (i : Z) (kw : text) :
  is_keyword_tok (token_of toks i) kw = true -> not_eof toks i.
Proof.
  unfold is_keyword_tok, not_eof. intros H. apply andb_true_iff in H as [H _].
  apply kind_eqb_eq in H. congruence.
Qed.

Lemma is_operator_not_eof (i : Z) (op : text) :
  is_operator (token_of toks i) op = true -> not_eof toks i.
Proof.
  unfold is_operator, not_eof. intros H. apply andb_true_iff in H as [H _].
  apply kind_eqb_eq in H. congruence.
Qed.

Lemma kind_not_eof (i : Z) (k : ParserTokKind) :
  kind_eqb (kind (token_of toks i)) k = true -> k <> PT_EOF -> not_eof toks i.
Proof. unfold not_eof. intros H Hk. apply kind_eqb_eq in H. congruence. Qed.

Lemma is_add_op_not_eof (i : Z) :
  is_add_op (token_of toks i) = true -> not_eof toks i.
Proof.
  unfold is_add_op, not_eof. intros H. apply andb_true_iff in H as [H _].
  apply kind_eqb_eq in H. congruence.
Qed.

Lemma is_mul_op_not_eof (i : Z) :
  is_mul_op (token_of toks i) = true -> not_eof toks i.
Proof.
  unfold is_mul_op, not_eof. intros H. apply andb_true_iff in H as [H _].
  apply kind_eqb_eq in H. congruence.
Qed.

(** One step of the symbolic run of a production. *)
Ltac wp_step :=
  lazymatch goal with
  | |- wp _ (bind _ _) _ _ => apply wp_bind
  | |- wp _ (ret _) _ _ => apply wp_ret
  | |- wp _ (open_tag _) _ _ => unfold open_tag
  | |- wp _ (close_tag _) _ _ => unfold close_tag
  | |- wp _ (leaf_tag _ _) _ _ => unfold leaf_tag
  | |- wp _ (emit ?e) ?st _ =>
      lazymatch goal with
      | H : at_index _ ?i st |- _ =>
          let st' := fresh "st" in
          let H' := fresh "Hat" in
          apply (wp_emit toks total e i st _ H); intros st' H'
      end
  | |- wp _ cur_tok ?st _ =>
      lazymatch goal with
      | H : at_index _ ?i st |- _ =>
          apply (wp_cur_tok toks total i st _ H); [lia|]
      end
  | |- wp _ next_tok ?st _ =>
      lazymatch goal with
      | H : at_index _ ?i st |- _ =>
          let st' := fresh "st" in
          let j := fresh "j" in
          let H' := fresh "Hat" in
          let H1 := fresh "Hnext" in
          let H2 := fresh "Hstay" in
          apply (wp_next_tok toks total i st _ H); intros st' j H' H1 H2
      end
  | |- wp _ (syntax_error ?m) ?st _ =>
      lazymatch goal with
      | H : at_index _ ?i st |- _ =>
          let st' := fresh "st" in
          let H' := fresh "Hat" in
          apply (wp_syntax_error toks total m i st _ H); [lia|];
          intros st' H'
      end
  | |- wp _ (if ?b then _ else _) _ _ =>
      let E := fresh "E" in destruct b eqn:E
  end.

(** Facts on the indices, for [lia]. *)
Ltac index_facts :=
  repeat match goal with
         | H : is_symbol (token_of _ ?i) _ = true |- _ =>
             apply is_symbol_not_eof in H
         | H : is_keyword_tok (token_of _ ?i) _ = true |- _ =>
             apply is_keyword_tok_not_eof in H
         | H : is_operator (token_of _ ?i) _ = true |- _ =>
             apply is_operator_not_eof in H
         | H : is_add_op (token_of _ ?i) = true |- _ =>
             apply is_add_op_not_eof in H
         | H : is_mul_op (token_of _ ?i) = true |- _ =>
             apply is_mul_op_not_eof in H
         | H : kind_eqb (kind (token_of _ ?i)) PT_OPERATOR && _ = true |- _ =>
             apply andb_true_iff in H; destruct H as [H _]
         | H : negb (kind_eqb (kind (token_of _ ?i)) PT_EOF) && _ = true |- _ =>
             apply andb_true_iff in H; destruct H as [H _]
         | H : negb (kind_eqb (kind (token_of _ ?i)) PT_EOF) = false |- _ =>
             apply negb_false_iff, kind_eqb_eq in H
         | H : negb (kind_eqb (kind (token_of _ ?i)) PT_EOF) = true |- _ =>
             apply negb_true_iff, kind_eqb_neq in H;
             fold (not_eof toks i) in H
         | H : kind_eqb (kind (token_of _ ?i)) PT_IDENTIFIER = true |- _ =>
             apply kind_eqb_eq in H; fold (identifier_at toks i) in H
         | H : kind_eqb (kind (token_of _ ?i)) ?k = true |- _ =>
             apply kind_not_eof in H; [|discriminate]
         | H : kind_eqb (kind (token_of _ ?i)) ?k = false |- _ =>
             apply kind_eqb_neq in H
         end.

Ltac finish :=
  unfold fuel_for, any_index, no_index in *;
  index_facts;
  repeat match goal with
         | H : _ /\ _ |- _ => destruct H
         | Ht : total = true, H : total = true -> _ /\ _ |- _ =>
             specialize (H Ht)
         | Ht : total = true, H : total = true -> (_ <= _)%Z |- _ =>
             specialize (H Ht)
         | Ht : total = true, H : total = true /\ _ -> _ |- _ =>
             specialize (fun K => H (conj Ht K))
         | Ht : total = true, Hk : not_eof toks ?i |- _ =>
             lazymatch goal with
             | _ : (i < n - 1)%Z |- _ => fail
             | _ => assert (i < n - 1)%Z
                 by (apply (not_eof_not_last i Ht Hk); lia)
             end
         | Hk : not_eof toks ?i, H : not_eof toks ?i -> _ |- _ =>
             specialize (H Hk)
         | Hk : identifier_at toks ?i, H : identifier_at toks ?i -> _ |- _ =>
             specialize (H Hk)
         | Hk : identifier_at toks ?i |- _ =>
             lazymatch goal with
             | _ : not_eof toks i |- _ => fail
             | _ => assert (not_eof toks i)
                 by (unfold not_eof, identifier_at in *; congruence)
             end
         end;
  try tauto; try lia;
  try (unfold not_eof, identifier_at in *; congruence).

(** The end of a run: the state reached satisfies [reaches]. *)
Ltac reached :=
  lazymatch goal with
  | H : at_index _ ?j ?st |- reaches _ _ _ _ ?st =>
      exists j; split; [exact H | split; [finish | intros ?; finish]]
  end.

Ltac no_fuel HF :=
  apply wp_out_of_fuel;
  destruct (bool_dec total true) as [Ht|Ht];
  [exfalso; destruct (HF Ht) as [? ?]; finish | now apply not_true_is_false].

(** A call of a production whose behaviour is known. *)
Ltac wp_call L :=
  eapply wp_mono;
  [ eapply L; [eassumption | solve [finish] | intros ?; split; solve [finish]]
  | let st' := fresh "st" in
    let k := fresh "k" in
    let Hk := fresh "Hat" in
    let Hr := fresh "Hrk" in
    let Hs := fresh "Hsk" in
    cbv beta; intros ? st' (k & Hk & Hr & Hs) ].

Ltac wp_run := repeat wp_step.

Lemma panic_recover_runs (fuel : nat) :
  runs toks total (panic_recover fuel) 1 fuel any_index (not_eof toks).
Proof.
  induction fuel as [|f IH]; intros i st Hat Hr HF.
  - no_fuel HF.
  - cbn [panic_recover]. wp_run; try reached.
    wp_call IH. reached.
Qed.

Lemma accept_symbol_runs (sym : text) (i : Z) (st : PState) :
  at_index toks i st -> (0 <= i < n)%Z ->
  wp total (accept_symbol sym) st (reaches toks i False).
Proof.
  intros Hat Hr. unfold accept_symbol. wp_run; reached.
Qed.

Lemma expect_symbol_runs (fuel : nat) (sym errmsg : text) :
  runs toks total (expect_symbol fuel sym errmsg) 1 fuel any_index no_index.
Proof.
  intros i st Hat Hr HF. unfold expect_symbol. wp_step.
  eapply wp_mono; [apply (accept_symbol_runs sym i st Hat Hr)|].
  cbv beta. intros ok st' (k & Hk & Hrk & _).
  wp_run; try reached.
  wp_call panic_recover_runs. reached.
Qed.

Lemma parse_decl_stmt_runs (fuel : nat) :
  runs toks total (parse_decl_stmt fuel) 1 fuel any_index (not_eof toks).
Proof.
  intros i st Hat Hr HF. unfold parse_decl_stmt.
  wp_run; wp_call expect_symbol_runs; wp_run; reached.
Qed.

Lemma parse_input_stmt_runs (fuel : nat) :
  runs toks total (parse_input_stmt fuel) 1 fuel any_index (not_eof toks).
Proof.
  intros i st Hat Hr HF. unfold parse_input_stmt.
  wp_run; wp_call expect_symbol_runs; wp_run; reached.
Qed.

Lemma expression_runs (fuel : nat) :
  runs toks total (parse_expression fuel) 5 fuel any_index no_index
  /\ runs toks total (parse_simple_expr fuel) 4 fuel any_index no_index
  /\ runs toks total (parse_simple_expr_loop fuel) 1 fuel any_index no_index
  /\ runs toks total (parse_term fuel) 3 fuel any_index no_index
  /\ runs toks total (parse_term_loop fuel) 1 fuel any_index no_index
  /\ runs toks total (parse_factor fuel) 2 fuel any_index no_index.
Proof.
  induction fuel as [|f (IHe & IHs & IHsl & IHt & IHtl & IHf)].
  - repeat split; intros i st Hat Hr HF; no_fuel HF.
  - repeat split; intros i st Hat Hr HF;
      [ cbn [parse_expression] | cbn [parse_simple_expr]
      | cbn [parse_simple_expr_loop] | cbn [parse_term]
      | cbn [parse_term_loop] | cbn [parse_factor] ];
      repeat first [ wp_step | wp_call IHe | wp_call IHs | wp_call IHsl
                   | wp_call IHt | wp_call IHtl | wp_call IHf
                   | wp_call panic_recover_runs ];
      reached.
Qed.

Lemma parse_expression_runs (fuel : nat) :
  runs toks total (parse_expression fuel) 5 fuel any_index no_index.
Proof. apply expression_runs. Qed.

Lemma parse_print_stmt_runs (fuel : nat) :
  runs toks total (parse_print_stmt fuel) 5 fuel any_index (not_eof toks).
Proof.
  intros i st Hat Hr HF. unfold parse_print_stmt.
  repeat first [ wp_step | wp_call parse_expression_runs
               | wp_call expect_symbol_runs ];
    reached.
Qed.

Lemma parse_assign_stmt_runs (fuel : nat) :
  runs toks total (parse_assign_stmt fuel) 5 fuel any_index (identifier_at toks).
Proof.
  intros i st Hat Hr HF. unfold parse_assign_stmt.
  repeat first [ wp_step | wp_call parse_expression_runs
               | wp_call expect_symbol_runs ];
    reached.
Qed.

Lemma parse_assign_no_semicolon_runs (fuel : nat) :
  runs toks total (parse_assign_no_semicolon fuel) 5 fuel any_index no_index.
Proof.
  intros i st Hat Hr HF. unfold parse_assign_no_semicolon.
  repeat first [ wp_step | wp_call parse_expression_runs ]; reached.
Qed.

Lemma statement_runs (fuel : nat) :
  runs toks total (parse_statement fuel) 6 fuel any_index (not_eof toks)
  /\ runs toks total (parse_block fuel) 7 fuel any_index no_index
  /\ runs toks total (parse_block_loop fuel) 7 fuel any_index no_index
  /\ runs toks total (parse_if_stmt fuel) 1 fuel (not_eof toks) (not_eof toks)
  /\ runs toks total (parse_while_stmt fuel) 1 fuel (not_eof toks) (not_eof toks)
  /\ runs toks total (parse_for_stmt fuel) 1 fuel (not_eof toks) (not_eof toks).
Proof.
  induction fuel as [|f (IHs & IHb & IHbl & IHi & IHw & IHf)].
  - repeat split; intros i st Hat Hr HF; no_fuel HF.
  - repeat split; intros i st Hat Hr HF;
      [ cbn [parse_statement] | cbn [parse_block] | cbn [parse_block_loop]
      | cbn [parse_if_stmt] | cbn [parse_while_stmt] | cbn [parse_for_stmt] ];
      repeat first [ wp_step | wp_call IHs | wp_call IHb | wp_call IHbl
                   | wp_call IHi | wp_call IHw | wp_call IHf
                   | wp_call parse_decl_stmt_runs
                   | wp_call parse_input_stmt_runs
                   | wp_call parse_print_stmt_runs
                   | wp_call parse_assign_stmt_runs
                   | wp_call parse_assign_no_semicolon_runs
                   | wp_call parse_expression_runs
                   | wp_call expect_symbol_runs
                   | wp_call panic_recover_runs ];
      reached.
Qed.

Lemma parse_statement_runs (fuel : nat) :
  runs toks total (parse_statement fuel) 6 fuel any_index (not_eof toks).
Proof. apply statement_runs. Qed.

Lemma parse_stmt_list_runs (fuel : nat) (i : Z) (st : PState) :
  at_index toks i st -> (0 <= i < n)%Z ->
  (total = true -> fuel_for toks 7 i fuel) ->
  wp total (parse_stmt_list fuel) st
    (fun iters st' =>
       exists j : Z,
         at_index toks j st' /\ (i <= j < n)%Z
         /\ (total = true ->
             (Z.of_nat iters <= j - i)%Z
             /\ kind (token_of toks j) = PT_EOF)).
Proof.
  revert i st. induction fuel as [|f IH]; intros i st Hat Hr HF.
  - apply wp_out_of_fuel.
    destruct (bool_dec total true) as [Ht|Ht];
      [exfalso; finish | now apply not_true_is_false].
  - cbn [parse_stmt_list]. do 2 wp_step. wp_step.
    + wp_step. wp_call parse_statement_runs.
      wp_step. eapply wp_mono; [apply (IH k st0 Hat0)|].
      * finish.
      * intros Ht. finish.
      * cbv beta. intros iters st' (j & Hj & Hrj & Hsj).
        wp_step. exists j. split; [exact Hj|]. split; [finish|].
        intros Ht. specialize (Hsj Ht). finish. split; [lia | assumption].
    + wp_step. exists i. split; [exact Hat|]. split; [lia|].
      intros _. index_facts. split; [simpl; lia | exact E].
Qed.

Lemma parse_program_runs (fuel : nat) (i : Z) (st : PState) :
  at_index toks i st -> (0 <= i < n)%Z ->
  (total = true -> fuel_for toks 7 i fuel) ->
  wp total (parse_program fuel) st
    (fun iters st' =>
       exists j : Z,
         at_index toks j st' /\ (i <= j < n)%Z
         /\ (total = true ->
             (Z.of_nat iters <= j - i)%Z
             /\ kind (token_of toks j) = PT_EOF)).
Proof.
  intros Hat Hr HF. unfold parse_program. wp_run.
  eapply wp_mono; [apply (parse_stmt_list_runs fuel i st0 Hat0 Hr HF)|].
  cbv beta. intros iters st' (j & Hj & Hrj & Hsj).
  wp_run. exists j. split; [exact Hat1|]. split; [exact Hrj | exact Hsj].
Qed.

End ParserRuns.

(** ** The parser: termination and reads inside the stream *)

Section ParserTheorems.

Import Syntax.

Lemma wp_total_result (A : Type) (c : M A) (st : PState)
    (Q : A -> PState -> Prop) :
  wp true c st Q -> exists a st', c st = Ok a st' /\ Q a st'.
Proof.
  unfold wp. destruct (c st) as [a st'| |]; intros H;
    [now exists a, st' | discriminate | contradiction].
Qed.

Lemma wp_partial_result (A : Type) (c : M A) (st : PState)
    (Q : A -> PState -> Prop) :
  wp false c st Q -> c st <> BadRead.
Proof.
  unfold wp. destruct (c st) as [a st'| |]; intros H; congruence.
Qed.

Lemma no_eof_needed (toks : list ParserToken) : false = true -> eof_last toks.
Proof. discriminate. Qed.

End ParserTheorems.

(** C4. On a token sequence that ends with an [eof] token, a call of
    [parse_statement] on a current token that is not [eof] returns with
    a strictly greater token index, and [parse_program] returns: the
    loop of [parse_stmt_list] makes at most as many iterations as tokens
    were consumed, and stops on an [eof] token.  Fuel of ten units per
    token is enough for the run. *)
Theorem parsing_completes (toks : list Syntax.ParserToken) :
  toks <> [] -> eof_last toks ->
  (forall (i : Z) (st : Syntax.PState) (fuel : nat),
      at_index toks i st -> (0 <= i < Z.of_nat (length toks))%Z ->
      not_eof toks i -> 10 * length toks <= fuel ->
      exists (st' : Syntax.PState) (j : Z),
        Syntax.parse_statement fuel st = Syntax.Ok tt st'
        /\ at_index toks j st' /\ (i < j < Z.of_nat (length toks))%Z)
  /\ (forall (st : Syntax.PState) (fuel : nat),
         at_index toks 0 st -> 10 * length toks <= fuel ->
         exists (iters : nat) (st' : Syntax.PState) (j : Z),
           Syntax.parse_program fuel st = Syntax.Ok iters st'
           /\ at_index toks j st'
           /\ (Z.of_nat iters <= j < Z.of_nat (length toks))%Z
           /\ Syntax.kind (token_of toks j) = Syntax.PT_EOF).
Proof.
  intros Hne Hlast.
  assert (0 < length toks) as Hlen by (destruct toks; [congruence | simpl; lia]).
  split.
  - intros i st fuel Hat Hr Hk Hfuel.
    destruct (@wp_total_result unit (Syntax.parse_statement fuel) st
                (reaches toks i (true = true /\ not_eof toks i)))
      as ([] & st' & Hrun & j & Hj & Hrj & Hsj).
    { apply (parse_statement_runs toks true (fun _ => Hlast) fuel i st Hat Hr).
      intros _. split; [unfold fuel_for; lia | exact I]. }
    exists st', j. split; [exact Hrun|]. split; [exact Hj|].
    specialize (Hsj (conj eq_refl Hk)). lia.
  - intros st fuel Hat Hfuel.
    destruct (wp_total_result _ _ _ _
                (parse_program_runs toks true (fun _ => Hlast) fuel 0 st Hat
                   ltac:(lia) ltac:(intros _; unfold fuel_for; lia)))
      as (iters & st' & Hrun & j & Hj & Hrj & Hsj).
    exists iters, st', j. destruct (Hsj eq_refl) as [H1 H2].
    split; [exact Hrun|]. split; [exact Hj|]. split; [lia | exact H2].
Qed.

Lemma parsing_completes_witness :
  (exists (st' : Syntax.PState) (j : Z),
      Syntax.parse_statement 60 (Syntax.initial_state malformed_stream)
      = Syntax.Ok tt st'
      /\ at_index malformed_stream j st' /\ (0 < j < 6)%Z)
  /\ (exists (iters : nat) (st' : Syntax.PState) (j : Z),
         Syntax.parse_program 60 (Syntax.initial_state malformed_stream)
         = Syntax.Ok iters st'
         /\ at_index malformed_stream j st'
         /\ (Z.of_nat iters <= j < 6)%Z
         /\ Syntax.kind (token_of malformed_stream j) = Syntax.PT_EOF).
Proof.
  assert (malformed_stream <> []) as H1 by discriminate.
  assert (eof_last malformed_stream) as H2 by reflexivity.
  split.
  - apply (proj1 (parsing_completes malformed_stream H1 H2) 0%Z
             (Syntax.initial_state malformed_stream) 60).
    + split; reflexivity.
    + simpl. lia.
    + unfold not_eof. simpl. discriminate.
    + simpl. lia.
  - apply (proj2 (parsing_completes malformed_stream H1 H2)
             (Syntax.initial_state malformed_stream) 60).
    + split; reflexivity.
    + simpl. lia.
Defined.

(** C9. With a non-empty token sequence and an index that is not
    negative, [cur_tok] returns the token at the index when the index is
    below the count and the last token otherwise; [next_tok] never moves
    the index beyond the last token; and no run of the parser, however
    long, reads a token outside the sequence. *)
Theorem parser_reads_inside_stream (toks : list Syntax.ParserToken) :
  toks <> [] ->
  (forall (i : Z) (st : Syntax.PState),
      at_index toks i st -> (0 <= i)%Z ->
      ((i < Z.of_nat (length toks))%Z ->
       Syntax.cur_tok st = Syntax.Ok (token_of toks i) st)
      /\ ((Z.of_nat (length toks) <= i)%Z ->
          Syntax.cur_tok st
          = Syntax.Ok (token_of toks (Z.of_nat (length toks) - 1)) st))
  /\ (forall (i : Z) (st : Syntax.PState),
         at_index toks i st ->
         exists (st' : Syntax.PState) (j : Z),
           Syntax.next_tok st = Syntax.Ok tt st' /\ at_index toks j st'
           /\ (i <= j <= Z.max i (Z.of_nat (length toks) - 1))%Z)
  /\ (forall (i : Z) (st : Syntax.PState) (fuel : nat),
         at_index toks i st -> (0 <= i < Z.of_nat (length toks))%Z ->
         Syntax.parse_program fuel st <> Syntax.BadRead
         /\ Syntax.parse_statement fuel st <> Syntax.BadRead
         /\ Syntax.parse_expression fuel st <> Syntax.BadRead).
Proof.
  intros Hne.
  assert (0 < length toks) as Hlen by (destruct toks; [congruence | simpl; lia]).
  split; [|split].
  - intros i st Hat Hi.
    assert (Syntax.g_tok_index st = i
            /\ Syntax.g_tok_count st = Z.of_nat (length toks)) as [Hx Hc].
    { destruct Hat as [Ht Hx]. unfold Syntax.g_tok_count. now rewrite Ht. }
    split; intros Hr; unfold Syntax.cur_tok; rewrite Hx, Hc.
    + destruct (Z.geb_spec i (Z.of_nat (length toks))); [lia|].
      now rewrite (token_at_index toks i st Hat ltac:(lia)).
    + destruct (Z.geb_spec i (Z.of_nat (length toks))); [|lia].
      unfold Syntax.token_at. rewrite Hc.
      destruct (Z.ltb_spec (Z.of_nat (length toks) - 1) 0); [lia|].
      destruct (Z.leb_spec (Z.of_nat (length toks))
                  (Z.of_nat (length toks) - 1)); [lia|].
      simpl. destruct Hat as [Ht _]. rewrite Ht. unfold token_of.
      rewrite (nth_error_nth' toks Syntax.eof_token); [reflexivity | lia].
  - intros i st [Ht Hx]. unfold Syntax.next_tok, Syntax.g_tok_count.
    rewrite Ht, Hx.
    destruct (Z.ltb_spec i (Z.of_nat (length toks) - 1)).
    + eexists _, (i + 1)%Z. split; [reflexivity|].
      split; [split; reflexivity | lia].
    + exists st, i. split; [reflexivity|]. split; [split; assumption | lia].
  - intros i st fuel Hat Hr. split; [|split].
    + eapply wp_partial_result.
      apply (parse_program_runs toks false (@no_eof_needed toks) fuel i st
               Hat Hr).
      discriminate.
    + eapply wp_partial_result.
      apply (parse_statement_runs toks false (@no_eof_needed toks) fuel i st
               Hat Hr).
      discriminate.
    + eapply wp_partial_result.
      apply (parse_expression_runs toks false (@no_eof_needed toks) fuel i st
               Hat Hr).
      discriminate.
Qed.

Lemma parser_reads_inside_stream_witness :
  Syntax.cur_tok (Syntax.initial_state malformed_stream)
  = Syntax.Ok (Syntax.mkParserToken Syntax.PT_SYMBOL (str ")"))
      (Syntax.initial_state malformed_stream)
  /\ Syntax.parse_program 3 (Syntax.initial_state malformed_stream)
     <> Syntax.BadRead.
Proof.
  assert (malformed_stream <> []) as H1 by discriminate.
  split.
  - apply (proj1 (proj1 (parser_reads_inside_stream malformed_stream H1) 0%Z
                    (Syntax.initial_state malformed_stream)
                    (conj eq_refl eq_refl) ltac:(lia))).
    simpl. lia.
  - apply (proj2 (proj2 (parser_reads_inside_stream malformed_stream H1)) 0%Z
             (Syntax.initial_state malformed_stream) 3
             (conj eq_refl eq_refl)).
    simpl. lia.
Defined.

(** ** The loader and the capacity of the token array *)

Section LoaderCapacity.

Lemma load_line_length (line : text) (toks : list Syntax.ParserToken) :
  length (Syntax.load_line line toks)
  <= Nat.max (length toks) Syntax.MAX_TOKENS.
Proof.
  unfold Syntax.load_line.
  destruct (Syntax.trim line) as [|c0 l]; [lia|].
  repeat match goal with
         | |- context [if ?b then toks else _] => destruct b; [lia|]
         end.
  destruct (Syntax.sscanf_row (c0 :: l)) as [[rawLex rawKind]|]; [|lia].
  destruct (Nat.ltb_spec (length toks) Syntax.MAX_TOKENS); [|lia].
  rewrite length_app. simpl. lia.
Qed.

(** The reading loop keeps to the capacity: its store is guarded. *)
Lemma load_loop_length (n : nat) :
  forall (fp : text) (toks : list Syntax.ParserToken),
    length (Syntax.load_loop n fp toks)
    <= Nat.max (length toks) Syntax.MAX_TOKENS.
Proof.
  induction n as [|n IH]; intros fp toks; cbn [Syntax.load_loop]; [lia|].
  destruct fp as [|c fp]; [lia|].
  destruct (Syntax.fgets (Syntax.MAX_LINE - 1) (c :: fp)) as [line fp'].
  specialize (IH fp' (Syntax.load_line line toks)).
  pose proof (load_line_length line toks). lia.
Qed.

(** The number of tokens after the loader is at most the capacity plus
    one: the store of the [eof] token is the one without a guard. *)
Lemma load_tokens_count (file : option text) :
  (fst (Syntax.load_tokens_from_symbol_table file)
   <= Z.of_nat Syntax.MAX_TOKENS + 1)%Z.
Proof.
  destruct file as [fp|]; cbn [Syntax.load_tokens_from_symbol_table fst];
    [|unfold Syntax.MAX_TOKENS; lia].
  pose proof (load_loop_length (length fp) fp []) as H. cbn [length] in H.
  set (toks := Syntax.load_loop (length fp) fp []) in *.
  unfold Syntax.append_eof.
  destruct (last (map (fun t => Some (Syntax.kind t)) toks) None)
    as [[]|]; rewrite ?length_app; cbn [length]; lia.
Qed.

End LoaderCapacity.

(** C2, at its failing input: on a table of 2000 rows that does not end
    with an [eof] row, the loader stores the [eof] token in slot 2000 and
    returns 2001, one more than [MAX_TOKENS]. *)
Theorem loader_exceeds_capacity :
  fst (Syntax.load_tokens_from_symbol_table (Some oversized_table)) = 2001%Z
  /\ (Z.of_nat Syntax.MAX_TOKENS < 2001)%Z
  /\ nth_error (snd (Syntax.load_tokens_from_symbol_table (Some oversized_table)))
       2000
     = Some Syntax.eof_token.
Proof. vm_compute. repeat split; reflexivity. Qed.

(** ** The loader on the rows written by the scanner *)

Section LoaderLines.

Lemma cstr_plain (s : text) :
  no_nul s = true -> cstr s = s.
Proof.
  induction s as [|c s IH]; simpl; [reflexivity|].
  intros H. apply andb_true_iff in H as [H1 H2].
  apply negb_true_iff in H1. rewrite H1. now rewrite IH.
Qed.

Lemma cstr_no_nul (s : text) :
  no_nul (cstr s) = true.
Proof.
  induction s as [|c s IH]; simpl; [reflexivity|].
  destruct (ch_eqb c NUL) eqn:E; simpl; [reflexivity|].
  now rewrite E, IH.
Qed.

Lemma cstr_idempotent (s : text) : cstr (cstr s) = cstr s.
Proof. apply cstr_plain, cstr_no_nul. Qed.

Lemma cstr_app (a b : text) :
  no_nul a = true ->
  cstr (a ++ b) = a ++ cstr b.
Proof.
  induction a as [|c a IH]; simpl; [reflexivity|].
  intros H. apply andb_true_iff in H as [H1 H2].
  apply negb_true_iff in H1. rewrite H1. now rewrite IH.
Qed.

(** [fgets] on a line that fits in the buffer. *)
Lemma fgets_line (line rest : text) (n : nat) :
  forallb (fun c => negb (ch_eqb c LF)) line = true ->
  length line < n ->
  Syntax.fgets n (line ++ LF :: rest) = (line ++ [LF], rest).
Proof.
  revert n; induction line as [|c line IH]; intros n Hl Hn.
  - destruct n as [|n]; [simpl in Hn; lia|]. reflexivity.
  - simpl in Hl. apply andb_true_iff in Hl as [Hc Hl].
    apply negb_true_iff in Hc.
    destruct n as [|n]; [simpl in Hn; lia|].
    cbn [Syntax.fgets app]. rewrite Hc.
    rewrite (IH n Hl); [reflexivity | simpl in Hn; lia].
Qed.

(** The first loop of [trim] goes over the blanks at the right end and
    stops at the last character that is not white space. *)
Lemma rtrim_len_blanks (x : text) (c : ascii) (ws : text) :
  forall tail : text,
    isspace c = false -> forallb isspace ws = true ->
    Syntax.rtrim_len (length (x ++ [c]) + length ws) (x ++ [c] ++ ws ++ tail)
    = length (x ++ [c]).
Proof.
  induction ws as [|w ws IH] using rev_ind; intros tail Hc Hws.
  - replace (length (x ++ [c]) + length (@nil ascii)) with (S (length x))
      by (rewrite length_app; simpl; lia).
    replace (length (x ++ [c])) with (S (length x))
      by (rewrite length_app; simpl; lia).
    cbn [Syntax.rtrim_len].
    replace (char_at (x ++ [c] ++ [] ++ tail) (length x)) with c.
    + assert (ch_eqb c LF = false /\ ch_eqb c CR = false) as [-> ->].
      { split; apply ch_eqb_neq; intros ->; discriminate Hc. }
      now rewrite Hc.
    + symmetry. apply (char_at_app x c ([] ++ tail)).
  - rewrite forallb_app in Hws. apply andb_true_iff in Hws as [Hws Hw].
    simpl in Hw. rewrite andb_true_r in Hw.
    replace (length (x ++ [c]) + length (ws ++ [w]))
      with (S (length (x ++ [c]) + length ws))
      by (rewrite !length_app; simpl; lia).
    cbn [Syntax.rtrim_len].
    replace (char_at (x ++ [c] ++ (ws ++ [w]) ++ tail)
               (length (x ++ [c]) + length ws)) with w.
    + rewrite Hw, !orb_true_r.
      replace (x ++ [c] ++ (ws ++ [w]) ++ tail)
        with (x ++ [c] ++ ws ++ ([w] ++ tail))
        by (rewrite <- !app_assoc; reflexivity).
      now apply IH.
    + symmetry.
      replace (x ++ [c] ++ (ws ++ [w]) ++ tail)
        with (((x ++ [c]) ++ ws) ++ w :: tail)
        by (rewrite <- !app_assoc; reflexivity).
      replace (length (x ++ [c]) + length ws)
        with (length ((x ++ [c]) ++ ws))
        by (rewrite !length_app; reflexivity).
      apply char_at_app.
Qed.

Lemma firstn_exact (a b : text) : firstn (length a) (a ++ b) = a.
Proof. induction a as [|c a IH]; simpl; [reflexivity | now rewrite IH]. Qed.

(** [trim] on a text with blanks at its right end only. *)
Lemma trim_blanks_right (c0 : ascii) (x ws : text) :
  isspace c0 = false -> isspace (last (c0 :: x) " "%char) = false ->
  no_nul (c0 :: x) = true -> no_nul ws = true ->
  forallb isspace ws = true ->
  Syntax.trim ((c0 :: x) ++ ws) = c0 :: x.
Proof.
  intros H0 Hlast Hn Hnw Hws.
  destruct (exists_last (l := c0 :: x) ltac:(discriminate)) as (y & c & Hy).
  assert (isspace c = false) as Hc.
  { rewrite Hy, last_last in Hlast. exact Hlast. }
  unfold Syntax.trim.
  rewrite cstr_plain
    by (unfold no_nul in *; rewrite forallb_app, Hn, Hnw; reflexivity).
  assert (firstn (Syntax.rtrim_len (length ((c0 :: x) ++ ws))
                    ((c0 :: x) ++ ws)) ((c0 :: x) ++ ws) = c0 :: x) as Hr.
  { rewrite Hy.
    pose proof (rtrim_len_blanks y c ws [] Hc Hws) as R.
    rewrite app_nil_r in R.
    replace (length ((y ++ [c]) ++ ws)) with (length (y ++ [c]) + length ws)
      by (rewrite !length_app; reflexivity).
    replace ((y ++ [c]) ++ ws) with (y ++ [c] ++ ws) at 1
      by (rewrite <- app_assoc; reflexivity).
    rewrite R. apply firstn_exact. }
  rewrite Hr. cbn [Syntax.ltrim_start]. rewrite H0. reflexivity.
Qed.

End LoaderLines.

Section LoaderRows.

Lemma scanset_field (f : text) :
  forall (rest : text) (n : nat),
    forallb (fun c => negb (ch_eqb c "|")) f = true -> length f <= n ->
    Syntax.scanset n (f ++ "|"%char :: rest) = (f, "|"%char :: rest).
Proof.
  induction f as [|c f IH]; intros rest n Hf Hn.
  - destruct n; reflexivity.
  - simpl in Hf. apply andb_true_iff in Hf as [Hc Hf].
    apply negb_true_iff in Hc.
    destruct n as [|n]; [simpl in Hn; lia|].
    cbn [Syntax.scanset app]. rewrite Hc.
    rewrite (IH rest n Hf); [reflexivity | simpl in Hn; lia].
Qed.

(** The second field of a row written by the scanner, as [sscanf] and
    [trim] read it. *)
Lemma sscanf_kind_field (ty : TokenType) :
  Syntax.scanset 127
    (Syntax.skip_space (str " " ++ pad_right 16 (tname ty) ++ str " |"))
  = (kind_field ty, str "|")
  /\ Syntax.trim (kind_field ty) = tname ty
  /\ kind_field ty <> [].
Proof.
  destruct ty; vm_compute; repeat split; discriminate.
Qed.

Lemma map_kind_not_eof (ty : TokenType) :
  ty <> TOK_EOF -> Syntax.map_kind (tname ty) <> Syntax.PT_EOF.
Proof. destruct ty; intros H; try congruence; vm_compute; discriminate. Qed.

(** A line that [load_line] takes for a row of data. *)
Lemma load_line_data (line l rawLex rawKind : text)
    (toks : list Syntax.ParserToken) :
  Syntax.trim line = "|"%char :: l ->
  header_like ("|"%char :: l) = false ->
  Syntax.sscanf_row ("|"%char :: l) = Some (rawLex, rawKind) ->
  length toks < Syntax.MAX_TOKENS ->
  Syntax.load_line line toks
  = toks ++ [Syntax.mkParserToken (Syntax.map_kind (Syntax.trim rawKind))
               (firstn (Syntax.MAX_LEXEME - 1) (Syntax.trim rawLex))].
Proof.
  intros Ht Hh Hs Hn. unfold Syntax.load_line. rewrite Ht.
  cbv beta iota. unfold header_like in Hh. rewrite Hh, Hs.
  assert (Syntax.str_starts_with ("|"%char :: l) (str "Source:") = false)
    as -> by reflexivity.
  replace (ch_eqb "|" "+" || ch_eqb "|" "-") with false by reflexivity.
  replace (negb (ch_eqb "|" "|")) with false by reflexivity.
  apply Nat.ltb_lt in Hn. rewrite Hn. reflexivity.
Qed.

Lemma forallb_repeat (p : ascii -> bool) (c : ascii) (k : nat) :
  p c = true -> forallb p (repeat c k) = true.
Proof. intros H. induction k; simpl; [reflexivity | now rewrite H]. Qed.

Lemma table_text_facts (s : text) :
  table_text s = true ->
  exists (c0 : ascii) (x : text),
    s = c0 :: x /\ isspace c0 = false
    /\ isspace (last s " "%char) = false
    /\ no_nul s = true
    /\ forallb (fun c => negb (ch_eqb c "|")) s = true
    /\ forallb (fun c => negb (ch_eqb c LF)) s = true
    /\ length s <= 20.
Proof.
  unfold table_text. intros H.
  apply andb_true_iff in H as [H H4]. apply andb_true_iff in H as [H H3].
  apply andb_true_iff in H as [H1 H2].
  destruct s as [|c0 x]; [discriminate|]. exists c0, x.
  apply negb_true_iff in H1, H2. apply Nat.leb_le in H4.
  repeat split; auto; unfold no_nul;
    apply forallb_forall; intros c Hc;
    rewrite forallb_forall in H3; specialize (H3 c Hc);
    unfold plain_char in H3;
    apply andb_true_iff in H3 as [H3 Hl]; apply andb_true_iff in H3 as [Hb Hn];
    assumption.
Qed.

Lemma pad_right_plain (w : nat) (s : text) :
  no_nul s = true -> pad_right w s = s ++ repeat " "%char (w - length s).
Proof. intros H. unfold pad_right. now rewrite (cstr_plain s H). Qed.

End LoaderRows.

Section LoaderRoundTrip.

Lemma no_nul_app (a b : text) : no_nul (a ++ b) = no_nul a && no_nul b.
Proof. apply forallb_app. Qed.

Lemma no_nul_pad_right (w : nat) (s : text) : no_nul (pad_right w s) = true.
Proof.
  unfold pad_right. rewrite no_nul_app, cstr_no_nul.
  apply forallb_repeat. reflexivity.
Qed.

Lemma row_text_shape (lex tok : text) :
  row_text lex tok
  = "|"%char :: " "%char
    :: (pad_right 20 lex ++ [" "%char])
       ++ "|"%char :: (str " " ++ pad_right 16 tok ++ str " |").
Proof. unfold row_text. simpl. now rewrite <- app_assoc. Qed.

Lemma row_text_last (lex tok : text) :
  last (row_text lex tok) " "%char = "|"%char.
Proof.
  unfold row_text. rewrite !app_assoc.
  change (str " |") with ([" "%char] ++ ["|"%char]).
  rewrite app_assoc. apply last_last.
Qed.

Lemma row_text_no_nul (lex tok : text) : no_nul (row_text lex tok) = true.
Proof.
  unfold row_text. rewrite !no_nul_app, !no_nul_pad_right. reflexivity.
Qed.

Lemma trim_row (lex tok : text) :
  Syntax.trim (row_text lex tok ++ [LF]) = row_text lex tok.
Proof.
  pose proof (row_text_last lex tok) as Hl.
  pose proof (row_text_no_nul lex tok) as Hn.
  rewrite row_text_shape in *.
  apply trim_blanks_right; auto.
  rewrite Hl. reflexivity.
Qed.

Lemma skip_space_stop (c : ascii) (s : text) :
  isspace c = false -> Syntax.skip_space (c :: s) = c :: s.
Proof. intros H. simpl. now rewrite H. Qed.

(** [sscanf] on the row of a text that the table carries unchanged. *)
Lemma sscanf_row_text (lex : text) (ty : TokenType) :
  table_text lex = true ->
  exists ws : text,
    forallb isspace ws = true /\ no_nul ws = true
    /\ Syntax.sscanf_row (row_text lex (tname ty))
       = Some (lex ++ ws, kind_field ty).
Proof.
  intros Hlex.
  destruct (table_text_facts lex Hlex)
    as (c0 & x & -> & H0 & Hlast & Hn & Hbar & Hlf & Hlen).
  exists (repeat " "%char (20 - length (c0 :: x)) ++ [" "%char]).
  split; [|split].
  - rewrite forallb_app, forallb_repeat; reflexivity.
  - unfold no_nul. rewrite forallb_app, forallb_repeat; reflexivity.
  - rewrite row_text_shape, (pad_right_plain 20 (c0 :: x) Hn).
    unfold Syntax.sscanf_row.
    replace (Syntax.skip_space
               (" "%char
                :: (((c0 :: x) ++ repeat " "%char (20 - length (c0 :: x)))
                    ++ [" "%char])
                   ++ "|"%char
                      :: str " " ++ pad_right 16 (tname ty) ++ str " |"))
      with ((((c0 :: x) ++ repeat " "%char (20 - length (c0 :: x)))
             ++ [" "%char])
            ++ "|"%char :: str " " ++ pad_right 16 (tname ty) ++ str " |").
    2:{ cbn [Syntax.skip_space]. replace (isspace " ") with true by reflexivity.
        cbn [app]. now rewrite skip_space_stop. }
    rewrite scanset_field.
    + destruct (sscanf_kind_field ty) as (Hk & _ & Hne).
      rewrite Hk. cbn [app].
      destruct (kind_field ty) as [|k0 k]; [congruence|].
      now rewrite <- app_assoc.
    + rewrite !forallb_app, Hbar, forallb_repeat; reflexivity.
    + rewrite !length_app, repeat_length. simpl length in *. lia.
Qed.

(** The row of a token of the table is read back as its parser view. *)
Lemma load_line_row (t : Token) (toks : list Syntax.ParserToken) :
  table_token t = true -> length toks < Syntax.MAX_TOKENS ->
  Syntax.load_line (row_text (shown t) (tname (type t)) ++ [LF]) toks
  = toks ++ [parser_view t].
Proof.
  intros Ht Hn. unfold table_token in Ht.
  apply andb_true_iff in Ht as [Ht Hh]. apply andb_true_iff in Ht as [_ Hlex].
  apply negb_true_iff in Hh.
  destruct (sscanf_row_text (shown t) (type t) Hlex) as (ws & Hws & Hnw & Hs).
  destruct (table_text_facts (shown t) Hlex)
    as (c0 & x & Hx & H0 & Hlast & Hnn & _ & _ & Hlen).
  pose proof (trim_row (shown t) (tname (type t))) as Htrim.
  rewrite row_text_shape in Htrim, Hh, Hs |- *.
  rewrite (load_line_data _ _ _ _ toks Htrim Hh Hs Hn).
  destruct (sscanf_kind_field (type t)) as (_ & Hk & _). rewrite Hk.
  unfold parser_view.
  rewrite Hx in *. rewrite (trim_blanks_right c0 x ws H0 Hlast Hnn Hnw Hws).
  rewrite firstn_all2; [reflexivity|].
  unfold Syntax.MAX_LEXEME. simpl length in *. lia.
Qed.

End LoaderRoundTrip.

Section LoaderFile.

Lemma load_loop_lines (lines : list text) :
  forall (n : nat) (toks : list Syntax.ParserToken),
    forallb short_line lines = true ->
    length (file_of_lines lines) <= n ->
    Syntax.load_loop n (file_of_lines lines) toks
    = fold_left (fun ts l => Syntax.load_line (l ++ [LF]) ts) lines toks.
Proof.
  induction lines as [|l lines IH]; intros n toks Hs Hn.
  - destruct n; reflexivity.
  - simpl in Hs. apply andb_true_iff in Hs as [Hl Hs].
    unfold short_line in Hl. apply andb_true_iff in Hl as [Hlf Hlen].
    apply Nat.ltb_lt in Hlen.
    unfold file_of_lines in *. cbn [map List.concat fold_left] in *.
    rewrite <- app_assoc in *. cbn [app] in *.
    rewrite length_app in Hn. cbn [length] in Hn.
    destruct n as [|n]; [lia|].
    assert (Syntax.load_loop (S n)
              (l ++ LF :: List.concat (map (fun l0 => l0 ++ [LF]) lines)) toks
            = Syntax.load_loop n
                (List.concat (map (fun l0 => l0 ++ [LF]) lines))
                (Syntax.load_line (l ++ [LF]) toks)) as ->.
    { destruct l as [|c l]; cbn [Syntax.load_loop app].
      - pose proof (fgets_line []
                      (List.concat (map (fun l0 => l0 ++ [LF]) lines))
                      (Syntax.MAX_LINE - 1) Hlf Hlen) as F.
        cbn [app] in F. now rewrite F.
      - pose proof (fgets_line (c :: l)
                      (List.concat (map (fun l0 => l0 ++ [LF]) lines))
                      (Syntax.MAX_LINE - 1) Hlf Hlen) as F.
        cbn [app] in F. now rewrite F. }
    apply IH; [exact Hs | lia].
Qed.

Lemma file_of_lines_app (a b : list text) :
  file_of_lines (a ++ b) = file_of_lines a ++ file_of_lines b.
Proof. unfold file_of_lines. now rewrite map_app, concat_app. Qed.

Lemma write_head_lines (src : text) :
  write_head src
  = file_of_lines [ str "Source: " ++ cstr src; border_line;
                    row_text (str "Lexeme") (str "Token"); border_line ].
Proof.
  unfold write_head, file_of_lines, border, table_line, border_line, row_text.
  cbn [map List.concat]. rewrite app_nil_r, <- !app_assoc. reflexivity.
Qed.

Lemma write_row_line (t : Token) :
  length (cstr (shown t)) <= 20 ->
  write_row (shown t) (tname (type t)) = row_of_token t ++ [LF].
Proof.
  intros Ht. unfold write_row, row_of_token, table_line, row_text.
  destruct (Nat.ltb_spec 20 (length (cstr (shown t)))); [lia|].
  now rewrite <- !app_assoc.
Qed.

Lemma symbol_table_lines (src : text) (toks : list Token) :
  forallb (fun t => length (cstr (shown t)) <=? 20) toks = true ->
  symbol_table src toks = file_of_lines (table_lines src toks).
Proof.
  intros H. unfold symbol_table, table_lines.
  rewrite !file_of_lines_app, <- write_head_lines.
  assert (List.concat (map (fun t => write_row (shown t) (tname (type t))) toks)
          = file_of_lines (map row_of_token toks)) as ->.
  { induction toks as [|t toks IH]; [reflexivity|].
    simpl in H. apply andb_true_iff in H as [Ht H].
    apply Nat.leb_le in Ht.
    cbn [map List.concat]. rewrite (IH H), (write_row_line t Ht).
    reflexivity. }
  reflexivity.
Qed.

End LoaderFile.

Section LoaderTable.

Lemma trailing_blanks (q : text) :
  exists q1 ws : text,
    q = q1 ++ ws /\ forallb isspace ws = true
    /\ isspace (last q1 ":"%char) = false.
Proof.
  induction q as [|c q IH] using rev_ind.
  - exists [], []. repeat split.
  - destruct IH as (q1 & ws & -> & Hws & Hl).
    destruct (isspace c) eqn:Hc.
    + exists q1, (ws ++ [c]). rewrite app_assoc. split; [reflexivity|].
      split; [|exact Hl]. rewrite forallb_app, Hws. simpl. now rewrite Hc.
    + exists ((q1 ++ ws) ++ [c]), []. rewrite app_nil_r.
      split; [reflexivity|]. split; [reflexivity|]. now rewrite last_last.
Qed.

Lemma last_after (a : text) (c : ascii) (q : text) (d : ascii) :
  last ((a ++ [c]) ++ q) d = last q c.
Proof.
  induction q as [|z q _] using rev_ind.
  - rewrite app_nil_r. apply last_last.
  - rewrite app_assoc, !last_last. reflexivity.
Qed.

(** The line with the source path is skipped, whatever the path. *)
Lemma load_line_source (p : text) (toks : list Syntax.ParserToken) :
  no_nul p = true ->
  Syntax.load_line ((str "Source: " ++ p) ++ [LF]) toks = toks.
Proof.
  intros Hp.
  destruct (trailing_blanks (" "%char :: p ++ [LF])) as (q1 & ws & Hq & Hws & Hl).
  assert (no_nul q1 = true /\ no_nul ws = true) as [Hn1 Hn2].
  { apply andb_true_iff. rewrite <- no_nul_app, <- Hq.
    change (" "%char :: p ++ [LF]) with ([" "%char] ++ p ++ [LF]).
    now rewrite !no_nul_app, Hp. }
  assert ((str "Source: " ++ p) ++ [LF]
          = ("S"%char :: str "ource:" ++ q1) ++ ws) as ->.
  { change (str "Source: ") with (str "Source:" ++ [" "%char]).
    rewrite <- !app_assoc. cbn [app str list_ascii_of_string].
    cbn [app] in Hq. rewrite Hq. reflexivity. }
  assert (Syntax.trim (("S"%char :: str "ource:" ++ q1) ++ ws)
          = "S"%char :: str "ource:" ++ q1) as Htrim.
  { apply trim_blanks_right; [reflexivity | | | exact Hn2 | exact Hws].
    - change ("S"%char :: str "ource:" ++ q1)
        with ((str "Source" ++ [":"%char]) ++ q1).
      now rewrite last_after.
    - change ("S"%char :: str "ource:" ++ q1) with (str "Source:" ++ q1).
      now rewrite no_nul_app, Hn1. }
  unfold Syntax.load_line. rewrite Htrim. cbv beta iota.
  assert (Syntax.str_starts_with ("S"%char :: str "ource:" ++ q1)
            (str "Source:") = true) as ->; [|reflexivity].
  cbn. reflexivity.
Qed.

Lemma load_line_border (toks : list Syntax.ParserToken) :
  Syntax.load_line (border_line ++ [LF]) toks = toks.
Proof. reflexivity. Qed.

Lemma load_line_header (toks : list Syntax.ParserToken) :
  Syntax.load_line (row_text (str "Lexeme") (str "Token") ++ [LF]) toks = toks.
Proof. reflexivity. Qed.

(** The row of the [eof] token of the scanner has an empty first field,
    which [sscanf] does not convert: the row is skipped. *)
Lemma load_line_eof_row (toks : list Syntax.ParserToken) :
  Syntax.load_line (row_text [] (tname TOK_EOF) ++ [LF]) toks = toks.
Proof. reflexivity. Qed.

Lemma load_rows (body : list Token) :
  forall toks : list Syntax.ParserToken,
    forallb table_token body = true ->
    length toks + length body <= Syntax.MAX_TOKENS ->
    fold_left (fun ts l => Syntax.load_line (l ++ [LF]) ts)
      (map row_of_token body) toks
    = toks ++ map parser_view body.
Proof.
  induction body as [|t body IH]; intros toks Hb Hn.
  - simpl. now rewrite app_nil_r.
  - simpl in Hb. apply andb_true_iff in Hb as [Ht Hb].
    cbn [map fold_left length] in *.
    change (Syntax.load_line (row_of_token t ++ [LF]) toks)
      with (Syntax.load_line (row_text (shown t) (tname (type t)) ++ [LF]) toks).
    rewrite (load_line_row t toks Ht) by lia.
    rewrite (IH _ Hb) by (rewrite length_app; simpl; lia).
    now rewrite <- app_assoc.
Qed.

Lemma tname_short (ty : TokenType) :
  forallb (fun c => negb (ch_eqb c LF)) (pad_right 16 (tname ty)) = true
  /\ length (pad_right 16 (tname ty)) = 16.
Proof. destruct ty; split; reflexivity. Qed.

Lemma row_short (lex : text) (ty : TokenType) :
  forallb (fun c => negb (ch_eqb c LF)) (cstr lex) = true ->
  length (cstr lex) <= 20 ->
  short_line (row_text lex (tname ty)) = true.
Proof.
  intros Hlf Hlen. destruct (tname_short ty) as [H1 H2].
  unfold short_line, row_text.
  set (k := pad_right 16 (tname ty)) in *. unfold pad_right.
  apply andb_true_iff. split.
  - rewrite !forallb_app, Hlf, H1, forallb_repeat; reflexivity.
  - apply Nat.ltb_lt. rewrite !length_app, H2, repeat_length.
    unfold Syntax.MAX_LINE. cbn [length str list_ascii_of_string]. lia.
Qed.

Lemma table_token_short (t : Token) :
  table_token t = true ->
  short_line (row_of_token t) = true /\ length (cstr (shown t)) <= 20.
Proof.
  unfold table_token. intros H.
  apply andb_true_iff in H as [H _]. apply andb_true_iff in H as [_ H].
  destruct (table_text_facts _ H) as (c0 & x & Hx & _ & _ & Hn & _ & Hlf & Hlen).
  rewrite <- (cstr_plain _ Hn) in Hlf, Hlen.
  split; [now apply row_short | exact Hlen].
Qed.

End LoaderTable.

(** C7 (amended). Take a path that fits on the first line of the table
    and fewer than [MAX_TOKENS] tokens, none of kind [eof], each shown
    in the table by a text that is not empty, has at most 20 characters,
    no bar, NUL or newline and no white space at its ends, and whose row
    is not taken for the header row; let the [eof] token of the scanner
    follow them.  Reading the table written for these tokens gives as
    many tokens: each token has the kind that [map_kind] gives to its
    label and, as lexeme, the text shown in the table (the subtype label
    when there is one, the lexeme otherwise); the last one is the [eof]
    token that the loader makes, with the text [EOF]. *)
Theorem table_round_trip (src : text) (body : list Token) (e : Token) :
  table_path src = true ->
  forallb table_token body = true ->
  length body < Syntax.MAX_TOKENS ->
  type e = TOK_EOF -> shown e = [] ->
  Syntax.load_tokens_from_symbol_table
    (Some (symbol_table src (body ++ [e])))
  = (Z.of_nat (length (body ++ [e])),
     map parser_view body ++ [Syntax.eof_token]).
Proof.
  intros Hsrc Hbody Hlen Hty Hshown.
  assert (forall t, In t body ->
            short_line (row_of_token t) = true
            /\ length (cstr (shown t)) <= 20) as Hrows.
  { intros t Ht. apply table_token_short.
    rewrite forallb_forall in Hbody. now apply Hbody. }
  assert (row_of_token e = row_text [] (tname TOK_EOF)) as He
    by (unfold row_of_token; now rewrite Hty, Hshown).
  unfold table_path in Hsrc. apply andb_true_iff in Hsrc as [Hs1 Hs2].
  apply Nat.leb_le in Hs2.
  (* the table as a list of lines *)
  assert (symbol_table src (body ++ [e])
          = file_of_lines (table_lines src (body ++ [e]))) as Htab.
  { apply symbol_table_lines. rewrite forallb_app. apply andb_true_iff. split.
    - apply forallb_forall. intros t Ht. apply Nat.leb_le. now apply Hrows.
    - simpl. now rewrite Hshown. }
  assert (forallb short_line (table_lines src (body ++ [e])) = true) as Hshort.
  { assert (short_line (str "Source: " ++ cstr src) = true) as H1.
    { unfold short_line. apply andb_true_iff. split.
      - now rewrite forallb_app, Hs1.
      - apply Nat.ltb_lt. rewrite length_app. unfold Syntax.MAX_LINE.
        cbn [length str list_ascii_of_string]. lia. }
    assert (forallb short_line (map row_of_token body) = true) as H2.
    { apply forallb_forall. intros l Hl.
      apply in_map_iff in Hl as (t & <- & Ht). now apply Hrows. }
    assert (short_line (row_of_token e) = true) as H3
      by (rewrite He; reflexivity).
    unfold table_lines. rewrite map_app, !forallb_app. cbn [forallb map].
    rewrite H1, H2, H3. reflexivity. }
  (* the reading loop *)
  assert (Syntax.load_loop (length (symbol_table src (body ++ [e])))
            (symbol_table src (body ++ [e])) []
          = map parser_view body) as Hloop.
  { rewrite Htab, (load_loop_lines _ _ [] Hshort) by lia.
    unfold table_lines. rewrite map_app, !fold_left_app.
    cbn [fold_left map].
    rewrite (load_line_source (cstr src) [] (cstr_no_nul src)).
    repeat first [rewrite load_line_border | rewrite load_line_header].
    match goal with
    | |- Syntax.load_line _ ?acc = _ =>
        replace acc with (map parser_view body)
          by (symmetry; exact (load_rows body [] Hbody ltac:(simpl; lia)))
    end.
    rewrite He. apply load_line_eof_row. }
  unfold Syntax.load_tokens_from_symbol_table. rewrite Hloop.
  assert (Syntax.append_eof (map parser_view body)
          = map parser_view body ++ [Syntax.eof_token]) as ->.
  { unfold Syntax.append_eof. rewrite map_map.
    destruct body as [|t0 body0] eqn:Eb; [reflexivity|].
    destruct (exists_last (l := t0 :: body0) ltac:(discriminate))
      as (b & t & Hbt).
    rewrite Hbt in *.
    rewrite !map_app. cbn [map]. rewrite last_last.
    assert (In t (b ++ [t])) as Ht by (apply in_or_app; right; now left).
    rewrite forallb_forall in Hbody. apply Hbody in Ht.
    unfold table_token in Ht. apply andb_true_iff in Ht as [Ht _].
    apply andb_true_iff in Ht as [Ht _]. apply negb_true_iff in Ht.
    assert (type t <> TOK_EOF) as Hne.
    { intros K. rewrite K in Ht. discriminate Ht. }
    pose proof (map_kind_not_eof (type t) Hne) as Hk.
    unfold parser_view at 1. cbn [Syntax.kind].
    destruct (Syntax.map_kind (tname (type t))); try reflexivity.
    contradiction. }
  f_equal. rewrite !length_app, length_map. reflexivity.
Qed.

Lemma decl_tokens_scanned : scanned "int x;" = decl_tokens ++ [decl_eof].
Proof. vm_compute. reflexivity. Qed.

Lemma table_round_trip_witness :
  Syntax.load_tokens_from_symbol_table
    (Some (symbol_table (str "sample.ksh") (decl_tokens ++ [decl_eof])))
  = (4%Z,
     [ Syntax.mkParserToken Syntax.PT_TYPE (str "int");
       Syntax.mkParserToken Syntax.PT_IDENTIFIER (str "x");
       Syntax.mkParserToken Syntax.PT_SYMBOL (str ";");
       Syntax.eof_token ]).
Proof.
  refine (eq_trans
            (table_round_trip (str "sample.ksh") decl_tokens decl_eof
               eq_refl eq_refl _ eq_refl eq_refl) _).
  - apply Nat.ltb_lt. reflexivity.
  - reflexivity.
Defined.

(** C7 as stated fails on the tokens of [a div b]: every text shown fits
    in the column, but the table shows the subtype label [DIV] in place
    of the lexeme [div] and an empty text for the [eof] token, and the
    loader gives the text [EOF] to the [eof] token it makes. *)
Lemma round_trip_changes_lexemes :
  forallb (fun t => length (shown t) <=? 20) (scanned "a div b") = true
  /\ map lexeme_text (scanned "a div b") = map str ["a"; "div"; "b"; ""]%string
  /\ map shown (scanned "a div b") = map str ["a"; "DIV"; "b"; ""]%string
  /\ map Syntax.lexeme (reloaded "a div b")
     = map str ["a"; "DIV"; "b"; "EOF"]%string
  /\ map Syntax.lexeme (reloaded "a div b")
     <> map lexeme_text (scanned "a div b")
  /\ map Syntax.lexeme (reloaded "a div b")
     <> map shown (scanned "a div b").
Proof. vm_compute. repeat split; discriminate. Qed.

(** A text with a bar is not read back: the row of the operator [||] has
    no first field for [sscanf], and the loader drops the token. *)
Lemma round_trip_drops_bar_operator :
  map type (scanned "a || b")
  = [TOK_IDENTIFIER; TOK_OP_LOGIC; TOK_IDENTIFIER; TOK_EOF]
  /\ map shown (scanned "a || b") = map str ["a"; "||"; "b"; ""]%string
  /\ reloaded "a || b"
     = [ Syntax.mkParserToken Syntax.PT_IDENTIFIER (str "a");
         Syntax.mkParserToken Syntax.PT_IDENTIFIER (str "b");
         Syntax.eof_token ].
Proof. vm_compute. repeat split; reflexivity. Qed.

(** ** The parser: more fuel does not change a run that ends *)

Section ParserFuel.

Import Syntax.

Lemma stable_refl (A : Type) (c : M A) : stable c c.
Proof. intros st a st' H. exact H. Qed.

Lemma stable_out_of_fuel (A : Type) (c : M A) : stable (@out_of_fuel A) c.
Proof. intros st a st' H. discriminate H. Qed.

Lemma stable_bind (A B : Type) (c c' : M A) (k k' : A -> M B) :
  stable c c' -> (forall a, stable (k a) (k' a)) ->
  stable (bind c k) (bind c' k').
Proof.
  intros Hc Hk st b st' H. unfold bind in *.
  destruct (c st) as [a st1| |] eqn:E; try discriminate.
  rewrite (Hc st a st1 E). now apply Hk.
Qed.

Ltac stable_step :=
  first
    [ apply stable_refl
    | apply stable_out_of_fuel
    | assumption
    | apply stable_bind; [|intro]
    | lazymatch goal with
      | |- stable (if ?b then _ else _) (if ?b then _ else _) => destruct b
      end ].

Lemma panic_recover_stable (f : nat) :
  forall g, f <= g -> stable (panic_recover f) (panic_recover g).
Proof.
  induction f as [|f IH]; intros [|g] Hle; try lia;
    cbn [panic_recover]; try apply stable_out_of_fuel.
  specialize (IH g ltac:(lia)). repeat stable_step.
Qed.

Lemma expect_symbol_stable (f g : nat) (sym errmsg : text) :
  f <= g -> stable (expect_symbol f sym errmsg) (expect_symbol g sym errmsg).
Proof.
  intros Hle. pose proof (panic_recover_stable f g Hle).
  unfold expect_symbol. repeat stable_step.
Qed.

Lemma parse_decl_stmt_stable (f g : nat) :
  f <= g -> stable (parse_decl_stmt f) (parse_decl_stmt g).
Proof.
  intros Hle. pose proof (panic_recover_stable f g Hle).
  unfold parse_decl_stmt, expect_symbol. repeat stable_step.
Qed.

Lemma parse_input_stmt_stable (f g : nat) :
  f <= g -> stable (parse_input_stmt f) (parse_input_stmt g).
Proof.
  intros Hle. pose proof (panic_recover_stable f g Hle).
  unfold parse_input_stmt, expect_symbol. repeat stable_step.
Qed.

Lemma expression_stable (f : nat) :
  forall g, f <= g ->
    stable (parse_expression f) (parse_expression g)
    /\ stable (parse_simple_expr f) (parse_simple_expr g)
    /\ stable (parse_simple_expr_loop f) (parse_simple_expr_loop g)
    /\ stable (parse_term f) (parse_term g)
    /\ stable (parse_term_loop f) (parse_term_loop g)
    /\ stable (parse_factor f) (parse_factor g).
Proof.
  induction f as [|f IH]; intros [|g] Hle; try lia.
  - repeat split; apply stable_out_of_fuel.
  - repeat split; apply stable_out_of_fuel.
  - destruct (IH g ltac:(lia)) as (He & Hs & Hsl & Ht & Htl & Hf).
    pose proof (panic_recover_stable f g ltac:(lia)).
    repeat split;
      cbn [parse_expression parse_simple_expr parse_simple_expr_loop
             parse_term parse_term_loop parse_factor];
      repeat stable_step.
Qed.

Lemma parse_expression_stable (f g : nat) :
  f <= g -> stable (parse_expression f) (parse_expression g).
Proof. intros H. now apply expression_stable. Qed.

Lemma statement_stable (f : nat) :
  forall g, f <= g ->
    stable (parse_statement f) (parse_statement g)
    /\ stable (parse_block f) (parse_block g)
    /\ stable (parse_block_loop f) (parse_block_loop g)
    /\ stable (parse_if_stmt f) (parse_if_stmt g)
    /\ stable (parse_while_stmt f) (parse_while_stmt g)
    /\ stable (parse_for_stmt f) (parse_for_stmt g).
Proof.
  induction f as [|f IH]; intros [|g] Hle; try lia.
  - repeat split; apply stable_out_of_fuel.
  - repeat split; apply stable_out_of_fuel.
  - destruct (IH g ltac:(lia)) as (Hs & Hb & Hbl & Hi & Hw & Hf).
    assert (f <= g) as Hfg by lia.
    pose proof (panic_recover_stable f g Hfg).
    pose proof (parse_expression_stable f g Hfg).
    pose proof (parse_decl_stmt_stable f g Hfg).
    pose proof (parse_input_stmt_stable f g Hfg).
    repeat split;
      cbn [parse_statement parse_block parse_block_loop parse_if_stmt
             parse_while_stmt parse_for_stmt];
      unfold parse_print_stmt, parse_assign_stmt, parse_assign_no_semicolon,
        expect_symbol;
      repeat stable_step.
Qed.

Lemma parse_stmt_list_stable (f : nat) :
  forall g, f <= g -> stable (parse_stmt_list f) (parse_stmt_list g).
Proof.
  induction f as [|f IH]; intros [|g] Hle; try lia;
    cbn [parse_stmt_list]; try apply stable_out_of_fuel.
  specialize (IH g ltac:(lia)).
  destruct (statement_stable f g ltac:(lia)) as (Hs & _).
  repeat stable_step.
Qed.

Lemma parse_program_stable (f g : nat) :
  f <= g -> stable (parse_program f) (parse_program g).
Proof.
  intros Hle. pose proof (parse_stmt_list_stable f g Hle).
  unfold parse_program. repeat stable_step.
Qed.

Lemma parse_statement_stable (f g : nat) :
  f <= g -> stable (parse_statement f) (parse_statement g).
Proof. intros H. now apply statement_stable. Qed.

End ParserFuel.

(** ** The loop counters are large enough *)

Section LoopBounds.

Lemma remaining_advance (L : Lexer) (c : ascii) :
  peek L = Some c -> S (remaining (snd (advance L))) = remaining L.
Proof.
  intros E. pose proof (@peek_Some_lt _ _ E) as Hlt.
  destruct (@advance_Some L _ E) as (_ & (Hb & _) & Hp).
  unfold remaining, len in *. rewrite Hb, Hp. lia.
Qed.

Lemma remaining_advance_inside (L : Lexer) :
  pos L < len L -> S (remaining (snd (advance L))) = remaining L.
Proof.
  intros Hlt. destruct (advance_inside L Hlt) as ((Hb & _) & Hp).
  unfold remaining, len in *. rewrite Hb, Hp. lia.
Qed.

Lemma remaining_advance_le (L : Lexer) :
  remaining (snd (advance L)) <= remaining L.
Proof.
  destruct (Nat.ltb_spec (pos L) (len L)) as [H|H].
  - pose proof (remaining_advance_inside L H). lia.
  - rewrite (advance_end L H). simpl. lia.
Qed.

(** The loop of [scan_string] never stops for lack of iterations: any two
    counters that are at least the number of unread characters give the
    same token and cursor. *)
Lemma scan_string_loop_enough (n : nat) :
  forall (m : nat) (L : Lexer) (p : nat) (col0 : Z),
    remaining L <= n -> remaining L <= m ->
    scan_string_loop n L p col0 = scan_string_loop m L p col0.
Proof.
  induction n as [|n IH]; intros m L p col0 Hn Hm.
  - destruct m as [|m]; [reflexivity|]. cbn [scan_string_loop].
    destruct (peek L) as [c|] eqn:E; [|reflexivity].
    apply remaining_pos in E. lia.
  - destruct m as [|m]; cbn [scan_string_loop].
    + destruct (peek L) as [c|] eqn:E; [|reflexivity].
      apply remaining_pos in E. lia.
    + destruct (peek L) as [c|] eqn:E; [|reflexivity].
      pose proof (@remaining_advance L _ E) as Hr.
      destruct (ch_eqb c BACKSLASH).
      * apply IH.
        -- destruct (peek (snd (advance L))) eqn:E1; [|lia].
           pose proof (@remaining_advance _ _ E1). lia.
        -- destruct (peek (snd (advance L))) eqn:E1; [|lia].
           pose proof (@remaining_advance _ _ E1). lia.
      * destruct (ch_eqb c DQUOTE); [reflexivity|].
        destruct (ch_eqb c LF); [reflexivity|].
        apply IH; lia.
Qed.

(** The same for the loop of a block comment. *)
Lemma block_comment_loop_enough (n : nat) :
  forall (m : nat) (L : Lexer) (prev : ascii) (col0 : Z),
    remaining L <= n -> remaining L <= m ->
    block_comment_loop n L prev col0 = block_comment_loop m L prev col0.
Proof.
  induction n as [|n IH]; intros m L prev col0 Hn Hm.
  - assert (len L <= pos L) as E by (unfold remaining in Hn; lia).
    destruct m; cbn [block_comment_loop]; now rewrite (advance_end L E).
  - destruct (Nat.ltb_spec (pos L) (len L)) as [E|E].
    + pose proof (remaining_advance_inside L E) as Hr.
      destruct m as [|m]; [lia|]. cbn [block_comment_loop].
      destruct (advance L) as [[cur|] L1] eqn:Ea; [|reflexivity].
      cbn [snd] in Hr.
      destruct (ch_eqb prev "*" && ch_eqb cur "/"); [reflexivity|].
      apply IH; lia.
    + destruct m; cbn [block_comment_loop]; now rewrite (advance_end L E).
Qed.

(** A call of [fgets] with room for a character takes at least one from
    a file that is not at its end. *)
Lemma fgets_shorter (n : nat) :
  forall (fp : text), 0 < n -> fp <> [] ->
    length (snd (Syntax.fgets n fp)) < length fp.
Proof.
  induction n as [|n IH]; intros fp Hn Hfp; [lia|].
  destruct fp as [|c r]; [congruence|]. cbn [Syntax.fgets].
  destruct (ch_eqb c LF); [simpl; lia|].
  destruct n as [|n'].
  - simpl. lia.
  - destruct r as [|d r'].
    + simpl. lia.
    + specialize (IH (d :: r') ltac:(lia) ltac:(discriminate)).
      destruct (Syntax.fgets (S n') (d :: r')) as [l r2] eqn:E.
      cbn [snd length] in *. lia.
Qed.

(** The loop of the loader reads the whole file: a counter of at least the
    length of the file gives the same tokens as any larger one. *)
Lemma load_loop_enough (n : nat) :
  forall (m : nat) (fp : text) (toks : list Syntax.ParserToken),
    length fp <= n -> length fp <= m ->
    Syntax.load_loop n fp toks = Syntax.load_loop m fp toks.
Proof.
  induction n as [|n IH]; intros m fp toks Hn Hm.
  - destruct fp; [|simpl in Hn; lia]. destruct m; reflexivity.
  - destruct fp as [|c r]; [destruct m; reflexivity|].
    destruct m as [|m]; [simpl in Hm; lia|].
    cbn [Syntax.load_loop].
    pose proof (@fgets_shorter (Syntax.MAX_LINE - 1) (c :: r)
                  ltac:(unfold Syntax.MAX_LINE; lia) ltac:(discriminate)) as Hs.
    destruct (Syntax.fgets (Syntax.MAX_LINE - 1) (c :: r)) as [line fp'] eqn:E.
    cbn [snd length] in *. apply IH; lia.
Qed.

End LoopBounds.

(** ** The outcome of a parse does not depend on the fuel *)

Section ParserOutcome.

Import Syntax.

(** Ten units of fuel per token are enough, and every larger amount
    gives the same count, the same state and the same output. *)
Lemma parse_program_any_fuel (toks : list ParserToken) (st : PState)
    (f g : nat) :
  toks <> [] -> eof_last toks -> at_index toks 0 st ->
  10 * length toks <= f -> f <= g ->
  parse_program g st = parse_program f st
  /\ exists (iters : nat) (st' : PState), parse_program f st = Ok iters st'.
Proof.
  intros Hne Hlast Hat Hf Hg.
  assert (0 < length toks) as Hlen by (destruct toks; [congruence | simpl; lia]).
  destruct (wp_total_result _ _ _ _
              (parse_program_runs toks true (fun _ => Hlast) f 0 st Hat
                 ltac:(lia) ltac:(intros _; unfold fuel_for; lia)))
    as (iters & st' & Hrun & _).
  split; [|now exists iters, st'].
  rewrite Hrun. exact (parse_program_stable f g Hg st iters st' Hrun).
Qed.

End ParserOutcome.

(** ** Lines and columns *)

Section Positions.

Lemma line_col_app (w1 w2 : text) :
  forall l c : Z,
    line_col l c (w1 ++ w2)
    = line_col (fst (line_col l c w1)) (snd (line_col l c w1)) w2.
Proof.
  induction w1 as [|x w1 IH]; intros l c; simpl; [reflexivity|].
  destruct (ch_eqb x LF); apply IH.
Qed.

Lemma firstn_S_char_at (b : text) (i : nat) :
  i < length b -> firstn (S i) b = firstn i b ++ [char_at b i].
Proof.
  revert i; induction b as [|x b IH]; intros i Hi; simpl in Hi; [lia|].
  destruct i as [|i]; [reflexivity|].
  change (firstn (S (S i)) (x :: b)) with (x :: firstn (S i) b).
  rewrite IH by lia. reflexivity.
Qed.

Lemma tracking_initial (b : text) : tracking (initial_lexer b).
Proof. split; simpl; [lia | reflexivity]. Qed.

Lemma tracking_advance (L : Lexer) : tracking L -> tracking (snd (advance L)).
Proof.
  intros [Hp Ht]. unfold advance.
  destruct (len L <=? pos L) eqn:E; [split; assumption|].
  apply Nat.leb_gt in E.
  assert (forall l c, tracking (mkLexer (buf L) (S (pos L)) l c)
                      <-> (l, c) = line_col 1 1 (firstn (S (pos L)) (buf L))) as K.
  { intros l c. unfold tracking, len. simpl. unfold len in E.
    split; [intros [_ H]; exact H | intros H; split; [lia | exact H]]. }
  unfold len in E.
  rewrite (firstn_S_char_at _ _ E), line_col_app, <- Ht in K. simpl in K.
  destruct (ch_eqb (char_at (buf L) (pos L)) LF); simpl; apply K; reflexivity.
Qed.

Lemma tracking_match (L : Lexer) (ch : ascii) :
  tracking L -> tracking (snd (match_ L ch)).
Proof.
  intros H. unfold match_. destruct (peek L) as [c|]; [|exact H].
  destruct (ch_eqb c ch); simpl; [now apply tracking_advance | exact H].
Qed.

Lemma tracking_while (p : ascii -> bool) (n : nat) :
  forall L : Lexer, tracking L -> tracking (advance_while p n L).
Proof.
  induction n as [|n IH]; intros L H; simpl; [exact H|].
  destruct (peek L) as [c|]; [|exact H].
  destruct (p c); [apply IH; now apply tracking_advance | exact H].
Qed.

Lemma tracking_skip_ws (L : Lexer) : tracking L -> tracking (skip_ws L).
Proof. apply tracking_while. Qed.

Lemma tracking_scan_string_loop (n : nat) :
  forall (L : Lexer) (p : nat) (col0 : Z),
    tracking L -> tracking (snd (scan_string_loop n L p col0)).
Proof.
  induction n as [|n IH]; intros L p col0 H; simpl; [exact H|].
  destruct (peek L) as [c|]; [|exact H].
  destruct (ch_eqb c BACKSLASH).
  - apply IH. pose proof (tracking_advance _ H) as H1.
    destruct (peek (snd (advance L))); [now apply tracking_advance | exact H1].
  - destruct (ch_eqb c DQUOTE); simpl; [now apply tracking_advance|].
    destruct (ch_eqb c LF); simpl; [exact H|].
    apply IH. now apply tracking_advance.
Qed.

Lemma tracking_block_comment_loop (n : nat) :
  forall (L : Lexer) (prev : ascii) (col0 : Z),
    tracking L -> tracking (snd (block_comment_loop n L prev col0)).
Proof.
  induction n as [|n IH]; intros L prev col0 H; simpl;
    pose proof (tracking_advance _ H) as HA;
    destruct (advance L) as [[cur|] L1]; simpl in *; try exact HA;
    destruct (ch_eqb prev "*" && ch_eqb cur "/"); simpl; try exact HA.
  now apply IH.
Qed.

Lemma tracking_scan_string (L : Lexer) :
  tracking L -> tracking (snd (scan_string L)).
Proof.
  intros H. unfold scan_string.
  apply tracking_scan_string_loop. now apply tracking_advance.
Qed.

Lemma tracking_scan_char (L : Lexer) :
  tracking L -> tracking (snd (scan_char L)).
Proof.
  intros H. unfold scan_char.
  pose proof (tracking_advance _ (tracking_advance _ H)) as H2.
  destruct (advance (snd (advance L))) as [c2 L2]. simpl in H2.
  match goal with
  | |- context [peek_is ?X SQUOTE] =>
      assert (tracking X) as H3
        by (destruct c2 as [d|]; [|exact H2];
            destruct (ch_eqb d BACKSLASH);
            [now apply tracking_advance | exact H2]);
      destruct (peek_is X SQUOTE)
  end; simpl; [now apply tracking_advance | exact H3].
Qed.

Lemma tracking_scan_number (L : Lexer) :
  tracking L -> tracking (snd (scan_number L)).
Proof.
  intros H. unfold scan_number.
  pose proof (tracking_while isdigit (remaining L) _ H) as H1.
  destruct (peek_is _ "."); [|exact H1].
  pose proof (tracking_advance _ H1) as H2.
  destruct (peek_in isdigit _); simpl; [|exact H2].
  now apply tracking_while.
Qed.

Lemma tracking_scan_identifier_or_keyword (L : Lexer) :
  tracking L -> tracking (snd (scan_identifier_or_keyword L)).
Proof.
  intros H. rewrite scan_identifier_or_keyword_cursor.
  apply tracking_while. now apply tracking_advance.
Qed.

Lemma tracking_scan_slash_comment_or_op (L : Lexer) :
  tracking L -> tracking (snd (scan_slash_comment_or_op L)).
Proof.
  intros H. unfold scan_slash_comment_or_op.
  pose proof (tracking_match _ "/" H) as H1.
  destruct (match_ L "/") as [m1 L1]. simpl in H1. destruct m1.
  - pose proof (tracking_match _ "/" H1) as H2.
    destruct (match_ L1 "/") as [m2 L2]. simpl in H2. destruct m2; simpl.
    + now apply tracking_while.
    + pose proof (tracking_match _ "*" H2) as H3.
      destruct (match_ L2 "*") as [m3 L3]. simpl in H3. destruct m3; simpl.
      * now apply tracking_block_comment_loop.
      * exact H3.
  - pose proof (tracking_advance _ H1) as H2.
    destruct (advance L1) as [c L2]. exact H2.
Qed.

(** The cascade of [scan_operator]: one two-character operator is tried
    after the other, then the one-character operators. *)
Lemma two_char_case (P : Token * Lexer -> Prop) (c first second : ascii)
    (ty : TokenType) (s : text) (col0 : Z) (L1 : Lexer)
    (otherwise : Token * Lexer) :
  (c = first -> fst (match_ L1 second) = true ->
   P (set_col (make (snd (match_ L1 second)) ty (Some s) 2 (Some s)) col0,
      snd (match_ L1 second))) ->
  ((c = first -> fst (match_ L1 second) = false) -> P otherwise) ->
  P (if ch_eqb c first then
       let '(m, L2) := match_ L1 second in
       if m then (set_col (make L2 ty (Some s) 2 (Some s)) col0, L2)
       else otherwise
     else otherwise).
Proof.
  intros H1 H2. destruct (ch_eqb c first) eqn:E.
  - apply ch_eqb_eq in E. destruct (match_ L1 second) as [[|] L2]; simpl in *.
    + now apply H1.
    + apply H2. reflexivity.
  - apply H2. intros ->. rewrite ch_eqb_refl in E. discriminate.
Qed.

Lemma tracking_scan_operator (L : Lexer) :
  tracking L -> tracking (snd (scan_operator L)).
Proof.
  intros H. unfold scan_operator.
  generalize (tracking_advance _ H). generalize (advance L).
  intros [oc L1] H1. simpl in H1. cbv beta zeta.
  repeat (apply (two_char_case (fun r => tracking (snd r)));
          [intros _ _; now apply tracking_match | intros _]).
  repeat match goal with
         | |- context [if ?b then _ else _] => destruct b
         end; exact H1.
Qed.

Lemma tracking_next_token (L : Lexer) :
  tracking L -> tracking (snd (next_token L)).
Proof.
  intros H0. unfold next_token.
  pose proof (tracking_skip_ws _ H0) as H. set (L1 := skip_ws L) in *.
  pose proof (tracking_advance _ H) as HA.
  destruct (peek L1) as [c|]; [|exact H].
  destruct (is_delim c); [exact HA|].
  destruct (is_bracket c); [exact HA|].
  destruct (isalpha c || ch_eqb c "_");
    [now apply tracking_scan_identifier_or_keyword|].
  destruct (isdigit c); [now apply tracking_scan_number|].
  destruct (ch_eqb c DQUOTE); [now apply tracking_scan_string|].
  destruct (ch_eqb c SQUOTE); [now apply tracking_scan_char|].
  destruct (ch_eqb c "/"); [now apply tracking_scan_slash_comment_or_op|].
  match goal with |- context [if ?b then _ else _] => destruct b end;
    [now apply tracking_scan_operator | exact HA].
Qed.

(** The [eof] token is made where the white space ends. *)
Lemma next_token_eof (L : Lexer) :
  type (fst (next_token L)) = TOK_EOF ->
  tline (fst (next_token L)) = line (snd (next_token L))
  /\ tcol (fst (next_token L)) = col (snd (next_token L)).
Proof.
  intros He. revert He. unfold next_token.
  destruct (peek (skip_ws L)) as [c|] eqn:Hc; [|simpl; auto].
  intros He. exfalso. revert He.
  destruct (is_delim c); [discriminate|].
  destruct (is_bracket c); [discriminate|].
  destruct (isalpha c || ch_eqb c "_");
    [apply (scan_identifier_or_keyword_progress _ Hc)|].
  destruct (isdigit c) eqn:Hd; [apply (scan_number_progress _ Hc Hd)|].
  destruct (ch_eqb c DQUOTE); [apply (scan_string_progress _ Hc)|].
  destruct (ch_eqb c SQUOTE); [apply (scan_char_progress _ Hc)|].
  destruct (ch_eqb c "/") eqn:Hs;
    [apply ch_eqb_eq in Hs; subst c;
     apply (scan_slash_comment_or_op_progress _ Hc)|].
  match goal with |- context [if ?b then _ else _] => destruct b end;
    [apply (scan_operator_progress _ Hc) | discriminate].
Qed.

Lemma at_cursor_here (L : Lexer) :
  pos L <= len L ->
  at_cursor L (firstn (pos L) (buf L)) (skipn (pos L) (buf L)).
Proof.
  intros H. split; [now rewrite firstn_skipn|].
  rewrite length_firstn. unfold len in H. lia.
Qed.

Lemma scan_loop_eof_position (n : nat) :
  forall (L : Lexer) (toks : list Token),
    tracking L -> scan_loop n L = Some toks ->
    exists pre t read rest,
      toks = pre ++ [t] /\ type t = TOK_EOF
      /\ buf L = read ++ rest /\ head_int rest = None
      /\ (tline t, tcol t) = line_col 1 1 read.
Proof.
  induction n as [|n IH]; intros L toks HL; simpl; [discriminate|].
  pose proof (tracking_next_token _ HL) as HT.
  pose proof (next_token_eof L) as HE.
  destruct (next_token_step L) as [(Hb & _) Hs].
  destruct (next_token L) as [t L']. simpl in *.
  destruct (TokenType_eqb (type t) TOK_EOF) eqn:Et.
  - intros [= <-]. apply TokenType_eqb_eq in Et.
    destruct (HE Et) as [El Ec].
    destruct Hs as [(_ & EL & Hend) | [Hne _]]; [|congruence].
    destruct HT as [Hp Ht].
    exists [], t, (firstn (pos L') (buf L')), (skipn (pos L') (buf L')).
    split; [reflexivity|]. split; [exact Et|].
    split; [now rewrite firstn_skipn|].
    split.
    + rewrite <- (at_cursor_peek (at_cursor_here L' Hp)). congruence.
    + rewrite El, Ec. exact Ht.
  - destruct (scan_loop n L') as [rest|] eqn:Er; [|discriminate].
    intros [= <-].
    destruct (IH L' rest HT Er) as (pre & u & rd & rs & -> & Hu & E & Hh & Hpos).
    exists (t :: pre), u, rd, rs. rewrite <- Hb. auto.
Qed.

End Positions.

(** X1. The scanner counts lines and columns from 1: after every call of
    [next_token] the line and the column of the lexer are those of the
    characters read so far (a newline starts a line at column 1, any other
    character moves one column), and the [eof] token that ends the stream
    carries the line and the column of the place where the scanning
    stopped: the end of the part [read], in front of the end of the buffer
    or of a byte 255.  In a buffer without a byte 255 that is the end of
    the whole buffer. *)
Theorem scanner_counts_lines_and_columns :
  (forall b : text, tracking (initial_lexer b))
  /\ (forall L : Lexer,
         tracking L ->
         tracking (snd (next_token L))
         /\ buf (snd (next_token L)) = buf L)
  /\ (forall b : text,
         exists pre t read rest,
           scan_tokens b = Some (pre ++ [t]) /\ type t = TOK_EOF
           /\ b = read ++ rest /\ head_int rest = None
           /\ (tline t, tcol t) = line_col 1 1 read
           /\ (forallb plain b = true -> read = b)).
Proof.
  split; [exact tracking_initial|]. split.
  - intros L H. split; [now apply tracking_next_token|].
    apply (next_token_step L).
  - intros b.
    destruct (@scan_loop_terminates (S (length b)) (initial_lexer b))
      as (pre & t & Hs & _).
    { unfold remaining, len, initial_lexer. simpl. lia. }
    destruct (scan_loop_eof_position _ _ _ (tracking_initial b) Hs)
      as (pre' & t' & rd & rs & E & Ht & Eb & Hh & Hpos).
    exists pre', t', rd, rs. unfold scan_tokens. rewrite Hs, E.
    cbn [buf initial_lexer] in Eb. repeat split; auto.
    intros Hpl. rewrite Eb in Hpl |- *. rewrite forallb_app in Hpl.
    apply andb_true_iff in Hpl as [_ Hpl].
    destruct rs as [|c rs]; [now rewrite app_nil_r|].
    cbn [forallb head_int] in *. apply andb_true_iff in Hpl as [Hc _].
    rewrite (plain_char_int _ Hc) in Hh. discriminate Hh.
Qed.
Lemma scanner_counts_lines_and_columns_witness :
  tracking (snd (next_token (initial_lexer (str "a b")))).
Proof.
  exact (proj1 (proj1 (proj2 scanner_counts_lines_and_columns)
                  (initial_lexer (str "a b"))
                  (proj1 scanner_counts_lines_and_columns (str "a b")))).
Defined.

(** ** The line recorded in a token *)

Section TokenLine.

(** [ends_here r]: the token of [r] carries the line of the lexer of [r]. *)
Local Abbreviation ends_here := (fun r : Token * Lexer => tline (fst r) = line (snd r)).

Lemma advance_same_line (L : Lexer) (c : ascii) :
  peek L = Some c -> c <> LF -> line (snd (advance L)) = line L.
Proof.
  intros Hc Hne. pose proof (peek_Some_lt L Hc) as Hlt.
  pose proof (peek_char_at L Hc) as Hch.
  unfold advance. destruct (len L <=? pos L) eqn:E.
  - apply Nat.leb_le in E. lia.
  - rewrite Hch. apply ch_eqb_neq in Hne. rewrite Hne. reflexivity.
Qed.

Lemma scan_string_loop_line (n : nat) :
  forall (L : Lexer) (p : nat) (col0 : Z),
    ends_here (scan_string_loop n L p col0).
Proof.
  induction n as [|n IH]; intros L p col0; simpl; [reflexivity|].
  destruct (peek L) as [c|] eqn:Hc; [|reflexivity].
  destruct (ch_eqb c BACKSLASH); [apply IH|].
  destruct (ch_eqb c DQUOTE) eqn:Eq; simpl.
  - apply ch_eqb_eq in Eq. subst c. symmetry.
    apply (advance_same_line L _ Hc). discriminate.
  - destruct (ch_eqb c LF); simpl; [reflexivity | apply IH].
Qed.

Lemma block_comment_loop_line (n : nat) :
  forall (L : Lexer) (prev : ascii) (col0 : Z),
    ends_here (block_comment_loop n L prev col0).
Proof.
  induction n as [|n IH]; intros L prev col0; simpl;
    destruct (advance L) as [[cur|] L1]; simpl; try reflexivity;
    destruct (ch_eqb prev "*" && ch_eqb cur "/"); simpl; try reflexivity.
  apply IH.
Qed.

Lemma scan_operator_line (L : Lexer) : ends_here (scan_operator L).
Proof.
  unfold scan_operator. generalize (advance L). intros [oc L1].
  cbv beta zeta.
  repeat (apply (two_char_case ends_here); [intros _ _; reflexivity | intros _]).
  repeat match goal with
         | |- context [if ?b then _ else _] => destruct b
         end; reflexivity.
Qed.

Lemma next_token_line (L : Lexer) : ends_here (next_token L).
Proof.
  unfold next_token. set (L1 := skip_ws L).
  destruct (peek L1) as [c|]; [|reflexivity].
  destruct (is_delim c); [reflexivity|].
  destruct (is_bracket c); [reflexivity|].
  destruct (isalpha c || ch_eqb c "_").
  { unfold scan_identifier_or_keyword.
    repeat match goal with
           | |- context [if ?b then _ else _] => destruct b
           | |- context [let '(_, _) := ?p in _] => destruct p
           end; reflexivity. }
  destruct (isdigit c).
  { unfold scan_number.
    repeat match goal with
           | |- context [if ?b then _ else _] => destruct b
           end; reflexivity. }
  destruct (ch_eqb c DQUOTE); [apply scan_string_loop_line|].
  destruct (ch_eqb c SQUOTE).
  { unfold scan_char. destruct (advance (snd (advance L1))) as [c2 L2].
    match goal with
    | |- context [if ?b then _ else _] => destruct b
    end; reflexivity. }
  destruct (ch_eqb c "/").
  { unfold scan_slash_comment_or_op.
    destruct (match_ L1 "/") as [[|] L2];
      [|destruct (advance L2); reflexivity].
    destruct (match_ L2 "/") as [[|] L3]; [reflexivity|].
    destruct (match_ L3 "*") as [[|] L4]; [|reflexivity].
    apply block_comment_loop_line. }
  match goal with |- context [if ?b then _ else _] => destruct b end;
    [apply scan_operator_line | reflexivity].
Qed.

End TokenLine.

(** X2. The line stored in a token is the line on which the token ends:
    whatever [next_token] scans, the token it returns carries the line of
    the lexer as the call leaves it.  A block comment or an escaped
    newline inside a string thus reports the last of its lines. *)
Theorem token_line_is_line_of_its_end (L : Lexer) :
  tline (fst (next_token L)) = line (snd (next_token L)).
Proof. apply next_token_line. Qed.
(** ** White space and words *)

Section Words.

Lemma advance_position (L : Lexer) (pre : text) (c : ascii) (rest : text) :
  at_cursor L pre (c :: rest) ->
  (line (snd (advance L)), col (snd (advance L)))
  = line_col (line L) (col L) [c].
Proof.
  intros Hat. destruct (@at_cursor_char L pre c rest Hat) as [Hlt Hch].
  unfold advance. destruct (len L <=? pos L) eqn:E.
  - apply Nat.leb_le in E. lia.
  - rewrite Hch. simpl. destruct (ch_eqb c LF); reflexivity.
Qed.

(** A loop [while (p(peek(L))) advance(L)] in front of the run [run]:
    where it stops and what it has counted. *)
Lemma while_position (p : ascii -> bool) (run : text) :
  forall (n : nat) (L : Lexer) (pre rest : text),
    at_cursor L pre (run ++ rest) ->
    forallb p run = true -> forallb plain run = true ->
    stops p rest = true -> length run <= n ->
    (line (advance_while p n L), col (advance_while p n L))
    = line_col (line L) (col L) run.
Proof.
  induction run as [|c run IH]; intros n L pre rest Hat Hrun Hpl Hstop Hn.
  - simpl in *. destruct n as [|n]; simpl; [reflexivity|].
    rewrite (@at_cursor_peek L pre rest Hat).
    destruct rest as [|d r]; simpl in *; [reflexivity|].
    unfold char_int. destruct (ch_eqb d EOF_BYTE); [reflexivity|].
    apply negb_true_iff in Hstop. now rewrite Hstop.
  - simpl in Hrun, Hpl. apply andb_true_iff in Hrun as [Hc Hrun].
    apply andb_true_iff in Hpl as [Hpc Hpl].
    destruct n as [|n]; [simpl in Hn; lia|].
    cbn [advance_while]. cbn [app] in Hat.
    rewrite (@at_cursor_peek_plain L pre c _ Hat Hpc). rewrite Hc.
    destruct (@at_cursor_advance L pre c (run ++ rest) Hat) as [_ Hat'].
    rewrite (IH n _ _ _ Hat' Hrun Hpl Hstop) by (simpl in Hn; lia).
    pose proof (advance_position L pre c (run ++ rest) Hat) as Hp.
    change (c :: run) with ([c] ++ run). rewrite line_col_app, <- Hp.
    reflexivity.
Qed.

Lemma line_col_same_line (w : text) :
  forall l c : Z,
    forallb (fun x => negb (ch_eqb x LF)) w = true ->
    line_col l c w = (l, (c + Z.of_nat (length w))%Z).
Proof.
  induction w as [|x w IH]; intros l c H; simpl.
  - f_equal. lia.
  - simpl in H. apply andb_true_iff in H as [Hx H].
    apply negb_true_iff in Hx. rewrite Hx, IH by exact H. f_equal. lia.
Qed.

Lemma word_start_char (c : ascii) :
  isalpha c || ch_eqb c "_" = true ->
  is_ws c = false /\ is_delim c = false /\ is_bracket c = false.
Proof.
  destruct c as [[] [] [] [] [] [] [] []]; vm_compute; intros H;
    solve [discriminate H | auto].
Qed.

Lemma skip_ws_at (L : Lexer) (pre ws rest : text) :
  at_cursor L pre (ws ++ rest) ->
  forallb is_ws ws = true -> stops is_ws rest = true ->
  at_cursor (skip_ws L) (pre ++ ws) rest
  /\ (line (skip_ws L), col (skip_ws L)) = line_col (line L) (col L) ws.
Proof.
  intros Hat Hws Hstop.
  assert (length ws <= remaining L) as Hn
    by (rewrite (@at_cursor_remaining L pre _ Hat), length_app; lia).
  assert (forallb plain ws = true) as Hpl
    by now apply (@run_plain is_ws).
  split.
  - now apply at_cursor_while.
  - now apply (while_position is_ws ws _ L pre rest).
Qed.

Lemma scan_identifier_or_keyword_col (L : Lexer) :
  tcol (fst (scan_identifier_or_keyword L)) = col L.
Proof.
  unfold scan_identifier_or_keyword.
  repeat match goal with
         | |- context [if ?b then _ else _] => destruct b
         | |- context [let '(_, _) := ?p in _] => destruct p
         end; reflexivity.
Qed.

(** The label of a word operator. *)
Lemma is_word_op_label (w rest : text) :
  match is_word_op (w ++ rest) (length w) with
  | (true, Some e) =>
      In e (map str ["DIV"; "MOD"]%string) /\ map lowerc e = map lowerc w
  | (true, None) => False
  | (false, e) => e = None
  end.
Proof.
  unfold is_word_op. destruct (length w =? 3) eqn:E; [|reflexivity].
  apply Nat.eqb_eq in E.
  destruct w as [|c0 [|c1 [|c2 [|c3 w]]]]; try discriminate E.
  cbn [app char_at nth map].
  repeat match goal with
         | |- context [if ?b then _ else _] =>
             let B := fresh "B" in
             destruct b eqn:B;
             [repeat match goal with
                     | H : _ && _ = true |- _ =>
                         apply andb_true_iff in H; destruct H
                     | H : ch_eqb _ _ = true |- _ => apply ch_eqb_eq in H
                     end;
              repeat match goal with
                     | E : lowerc _ = _ |- _ => rewrite E; clear E
                     end;
              vm_compute; tauto |]
         end.
  reflexivity.
Qed.

Lemma scan_identifier_or_keyword_extra (L : Lexer) :
  let s := skipn (pos L) (buf (snd (scan_identifier_or_keyword L))) in
  let n := pos (snd (scan_identifier_or_keyword L)) - pos L in
  extra (fst (scan_identifier_or_keyword L))
  = if negb (is_bool_lit s n =? -1)%Z then None
    else option_map dup_s (snd (is_word_op s n)).
Proof.
  cbv zeta. rewrite scan_identifier_or_keyword_cursor.
  unfold scan_identifier_or_keyword.
  set (L1 := advance_while is_word_char _ _).
  destruct (negb (is_bool_lit _ _ =? -1)%Z); [reflexivity|].
  pose proof (is_word_op_label
                (firstn (pos L1 - pos L) (skipn (pos L) (buf L1)))
                (skipn (pos L1 - pos L) (skipn (pos L) (buf L1)))) as K.
  destruct (is_word_op (skipn (pos L) (buf L1)) (pos L1 - pos L))
    as [[|] e] eqn:E; [reflexivity|].
  cbn [snd fst].
  assert (e = None) as ->.
  { destruct e as [e|]; [|reflexivity]. exfalso.
    unfold is_word_op in E.
    destruct (pos L1 - pos L =? 3); [|discriminate E].
    repeat match type of E with
           | (if ?b then _ else _) = _ => destruct b; try discriminate E
           end. }
  repeat match goal with
         | |- context [if ?b then _ else _] => destruct b
         end; reflexivity.
Qed.

End Words.

(** X3. [skip_ws] reads exactly the blanks, tabs, carriage returns and
    newlines in front of the cursor: it stops before the first other
    character, or at the end of the buffer, and has counted the lines and
    columns of what it read. *)
Theorem skip_ws_reads_the_blanks (L : Lexer) (pre ws rest : text) :
  at_cursor L pre (ws ++ rest) ->
  forallb is_ws ws = true -> stops is_ws rest = true ->
  at_cursor (skip_ws L) (pre ++ ws) rest
  /\ (line (skip_ws L), col (skip_ws L)) = line_col (line L) (col L) ws
  /\ skip_ws (skip_ws L) = skip_ws L.
Proof.
  intros Hat Hws Hstop.
  destruct (skip_ws_at L pre ws rest Hat Hws Hstop) as [H1 H2].
  split; [exact H1|]. split; [exact H2|].
  unfold skip_ws at 1. destruct (remaining (skip_ws L)); [reflexivity|].
  simpl. rewrite (@at_cursor_peek _ _ _ H1).
  destruct rest as [|d r]; simpl in *; [reflexivity|].
  unfold char_int. destruct (ch_eqb d EOF_BYTE); [reflexivity|].
  apply negb_true_iff in Hstop. now rewrite Hstop.
Qed.

Lemma skip_ws_reads_the_blanks_witness :
  at_cursor (skip_ws (initial_lexer (str "  x"))) (str "  ") (str "x").
Proof.
  refine (proj1 (skip_ws_reads_the_blanks (initial_lexer (str "  x"))
                   [] (str "  ") (str "x") _ eq_refl eq_refl)).
  split; reflexivity.
Defined.

(** X4. After the white space in front of it, [next_token] reads a word
    as the longest run of letters, digits and underscores that starts with
    a letter or an underscore: the lexeme is that run, the token carries
    the line and the column of its first character, its kind is the
    category of the word, and the cursor stops right after the run. *)
Theorem next_token_reads_a_word (L : Lexer) (pre ws : text) (c : ascii)
    (w rest : text) :
  at_cursor L pre (ws ++ c :: w ++ rest) ->
  forallb is_ws ws = true ->
  isalpha c || ch_eqb c "_" = true ->
  forallb is_word_char w = true -> stops is_word_char rest = true ->
  lexeme (fst (next_token L)) = Some (c :: w)
  /\ type (fst (next_token L)) = word_kind (c :: w)
  /\ (tline (fst (next_token L)), tcol (fst (next_token L)))
     = line_col (line L) (col L) ws
  /\ at_cursor (snd (next_token L)) (pre ++ ws ++ c :: w) rest.
Proof.
  intros Hat Hws Hc Hw Hstop.
  destruct (word_start_char c Hc) as (C1 & C2 & C3).
  destruct (skip_ws_at L pre ws (c :: w ++ rest) Hat Hws) as [H1 H2].
  { simpl. now rewrite C1. }
  assert (plain c = true) as Hpc.
  { unfold plain. apply negb_true_iff, ch_eqb_neq. intros ->.
    discriminate Hc. }
  assert (forallb plain w = true) as Hpw
    by now apply (@run_plain is_word_char).
  pose proof (next_token_line L) as Hline. revert Hline.
  unfold next_token. rewrite (@at_cursor_peek_plain _ _ _ _ H1 Hpc).
  rewrite C2, C3, Hc. intros Hline.
  destruct (@scan_word (skip_ws L) (pre ++ ws) c w rest H1 Hw Hstop)
    as (Hty & Hlex & Hat').
  split; [exact Hlex|]. split; [exact Hty|].
  rewrite <- app_assoc in Hat'. split; [|exact Hat'].
  rewrite Hline, scan_identifier_or_keyword_col, <- H2. f_equal.
  rewrite scan_identifier_or_keyword_cursor.
  destruct (@at_cursor_advance _ _ _ _ H1) as [_ Ha].
  pose proof (advance_position _ _ _ _ H1) as Hp.
  assert (length w <= remaining (snd (advance (skip_ws L)))) as Hn
    by (rewrite (@at_cursor_remaining _ _ _ Ha), length_app; lia).
  pose proof (while_position is_word_char w _ _ _ _ Ha Hw Hpw Hstop Hn) as Hq.
  rewrite line_col_same_line in Hq.
  - injection Hq as -> _.
    assert (ch_eqb c LF = false) as Hnl
      by (apply ch_eqb_neq; intros ->; discriminate Hc).
    simpl in Hp. rewrite Hnl in Hp. now injection Hp as -> _.
  - rewrite forallb_forall in Hw |- *. intros x Hx. apply Hw in Hx.
    apply negb_true_iff, ch_eqb_neq. intros ->. discriminate Hx.
Qed.

Lemma next_token_reads_a_word_witness :
  lexeme (fst (next_token (initial_lexer (str " count_1 = 2"))))
  = Some (str "count_1").
Proof.
  refine (proj1 (next_token_reads_a_word
                   (initial_lexer (str " count_1 = 2")) [] (str " ")
                   "c"%char (str "ount_1") (str " = 2")
                   _ eq_refl eq_refl eq_refl eq_refl)).
  split; reflexivity.
Defined.

(** X5. The word operators are read in any mixture of upper and lower
    case, and the token always carries the name in capital letters as its
    subtype label: a word that is [div] or [mod] up to the case of its
    letters becomes an arithmetic operator whose label, the text shown in
    the table, is [DIV] or [MOD]; any other word has no label. *)
Theorem word_operator_label (L : Lexer) (pre : text) (c : ascii)
    (w rest : text) :
  at_cursor L pre (c :: w ++ rest) ->
  forallb is_word_char w = true -> stops is_word_char rest = true ->
  let t := fst (scan_identifier_or_keyword L) in
  (In (map lowerc (c :: w)) WORD_OPS ->
     type t = TOK_OP_ARITH /\ lexeme t = Some (c :: w)
     /\ exists e : text,
          extra t = Some e /\ shown t = e
          /\ In e (map str ["DIV"; "MOD"]%string)
          /\ map lowerc e = map lowerc (c :: w))
  /\ (~ In (map lowerc (c :: w)) WORD_OPS -> extra t = None).
Proof.
  intros Hat Hw Hstop t. subst t.
  destruct (@scan_word L pre c w rest Hat Hw Hstop) as (Hty & Hlex & Hat').
  pose proof (scan_identifier_or_keyword_extra L) as Hex. cbv zeta in Hex.
  assert (pos L = length pre) as Hp by apply Hat.
  assert (skipn (pos L) (buf (snd (scan_identifier_or_keyword L)))
          = (c :: w) ++ rest) as Hs.
  { destruct Hat' as [Hb _]. rewrite Hb, Hp, <- app_assoc.
    rewrite skipn_app, skipn_all, Nat.sub_diag. reflexivity. }
  assert (pos (snd (scan_identifier_or_keyword L)) - pos L
          = length (c :: w)) as Hn.
  { destruct Hat' as [_ Hq]. rewrite Hq, Hp, length_app. lia. }
  rewrite Hs, Hn in Hex.
  assert (0 < length (c :: w)) as Hlen by (simpl; lia).
  destruct (word_tests_suffix (c :: w) rest Hlen) as (T1 & T2 & _).
  rewrite T1 in Hex.
  pose proof (is_word_op_label (c :: w) rest) as K.
  pose proof (word_is_op_iff (c :: w)) as Hop.
  destruct (is_word_op ((c :: w) ++ rest) (length (c :: w))) as [b e].
  cbn [fst snd] in *. subst b. split.
  - intros Hin. pose proof (proj2 Hop Hin) as Hb. rewrite Hb in K.
    destruct e as [e|]; [|contradiction]. destruct K as [K1 K2].
    assert (word_is_bool (c :: w) = false) as Hnb.
    { destruct (word_is_bool (c :: w)) eqn:B; [|reflexivity].
      apply bool_excludes in B. intuition congruence. }
    rewrite Hnb in Hex. cbn [option_map] in Hex.
    assert (dup_s e = e) as He.
    { cbn [map In] in K1. destruct K1 as [<-|[<-|[]]]; reflexivity. }
    rewrite He in Hex.
    split; [rewrite Hty; unfold word_kind; now rewrite Hnb, Hb|].
    split; [exact Hlex|].
    exists e. split; [exact Hex|]. split; [|split; assumption].
    unfold shown. rewrite Hex.
    cbn [map In] in K1. destruct K1 as [<-|[<-|[]]]; reflexivity.
  - intros Hnin. rewrite Hex.
    destruct (word_is_bool (c :: w)); [reflexivity|].
    destruct (word_is_op (c :: w)); [exfalso; apply Hnin, Hop; reflexivity|].
    now rewrite K.
Qed.

Lemma word_operator_label_witness :
  exists e : text,
    extra (fst (scan_identifier_or_keyword (initial_lexer (str "Div 2"))))
    = Some e
    /\ In e (map str ["DIV"; "MOD"]%string)
    /\ map lowerc e = str "div".
Proof.
  assert (In (map lowerc (str "Div")) WORD_OPS) as Hin
    by (vm_compute; tauto).
  destruct (proj1 (word_operator_label (initial_lexer (str "Div 2")) []
                     "D"%char (str "iv") (str " 2")
                     (conj eq_refl eq_refl) eq_refl eq_refl) Hin)
    as (_ & _ & e & He & _ & H1 & H2).
  exists e. split; [exact He|]. split; [exact H1 | exact H2].
Defined.
(** ** String and character literals *)

Section Literals.

Lemma scan_string_loop_closed (n : nat) :
  forall (L : Lexer) (done body rest : text) (p : nat) (col0 : Z),
    at_cursor L done (body ++ DQUOTE :: rest) ->
    string_payload body = true -> forallb plain body = true ->
    length body < n ->
    let r := scan_string_loop n L p col0 in
    type (fst r) = TOK_CONST_STRING
    /\ lexeme (fst r)
       = Some (firstn (length done + length body - p) (skipn p (buf L)))
    /\ extra (fst r) = None /\ tcol (fst r) = col0
    /\ at_cursor (snd r) (done ++ body ++ [DQUOTE]) rest.
Proof.
  induction n as [|n IH]; intros L done body rest p col0 Hat Hpay Hpl Hn;
    [lia|].
  cbn [scan_string_loop]. cbv zeta.
  destruct body as [|c body]; cbn [app] in Hat.
  - rewrite (@at_cursor_peek_plain L done DQUOTE rest Hat eq_refl).
    assert (ch_eqb DQUOTE BACKSLASH = false) as -> by reflexivity.
    rewrite ch_eqb_refl. cbn [fst snd].
    destruct (@at_cursor_advance L done DQUOTE rest Hat) as [_ Ha].
    repeat split; try apply Ha.
    cbn [make set_col lexeme option_map]. unfold dup_n.
    destruct Hat as [_ ->]. simpl. now rewrite Nat.add_0_r.
  - cbn [string_payload] in Hpay. cbn [forallb] in Hpl.
    apply andb_true_iff in Hpl as [Hpc Hpl].
    rewrite (@at_cursor_peek_plain L done c _ Hat Hpc).
    destruct (@at_cursor_advance L done c _ Hat) as [_ Ha].
    assert (buf (snd (advance L)) = buf L) as Hb1
      by (destruct Hat as [E _], Ha as [E' _];
          rewrite E, E', <- app_assoc; reflexivity).
    destruct (ch_eqb c BACKSLASH) eqn:Ec.
    + destruct body as [|d body]; [discriminate Hpay|].
      cbn [forallb] in Hpl. apply andb_true_iff in Hpl as [Hpd Hpl].
      cbn [app] in Ha. rewrite (@at_cursor_peek_plain _ _ d _ Ha Hpd).
      destruct (@at_cursor_advance _ _ d _ Ha) as [_ Ha2].
      rewrite <- app_assoc in Ha2.
      destruct (IH _ _ body rest p col0 Ha2 Hpay Hpl)
        as (H1 & H2 & H3 & H4 & H5).
      { simpl in Hn. lia. }
      split; [exact H1|]. split.
      * rewrite H2. f_equal.
        assert (buf (snd (advance (snd (advance L)))) = buf L) as ->.
        { destruct Hat as [E _], Ha2 as [E' _]. rewrite E, E', <- app_assoc.
          reflexivity. }
        rewrite length_app. simpl. f_equal. lia.
      * split; [exact H3|]. split; [exact H4|].
        rewrite <- app_assoc in H5. exact H5.
    + apply andb_true_iff in Hpay as [Hpay Hrest].
      apply andb_true_iff in Hpay as [Hq Hl].
      apply negb_true_iff in Hq, Hl. rewrite Hq, Hl.
      destruct (IH _ _ body rest p col0 Ha Hrest Hpl)
        as (H1 & H2 & H3 & H4 & H5).
      { simpl in Hn. lia. }
      split; [exact H1|]. split.
      * rewrite H2, Hb1. f_equal. rewrite length_app. simpl. f_equal. lia.
      * split; [exact H3|]. split; [exact H4|].
        rewrite <- app_assoc in H5. exact H5.
Qed.

Lemma scan_string_loop_open (n : nat) :
  forall (L : Lexer) (done body rest : text) (p : nat) (col0 : Z),
    at_cursor L done (body ++ rest) ->
    string_payload body = true -> forallb plain body = true ->
    head_int rest = None \/ hd_error rest = Some LF ->
    length body <= n ->
    let r := scan_string_loop n L p col0 in
    type (fst r) = TOK_UNKNOWN
    /\ lexeme (fst r) = Some (str "<unterminated_string>")
    /\ extra (fst r) = None
    /\ at_cursor (snd r) (done ++ body) rest.
Proof.
  induction n as [|n IH];
    intros L done body rest p col0 Hat Hpay Hpl Hrest Hn.
  - destruct body as [|c body]; [|simpl in Hn; lia].
    rewrite app_nil_r. repeat split; apply Hat.
  - cbn [scan_string_loop]. cbv zeta.
    destruct body as [|c body]; cbn [app] in Hat.
    + rewrite app_nil_r. rewrite (@at_cursor_peek L done _ Hat).
      destruct Hrest as [Hrest|Hrest].
      * rewrite Hrest. repeat split; apply Hat.
      * destruct rest as [|d rest]; [discriminate Hrest|].
        cbn [hd_error] in Hrest. injection Hrest as ->.
        cbn [head_int]. rewrite (plain_char_int LF eq_refl).
        assert (ch_eqb LF BACKSLASH = false) as -> by reflexivity.
        assert (ch_eqb LF DQUOTE = false) as -> by reflexivity.
        rewrite ch_eqb_refl. repeat split; apply Hat.
    + cbn [string_payload] in Hpay. cbn [forallb] in Hpl.
      apply andb_true_iff in Hpl as [Hpc Hpl].
      rewrite (@at_cursor_peek_plain L done c _ Hat Hpc).
      destruct (@at_cursor_advance L done c _ Hat) as [_ Ha].
      destruct (ch_eqb c BACKSLASH) eqn:Ec.
      * destruct body as [|d body]; [discriminate Hpay|].
        cbn [forallb] in Hpl. apply andb_true_iff in Hpl as [Hpd Hpl].
        cbn [app] in Ha. rewrite (@at_cursor_peek_plain _ _ d _ Ha Hpd).
        destruct (@at_cursor_advance _ _ d _ Ha) as [_ Ha2].
        rewrite <- app_assoc in Ha2.
        destruct (IH _ _ body rest p col0 Ha2 Hpay Hpl Hrest)
          as (H1 & H2 & H3 & H4).
        { simpl in Hn. lia. }
        rewrite <- app_assoc in H4. repeat split; try assumption; apply H4.
      * apply andb_true_iff in Hpay as [Hpay Hbody].
        apply andb_true_iff in Hpay as [Hq Hl].
        apply negb_true_iff in Hq, Hl. rewrite Hq, Hl.
        destruct (IH _ _ body rest p col0 Ha Hbody Hpl Hrest)
          as (H1 & H2 & H3 & H4).
        { simpl in Hn. lia. }
        rewrite <- app_assoc in H4. repeat split; try assumption; apply H4.
Qed.

Lemma scan_char_at (L : Lexer) (pre body rest : text) :
  at_cursor L pre (SQUOTE :: body ++ rest) ->
  char_payload body = true ->
  let L3 :=
    let '(c, L2) := advance (snd (advance L)) in
    match c with
    | Some d => if ch_eqb d BACKSLASH then snd (advance L2) else L2
    | None => L2
    end in
  at_cursor L3 (pre ++ SQUOTE :: body) rest.
Proof.
  intros Hat Hpay L3. subst L3.
  destruct (@at_cursor_advance L pre SQUOTE _ Hat) as [_ H1].
  destruct body as [|c [|d [|e body]]]; try discriminate Hpay.
  - cbn [char_payload] in Hpay. apply negb_true_iff in Hpay.
    destruct (@at_cursor_advance _ _ c rest H1) as [Hf H2].
    destruct (advance (snd (advance L))) as [oc L2]. cbn [fst snd] in *.
    subst oc. rewrite <- app_assoc in H2. unfold char_int.
    destruct (ch_eqb c EOF_BYTE); [exact H2|]. rewrite Hpay. exact H2.
  - cbn [char_payload] in Hpay.
    destruct (@at_cursor_advance _ _ c (d :: rest) H1) as [Hf H2].
    destruct (advance (snd (advance L))) as [oc L2]. cbn [fst snd] in *.
    subst oc. apply ch_eqb_eq in Hpay. subst c.
    rewrite (plain_char_int BACKSLASH eq_refl), ch_eqb_refl.
    destruct (@at_cursor_advance _ _ d rest H2) as [_ H3].
    rewrite <- !app_assoc in H3. exact H3.
Qed.

End Literals.

(** X6. A string literal that is closed on its line: in front of a double
    quote, a payload without a byte 255 in which every backslash takes the
    next character along, and the closing double quote, [scan_string]
    returns a [const_string] token whose lexeme is the payload as written,
    without the quotes and with its backslashes, at the column of the
    opening quote, and leaves the cursor after the closing quote. *)
Theorem scan_string_closed (L : Lexer) (pre body rest : text) :
  at_cursor L pre (DQUOTE :: body ++ DQUOTE :: rest) ->
  string_payload body = true -> forallb plain body = true ->
  let r := scan_string L in
  type (fst r) = TOK_CONST_STRING
  /\ lexeme (fst r) = Some body
  /\ extra (fst r) = None
  /\ tcol (fst r) = col L
  /\ at_cursor (snd r) (pre ++ DQUOTE :: body ++ [DQUOTE]) rest.
Proof.
  intros Hat Hpay Hpl r. subst r. unfold scan_string.
  destruct (@at_cursor_advance L pre DQUOTE _ Hat) as [_ H1].
  set (L1 := snd (advance L)) in *.
  assert (length body < remaining L1) as Hn.
  { rewrite (@at_cursor_remaining _ _ _ H1), length_app. simpl. lia. }
  destruct (scan_string_loop_closed (remaining L1) L1 (pre ++ [DQUOTE]) body
              rest (pos L1) (col L) H1 Hpay Hpl Hn)
    as (T1 & T2 & T3 & T4 & T5).
  split; [exact T1|]. split.
  - rewrite T2. f_equal. destruct H1 as [Hb Hp]. rewrite Hb, Hp.
    rewrite skipn_app, skipn_all, Nat.sub_diag. simpl.
    replace (length (pre ++ [DQUOTE]) + length body - length (pre ++ [DQUOTE]))
      with (length body + 0) by lia.
    rewrite firstn_app_2. simpl. now rewrite app_nil_r.
  - split; [exact T3|]. split; [exact T4|].
    rewrite <- app_assoc in T5. exact T5.
Qed.

Lemma scan_string_closed_witness :
  lexeme (fst (scan_string
                 (mkLexer (str "s=" ++ DQUOTE :: str "a\nb" ++ DQUOTE :: str ";")
                    2 1 3)))
  = Some (str "a\nb").
Proof.
  refine (proj1 (proj2 (scan_string_closed
                          (mkLexer (str "s=" ++ DQUOTE :: str "a\nb"
                                      ++ DQUOTE :: str ";") 2 1 3)
                          (str "s=") (str "a\nb") (str ";") _ eq_refl
                          eq_refl))).
  split; reflexivity.
Defined.

(** X7. A string literal that is not closed: when the payload, without a
    byte 255, is followed by a newline, by the end of the buffer or by a
    byte 255 (which the reading functions return as [EOF]), [scan_string]
    returns an [unknown] token that carries the tag
    [<unterminated_string>] in place of the text, and leaves the cursor
    after the payload: the newline, or the byte 255, is not read. *)
Theorem scan_string_unterminated (L : Lexer) (pre body rest : text) :
  at_cursor L pre (DQUOTE :: body ++ rest) ->
  string_payload body = true -> forallb plain body = true ->
  head_int rest = None \/ hd_error rest = Some LF ->
  let r := scan_string L in
  type (fst r) = TOK_UNKNOWN
  /\ lexeme (fst r) = Some (str "<unterminated_string>")
  /\ extra (fst r) = None
  /\ at_cursor (snd r) (pre ++ DQUOTE :: body) rest.
Proof.
  intros Hat Hpay Hpl Hrest r. subst r. unfold scan_string.
  destruct (@at_cursor_advance L pre DQUOTE _ Hat) as [_ H1].
  set (L1 := snd (advance L)) in *.
  assert (length body <= remaining L1) as Hn.
  { rewrite (@at_cursor_remaining _ _ _ H1), length_app. lia. }
  destruct (scan_string_loop_open (remaining L1) L1 (pre ++ [DQUOTE]) body
              rest (pos L1) (col L) H1 Hpay Hpl Hrest Hn)
    as (T1 & T2 & T3 & T4).
  rewrite <- app_assoc in T4. repeat split; try assumption; apply T4.
Qed.

Lemma scan_string_unterminated_witness :
  type (fst (scan_string (mkLexer (DQUOTE :: str "abc") 0 1 1))) = TOK_UNKNOWN.
Proof.
  refine (proj1 (scan_string_unterminated (mkLexer (DQUOTE :: str "abc") 0 1 1)
                   [] (str "abc") [] _ eq_refl eq_refl
                   (or_introl eq_refl))).
  split; reflexivity.
Defined.

(** X8. A character literal: in front of a single quote and one character,
    or a backslash and one character, [scan_char] returns a [const_char]
    token when a single quote follows, and then the lexeme is the
    placeholder [<char>], not the character; when anything else follows,
    the token is an [unknown] token with the tag [<unterminated_char>] and
    the cursor stays after the payload. *)
Theorem scan_char_spec (L : Lexer) (pre body rest : text) :
  at_cursor L pre (SQUOTE :: body ++ rest) ->
  char_payload body = true ->
  let r := scan_char L in
  (forall rest' : text,
      rest = SQUOTE :: rest' ->
      type (fst r) = TOK_CONST_CHAR
      /\ lexeme (fst r) = Some (str "<char>")
      /\ tcol (fst r) = col L
      /\ at_cursor (snd r) (pre ++ SQUOTE :: body ++ [SQUOTE]) rest')
  /\ (hd_error rest <> Some SQUOTE ->
        type (fst r) = TOK_UNKNOWN
        /\ lexeme (fst r) = Some (str "<unterminated_char>")
        /\ at_cursor (snd r) (pre ++ SQUOTE :: body) rest).
Proof.
  intros Hat Hpay r. subst r. unfold scan_char.
  pose proof (scan_char_at L pre body rest Hat Hpay) as H3. cbv zeta in H3.
  destruct (advance (snd (advance L))) as [c L2].
  match goal with
  | |- context [peek_is ?X SQUOTE] => set (L3 := X) in *
  end.
  split.
  - intros rest' ->.
    pose proof H3 as H.
    rewrite (@at_cursor_peek_is _ _ _ SQUOTE H eq_refl). cbn [hd_error].
    rewrite ch_eqb_refl.
    destruct (@at_cursor_advance _ _ _ _ H) as [_ H4].
    replace (pre ++ SQUOTE :: body ++ [SQUOTE])
      with ((pre ++ SQUOTE :: body) ++ [SQUOTE])
      by (rewrite <- app_assoc; reflexivity).
    repeat split; apply H4.
  - intros Hq.
    rewrite (@at_cursor_peek_is _ _ _ SQUOTE H3 eq_refl).
    destruct rest as [|d rest]; cbn [hd_error] in *.
    + repeat split; apply H3.
    + assert (ch_eqb d SQUOTE = false) as ->
        by (apply ch_eqb_neq; congruence).
      repeat split; apply H3.
Qed.

Lemma scan_char_spec_witness :
  lexeme (fst (scan_char (mkLexer (str "c='\n';") 2 1 3))) = Some (str "<char>").
Proof.
  refine (proj1 (proj2 (proj1 (scan_char_spec (mkLexer (str "c='\n';") 2 1 3)
                                 (str "c=") (str "\n") (str "';")
                                 _ eq_refl)
                          (str ";") eq_refl))).
  split; reflexivity.
Defined.
(** ** Operators *)

Section Operators.

Lemma match_true_at (L : Lexer) (pre rest : text) (s : ascii) :
  at_cursor L pre rest -> fst (match_ L s) = true ->
  exists rest' : text,
    rest = s :: rest' /\ at_cursor (snd (match_ L s)) (pre ++ [s]) rest'.
Proof.
  intros Hat Hm. destruct rest as [|d rest'].
  - rewrite (@at_cursor_no_match L pre [] s Hat) in Hm by discriminate.
    discriminate Hm.
  - destruct (ch_eqb d s) eqn:E.
    + apply ch_eqb_eq in E. subst d. exists rest'. split; [reflexivity|].
      apply (@at_cursor_match L pre s rest' Hat).
      destruct (plain s) eqn:Hpl; [reflexivity|]. exfalso.
      unfold match_ in Hm. rewrite (@at_cursor_peek L pre _ Hat) in Hm.
      cbn [head_int] in Hm. unfold char_int, plain in *.
      apply negb_false_iff in Hpl. rewrite Hpl in Hm. discriminate Hm.
    + apply ch_eqb_neq in E.
      rewrite (@at_cursor_no_match L pre (d :: rest') s Hat) in Hm
        by (simpl; congruence).
      discriminate Hm.
Qed.

Lemma match_false_at (L : Lexer) (pre rest : text) (s : ascii) :
  at_cursor L pre rest -> plain s = true ->
  fst (match_ L s) = false -> hd_error rest <> Some s.
Proof.
  intros Hat Hpl Hm Hd. destruct rest as [|d rest']; [discriminate Hd|].
  simpl in Hd. injection Hd as ->.
  destruct (@at_cursor_match L pre s rest' Hat Hpl) as [H _]. congruence.
Qed.

Lemma operator_text_single (c : ascii) (rest : text) :
  (forall f s : ascii,
      In [f; s] TWO_CHAR_OPS -> c = f -> hd_error rest <> Some s) ->
  operator_text c rest = [c].
Proof.
  intros H. unfold operator_text. destruct rest as [|d rest]; [reflexivity|].
  destruct (existsb (text_eqb [c; d]) TWO_CHAR_OPS) eqn:E; [|reflexivity].
  exfalso. apply existsb_exists in E as (x & Hx & Ex).
  apply text_eqb_eq in Ex. subst x.
  apply (H c d Hx eq_refl). reflexivity.
Qed.

Lemma scan_operator_result (L : Lexer) (pre : text) (c : ascii) (rest : text) :
  at_cursor L pre (c :: rest) ->
  operator_result L pre c rest (scan_operator L).
Proof.
  intros Hat. unfold scan_operator.
  generalize (@at_cursor_advance L pre c rest Hat). generalize (advance L).
  intros [oc L1] [Hf H1]. cbn [fst snd] in Hf, H1. subst oc.
  cbv beta iota zeta.
  assert (match char_int c with Some d => d | None => ascii_of_nat 255 end
          = c) as Hcc.
  { unfold char_int. destruct (ch_eqb c EOF_BYTE) eqn:E; [|reflexivity].
    apply ch_eqb_eq in E. now subst c. }
  rewrite Hcc. clear Hcc.
  assert (forall ty (s rest' : text) (L2 : Lexer) (d : ascii),
             rest = d :: rest' -> operator_text c rest = [c; d] ->
             dup_n s 2 = [c; d] -> dup_s s = [c; d] -> ty <> TOK_UNKNOWN ->
             at_cursor L2 (pre ++ [c; d]) rest' ->
             operator_result L pre c rest
               (set_col (make L2 ty (Some s) 2 (Some s)) (col L), L2)) as K2.
  { intros ty s rest' L2 d Er Hw Hs He Hty H2. unfold operator_result.
    rewrite Hw.
    cbn [fst snd make set_col lexeme extra type tcol option_map length
           Nat.sub skipn].
    rewrite Hs, He, Er. split; [reflexivity|]. split; [exact H2|]. split.
    - split; [congruence | intros [E _]; discriminate E].
    - intros _. split; reflexivity. }
  repeat (apply (two_char_case (operator_result L pre c rest));
          [ let Ec := fresh "Ec" in
            let Hm := fresh "Hm" in
            let Er := fresh "Er" in
            let H2 := fresh "H" in
            intros Ec Hm;
            destruct (match_true_at L1 _ rest _ H1 Hm) as (rest' & Er & H2);
            rewrite <- app_assoc in H2;
            apply (K2 _ _ rest' _ _ Er);
            [ rewrite Ec, Er; reflexivity | rewrite Ec; reflexivity
            | rewrite Ec; reflexivity | discriminate | exact H2 ]
          | let Hk := fresh "Hk" in intros Hk ]).
  clear K2.
  assert (operator_text c rest = [c]) as Hw.
  { apply operator_text_single. intros f s Hin Hc.
    unfold TWO_CHAR_OPS in Hin. cbn [map In str list_ascii_of_string] in Hin.
    repeat destruct Hin as [Hin|Hin]; try contradiction;
      injection Hin as <- <-;
      match goal with
      | H : c = ?f -> fst (match_ L1 ?s) = false |- hd_error rest <> Some ?s =>
          apply (match_false_at L1 _ rest s H1 eq_refl (H Hc))
      end. }
  assert (forall ty (s e : text),
             dup_n s 1 = [c] -> ty <> TOK_UNKNOWN -> In c ONE_CHAR_OPS ->
             dup_s e = [c] ->
             operator_result L pre c rest
               (set_col (make L1 ty (Some s) 1 (Some e)) (col L), L1)) as K.
  { intros ty s e Hs Hty Hin He. unfold operator_result. rewrite Hw.
    cbn [fst snd make set_col lexeme extra type tcol option_map length
           Nat.sub skipn].
    rewrite Hs, He. split; [reflexivity|]. split; [exact H1|]. split.
    - split; [congruence | intros [_ E]; contradiction].
    - intros _. split; reflexivity. }
  destruct (ch_eqb c "=") eqn:E1.
  { apply ch_eqb_eq in E1. subst c.
    apply K; try reflexivity; [discriminate | vm_compute; tauto]. }
  match goal with |- context [if ?b then _ else _] => destruct b eqn:E2 end.
  { apply K; try discriminate.
    - reflexivity.
    - repeat (apply orb_true_iff in E2; destruct E2 as [E2|E2]);
        apply ch_eqb_eq in E2; subst c; vm_compute; tauto.
    - repeat (apply orb_true_iff in E2; destruct E2 as [E2|E2]);
        apply ch_eqb_eq in E2; subst c; reflexivity. }
  match goal with |- context [if ?b then _ else _] => destruct b eqn:E3 end.
  { apply K; try discriminate.
    - reflexivity.
    - repeat (apply orb_true_iff in E3; destruct E3 as [E3|E3]);
        apply ch_eqb_eq in E3; subst c; vm_compute; tauto.
    - repeat (apply orb_true_iff in E3; destruct E3 as [E3|E3]);
        apply ch_eqb_eq in E3; subst c; reflexivity. }
  destruct (ch_eqb c "!") eqn:E4.
  { apply ch_eqb_eq in E4. subst c.
    apply K; try reflexivity; [discriminate | vm_compute; tauto]. }
  unfold operator_result. rewrite Hw.
  cbn [fst snd make lexeme extra type tcol option_map length Nat.sub skipn].
  split; [reflexivity|]. split; [exact H1|]. split.
  - split; [|reflexivity]. intros _. split; [reflexivity|].
    repeat (apply orb_false_iff in E2; destruct E2 as [E2 ?]).
    repeat (apply orb_false_iff in E3; destruct E3 as [E3 ?]).
    unfold ONE_CHAR_OPS. cbn [str list_ascii_of_string In].
    repeat match goal with
           | H : ch_eqb _ _ = false |- _ => apply ch_eqb_neq in H
           end.
    intuition congruence.
  - intros H. congruence.
Qed.

End Operators.

(** X9. [scan_operator] takes the longest operator: in front of two
    characters that form one of [==], [!=], [<=], [>=], [&&], [||] and
    [**] it reads both, otherwise it reads one character.  The lexeme is
    the text read.  The token is an [unknown] token exactly when one
    character was read and it is none of [= + - * / % < > !], so a lone
    [&] or [|] is not an operator; every other token carries its text as
    subtype label and the column of its first character. *)
Theorem scan_operator_longest_match (L : Lexer) (pre : text) (c : ascii)
    (rest : text) :
  at_cursor L pre (c :: rest) ->
  let r := scan_operator L in
  let w := operator_text c rest in
  lexeme (fst r) = Some w
  /\ at_cursor (snd r) (pre ++ w) (skipn (length w - 1) rest)
  /\ (type (fst r) = TOK_UNKNOWN <-> w = [c] /\ ~ In c ONE_CHAR_OPS)
  /\ (type (fst r) <> TOK_UNKNOWN ->
      extra (fst r) = Some w /\ tcol (fst r) = col L).
Proof. intros Hat. exact (scan_operator_result L pre c rest Hat). Qed.

Lemma scan_operator_longest_match_witness :
  lexeme (fst (scan_operator (mkLexer (str "a<=b") 1 1 2))) = Some (str "<=").
Proof.
  refine (proj1 (scan_operator_longest_match (mkLexer (str "a<=b") 1 1 2)
                   (str "a") "<"%char (str "=b") _)).
  split; reflexivity.
Defined.

(** ** The file name, the rows of the table and the kinds of the parser *)

Section TableWriter.

Lemma cstr_split (s : text) :
  exists tail : text, s = cstr s ++ tail.
Proof.
  induction s as [|c s [tail IH]]; [exists []; reflexivity|].
  simpl. destruct (ch_eqb c NUL).
  - exists (c :: s). reflexivity.
  - exists tail. simpl. now rewrite <- IH.
Qed.

Lemma char_at_cstr (s : text) (i : nat) :
  i < length (cstr s) -> char_at s i = char_at (cstr s) i.
Proof.
  intros Hi. destruct (cstr_split s) as [tail E].
  unfold char_at. rewrite E at 1. now apply app_nth1.
Qed.

Lemma char_at_app_r (a b : text) (i : nat) :
  char_at (a ++ b) (length a + i) = char_at b i.
Proof.
  unfold char_at. rewrite app_nth2 by lia. f_equal. lia.
Qed.

Lemma ends_with_ksh_iff (name : text) :
  ends_with_ksh name = true
  <-> exists stem : text, cstr name = stem ++ str ".ksh".
Proof.
  unfold ends_with_ksh. set (s := cstr name).
  destruct (Nat.ltb_spec (length s) 4) as [Hlt|Hge].
  - split; [discriminate|]. intros [stem E].
    apply (f_equal (@Datatypes.length ascii)) in E.
    rewrite length_app in E. simpl in E. lia.
  - assert (forall i, i < length s -> char_at name i = char_at s i) as Hc
      by (intros i Hi; now apply char_at_cstr).
    rewrite (Hc (length s - 4)), (Hc (length s - 3)), (Hc (length s - 2)),
      (Hc (length s - 1)) by lia.
    clear Hc.
    pose proof (firstn_skipn (length s - 4) s) as E.
    set (stem := firstn (length s - 4) s) in *.
    assert (length stem = length s - 4) as Hs
      by (subst stem; rewrite length_firstn; lia).
    assert (length (skipn (length s - 4) s) = 4) as Ht
      by (rewrite length_skipn; lia).
    destruct (skipn (length s - 4) s) as [|a [|b [|c [|d [|e t]]]]];
      try discriminate Ht. clear Ht.
    rewrite <- Hs, <- E.
    replace (length (stem ++ [a; b; c; d]) - 1) with (length stem + 3)
      by (rewrite length_app; simpl; lia).
    replace (length (stem ++ [a; b; c; d]) - 2) with (length stem + 2)
      by (rewrite length_app; simpl; lia).
    replace (length (stem ++ [a; b; c; d]) - 3) with (length stem + 1)
      by (rewrite length_app; simpl; lia).
    replace (length stem) with (length stem + 0) at 1 by lia.
    rewrite !char_at_app_r. cbn [char_at nth]. split.
    + intros H. exists stem.
      repeat (apply andb_true_iff in H; destruct H as [H ?]).
      repeat match goal with
             | H : ch_eqb _ _ = true |- _ => apply ch_eqb_eq in H; subst
             end.
      reflexivity.
    + intros [stem' E']. apply (f_equal (@rev ascii)) in E'.
      rewrite !rev_app_distr in E'. simpl in E'. injection E' as -> -> -> -> _.
      reflexivity.
Qed.

Lemma length_pad_right (w : nat) (s : text) :
  length (pad_right w s) = Nat.max w (length (cstr s)).
Proof.
  unfold pad_right. rewrite length_app, repeat_length.
  destruct (Nat.max_spec w (length (cstr s))) as [[? ->]|[? ->]]; lia.
Qed.

Lemma length_tname (ty : TokenType) : length (cstr (tname ty)) <= 16.
Proof. destruct ty; vm_compute; lia. Qed.

Lemma length_table_line (lex tok : text) :
  length (table_line lex tok)
  = 8 + Nat.max 20 (length (cstr lex)) + Nat.max 16 (length (cstr tok)).
Proof.
  unfold table_line. rewrite !length_app, !length_pad_right. simpl. lia.
Qed.

Lemma length_clipped (lex : text) :
  20 < length (cstr lex) ->
  length (cstr (firstn 19 (cstr lex) ++ ["."%char])) = 20.
Proof.
  intros H. rewrite cstr_plain.
  - rewrite length_app, length_firstn, Nat.min_l by lia. reflexivity.
  - rewrite no_nul_app. apply andb_true_iff. split; [|reflexivity].
    pose proof (cstr_no_nul lex) as Hn. unfold no_nul in *.
    rewrite forallb_forall in Hn |- *. intros x Hx. apply Hn.
    rewrite <- (firstn_skipn 19 (cstr lex)). apply in_or_app. now left.
Qed.

End TableWriter.

(** X10. The scanner takes a path for a source file exactly when the
    path, read as a C string, ends with the four characters [.ksh]; a
    path of fewer than four characters is refused, and [.ksh] alone is
    accepted. *)
Theorem ends_with_ksh_spec (name : text) :
  ends_with_ksh name = true
  <-> exists stem : text, cstr name = stem ++ str ".ksh".
Proof. apply ends_with_ksh_iff. Qed.

(** X11. Every row that [write_row] prints for a token is exactly as wide
    as the border of the table, whatever the lexeme: a text of more than
    20 characters is cut to its first 19 characters and a dot, a shorter
    one is padded with blanks, and no token label is longer than the
    right column. *)
Theorem write_row_width (lex : text) (ty : TokenType) :
  length (write_row lex (tname ty)) = length border
  /\ (20 < length (cstr lex) ->
      write_row lex (tname ty)
      = str "| " ++ firstn 19 (cstr lex) ++ str ". | "
        ++ pad_right 16 (tname ty) ++ str " |" ++ [LF]).
Proof.
  pose proof (length_tname ty) as Ht. split.
  - unfold write_row. rewrite length_table_line.
    destruct (Nat.ltb_spec 20 (length (cstr lex))) as [H|H].
    + rewrite (length_clipped lex H).
      rewrite (Nat.max_l 16) by exact Ht. reflexivity.
    + rewrite (Nat.max_l 20) by exact H.
      rewrite (Nat.max_l 16) by exact Ht. reflexivity.
  - intros H. unfold write_row.
    destruct (Nat.ltb_spec 20 (length (cstr lex))) as [_|H']; [|lia].
    unfold table_line, pad_right at 1.
    rewrite (length_clipped lex H). cbn [Nat.sub repeat].
    rewrite app_nil_r.
    assert (cstr (firstn 19 (cstr lex) ++ ["."%char])
            = firstn 19 (cstr lex) ++ ["."%char]) as ->.
    { apply cstr_plain. rewrite no_nul_app. apply andb_true_iff.
      split; [|reflexivity].
      pose proof (cstr_no_nul lex) as Hn. unfold no_nul in *.
      rewrite forallb_forall in Hn |- *. intros x Hx. apply Hn.
      rewrite <- (firstn_skipn 19 (cstr lex)). apply in_or_app. now left. }
    rewrite <- !app_assoc. reflexivity.
Qed.

(** X12. How the loader reads the labels that the scanner writes: the
    parser sees an [eof] token only for the scanner's [eof] token; the
    four operator kinds of the scanner become the one operator kind, and
    delimiters and brackets the one symbol kind; string constants and
    unknown tokens have labels that [map_kind] does not list, so both
    reach the parser as unknown tokens. *)
Theorem map_kind_of_tname (ty : TokenType) :
  (Syntax.map_kind (tname ty) = Syntax.PT_EOF <-> ty = TOK_EOF)
  /\ (Syntax.map_kind (tname ty) = Syntax.PT_UNKNOWN
      <-> ty = TOK_CONST_STRING \/ ty = TOK_UNKNOWN)
  /\ (Syntax.map_kind (tname ty) = Syntax.PT_OPERATOR
      <-> ty = TOK_OP_ARITH \/ ty = TOK_OP_REL \/ ty = TOK_OP_LOGIC
          \/ ty = TOK_ASSIGN)
  /\ (Syntax.map_kind (tname ty) = Syntax.PT_SYMBOL
      <-> ty = TOK_DELIM \/ ty = TOK_BRACKET).
Proof.
  destruct ty; vm_compute; repeat split; intros H;
    try discriminate H; try tauto;
    repeat (destruct H as [H|H]; try discriminate H).
Qed.
(** ** The string helpers of the syntax analyzer *)

Section StringHelpers.

Import Syntax.

Lemma str_eq_iff (a b : text) : str_eq a b = true <-> a = b.
Proof.
  revert b; induction a as [|x a IH]; intros [|y b]; simpl;
    try (split; [discriminate | discriminate]); [tauto|].
  destruct (ch_eqb x y) eqn:E.
  - apply ch_eqb_eq in E. subst y. rewrite IH. split; congruence.
  - apply ch_eqb_neq in E. split; [discriminate | congruence].
Qed.

Lemma str_starts_with_iff (prefix : text) :
  forall s : text,
    str_starts_with s prefix = true <-> exists r : text, s = prefix ++ r.
Proof.
  induction prefix as [|p prefix IH]; intros s; simpl.
  - split; [exists s; reflexivity | reflexivity].
  - destruct s as [|c s].
    + split; [discriminate | intros [r E]; discriminate E].
    + destruct (ch_eqb c p) eqn:E.
      * apply ch_eqb_eq in E. subst p. rewrite IH. split.
        -- intros [r ->]. exists r. reflexivity.
        -- intros [r E]. injection E as ->. exists r. reflexivity.
      * apply ch_eqb_neq in E. split; [discriminate|].
        intros [r E']. injection E' as E' _. contradiction.
Qed.

Lemma str_contains_iff (sub s : text) :
  str_contains s sub = true
  <-> exists pre post : text, s = pre ++ sub ++ post.
Proof.
  destruct sub as [|x sub].
  - destruct s; simpl; (split; [intros _|reflexivity]).
    + exists [], []. reflexivity.
    + exists [], (a :: s). reflexivity.
  - induction s as [|c s IH].
    + simpl. split; [discriminate|].
      intros (pre & post & E). destruct pre; discriminate E.
    + cbn [str_contains].
      destruct (str_starts_with (c :: s) (x :: sub)) eqn:E.
      * split; [intros _|reflexivity].
        apply str_starts_with_iff in E as [r E]. exists [], r. exact E.
      * rewrite IH. split.
        -- intros (pre & post & ->). exists (c :: pre), post. reflexivity.
        -- intros (pre & post & E'). destruct pre as [|d pre].
           ++ exfalso. assert (str_starts_with (c :: s) (x :: sub) = true)
                as K by (apply str_starts_with_iff; exists post; exact E').
              congruence.
           ++ injection E' as _ ->. exists pre, post. reflexivity.
Qed.

(** The test of the first loop of [trim] is the test of [isspace]. *)
Lemma rtrim_test (c : ascii) :
  ch_eqb c LF || ch_eqb c CR || isspace c = isspace c.
Proof.
  destruct (isspace c) eqn:E; [apply orb_true_r|].
  rewrite orb_false_r.
  destruct (ch_eqb c LF) eqn:E1; [apply ch_eqb_eq in E1; subst; discriminate E|].
  destruct (ch_eqb c CR) eqn:E2; [apply ch_eqb_eq in E2; subst; discriminate E|].
  reflexivity.
Qed.

Lemma rtrim_len_le (len : nat) (s : text) : rtrim_len len s <= len.
Proof.
  induction len as [|l IH]; simpl; [lia|].
  destruct (_ || _ || _); lia.
Qed.

Lemma rtrim_len_prefix (len : nat) :
  forall s t : text,
    len <= length s -> rtrim_len len (s ++ t) = rtrim_len len s.
Proof.
  induction len as [|l IH]; intros s t H; simpl; [reflexivity|].
  assert (char_at (s ++ t) l = char_at s l) as ->
    by (unfold char_at; apply app_nth1; lia).
  rewrite IH by lia. reflexivity.
Qed.

Lemma rtrim_len_snoc (x : text) (c : ascii) :
  rtrim_len (length (x ++ [c])) (x ++ [c])
  = if isspace c then rtrim_len (length x) x else S (length x).
Proof.
  rewrite length_app. cbn [length]. rewrite Nat.add_1_r. cbn [rtrim_len].
  assert (char_at (x ++ [c]) (length x) = c) as ->.
  { unfold char_at. rewrite app_nth2, Nat.sub_diag by lia. reflexivity. }
  rewrite rtrim_test, rtrim_len_prefix by lia. reflexivity.
Qed.

(** What the first loop of [trim] leaves of a string. *)
Lemma rtrim_split (s : text) :
  exists b : text,
    s = firstn (rtrim_len (length s) s) s ++ b
    /\ forallb isspace b = true
    /\ (firstn (rtrim_len (length s) s) s = []
        \/ exists (y : text) (c : ascii),
             firstn (rtrim_len (length s) s) s = y ++ [c]
             /\ isspace c = false).
Proof.
  induction s as [|c x IH] using rev_ind.
  - exists []. simpl. auto.
  - rewrite rtrim_len_snoc. destruct (isspace c) eqn:E.
    + destruct IH as (b & E1 & E2 & E3).
      pose proof (rtrim_len_le (length x) x) as Hle.
      rewrite firstn_app.
      replace (rtrim_len (length x) x - length x) with 0 by lia.
      cbn [firstn]. rewrite app_nil_r.
      exists (b ++ [c]). split; [|split].
      * rewrite app_assoc, <- E1. reflexivity.
      * rewrite forallb_app, E2. simpl. now rewrite E.
      * exact E3.
    + exists []. rewrite app_nil_r.
      assert (firstn (S (length x)) (x ++ [c]) = x ++ [c]) as ->.
      { apply firstn_all2. rewrite length_app. simpl. lia. }
      split; [reflexivity|]. split; [reflexivity|].
      right. exists x, c. auto.
Qed.

(** What the second loop and the copy leave of it. *)
Lemma ltrim_split (s : text) :
  s = firstn (ltrim_start s) s ++ skipn (ltrim_start s) s
  /\ forallb isspace (firstn (ltrim_start s) s) = true
  /\ match skipn (ltrim_start s) s with
     | [] => True
     | c :: _ => isspace c = false
     end.
Proof.
  induction s as [|c s (E1 & E2 & E3)]; simpl; [auto|].
  destruct (isspace c) eqn:E; simpl.
  - rewrite <- E1, E. auto.
  - auto.
Qed.

Lemma trim_unfold (s : text) :
  trim s
  = skipn (ltrim_start (firstn (rtrim_len (length (cstr s)) (cstr s)) (cstr s)))
      (firstn (rtrim_len (length (cstr s)) (cstr s)) (cstr s)).
Proof.
  unfold trim. cbv zeta.
  destruct (ltrim_start _) eqn:E; simpl; reflexivity.
Qed.

Lemma last_suffix (a t : text) (d : ascii) :
  t <> [] -> last (a ++ t) d = last t d.
Proof.
  intros Ht. induction a as [|x a IH]; [reflexivity|].
  cbn [app]. destruct (a ++ t) eqn:E; [|exact IH].
  destruct a; [contradiction | discriminate E].
Qed.

Lemma trim_parts (s : text) :
  exists a b : text,
    cstr s = a ++ trim s ++ b
    /\ forallb isspace a = true /\ forallb isspace b = true
    /\ match trim s with
       | [] => True
       | c :: r => isspace c = false /\ isspace (last (c :: r) c) = false
       end.
Proof.
  rewrite trim_unfold. set (s0 := cstr s).
  destruct (rtrim_split s0) as (b & E1 & E2 & E3).
  set (s1 := firstn (rtrim_len (length s0) s0) s0) in *.
  destruct (ltrim_split s1) as (F1 & F2 & F3).
  exists (firstn (ltrim_start s1) s1), b.
  split; [rewrite app_assoc, <- F1; exact E1|].
  split; [exact F2|]. split; [exact E2|].
  destruct (skipn (ltrim_start s1) s1) as [|c r] eqn:Et; [exact I|].
  split; [exact F3|].
  destruct E3 as [E3|(y & d & E3 & Hd)].
  - rewrite E3 in F1. destruct (firstn _ []); discriminate F1.
  - assert (last s1 c = d) as Hl.
    { rewrite E3. rewrite last_suffix by discriminate. reflexivity. }
    rewrite F1, last_suffix in Hl by discriminate. now rewrite Hl.
Qed.

Lemma trim_fixed (t : text) :
  no_nul t = true ->
  match t with
  | [] => True
  | c :: r => isspace c = false /\ isspace (last (c :: r) c) = false
  end ->
  trim t = t.
Proof.
  intros Hn Ht. rewrite trim_unfold, (cstr_plain t Hn).
  destruct t as [|c r]; [reflexivity|]. destruct Ht as [Hc Hl].
  assert (c :: r <> []) as Hne by discriminate.
  destruct (exists_last Hne) as (y & d & E). rewrite E in *.
  rewrite last_suffix in Hl by discriminate. cbn [last] in Hl.
  rewrite rtrim_len_snoc, Hl.
  rewrite firstn_all2 by (rewrite length_app; simpl; lia).
  rewrite <- E. cbn [ltrim_start]. rewrite Hc. reflexivity.
Qed.

End StringHelpers.

(** X13. The string helpers written in place of [strcmp], [strncmp] and
    [strstr]: [str_eq] holds exactly for equal strings,
    [str_starts_with s prefix] exactly when [s] begins with [prefix], and
    [str_contains s sub] exactly when [sub] occurs somewhere in [s]; the
    empty string is a prefix and a part of every string. *)
Theorem string_helpers_spec (s t : text) :
  (Syntax.str_eq s t = true <-> s = t)
  /\ (Syntax.str_starts_with s t = true <-> exists r : text, s = t ++ r)
  /\ (Syntax.str_contains s t = true
      <-> exists pre post : text, s = pre ++ t ++ post).
Proof.
  split; [apply str_eq_iff|].
  split; [apply str_starts_with_iff | apply str_contains_iff].
Qed.

(** X14. [trim] removes the white space at both ends of a C string and
    nothing else: the string is the result between two runs of white
    space, the result neither starts nor ends with white space, and a
    second call changes nothing.  A string of white space only becomes
    the empty string. *)
Theorem trim_spec (s : text) :
  (exists a b : text,
      cstr s = a ++ Syntax.trim s ++ b
      /\ forallb isspace a = true /\ forallb isspace b = true)
  /\ match Syntax.trim s with
     | [] => True
     | c :: r => isspace c = false /\ isspace (last (c :: r) c) = false
     end
  /\ Syntax.trim (Syntax.trim s) = Syntax.trim s.
Proof.
  destruct (trim_parts s) as (a & b & E & Ha & Hb & Ht).
  split; [exists a, b; auto|]. split; [exact Ht|].
  apply trim_fixed; [|exact Ht].
  pose proof (cstr_no_nul s) as Hn. rewrite E in Hn.
  rewrite !no_nul_app in Hn.
  apply andb_true_iff in Hn as [_ Hn]. now apply andb_true_iff in Hn as [Hn _].
Qed.
(** ** The stream that the loader hands to the parser *)

Section LoaderShape.

Import Syntax.

Lemma no_nul_part (a s b : text) :
  no_nul (a ++ s ++ b) = true -> no_nul s = true.
Proof.
  rewrite !no_nul_app. intros H.
  apply andb_true_iff in H as [_ H]. now apply andb_true_iff in H as [H _].
Qed.

Lemma no_nul_trim (s : text) : no_nul (trim s) = true.
Proof.
  destruct (trim_parts s) as (a & b & E & _).
  pose proof (cstr_no_nul s) as Hn. rewrite E in Hn.
  exact (no_nul_part _ _ _ Hn).
Qed.

Lemma no_nul_firstn (k : nat) (s : text) :
  no_nul s = true -> no_nul (firstn k s) = true.
Proof.
  intros H. rewrite <- (firstn_skipn k s), no_nul_app in H.
  now apply andb_true_iff in H as [H _].
Qed.

Lemma load_line_stored (line : text) (toks : list ParserToken) :
  Forall stored_lexeme toks -> Forall stored_lexeme (load_line line toks).
Proof.
  intros H. unfold load_line.
  destruct (trim line) as [|c0 l]; [exact H|].
  repeat match goal with
         | |- context [if ?b then toks else _] => destruct b; [exact H|]
         end.
  destruct (sscanf_row (c0 :: l)) as [[rawLex rawKind]|]; [|exact H].
  destruct (length toks <? MAX_TOKENS); [|exact H].
  apply Forall_app. split; [exact H|]. constructor; [|constructor].
  split; cbn [lexeme].
  - rewrite length_firstn. unfold MAX_LEXEME. lia.
  - apply no_nul_firstn, no_nul_trim.
Qed.

Lemma load_loop_stored (n : nat) :
  forall (fp : text) (toks : list ParserToken),
    Forall stored_lexeme toks -> Forall stored_lexeme (load_loop n fp toks).
Proof.
  induction n as [|n IH]; intros fp toks H; cbn [load_loop]; [exact H|].
  destruct fp as [|c fp]; [exact H|].
  destruct (fgets (MAX_LINE - 1) (c :: fp)) as [line fp'].
  apply IH, load_line_stored, H.
Qed.

Lemma eof_last_snoc (y : list ParserToken) (t : ParserToken) :
  eof_last (y ++ [t]) <-> kind t = PT_EOF.
Proof.
  unfold eof_last, token_of. rewrite length_app. cbn [length].
  replace (Z.to_nat (Z.of_nat (length y + 1) - 1)) with (length y) by lia.
  rewrite app_nth2, Nat.sub_diag by lia. reflexivity.
Qed.

Lemma append_eof_shape (toks : list ParserToken) :
  append_eof toks <> [] /\ eof_last (append_eof toks)
  /\ (append_eof toks = toks \/ append_eof toks = toks ++ [eof_token]).
Proof.
  unfold append_eof.
  destruct toks as [|t0 toks'] using rev_ind.
  - simpl. split; [discriminate|]. split; [reflexivity | now right].
  - clear IHtoks'. rewrite map_app. cbn [map]. rewrite last_last.
    destruct (kind t0) eqn:E;
      try (split; [intros K; destruct (toks' ++ [t0]); discriminate K|];
           split; [apply eof_last_snoc; reflexivity | now right]).
    split; [intros K; destruct toks'; discriminate K|].
    split; [apply eof_last_snoc; exact E | now left].
Qed.

Lemma loader_shape (fp : text) :
  let r := load_tokens_from_symbol_table (Some fp) in
  snd r <> [] /\ fst r = Z.of_nat (length (snd r)) /\ eof_last (snd r)
  /\ Forall stored_lexeme (snd r).
Proof.
  cbn [load_tokens_from_symbol_table fst snd].
  set (toks := load_loop (length fp) fp []).
  destruct (append_eof_shape toks) as (H1 & H2 & H3).
  split; [exact H1|]. split; [reflexivity|]. split; [exact H2|].
  assert (Forall stored_lexeme toks) as Hs
    by (apply load_loop_stored; constructor).
  destruct H3 as [-> | ->]; [exact Hs|].
  apply Forall_app. split; [exact Hs|]. constructor; [|constructor].
  split; [unfold MAX_LEXEME; simpl; lia | reflexivity].
Qed.

End LoaderShape.

(** X15. When the tokens that [load_tokens_from_symbol_table] stores for
    a table file fit the array [g_tokens], that is, when they are at most
    [MAX_TOKENS] with the [eof] token that the loader adds, the stream is
    fit for the parser: it is not empty, the value returned is its length,
    its last token is an [eof] token (the loader adds one when the rows do
    not end with one), and every lexeme is shorter than [MAX_LEXEME] and
    holds no NUL, so it fits its array.  An empty file gives the one [eof]
    token. *)
Theorem loaded_stream_ends_with_eof (fp : text) :
  let r := Syntax.load_tokens_from_symbol_table (Some fp) in
  length (snd r) <= Syntax.MAX_TOKENS ->
  snd r <> []
  /\ fst r = Z.of_nat (length (snd r))
  /\ eof_last (snd r)
  /\ Forall stored_lexeme (snd r)
  /\ Syntax.load_tokens_from_symbol_table (Some [])
     = (1%Z, [Syntax.eof_token]).
Proof.
  intros r _. subst r.
  destruct (loader_shape fp) as (H1 & H2 & H3 & H4).
  repeat split; try assumption; apply H4.
Qed.

Lemma loaded_stream_ends_with_eof_witness :
  eof_last (snd (Syntax.load_tokens_from_symbol_table (Some decl_table)))
  /\ length (snd (Syntax.load_tokens_from_symbol_table (Some decl_table)))
     = 4.
Proof.
  split; [|vm_compute; reflexivity].
  apply (proj1 (proj2 (proj2 (loaded_stream_ends_with_eof decl_table
                                ltac:(vm_compute; lia))))).
Defined.

(** X16. [main] of the syntax analyzer on a table that can be opened and
    holds at most [MAX_TOKENS] tokens: the run ends, with ten units of
    fuel per token; it ends in the state in which
    [parse_program] ends, because the parser stops on the [eof] token and
    the test for code after the program never fires; and the exit code is
    0 whether or not syntax errors were reported.  The exit code is 1
    only when the table cannot be opened. *)
Theorem syntax_main_outcome (fp : text) (fuel : nat) :
  let toks := snd (Syntax.load_tokens_from_symbol_table (Some fp)) in
  length toks <= Syntax.MAX_TOKENS ->
  10 * length toks <= fuel ->
  (exists (iters : nat) (st' : Syntax.PState),
      Syntax.parse_program fuel (Syntax.initial_state toks)
      = Syntax.Ok iters st'
      /\ Syntax.main fuel (Some fp) = Syntax.Ok 0%Z st')
  /\ Syntax.main fuel None = Syntax.Ok 1%Z (Syntax.initial_state []).
Proof.
  intros toks Hcap Hfuel. split; [|reflexivity].
  destruct (loader_shape fp) as (Hne & Hn & Hlast & _). fold toks in Hne, Hlast.
  assert (0 < length toks) as Hlen
    by (destruct toks; [congruence | simpl; lia]).
  destruct (wp_total_result _ _ _ _
              (parse_program_runs toks true (fun _ => Hlast) fuel 0
                 (Syntax.initial_state toks) (conj eq_refl eq_refl)
                 ltac:(lia) ltac:(intros _; unfold fuel_for; lia)))
    as (iters & st' & Hrun & j & Hj & Hrj & Hsj).
  destruct (Hsj eq_refl) as [_ Heof].
  exists iters, st'. split; [exact Hrun|].
  unfold Syntax.main.
  destruct (Syntax.load_tokens_from_symbol_table (Some fp)) as [n toks'] eqn:E.
  cbn [fst snd] in *. subst toks.
  assert ((n =? 0)%Z = false) as -> by (apply Z.eqb_neq; lia).
  unfold Syntax.bind at 1. rewrite Hrun.
  unfold Syntax.bind at 1.
  pose proof (wp_cur_tok toks' true j st' (fun t s => t = token_of toks' j /\ s = st')
                Hj Hrj (conj eq_refl eq_refl)) as Hc.
  unfold wp in Hc.
  destruct (Syntax.cur_tok st') as [t s| |];
    [|discriminate Hc|contradiction].
  destruct Hc as [-> ->]. rewrite Heof. reflexivity.
Qed.

Lemma syntax_main_outcome_witness :
  exists (iters : nat) (st' : Syntax.PState),
    Syntax.parse_program 40 (Syntax.initial_state (reloaded "int x;"))
    = Syntax.Ok iters st'
    /\ Syntax.main 40 (Some decl_table) = Syntax.Ok 0%Z st'.
Proof.
  assert (decl_table = symbol_table (str "sample.ksh") (scanned "int x;")) as E
    by (vm_compute; reflexivity).
  unfold reloaded. rewrite <- E.
  apply (proj1 (syntax_main_outcome decl_table 40
                  ltac:(vm_compute; lia) ltac:(vm_compute; lia))).
Defined.

(** ** The parser on the tokens in front of it *)

Section ParserSteps.

Import Syntax.

Lemma cur_tok_at (st : PState) (pre : list ParserToken) (t : ParserToken)
    (rest : list ParserToken) :
  stream_at st pre (t :: rest) -> cur_tok st = Ok t st.
Proof.
  intros [Ht Hi]. unfold cur_tok, token_at, g_tok_count.
  rewrite Hi, Ht, length_app. cbn [length].
  destruct (Z.geb_spec (Z.of_nat (length pre))
              (Z.of_nat (length pre + S (length rest)))); [lia|].
  destruct (Z.ltb_spec (Z.of_nat (length pre)) 0); [lia|].
  destruct (Z.leb_spec (Z.of_nat (length pre + S (length rest)))
              (Z.of_nat (length pre))); [lia|].
  cbn [orb]. rewrite Nat2Z.id, nth_error_app2, Nat.sub_diag by lia.
  reflexivity.
Qed.

Lemma next_tok_at (st : PState) (pre : list ParserToken) (t u : ParserToken)
    (rest : list ParserToken) :
  stream_at st pre (t :: u :: rest) ->
  next_tok st = Ok tt (with_index st (Z.of_nat (length pre) + 1))
  /\ stream_at (with_index st (Z.of_nat (length pre) + 1)) (pre ++ [t])
       (u :: rest).
Proof.
  intros [Ht Hi]. split.
  - unfold next_tok.
    assert ((g_tok_index st <? g_tok_count st - 1)%Z = true) as ->.
    { unfold g_tok_count. rewrite Hi, Ht, length_app. cbn [length].
      apply Z.ltb_lt. lia. }
    unfold with_index. rewrite Hi. reflexivity.
  - split; cbn [with_index g_tokens g_tok_index].
    + rewrite Ht, <- app_assoc. reflexivity.
    + rewrite length_app. cbn [length]. lia.
Qed.

Lemma next_tok_last (st : PState) (pre : list ParserToken) (t : ParserToken) :
  stream_at st pre [t] -> next_tok st = Ok tt st.
Proof.
  intros [Ht Hi]. unfold next_tok, g_tok_count.
  rewrite Hi, Ht, length_app. cbn [length].
  destruct (Z.ltb_spec (Z.of_nat (length pre))
              (Z.of_nat (length pre + 1) - 1)); [lia|].
  reflexivity.
Qed.

Lemma with_index_same (st : PState) (pre rest : list ParserToken) :
  stream_at st pre rest -> with_index st (Z.of_nat (length pre)) = st.
Proof. intros [_ Hi]. destruct st. unfold with_index. simpl in *. now subst. Qed.

Lemma with_index_twice (st : PState) (i j : Z) :
  with_index (with_index st i) j = with_index st j.
Proof. reflexivity. Qed.

Lemma panic_recover_at (skip : list ParserToken) :
  forall (fuel : nat) (st : PState) (pre : list ParserToken)
         (b : ParserToken) (rest : list ParserToken),
    stream_at st pre (skip ++ b :: rest) ->
    forallb is_skipped skip = true -> length skip < fuel ->
    panic_recover fuel st
    = if is_skipped b then
        panic_recover (fuel - length skip)
          (with_index st (Z.of_nat (length pre + length skip)))
      else if kind_eqb (kind b) PT_EOF then
        Ok tt (with_index st (Z.of_nat (length pre + length skip)))
      else
        match rest with
        | [] => Ok tt (with_index st (Z.of_nat (length pre + length skip)))
        | _ :: _ =>
            Ok tt (with_index st (Z.of_nat (length pre + length skip + 1)))
        end.
Proof.
  induction skip as [|t skip IH]; intros fuel st pre b rest Hat Hs Hf.
  - cbn [app length] in *. rewrite Nat.add_0_r, Nat.sub_0_r.
    rewrite (with_index_same st pre _ Hat).
    destruct (is_skipped b) eqn:Eb; [reflexivity|].
    destruct fuel as [|f]; [lia|]. cbn [panic_recover].
    unfold bind at 1. rewrite (cur_tok_at st pre b rest Hat).
    unfold is_skipped in Eb.
    destruct (kind_eqb (kind b) PT_EOF) eqn:Ek; cbn [negb]; [reflexivity|].
    cbn [negb andb] in Eb. apply negb_false_iff in Eb.
    unfold is_boundary in Eb. rewrite Eb.
    destruct rest as [|u rest].
    + apply (next_tok_last st pre b Hat).
    + rewrite (proj1 (next_tok_at st pre b u rest Hat)).
      do 2 f_equal. lia.
  - cbn [forallb] in Hs. apply andb_true_iff in Hs as [Ht Hs].
    destruct fuel as [|f]; [simpl in Hf; lia|]. cbn [panic_recover].
    cbn [app] in Hat.
    unfold bind at 1. rewrite (cur_tok_at st pre t _ Hat).
    pose proof Ht as Ht'. unfold is_skipped in Ht'.
    apply andb_true_iff in Ht' as [Hk Hb].
    rewrite Hk. apply negb_true_iff in Hb. unfold is_boundary in Hb.
    rewrite Hb.
    destruct (skip ++ b :: rest) as [|u r] eqn:E;
      [destruct skip; discriminate E|].
    destruct (next_tok_at st pre t u r Hat) as [Hn Hat'].
    unfold bind. rewrite Hn. rewrite <- E in Hat'.
    rewrite (IH f _ (pre ++ [t]) b rest Hat' Hs) by (simpl in Hf; lia).
    rewrite !with_index_twice, !length_app. cbn [length].
    replace (length pre + 1 + length skip) with (length pre + S (length skip))
      by lia.
    replace (S f - S (length skip)) with (f - length skip) by lia.
    reflexivity.
Qed.

End ParserSteps.

(** X17. [panic_recover] skips to the next statement boundary and changes
    nothing but the index of the current token: over tokens that are
    neither [eof] nor a semicolon or right brace, it stops on the first
    [eof] token without consuming it, or right after the first semicolon
    or right brace.  It writes no output and does not touch the error
    flag. *)
Theorem panic_recover_stops_at_boundary (st : Syntax.PState)
    (pre skip : list Syntax.ParserToken) (b : Syntax.ParserToken)
    (rest : list Syntax.ParserToken) (fuel : nat) :
  stream_at st pre (skip ++ b :: rest) ->
  forallb is_skipped skip = true ->
  length skip < fuel ->
  (Syntax.kind b = Syntax.PT_EOF ->
     Syntax.panic_recover fuel st
     = Syntax.Ok tt (with_index st (Z.of_nat (length pre + length skip))))
  /\ (is_boundary b = true -> rest <> [] ->
        Syntax.panic_recover fuel st
        = Syntax.Ok tt
            (with_index st (Z.of_nat (length pre + length skip + 1)))).
Proof.
  intros Hat Hs Hf.
  rewrite (panic_recover_at skip fuel st pre b rest Hat Hs Hf). split.
  - intros Hk. unfold is_skipped. rewrite Hk. reflexivity.
  - intros Hb Hr. unfold is_skipped. rewrite Hb, andb_false_r.
    assert (Syntax.kind_eqb (Syntax.kind b) Syntax.PT_EOF = false) as ->.
    { unfold is_boundary, Syntax.is_symbol in Hb.
      destruct (Syntax.kind b); try reflexivity; discriminate Hb. }
    destruct rest; [congruence | reflexivity].
Qed.

Lemma panic_recover_stops_at_boundary_witness :
  Syntax.panic_recover 4 (Syntax.initial_state malformed_stream)
  = Syntax.Ok tt (with_index (Syntax.initial_state malformed_stream) 4).
Proof.
  refine (proj2 (panic_recover_stops_at_boundary
                   (Syntax.initial_state malformed_stream) []
                   (firstn 3 malformed_stream)
                   (Syntax.mkParserToken Syntax.PT_SYMBOL (str ";"))
                   (skipn 4 malformed_stream) 4
                   (conj eq_refl eq_refl) eq_refl _) eq_refl _).
  - simpl. lia.
  - discriminate.
Defined.
(** ** What every run of the parser keeps *)

Section ParserKeeps.

Import Syntax.

Lemma hoare_ret (A : Type) (a : A) (P : PState -> Prop) : hoare P (ret a) P.
Proof. intros st a' st' H [= _ <-]. exact H. Qed.

Lemma hoare_out_of_fuel (A : Type) (P Q : PState -> Prop) :
  hoare P (@out_of_fuel A) Q.
Proof. intros st a st' _ H. discriminate H. Qed.

Lemma hoare_bind (A B : Type) (c : M A) (k : A -> M B)
    (P R Q : PState -> Prop) :
  hoare P c R -> (forall a, hoare R (k a) Q) -> hoare P (bind c k) Q.
Proof.
  intros Hc Hk st b st' HP H. unfold bind in H.
  destruct (c st) as [a st1| |] eqn:E; try discriminate H.
  exact (Hk a st1 b st' (Hc st a st1 HP E) H).
Qed.

Lemma hoare_cur_tok (P : PState -> Prop) : hoare P cur_tok P.
Proof.
  intros st t st' HP H. unfold cur_tok in H.
  destruct (token_at st _); [|discriminate H]. now injection H as _ <-.
Qed.

(** *** The tags are well nested *)

Lemma open_tags_app (a b : list Event) :
  forall s : list text,
    open_tags s (a ++ b)
    = match open_tags s a with
      | Some s1 => open_tags s1 b
      | None => None
      end.
Proof.
  induction a as [|e a IH]; intros s; [reflexivity|].
  destruct e as [n|n|n c]; cbn [app open_tags]; try apply IH.
  destruct s as [|m s]; [reflexivity|].
  destruct (text_eqb m n); [apply IH | reflexivity].
Qed.

Lemma tags_next_tok (s : list text) :
  hoare (tags_are s) next_tok (tags_are s).
Proof.
  intros st [] st' HP H. unfold next_tok in H.
  destruct (_ <? _)%Z; injection H as <-; exact HP.
Qed.

Lemma tags_syntax_error (msg : text) (s : list text) :
  hoare (tags_are s) (syntax_error msg) (tags_are s).
Proof.
  unfold syntax_error. eapply hoare_bind; [apply hoare_cur_tok|].
  intros t st [] st' HP [= <-]. exact HP.
Qed.

Lemma tags_open (n : text) (s : list text) :
  hoare (tags_are s) (open_tag n) (tags_are (n :: s)).
Proof.
  intros st [] st' HP [= <-]. unfold tags_are in *. cbn [trace].
  rewrite open_tags_app, HP. reflexivity.
Qed.

Lemma tags_close (n : text) (s : list text) :
  hoare (tags_are (n :: s)) (close_tag n) (tags_are s).
Proof.
  intros st [] st' HP [= <-]. unfold tags_are in *. cbn [trace].
  rewrite open_tags_app, HP. cbn [open_tags].
  now rewrite (proj2 (text_eqb_eq n n) eq_refl).
Qed.

Lemma tags_leaf (n c : text) (s : list text) :
  hoare (tags_are s) (leaf_tag n c) (tags_are s).
Proof.
  intros st [] st' HP [= <-]. unfold tags_are in *. cbn [trace].
  rewrite open_tags_app, HP. reflexivity.
Qed.

Ltac split6 := split; [|split; [|split; [|split; [|split]]]].

Ltac hoare_step prim :=
  first
    [ apply hoare_ret
    | apply hoare_out_of_fuel
    | apply hoare_cur_tok
    | prim
    | eapply hoare_bind; [|intro]
    | lazymatch goal with
      | |- hoare _ (if ?b then _ else _) _ => destruct b
      end ].

Ltac tags_prim :=
  first
    [ apply tags_next_tok | apply tags_syntax_error | apply tags_open
    | apply tags_close | apply tags_leaf
    | match goal with
      | H : forall s : list text, hoare (tags_are s) _ (tags_are s) |- _ =>
          apply H
      end ].

Lemma tags_panic_recover (f : nat) :
  forall s : list text, hoare (tags_are s) (panic_recover f) (tags_are s).
Proof.
  induction f as [|f IH]; intros s; cbn [panic_recover];
    repeat hoare_step tags_prim.
Qed.

Lemma tags_expect_symbol (f : nat) (sym errmsg : text) :
  forall s : list text,
    hoare (tags_are s) (expect_symbol f sym errmsg) (tags_are s).
Proof.
  pose proof (tags_panic_recover f). intros s.
  unfold expect_symbol, accept_symbol. repeat hoare_step tags_prim.
Qed.

Lemma tags_simple_statements (f : nat) :
  (forall s, hoare (tags_are s) (parse_decl_stmt f) (tags_are s))
  /\ (forall s, hoare (tags_are s) (parse_input_stmt f) (tags_are s)).
Proof.
  pose proof (tags_panic_recover f).
  pose proof (fun sym msg => tags_expect_symbol f sym msg) as He.
  split; intros s; unfold parse_decl_stmt, parse_input_stmt;
    repeat first [apply He | hoare_step tags_prim].
Qed.

Lemma tags_expression (f : nat) :
  (forall s, hoare (tags_are s) (parse_expression f) (tags_are s))
  /\ (forall s, hoare (tags_are s) (parse_simple_expr f) (tags_are s))
  /\ (forall s, hoare (tags_are s) (parse_simple_expr_loop f) (tags_are s))
  /\ (forall s, hoare (tags_are s) (parse_term f) (tags_are s))
  /\ (forall s, hoare (tags_are s) (parse_term_loop f) (tags_are s))
  /\ (forall s, hoare (tags_are s) (parse_factor f) (tags_are s)).
Proof.
  induction f as [|f (He & Hs & Hsl & Ht & Htl & Hf)].
  - split6; intros s; apply hoare_out_of_fuel.
  - pose proof (tags_panic_recover f).
    split6; intros s;
      cbn [parse_expression parse_simple_expr parse_simple_expr_loop
             parse_term parse_term_loop parse_factor];
      repeat hoare_step tags_prim.
Qed.

Lemma tags_statement (f : nat) :
  (forall s, hoare (tags_are s) (parse_statement f) (tags_are s))
  /\ (forall s, hoare (tags_are s) (parse_block f) (tags_are s))
  /\ (forall s, hoare (tags_are s) (parse_block_loop f) (tags_are s))
  /\ (forall s, hoare (tags_are s) (parse_if_stmt f) (tags_are s))
  /\ (forall s, hoare (tags_are s) (parse_while_stmt f) (tags_are s))
  /\ (forall s, hoare (tags_are s) (parse_for_stmt f) (tags_are s)).
Proof.
  induction f as [|f (Hs & Hb & Hbl & Hi & Hw & Hf)].
  - split6; intros s; apply hoare_out_of_fuel.
  - pose proof (tags_panic_recover f).
    pose proof (fun sym msg => tags_expect_symbol f sym msg) as Hx.
    destruct (tags_simple_statements f) as [Hd Hin].
    destruct (tags_expression f) as (He & _).
    split6; intros s;
      cbn [parse_statement parse_block parse_block_loop parse_if_stmt
             parse_while_stmt parse_for_stmt];
      unfold parse_print_stmt, parse_assign_stmt, parse_assign_no_semicolon;
      repeat first [apply Hx | hoare_step tags_prim].
Qed.

Lemma tags_stmt_list (f : nat) :
  forall s, hoare (tags_are s) (parse_stmt_list f) (tags_are s).
Proof.
  induction f as [|f IH]; intros s; cbn [parse_stmt_list];
    [apply hoare_out_of_fuel|].
  destruct (tags_statement f) as (Hs & _).
  repeat hoare_step tags_prim.
Qed.

Lemma tags_program (f : nat) :
  forall s, hoare (tags_are s) (parse_program f) (tags_are s).
Proof.
  pose proof (tags_stmt_list f). intros s. unfold parse_program.
  repeat hoare_step tags_prim.
Qed.

(** *** Tokens, index, output and error flag *)

Lemma grows_refl (st : PState) : grows st st.
Proof.
  split; [reflexivity|]. split; [lia|]. split.
  - exists []. now rewrite app_nil_r.
  - exists []. rewrite app_nil_r, orb_false_r. auto.
Qed.

Lemma grows_trans (st1 st2 st3 : PState) :
  grows st1 st2 -> grows st2 st3 -> grows st1 st3.
Proof.
  intros (T1 & I1 & (e1 & E1) & d1 & D1 & F1)
         (T2 & I2 & (e2 & E2) & d2 & D2 & F2).
  split; [congruence|]. split; [lia|]. split.
  - exists (e1 ++ e2). rewrite E2, E1, app_assoc. reflexivity.
  - exists (d1 ++ d2). split; [rewrite D2, D1, app_assoc; reflexivity|].
    rewrite F2, F1. destruct d1, d2; simpl; destruct (g_error st1); reflexivity.
Qed.

Lemma grows_step (A : Type) (c : M A) :
  (forall st a st', c st = Ok a st' -> grows st st') ->
  forall st0, hoare (grows st0) c (grows st0).
Proof.
  intros H st0 st a st' H0 E. exact (grows_trans _ _ _ H0 (H st a st' E)).
Qed.

Lemma grows_next_tok : forall st0, hoare (grows st0) next_tok (grows st0).
Proof.
  apply grows_step. intros st [] st' H. unfold next_tok in H.
  destruct (_ <? _)%Z; injection H as <-; [|apply grows_refl].
  split; [reflexivity|]. split; [simpl; lia|]. split.
  - exists []. simpl. now rewrite app_nil_r.
  - exists []. simpl. rewrite app_nil_r, orb_false_r. auto.
Qed.

Lemma grows_emit (e : Event) :
  forall st0, hoare (grows st0) (emit e) (grows st0).
Proof.
  apply grows_step. intros st [] st' [= <-].
  split; [reflexivity|]. split; [simpl; lia|]. split.
  - exists [e]. reflexivity.
  - exists []. simpl. rewrite app_nil_r, orb_false_r. auto.
Qed.

Lemma grows_syntax_error (msg : text) :
  forall st0, hoare (grows st0) (syntax_error msg) (grows st0).
Proof.
  apply grows_step. intros st [] st' H. unfold syntax_error, bind in H.
  destruct (cur_tok st) as [t st1| |] eqn:E; try discriminate H.
  assert (st1 = st) as ->.
  { unfold cur_tok in E. destruct (token_at st _); [|discriminate E].
    now injection E as _ <-. }
  injection H as <-.
  split; [reflexivity|]. split; [simpl; lia|]. split.
  - exists []. simpl. now rewrite app_nil_r.
  - eexists [_]. simpl. rewrite orb_true_r. auto.
Qed.

Ltac grows_prim :=
  first
    [ apply grows_next_tok | apply grows_syntax_error
    | apply grows_emit
    | match goal with
      | H : forall st0 : PState, hoare (grows st0) _ (grows st0) |- _ =>
          apply H
      end ].

Lemma grows_panic_recover (f : nat) :
  forall st0, hoare (grows st0) (panic_recover f) (grows st0).
Proof.
  induction f as [|f IH]; intros st0; cbn [panic_recover];
    repeat hoare_step grows_prim.
Qed.

Lemma grows_expect_symbol (f : nat) (sym errmsg : text) :
  forall st0, hoare (grows st0) (expect_symbol f sym errmsg) (grows st0).
Proof.
  pose proof (grows_panic_recover f). intros st0.
  unfold expect_symbol, accept_symbol, leaf_tag.
  repeat hoare_step grows_prim.
Qed.

Lemma grows_simple_statements (f : nat) :
  (forall st0, hoare (grows st0) (parse_decl_stmt f) (grows st0))
  /\ (forall st0, hoare (grows st0) (parse_input_stmt f) (grows st0)).
Proof.
  pose proof (grows_panic_recover f).
  pose proof (fun sym msg => grows_expect_symbol f sym msg) as He.
  split; intros st0; unfold parse_decl_stmt, parse_input_stmt,
    open_tag, close_tag, leaf_tag;
    repeat first [apply He | hoare_step grows_prim].
Qed.

Lemma grows_expression (f : nat) :
  (forall st0, hoare (grows st0) (parse_expression f) (grows st0))
  /\ (forall st0, hoare (grows st0) (parse_simple_expr f) (grows st0))
  /\ (forall st0, hoare (grows st0) (parse_simple_expr_loop f) (grows st0))
  /\ (forall st0, hoare (grows st0) (parse_term f) (grows st0))
  /\ (forall st0, hoare (grows st0) (parse_term_loop f) (grows st0))
  /\ (forall st0, hoare (grows st0) (parse_factor f) (grows st0)).
Proof.
  induction f as [|f (He & Hs & Hsl & Ht & Htl & Hf)].
  - split6; intros st0; apply hoare_out_of_fuel.
  - pose proof (grows_panic_recover f).
    split6; intros st0;
      cbn [parse_expression parse_simple_expr parse_simple_expr_loop
             parse_term parse_term_loop parse_factor];
      unfold open_tag, close_tag, leaf_tag;
      repeat hoare_step grows_prim.
Qed.

Lemma grows_statement (f : nat) :
  (forall st0, hoare (grows st0) (parse_statement f) (grows st0))
  /\ (forall st0, hoare (grows st0) (parse_block f) (grows st0))
  /\ (forall st0, hoare (grows st0) (parse_block_loop f) (grows st0))
  /\ (forall st0, hoare (grows st0) (parse_if_stmt f) (grows st0))
  /\ (forall st0, hoare (grows st0) (parse_while_stmt f) (grows st0))
  /\ (forall st0, hoare (grows st0) (parse_for_stmt f) (grows st0)).
Proof.
  induction f as [|f (Hs & Hb & Hbl & Hi & Hw & Hf)].
  - split6; intros st0; apply hoare_out_of_fuel.
  - pose proof (grows_panic_recover f).
    pose proof (fun sym msg => grows_expect_symbol f sym msg) as Hx.
    destruct (grows_simple_statements f) as [Hd Hin].
    destruct (grows_expression f) as (He & _).
    split6; intros st0;
      cbn [parse_statement parse_block parse_block_loop parse_if_stmt
             parse_while_stmt parse_for_stmt];
      unfold parse_print_stmt, parse_assign_stmt, parse_assign_no_semicolon,
        open_tag, close_tag, leaf_tag;
      repeat first [apply Hx | hoare_step grows_prim].
Qed.

Lemma grows_stmt_list (f : nat) :
  forall st0, hoare (grows st0) (parse_stmt_list f) (grows st0).
Proof.
  induction f as [|f IH]; intros st0; cbn [parse_stmt_list];
    [apply hoare_out_of_fuel|].
  destruct (grows_statement f) as (Hs & _).
  repeat hoare_step grows_prim.
Qed.

Lemma grows_program (f : nat) :
  forall st0, hoare (grows st0) (parse_program f) (grows st0).
Proof.
  pose proof (grows_stmt_list f). intros st0.
  unfold parse_program, open_tag, close_tag.
  repeat hoare_step grows_prim.
Qed.

End ParserKeeps.

(** X18. The parse tree is printed well nested, also on malformed input:
    over a run of [parse_program], [parse_statement] or
    [parse_expression], every closing tag closes the innermost tag that
    is open, and the tags that are open at the end are those that were
    open at the start.  So the indentation [g_indent], the number of open
    tags, never goes below zero and is back at its first value at the
    end. *)
Theorem parse_tree_is_well_nested (fuel : nat) (st st' : Syntax.PState)
    (s : list text) :
  tags_are s st ->
  (forall n : nat, Syntax.parse_program fuel st = Syntax.Ok n st' ->
                   tags_are s st')
  /\ (Syntax.parse_statement fuel st = Syntax.Ok tt st' -> tags_are s st')
  /\ (Syntax.parse_expression fuel st = Syntax.Ok tt st' -> tags_are s st').
Proof.
  intros Hs. split; [|split].
  - intros n H. exact (tags_program fuel s st n st' Hs H).
  - intros H. exact (proj1 (tags_statement fuel) s st tt st' Hs H).
  - intros H. exact (proj1 (tags_expression fuel) s st tt st' Hs H).
Qed.

Lemma parse_tree_is_well_nested_witness :
  open_tags [] (Syntax.trace (snd malformed_run)) = Some [].
Proof.
  refine (proj1 (parse_tree_is_well_nested 60
                   (Syntax.initial_state malformed_stream)
                   (snd malformed_run) [] eq_refl) (fst malformed_run) _).
  vm_compute. reflexivity.
Defined.

(** X19. A run of [parse_program] never changes the token stream, never
    moves the index back, only adds to the tags and to the diagnostics it
    has printed, and sets the error flag exactly when it prints a
    diagnostic: at the end the flag is set if and only if it was set
    before or a [Syntax Error] line was written.  From the state in which
    [main] starts, the verdict printed at the end is [syntax errors]
    exactly when a diagnostic was written. *)
Theorem error_flag_tells_diagnostics (fuel n : nat) (st st' : Syntax.PState) :
  Syntax.parse_program fuel st = Syntax.Ok n st' ->
  Syntax.g_tokens st' = Syntax.g_tokens st
  /\ (Syntax.g_tok_index st <= Syntax.g_tok_index st')%Z
  /\ (exists ev, Syntax.trace st' = Syntax.trace st ++ ev)
  /\ (exists d,
         Syntax.diagnostics st' = Syntax.diagnostics st ++ d
         /\ Syntax.g_error st' = Syntax.g_error st || negb (is_nil d))
  /\ (Syntax.g_error st = false -> Syntax.diagnostics st = [] ->
      (Syntax.g_error st' = true <-> Syntax.diagnostics st' <> [])).
Proof.
  intros H.
  destruct (grows_program fuel st st n st' (grows_refl st) H)
    as (T & I & E & d & D & F).
  split; [exact T|]. split; [exact I|]. split; [exact E|].
  split; [exists d; auto|].
  intros He Hd. rewrite F, D, He, Hd. destruct d; simpl.
  - split; [discriminate | congruence].
  - split; [discriminate | reflexivity].
Qed.

Lemma error_flag_tells_diagnostics_witness :
  Syntax.g_error (snd malformed_run) = true
  <-> Syntax.diagnostics (snd malformed_run) <> [].
Proof.
  refine (proj2 (proj2 (proj2 (proj2
            (error_flag_tells_diagnostics 60 (fst malformed_run)
               (Syntax.initial_state malformed_stream) (snd malformed_run) _))))
            eq_refl eq_refl).
  vm_compute. reflexivity.
Defined.

(** ** Adding a word to the DFA *)

Section DFAInsert.

Variable w : text.

Lemma skipn_char_at (i : nat) :
  i < length w -> skipn i w = char_at w i :: skipn (S i) w.
Proof.
  revert i. induction w as [|c r IH]; intros i Hi; simpl in Hi; [lia|].
  destruct i as [|i]; [reflexivity|].
  change (skipn (S i) (c :: r)) with (skipn i r).
  change (skipn (S (S i)) (c :: r)) with (skipn (S i) r).
  change (char_at (c :: r) (S i)) with (char_at r i).
  apply IH. lia.
Qed.

Lemma dfa_init_chain_words (k : nat) :
  forall i : nat,
    i + k = length w -> 0 < k ->
    exists chain : DFANode,
      dfa_init_chain k w i (length w) = Some chain
      /\ val chain = char_at w i
      /\ words_node chain = [skipn i w]
      /\ node_ok chain = true.
Proof.
  induction k as [|k IH]; intros i Hik Hk; [lia|].
  cbn [dfa_init_chain].
  assert ((length w =? 0) || (i =? length w) = false) as ->.
  { apply orb_false_iff. split; apply Nat.eqb_neq; lia. }
  rewrite (skipn_char_at i) by lia.
  destruct k as [|k].
  - assert (S i = length w) as E by lia.
    assert (dfa_init_chain 0 w (S i) (length w) = None) as ->.
    { cbn [dfa_init_chain]. rewrite E, Nat.eqb_refl, orb_true_r. reflexivity. }
    eexists. split; [reflexivity|]. cbn [val words_node node_ok].
    assert ((i =? length w - 1) = true) as -> by (apply Nat.eqb_eq; lia).
    assert (skipn (S i) w = []) as -> by (rewrite E; apply skipn_all).
    repeat split; reflexivity.
  - destruct (IH (S i) ltac:(lia) ltac:(lia)) as (child & E & Hv & Hw & Hok).
    rewrite E. eexists. split; [reflexivity|].
    cbn [val words_node node_ok Nat.ltb Nat.leb DFA_MAX_CHILDREN].
    assert ((i =? length w - 1) = false) as -> by (apply Nat.eqb_neq; lia).
    change (0 <? DFA_MAX_CHILDREN) with true. cbv iota.
    cbn [flat_map distinct_vals forallb existsb negb andb app map].
    rewrite app_nil_r, Hw, Hok. repeat split; reflexivity.
Qed.

Lemma update_node_None (c : ascii) (f : DFANode -> DFANode)
    (nodes : list DFANode) :
  find_node c nodes = None -> update_node c f nodes = None.
Proof.
  induction nodes as [|n nodes IH]; simpl; [reflexivity|].
  destruct (ch_eqb c (val n)); [discriminate|].
  intros H. now rewrite IH.
Qed.

Lemma update_node_Some (c : ascii) (f : DFANode -> DFANode)
    (nodes : list DFANode) (n : DFANode) :
  find_node c nodes = Some n ->
  exists l1 l2 : list DFANode,
    nodes = l1 ++ n :: l2
    /\ update_node c f nodes = Some (l1 ++ f n :: l2).
Proof.
  induction nodes as [|m nodes IH]; simpl; [discriminate|].
  destruct (ch_eqb c (val m)).
  - intros [= <-]. exists [], nodes. auto.
  - intros H. destruct (IH H) as (l1 & l2 & -> & E).
    exists (m :: l1), l2. rewrite E. auto.
Qed.

Lemma distinct_vals_map (a b : list DFANode) :
  map val a = map val b -> distinct_vals a = distinct_vals b.
Proof.
  revert b. induction a as [|x a IH]; intros [|y b] H; try discriminate H;
    [reflexivity|].
  simpl in H. injection H as Hv Hm. cbn [distinct_vals].
  rewrite (IH b Hm), Hv. do 2 f_equal.
  clear IH. revert b Hm. induction a as [|z a IH]; intros [|z' b] Hm;
    try discriminate Hm; [reflexivity|].
  simpl in Hm. injection Hm as Hz Hm. simpl. now rewrite Hz, (IH b Hm).
Qed.

Lemma distinct_vals_snoc (nodes : list DFANode) (n : DFANode) :
  distinct_vals nodes = true ->
  find_node (val n) nodes = None ->
  distinct_vals (nodes ++ [n]) = true.
Proof.
  induction nodes as [|m nodes IH]; intros Hd Hf; [reflexivity|].
  simpl in Hd, Hf. apply andb_true_iff in Hd as [H1 H2].
  destruct (ch_eqb (val n) (val m)) eqn:E; [discriminate Hf|].
  cbn [app distinct_vals]. rewrite (IH H2 Hf), andb_true_r.
  rewrite existsb_app. apply negb_true_iff, orb_false_iff.
  split; [now apply negb_true_iff in H1|].
  simpl. rewrite orb_false_r.
  apply ch_eqb_neq. apply ch_eqb_neq in E. congruence.
Qed.

Lemma in_words_replace (l1 l2 : list DFANode) (n n' : DFANode) (x y : text) :
  (In x (words_node n') <-> In x (words_node n) \/ x = y) ->
  (In x (flat_map words_node (l1 ++ n' :: l2))
   <-> In x (flat_map words_node (l1 ++ n :: l2)) \/ x = y).
Proof.
  intros H. rewrite !flat_map_app. cbn [flat_map]. rewrite !in_app_iff, H.
  tauto.
Qed.

(** [dfa_brute_LCA] adds the rest of the word below [root] and keeps
    every word that was there. *)
Lemma dfa_brute_LCA_words (k : nat) :
  forall (root : DFANode) (i : nat),
    i + k = length w -> node_ok root = true -> node_roomy root = true ->
    val (dfa_brute_LCA k root w i (length w)) = val root
    /\ node_ok (dfa_brute_LCA k root w i (length w)) = true
    /\ forall x : text,
         In x (words_node (dfa_brute_LCA k root w i (length w)))
         <-> In x (words_node root) \/ x = val root :: skipn i w.
Proof.
  induction k as [|k IH]; intros [v l cs] i Hik Hok Hroom.
  - assert (i = length w) as -> by lia. rewrite skipn_all.
    cbn [dfa_brute_LCA val isLeaf children].
    split; [reflexivity|]. split; [exact Hok|].
    intros x. cbn [words_node]. rewrite !in_app_iff.
    destruct l; simpl; intuition congruence.
  - cbn [dfa_brute_LCA val isLeaf children].
    cbn [node_ok] in Hok. apply andb_true_iff in Hok as [Hd Hc].
    cbn [node_roomy] in Hroom. apply andb_true_iff in Hroom as [Hsz Hr].
    rewrite (skipn_char_at i) by lia. set (c := char_at w i).
    destruct (find_node c cs) as [child|] eqn:E.
    + destruct (update_node_Some c
                  (fun child => dfa_brute_LCA k child w (S i) (length w))
                  cs child E) as (l1 & l2 & Ecs & ->).
      pose proof (find_node_Some _ _ E) as [Hin Hval].
      rewrite forallb_forall in Hc, Hr.
      destruct (IH child (S i) ltac:(lia) (Hc child Hin) (Hr child Hin))
        as (Hv' & Hok' & Hw').
      cbn [val]. split; [reflexivity|]. split.
      * cbn [node_ok]. apply andb_true_iff. split.
        -- rewrite <- Hd, Ecs. apply distinct_vals_map.
           rewrite !map_app. cbn [map]. now rewrite Hv'.
        -- apply forallb_forall. intros m Hm.
           apply in_app_or in Hm as [Hm|[<-|Hm]]; [|exact Hok'|];
             apply Hc; rewrite Ecs; apply in_or_app; simpl; auto.
      * assert (forall r : text,
                   In r (flat_map words_node
                           (l1 ++ dfa_brute_LCA k child w (S i) (length w)
                               :: l2))
                   <-> In r (flat_map words_node (l1 ++ child :: l2))
                       \/ r = c :: skipn (S i) w) as K.
        { intros r. apply in_words_replace. rewrite Hw', Hval. tauto. }
        intros x. cbn [words_node]. rewrite !in_app_iff, !in_map_iff.
        rewrite Ecs. split.
        -- intros [H|(r & <- & Hr')]; [left; left; exact H|].
           apply K in Hr' as [Hr'| ->];
             [left; right; exists r; auto | right; reflexivity].
        -- intros [[H|(r & <- & Hr')]| ->].
           ++ left. exact H.
           ++ right. exists r. split; [reflexivity|]. apply K. now left.
           ++ right. exists (c :: skipn (S i) w). split; [reflexivity|].
              apply K. now right.
    + rewrite (update_node_None c _ cs E).
      unfold cSize. cbn [children]. rewrite Hsz.
      destruct (dfa_init_chain_words (S k) i ltac:(lia) ltac:(lia))
        as (chain & Ech & Hcv & Hcw & Hcok).
      replace (length w - i) with (S k) by lia. rewrite Ech.
      cbn [val]. split; [reflexivity|]. split.
      * cbn [node_ok]. apply andb_true_iff. split.
        -- apply distinct_vals_snoc; [exact Hd|]. now rewrite Hcv.
        -- rewrite forallb_app, Hc. simpl. now rewrite Hcok.
      * intros x. cbn [words_node]. rewrite flat_map_app, map_app.
        cbn [flat_map]. rewrite app_nil_r, Hcw.
        rewrite (skipn_char_at i) by lia. fold c. cbn [map].
        rewrite !in_app_iff. simpl. intuition congruence.
Qed.

End DFAInsert.

Section DFAInsertTop.

Lemma char_at_0 (c : ascii) (r : text) : char_at (c :: r) 0 = c.
Proof. reflexivity. Qed.

Lemma dfa_add_symbol_words (d : DFA) (w : text) :
  dfa_ok d = true -> dfa_roomy d = true -> w <> [] -> no_nul w = true ->
  dfa_ok (dfa_add_symbol d w) = true
  /\ forall x : text,
       In x (words_dfa (dfa_add_symbol d w)) <-> In x (words_dfa d) \/ x = w.
Proof.
  intros Hok Hroom Hne Hn. unfold dfa_add_symbol.
  rewrite (cstr_plain w Hn).
  destruct w as [|c r] eqn:Ew; [congruence|]. rewrite <- Ew in *.
  assert (length w = S (length r)) as Hlen by (rewrite Ew; reflexivity).
  assert ((length w =? 0) = false) as -> by (apply Nat.eqb_neq; lia).
  assert (char_at w 0 = c) as -> by (rewrite Ew; reflexivity).
  unfold dfa_ok in Hok. apply andb_true_iff in Hok as [Hd Hc].
  unfold dfa_roomy in Hroom. apply andb_true_iff in Hroom as [Hsz Hr].
  destruct (find_node c (start d)) as [root|] eqn:E.
  - destruct (update_node_Some c
                (fun root => dfa_brute_LCA (length w - 1) root w 1 (length w))
                (start d) root E) as (l1 & l2 & Ecs & ->).
    pose proof (find_node_Some _ _ E) as [Hin Hval].
    rewrite forallb_forall in Hc, Hr.
    destruct (dfa_brute_LCA_words w (length w - 1) root 1 ltac:(lia)
                (Hc root Hin) (Hr root Hin)) as (Hv' & Hok' & Hw').
    assert (val root :: skipn 1 w = w) as Hw1
      by (rewrite Hval, Ew; reflexivity).
    split.
    + unfold dfa_ok. cbn [start]. apply andb_true_iff. split.
      * rewrite <- Hd, Ecs. apply distinct_vals_map.
        rewrite !map_app. cbn [map]. now rewrite Hv'.
      * apply forallb_forall. intros m Hm.
        apply in_app_or in Hm as [Hm|[<-|Hm]]; [|exact Hok'|];
          apply Hc; rewrite Ecs; apply in_or_app; simpl; auto.
    + intros x. unfold words_dfa. cbn [start]. rewrite Ecs.
      apply in_words_replace. rewrite Hw', Hw1. tauto.
  - rewrite (update_node_None c _ (start d) E). unfold sSize in *. rewrite Hsz.
    destruct (dfa_init_chain_words w (length w) 0 ltac:(lia) ltac:(lia))
      as (chain & Ech & Hcv & Hcw & Hcok).
    rewrite Ech. assert (val chain = c) as Hcv' by (rewrite Hcv, Ew; reflexivity).
    split.
    + unfold dfa_ok. cbn [start]. apply andb_true_iff. split.
      * apply distinct_vals_snoc; [exact Hd|]. now rewrite Hcv'.
      * rewrite forallb_app, Hc. simpl. now rewrite Hcok.
    + intros x. unfold words_dfa. cbn [start].
      rewrite flat_map_app, in_app_iff. cbn [flat_map].
      rewrite app_nil_r, Hcw. simpl. intuition congruence.
Qed.

End DFAInsertTop.

(** X20. Adding a word to the DFA and looking words up: on a well-formed
    structure (no two siblings with the same character) in which every
    array has a free slot, [dfa_add_symbol] with a non-empty word keeps
    the structure well formed, makes [dfa_match] accept the word, and
    changes the answer of [dfa_match] on no other string.  The empty word
    is ignored. *)
Theorem dfa_add_symbol_then_match (d : DFA) (w s : text) :
  dfa_ok d = true -> dfa_roomy d = true -> w <> [] -> no_nul w = true ->
  dfa_ok (dfa_add_symbol d w) = true
  /\ dfa_match (dfa_add_symbol d w) w (length w) = true
  /\ (s <> w ->
      dfa_match (dfa_add_symbol d w) s (length s) = dfa_match d s (length s))
  /\ dfa_add_symbol d [] = d.
Proof.
  intros Hok Hroom Hne Hn.
  destruct (dfa_add_symbol_words d w Hok Hroom Hne Hn) as [Hok' Hw].
  split; [exact Hok'|].
  assert (forall (e : DFA) (x : text),
             dfa_ok e = true ->
             (dfa_match e x (length x) = true <-> In x (words_dfa e))) as K.
  { intros e x He. pose proof (dfa_match_words e x [] He) as H.
    now rewrite app_nil_r in H. }
  split; [|split; [|reflexivity]].
  - apply (K _ w Hok'), Hw. now right.
  - intros Hs. apply (@bool_eq_by_iff _ _ (In s (words_dfa d))).
    + rewrite (K _ s Hok'), Hw. tauto.
    + apply (K d s Hok).
Qed.

Lemma dfa_add_symbol_then_match_witness :
  dfa_match (dfa_add_symbol (kw_dfa kw_built) (str "match")) (str "match") 5
  = true.
Proof.
  refine (proj1 (proj2 (dfa_add_symbol_then_match (kw_dfa kw_built)
                          (str "match") [] _ _ _ _))).
  - vm_compute. reflexivity.
  - vm_compute. reflexivity.
  - discriminate.
  - reflexivity.
Defined.

(** X21. The capacity of the DFA is enforced by dropping the word: when
    the array of roots is full and no root carries the first character of
    the word, [dfa_add_symbol] leaves the structure as it is, without any
    sign of failure, and [dfa_match] does not accept the word
    afterwards. *)
Theorem dfa_add_symbol_drops_word_when_full (d : DFA) (w : text) :
  dfa_ok d = true -> DFA_MAX_ROOTS <= sSize d ->
  find_node (char_at w 0) (start d) = None ->
  dfa_add_symbol d w = d
  /\ dfa_match (dfa_add_symbol d w) w (length w) = false.
Proof.
  intros Hok Hfull Hf.
  assert (dfa_add_symbol d w = d) as E.
  { unfold dfa_add_symbol. destruct (length (cstr w) =? 0); [reflexivity|].
    rewrite (update_node_None _ _ _ Hf).
    destruct (Nat.ltb_spec (sSize d) DFA_MAX_ROOTS); [lia | reflexivity]. }
  split; [exact E|]. rewrite E. unfold dfa_match.
  destruct (length w =? 0); [reflexivity|]. now rewrite Hf.
Qed.

Lemma dfa_add_symbol_drops_word_when_full_witness :
  dfa_add_symbol full_roots (str "1st") = full_roots
  /\ dfa_match (dfa_add_symbol full_roots (str "1st")) (str "1st") 3 = false.
Proof.
  apply (dfa_add_symbol_drops_word_when_full full_roots (str "1st")).
  - vm_compute. reflexivity.
  - vm_compute. lia.
  - vm_compute. reflexivity.
Defined.

(** ** The extent of comments, and punctuation *)

Section CommentExtent.

Lemma block_comment_loop_closed (body : text) :
  forall (n : nat) (L : Lexer) (done rest : text) (prev : ascii) (col0 : Z),
    at_cursor L done (body ++ "*"%char :: "/"%char :: rest) ->
    closes (prev :: body ++ ["*"%char]) = false ->
    forallb plain body = true ->
    length body + 2 <= n ->
    let r := block_comment_loop n L prev col0 in
    type (fst r) = TOK_COMMENT /\ lexeme (fst r) = Some (str "/* */")
    /\ tcol (fst r) = col0
    /\ at_cursor (snd r) (done ++ body ++ str "*/") rest.
Proof.
  induction body as [|b body IH];
    intros n L done rest prev col0 Hat Hc Hpl Hn.
  - cbn [app] in Hat. destruct (@at_cursor_advance _ _ _ _ Hat) as [Hf Hat1].
    destruct n as [|n]; [simpl in Hn; lia|]. cbn [block_comment_loop].
    revert Hf Hat1. generalize (advance L). intros [o L1] Hf Hat1.
    cbn [fst snd] in Hf, Hat1.
    rewrite (plain_char_int "*"%char eq_refl) in Hf.
    subst o. rewrite andb_false_r.
    destruct (@at_cursor_advance _ _ _ _ Hat1) as [Hf2 Hat2].
    destruct n as [|n]; [simpl in Hn; lia|]. cbn [block_comment_loop].
    revert Hf2 Hat2. generalize (advance L1). intros [o2 L2] Hf2 Hat2.
    cbn [fst snd] in Hf2, Hat2.
    rewrite (plain_char_int "/"%char eq_refl) in Hf2.
    subst o2. cbn.
    rewrite <- app_assoc in Hat2. auto.
  - cbn [app] in Hat. destruct (@at_cursor_advance _ _ _ _ Hat) as [Hf Hat1].
    cbn [forallb] in Hpl. apply andb_true_iff in Hpl as [Hpb Hpl].
    destruct n as [|n]; [simpl in Hn; lia|]. cbn [block_comment_loop].
    revert Hf Hat1. generalize (advance L). intros [o L1] Hf Hat1.
    cbn [fst snd] in Hf, Hat1. rewrite (plain_char_int _ Hpb) in Hf.
    subst o.
    cbn [closes app] in Hc. apply orb_false_iff in Hc as [Hc1 Hc2].
    rewrite Hc1.
    destruct (IH n L1 (done ++ [b]) rest b col0 Hat1 Hc2 Hpl)
      as (H1 & H1' & H2 & H3).
    { simpl in Hn. lia. }
    rewrite <- app_assoc in H3. auto.
Qed.

(** The loop of a block comment that is not closed: it ends where
    [advance] returns [EOF], at the end of the buffer or on a byte 255,
    which it has read. *)
Lemma block_comment_loop_open (body : text) :
  forall (n : nat) (L : Lexer) (done rest : text) (prev : ascii) (col0 : Z),
    at_cursor L done (body ++ rest) ->
    closes (prev :: body) = false ->
    forallb plain body = true -> head_int rest = None ->
    length body <= n ->
    let r := block_comment_loop n L prev col0 in
    type (fst r) = TOK_UNKNOWN
    /\ lexeme (fst r) = Some (str "<unterminated_comment>")
    /\ at_cursor (snd r) (done ++ body ++ firstn 1 rest) (skipn 1 rest).
Proof.
  induction body as [|b body IH];
    intros n L done rest prev col0 Hat Hc Hpl Hrest Hn.
  - cbn [app] in Hat |- *.
    assert (fst (advance L) = None
            /\ at_cursor (snd (advance L)) (done ++ firstn 1 rest)
                 (skipn 1 rest)) as [Hf Ha].
    { destruct rest as [|d rest].
      - rewrite advance_end by (destruct Hat as [Hb Hp]; unfold len;
                                rewrite Hb, Hp, length_app; simpl; lia).
        cbn. rewrite app_nil_r. auto.
      - destruct (@at_cursor_advance _ _ _ _ Hat) as [Hf Ha].
        cbn [head_int] in Hrest. rewrite Hrest in Hf. auto. }
    destruct n; cbn [block_comment_loop];
      revert Hf Ha; generalize (advance L); intros [o L1] Hf Ha;
      cbn [fst snd] in Hf, Ha; subst o;
      (split; [reflexivity|]); (split; [reflexivity | exact Ha]).
  - cbn [app] in Hat. destruct (@at_cursor_advance _ _ _ _ Hat) as [Hf Hat1].
    cbn [forallb] in Hpl. apply andb_true_iff in Hpl as [Hpb Hpl].
    cbn [closes] in Hc. apply orb_false_iff in Hc as [Hc1 Hc2].
    destruct n as [|n]; [simpl in Hn; lia|]. cbn [block_comment_loop].
    revert Hf Hat1. generalize (advance L). intros [o L1] Hf Hat1.
    cbn [fst snd] in Hf, Hat1. rewrite (plain_char_int _ Hpb) in Hf.
    subst o. rewrite Hc1.
    destruct (IH n L1 (done ++ [b]) rest b col0 Hat1 Hc2 Hpl Hrest)
      as (H1 & H2 & H3).
    { simpl in Hn. lia. }
    rewrite <- app_assoc in H3. auto.
Qed.

Lemma scan_slash_prefix (L : Lexer) (pre rest : text) :
  at_cursor L pre ("/"%char :: rest) ->
  match_ L "/" = (true, snd (advance L))
  /\ at_cursor (snd (advance L)) (pre ++ ["/"%char]) rest.
Proof.
  intros Hat. pose proof (@at_cursor_peek_plain _ _ _ _ Hat eq_refl) as Hp.
  destruct (match_true L Hp) as [H1 H2].
  destruct (@at_cursor_advance _ _ _ _ Hat) as [_ Ha].
  split; [|exact Ha]. destruct (match_ L "/"). simpl in *. congruence.
Qed.

End CommentExtent.

(** X22. What [scan_slash_comment_or_op] reads in front of a slash, when
    the text of the comment holds no byte 255.  A line comment goes up to
    the end of the line and leaves the newline unread.  A block comment
    ends with the first [*/] after its opening two characters (the star of
    the opening does not count, so [/*/] is not closed) and is read to the
    end of that [*/].  The lexeme of a comment token is the fixed text
    [//] or [/* */], whatever the comment holds.  A slash that starts
    neither is the division operator.  Each token carries the column of
    the slash. *)
Theorem scan_slash_extent (L : Lexer) (pre : text) :
  (forall tail rest : text,
      at_cursor L pre (str "//" ++ tail ++ rest) ->
      forallb not_newline tail = true -> forallb plain tail = true ->
      stops not_newline rest = true ->
      let r := scan_slash_comment_or_op L in
      type (fst r) = TOK_COMMENT /\ lexeme (fst r) = Some (str "//")
      /\ tcol (fst r) = col L
      /\ at_cursor (snd r) (pre ++ str "//" ++ tail) rest)
  /\ (forall body rest : text,
         at_cursor L pre (str "/*" ++ body ++ str "*/" ++ rest) ->
         closes (body ++ ["*"%char]) = false ->
         forallb plain body = true ->
         let r := scan_slash_comment_or_op L in
         type (fst r) = TOK_COMMENT /\ lexeme (fst r) = Some (str "/* */")
         /\ tcol (fst r) = col L
         /\ at_cursor (snd r) (pre ++ str "/*" ++ body ++ str "*/") rest)
  /\ (forall rest : text,
         at_cursor L pre ("/"%char :: rest) ->
         hd_error rest <> Some "/"%char -> hd_error rest <> Some "*"%char ->
         let r := scan_slash_comment_or_op L in
         type (fst r) = TOK_OP_ARITH /\ lexeme (fst r) = Some (str "/")
         /\ extra (fst r) = Some (str "/") /\ tcol (fst r) = col L
         /\ at_cursor (snd r) (pre ++ str "/") rest).
Proof.
  split; [|split].
  - intros tail rest Hat Htail Hpl Hstop r. subst r.
    unfold scan_slash_comment_or_op.
    destruct (scan_slash_prefix L pre _ Hat) as [-> H1].
    destruct (scan_slash_prefix _ _ _ H1) as [-> H2].
    cbn [fst snd]. split; [reflexivity|]. split; [reflexivity|].
    split; [reflexivity|].
    rewrite <- app_assoc in H2. cbn [app] in H2.
    replace (pre ++ str "//" ++ tail) with ((pre ++ str "//") ++ tail)
      by (rewrite <- app_assoc; reflexivity).
    apply at_cursor_while; auto.
    rewrite (@at_cursor_remaining _ _ _ H2), length_app. lia.
  - intros body rest Hat Hc Hpl r. subst r. unfold scan_slash_comment_or_op.
    destruct (scan_slash_prefix L pre _ Hat) as [-> H1].
    rewrite (@at_cursor_no_match _ _ _ "/"%char H1) by (simpl; discriminate).
    destruct (@at_cursor_match _ _ _ _ H1 eq_refl) as [Hm H2].
    destruct (match_ (snd (advance L)) "*") as [m3 L3].
    cbn [fst snd] in Hm, H2. subst m3. rewrite <- app_assoc in H2.
    destruct (block_comment_loop_closed body (remaining L3) L3
                (pre ++ str "/*") rest NUL (col L) H2)
      as (T1 & T1' & T2 & T3).
    + cbn [closes]. exact Hc.
    + exact Hpl.
    + rewrite (@at_cursor_remaining _ _ _ H2), length_app. simpl. lia.
    + rewrite <- app_assoc in T3. auto.
  - intros rest Hat H1 H2 r. subst r. unfold scan_slash_comment_or_op.
    destruct (scan_slash_prefix L pre _ Hat) as [-> Ha].
    rewrite (@at_cursor_no_match _ _ _ "/"%char Ha H1).
    rewrite (@at_cursor_no_match _ _ _ "*"%char Ha H2).
    cbn. auto.
Qed.

Lemma scan_slash_extent_witness :
  at_cursor (snd (scan_slash_comment_or_op (initial_lexer (str "/* a */ x"))))
    (str "/* a */") (str " x").
Proof.
  refine (proj2 (proj2 (proj2 (proj1 (proj2 (scan_slash_extent
                                         (initial_lexer (str "/* a */ x")) []))
                          (str " a ") (str " x") _ eq_refl eq_refl)))).
  split; reflexivity.
Defined.

(** X23. A block comment that is not closed is read as far as [advance]
    returns characters: when no [*/] and no byte 255 come between the
    opening two characters and the end of the buffer, or the first byte
    255, [scan_slash_comment_or_op] returns an [unknown] token with the
    tag [<unterminated_comment>]; the cursor is left at the end of the
    buffer, or after that byte 255, which the loop has read.  At the end
    of the buffer no token but [eof] follows. *)
Theorem unterminated_comment_takes_the_rest (L : Lexer)
    (pre body rest : text) :
  at_cursor L pre (str "/*" ++ body ++ rest) ->
  closes body = false -> forallb plain body = true ->
  head_int rest = None ->
  let r := scan_slash_comment_or_op L in
  type (fst r) = TOK_UNKNOWN
  /\ lexeme (fst r) = Some (str "<unterminated_comment>")
  /\ at_cursor (snd r) (pre ++ str "/*" ++ body ++ firstn 1 rest)
       (skipn 1 rest)
  /\ (rest = [] -> type (fst (next_token (snd r))) = TOK_EOF).
Proof.
  intros Hat Hc Hpl Hrest r. subst r. unfold scan_slash_comment_or_op.
  destruct (scan_slash_prefix L pre _ Hat) as [-> H1].
  rewrite (@at_cursor_no_match _ _ _ "/"%char H1) by (simpl; discriminate).
  destruct (@at_cursor_match _ _ _ _ H1 eq_refl) as [Hm H2].
  destruct (match_ (snd (advance L)) "*") as [m3 L3].
  cbn [fst snd] in Hm, H2. subst m3. rewrite <- app_assoc in H2.
  destruct (block_comment_loop_open body (remaining L3) L3
              (pre ++ str "/*") rest NUL (col L) H2) as (T1 & T2 & T3).
  - cbn [closes]. exact Hc.
  - exact Hpl.
  - exact Hrest.
  - rewrite (@at_cursor_remaining _ _ _ H2), length_app. lia.
  - rewrite <- app_assoc in T3. split; [exact T1|]. split; [exact T2|].
    split; [exact T3|]. intros ->.
    set (L' := snd (block_comment_loop (remaining L3) L3 NUL (col L))) in *.
    cbn [firstn skipn] in T3.
    destruct (skip_ws_at L' _ [] [] ltac:(rewrite app_nil_r; exact T3)
                eq_refl eq_refl) as [Hs _].
    unfold next_token. rewrite (@at_cursor_peek _ _ _ Hs). reflexivity.
Qed.

Lemma unterminated_comment_takes_the_rest_witness :
  at_cursor (snd (scan_slash_comment_or_op
                    (initial_lexer (str "/*/ x" ++ EOF_BYTE :: str "*/"))))
    (str "/*/ x" ++ [EOF_BYTE]) (str "*/").
Proof.
  refine (proj1 (proj2 (proj2
            (unterminated_comment_takes_the_rest
               (initial_lexer (str "/*/ x" ++ EOF_BYTE :: str "*/")) []
               (str "/ x") (EOF_BYTE :: str "*/")
               _ eq_refl eq_refl eq_refl)))).
  split; reflexivity.
Defined.

(** X24. Punctuation and the end of the input: after the white space in
    front of it, a delimiter [; , : .] or a bracket becomes a token whose
    lexeme and subtype label are that one character; the token is made
    after the character is read, so it carries the column after the
    character, where a word carries the column of its first character.
    When only white space is left, the token is [eof], with no text. *)
Theorem next_token_punctuation (L : Lexer) (pre ws rest : text) :
  at_cursor L pre (ws ++ rest) -> forallb is_ws ws = true ->
  (rest = [] ->
     type (fst (next_token L)) = TOK_EOF
     /\ lexeme (fst (next_token L)) = None
     /\ at_cursor (snd (next_token L)) (pre ++ ws) [])
  /\ (forall (c : ascii) (rest' : text),
         rest = c :: rest' -> is_delim c || is_bracket c = true ->
         type (fst (next_token L))
         = (if is_delim c then TOK_DELIM else TOK_BRACKET)
         /\ lexeme (fst (next_token L)) = Some [c]
         /\ extra (fst (next_token L)) = Some [c]
         /\ (tline (fst (next_token L)), tcol (fst (next_token L)))
            = line_col (line L) (col L) (ws ++ [c])
         /\ at_cursor (snd (next_token L)) (pre ++ ws ++ [c]) rest').
Proof.
  intros Hat Hws. split.
  - intros ->. destruct (skip_ws_at L pre ws [] Hat Hws eq_refl) as [H1 _].
    unfold next_token. rewrite (@at_cursor_peek _ _ _ H1). cbn. auto.
  - intros c rest' -> Hc.
    assert (is_ws c = false /\ ch_eqb c NUL = false) as [Hnw Hnn].
    { revert Hc. destruct c as [[] [] [] [] [] [] [] []]; vm_compute;
        intros H; solve [discriminate H | auto]. }
    destruct (skip_ws_at L pre ws (c :: rest') Hat Hws) as [H1 H2].
    { simpl. now rewrite Hnw. }
    assert (plain c = true) as Hpc.
    { revert Hc. destruct c as [[] [] [] [] [] [] [] []]; vm_compute;
        intros H; solve [discriminate H | auto]. }
    unfold next_token. rewrite (@at_cursor_peek_plain _ _ _ _ H1 Hpc).
    destruct (@at_cursor_advance _ _ _ _ H1) as [_ Ha].
    pose proof (advance_position _ _ _ _ H1) as Hp.
    rewrite <- app_assoc in Ha.
    assert ((line (snd (advance (skip_ws L))), col (snd (advance (skip_ws L))))
            = line_col (line L) (col L) (ws ++ [c])) as Hpos.
    { rewrite line_col_app, Hp, <- H2. reflexivity. }
    destruct (is_delim c) eqn:Ed.
    + cbn [fst snd make type lexeme extra tline tcol option_map].
      unfold dup_n, dup_s. cbn [firstn cstr]. rewrite Hnn.
      cbn [cstr]. rewrite (proj2 (ch_eqb_eq NUL NUL) eq_refl). auto.
    + cbn [orb] in Hc. rewrite Hc.
      cbn [fst snd make type lexeme extra tline tcol option_map].
      unfold dup_n, dup_s. cbn [firstn cstr]. rewrite Hnn.
      cbn [cstr]. rewrite (proj2 (ch_eqb_eq NUL NUL) eq_refl). auto.
Qed.

Lemma next_token_punctuation_witness :
  tcol (fst (next_token (initial_lexer (str ";")))) = 2%Z.
Proof.
  pose proof (proj2 (next_token_punctuation (initial_lexer (str ";")) [] []
                       (str ";") (conj eq_refl eq_refl) eq_refl)
                ";"%char [] eq_refl eq_refl) as (_ & _ & _ & H & _).
  exact (f_equal snd H).
Defined.

(** ** Programs of the grammar are accepted *)

Section Acceptance.

Import Syntax.
Local Open Scope parser_scope.

Scheme Factor_mut := Minimality for Factor Sort Prop
  with MulTail_mut := Minimality for MulTail Sort Prop
  with Term_mut := Minimality for Term Sort Prop
  with AddTail_mut := Minimality for AddTail Sort Prop
  with SimpleExpr_mut := Minimality for SimpleExpr Sort Prop
  with Expression_mut := Minimality for Expression Sort Prop.

Combined Scheme expression_mutind from Factor_mut, MulTail_mut, Term_mut,
  AddTail_mut, SimpleExpr_mut, Expression_mut.

Scheme Statement_mut := Minimality for Statement Sort Prop
  with Block_mut := Minimality for Block Sort Prop
  with Statements_mut := Minimality for Statements Sort Prop.

Combined Scheme statement_mutind from Statement_mut, Block_mut,
  Statements_mut.

Lemma quiet_refl (st : PState) : quiet st st.
Proof. repeat split. auto. Qed.

Lemma leaf_texts_app (a b : list Event) :
  leaf_texts (a ++ b) = leaf_texts a ++ leaf_texts b.
Proof. apply flat_map_app. Qed.

Lemma tokens_read_at (st : PState) (pre rest : list ParserToken) :
  stream_at st pre rest -> tokens_read st = pre.
Proof.
  intros [Ht Hi]. unfold tokens_read. rewrite Ht, Hi, Nat2Z.id.
  rewrite firstn_app, Nat.sub_diag, firstn_all. cbn [firstn].
  apply app_nil_r.
Qed.

Lemma symbol_lexeme (t : ParserToken) (s : text) :
  is_symbol t s = true -> lexeme t = s.
Proof.
  unfold is_symbol. intros H. apply andb_true_iff in H.
  now apply str_eq_iff.
Qed.

Lemma operator_lexeme (t : ParserToken) (s : text) :
  is_operator t s = true -> lexeme t = s.
Proof.
  unfold is_operator. intros H. apply andb_true_iff in H.
  now apply str_eq_iff.
Qed.

Lemma keyword_lexeme (t : ParserToken) (s : text) :
  is_keyword_tok t s = true -> lexeme t = s.
Proof.
  unfold is_keyword_tok. intros H. apply andb_true_iff in H.
  now apply str_eq_iff.
Qed.

(** A tag that is not a leaf. *)
Lemma acc_emit (e : Event) (st0 st : PState) (pre rest : list ParserToken)
    (Q : unit -> PState -> Prop) :
  leaf_texts [e] = [] ->
  stream_at st pre rest -> quiet st0 st ->
  (forall st', stream_at st' pre rest -> quiet st0 st' -> Q tt st') ->
  wp true (emit e) st Q.
Proof.
  intros He Hs (H1 & H2 & H3 & H4) Hk. unfold wp, emit.
  apply Hk; [exact Hs|]. split; [exact H1|]. split; [exact H2|].
  split; [exact H3|]. intros F. specialize (H4 F). unfold faithful in *.
  cbn [trace]. rewrite leaf_texts_app, He, app_nil_r. exact H4.
Qed.

(** The leaf of the current token. *)
Lemma acc_leaf (name c : text) (st0 st : PState)
    (pre rest : list ParserToken) (Q : unit -> PState -> Prop) :
  stream_at st pre rest -> quiet st0 st ->
  (forall st', stream_at st' pre rest -> pending st0 c st' -> Q tt st') ->
  wp true (emit (Leaf name c)) st Q.
Proof.
  intros Hs (H1 & H2 & H3 & H4) Hk. unfold wp, emit.
  apply Hk; [exact Hs|]. split; [exact H1|]. split; [exact H2|].
  split; [exact H3|]. intros F. specialize (H4 F). unfold faithful in *.
  cbn [trace]. rewrite leaf_texts_app, H4, app_nil_r. reflexivity.
Qed.

Lemma acc_cur (st : PState) (pre : list ParserToken) (t : ParserToken)
    (rest : list ParserToken) (Q : ParserToken -> PState -> Prop) :
  stream_at st pre (t :: rest) -> Q t st -> wp true cur_tok st Q.
Proof.
  intros Hs Hk. unfold wp. now rewrite (cur_tok_at st pre t rest Hs).
Qed.

(** The token whose leaf was printed is passed. *)
Lemma acc_next (st0 st : PState) (pre : list ParserToken) (t : ParserToken)
    (rest : list ParserToken) (c : text) (Q : unit -> PState -> Prop) :
  stream_at st pre (t :: rest) -> pending st0 c st -> c = lexeme t ->
  rest <> [] ->
  (forall st', stream_at st' (pre ++ [t]) rest -> quiet st0 st' -> Q tt st') ->
  wp true next_tok st Q.
Proof.
  intros Hs (H1 & H2 & H3 & H4) -> Hne Hk.
  destruct rest as [|u rest]; [congruence|].
  destruct (next_tok_at st pre t u rest Hs) as [E Hs'].
  unfold wp. rewrite E. apply Hk; [exact Hs'|].
  split; [exact H1|]. split; [exact H2|]. split; [exact H3|].
  intros F. specialize (H4 F). unfold faithful in *.
  rewrite (tokens_read_at _ _ _ Hs'). rewrite (tokens_read_at _ _ _ Hs) in H4.
  rewrite map_app, app_nil_r. exact H4.
Qed.

Lemma next_is_nonempty (p : ParserToken -> bool) (l rest : list ParserToken) :
  next_is p rest -> l ++ rest <> [].
Proof.
  intros (u & r & -> & _). destruct l; discriminate.
Qed.

Lemma next_is_weaken (p q : ParserToken -> bool) (rest : list ParserToken) :
  (forall u, p u = true -> q u = true) -> next_is p rest -> next_is q rest.
Proof.
  intros H (u & r & -> & Hp). exists u, r. auto.
Qed.

Lemma next_is_head (p : ParserToken -> bool) (u : ParserToken)
    (r : list ParserToken) :
  p u = true -> next_is p (u :: r).
Proof. intros H. now exists u, r. Qed.

(** *** Tokens *)

Lemma not_operator (u : ParserToken) :
  kind_eqb (kind u) PT_OPERATOR = false ->
  is_mul_op u = false /\ is_add_op u = false /\ is_rel_op u = false
  /\ forall s, is_operator u s = false.
Proof.
  intros H. unfold is_mul_op, is_add_op, is_rel_op, is_operator.
  rewrite H. auto.
Qed.

Lemma rel_op_only (op : ParserToken) :
  is_rel_op op = true -> is_mul_op op = false /\ is_add_op op = false.
Proof.
  unfold is_rel_op, is_mul_op, is_add_op, is_relop. destruct op as [k l].
  cbn [kind lexeme]. destruct (kind_eqb k PT_OPERATOR); [|discriminate].
  cbn [andb]. intros H.
  repeat (apply orb_true_iff in H; destruct H as [H|H]);
    apply str_eq_iff in H; subst l; split; reflexivity.
Qed.

Lemma add_op_only (op : ParserToken) :
  is_add_op op = true -> is_mul_op op = false.
Proof.
  unfold is_mul_op, is_add_op. destruct op as [k l].
  cbn [kind lexeme]. destruct (kind_eqb k PT_OPERATOR); [|discriminate].
  cbn [andb]. intros H.
  repeat (apply orb_true_iff in H; destruct H as [H|H]);
    apply str_eq_iff in H; subst l; reflexivity.
Qed.

Lemma symbol_kind (u : ParserToken) (s : text) :
  is_symbol u s = true -> kind u = PT_SYMBOL.
Proof.
  unfold is_symbol. intros H. apply andb_true_iff in H.
  now apply kind_eqb_eq.
Qed.

(** *** Expressions *)

Lemma after_term (tl rest : list ParserToken) :
  AddTail tl -> next_is no_add_op rest -> next_is no_mul_op (tl ++ rest).
Proof.
  intros [|op t tl' Hop _ _] H.
  - revert H. apply next_is_weaken. unfold no_add_op, no_mul_op.
    intros u Hu. now apply andb_true_iff in Hu.
  - apply next_is_head. unfold no_mul_op. now rewrite (add_op_only op Hop).
Qed.

Ltac assoc := repeat (progress cbn [app] || rewrite <- app_assoc).
Ltac assoc_in H :=
  repeat (progress cbn [app] in H || rewrite <- app_assoc in H).

Ltac nonempty :=
  first
    [ assumption
    | discriminate
    | eapply next_is_nonempty; eassumption
    | match goal with
      | Hn : next_is _ ?r |- ?r <> [] => apply (next_is_nonempty _ [] _ Hn)
      end
    | let E := fresh in
      intros E; apply app_eq_nil in E; destruct E as [_ E]; revert E;
      nonempty ].

(** One step of a run: the state is described by [stream_at] and
    [quiet]. *)
Ltac leaf_text :=
  first
    [ reflexivity
    | symmetry;
      first [ eapply symbol_lexeme; eassumption
            | eapply operator_lexeme; eassumption
            | eapply keyword_lexeme; eassumption ] ].

Ltac acc_step :=
  lazymatch goal with
  | |- wp true (bind _ _) _ _ => apply wp_bind
  | |- wp true (ret _) _ _ => apply wp_ret; cbv beta
  | Hs : stream_at ?st ?pre ?rest, Hq : quiet ?st0 ?st
    |- wp true (emit (Leaf ?name ?c)) ?st _ =>
      apply (acc_leaf name c st0 st pre rest _ Hs Hq);
      clear Hs Hq; intros ? Hs Hq
  | Hs : stream_at ?st ?pre ?rest, Hq : quiet ?st0 ?st
    |- wp true (emit ?e) ?st _ =>
      apply (acc_emit e st0 st pre rest _ eq_refl Hs Hq);
      clear Hs Hq; intros ? Hs Hq
  | Hs : stream_at ?st ?pre (?t :: ?rest) |- wp true cur_tok ?st _ =>
      apply (acc_cur st pre t rest _ Hs); cbv beta
  | Hs : stream_at ?st ?pre (?t :: ?rest), Hq : pending ?st0 ?c ?st
    |- wp true next_tok ?st _ =>
      apply (acc_next st0 st pre t rest c _ Hs Hq);
      [ leaf_text | nonempty | clear Hs Hq; intros ? Hs Hq ]
  end.

Ltac acc_done Hk :=
  apply Hk; [ assoc; match goal with
                     | Hs : stream_at _ _ _ |- _ => assoc_in Hs; exact Hs
                     end
            | assumption ].

Lemma expression_accepted :
  (forall ts, Factor ts -> accepts parse_factor ts (next_is any_token))
  /\ (forall ts, MulTail ts -> accepts parse_term_loop ts (next_is no_mul_op))
  /\ (forall ts, Term ts -> accepts parse_term ts (next_is no_mul_op))
  /\ (forall ts, AddTail ts ->
        accepts parse_simple_expr_loop ts (next_is no_add_op))
  /\ (forall ts, SimpleExpr ts ->
        accepts parse_simple_expr ts (next_is no_add_op))
  /\ (forall ts, Expression ts ->
        accepts parse_expression ts (next_is no_operator)).
Proof.
  apply expression_mutind.
  - (* identifier *)
    intros t Hk. exists 1. intros [|f] Hf st0 st pre rest Q Hs Hq Hn HQ;
      [lia|]. cbn [parse_factor]. unfold leaf_tag.
    cbn [app] in Hs. repeat acc_step.
    replace (is_symbol t (str "(")) with false
      by (unfold is_symbol; now rewrite Hk).
    rewrite Hk. cbn [kind_eqb]. repeat acc_step.
    acc_done HQ.
  - (* constant *)
    intros t Hc. exists 1. intros [|f] Hf st0 st pre rest Q Hs Hq Hn HQ;
      [lia|]. cbn [parse_factor]. unfold leaf_tag.
    cbn [app] in Hs. repeat acc_step. rewrite Hc.
    replace (is_symbol t (str "(")) with false
      by (unfold is_symbol, is_constant in *; destruct (kind t);
          try reflexivity; discriminate).
    replace (kind_eqb (kind t) PT_IDENTIFIER) with false
      by (unfold is_constant in *; destruct (kind t);
          try reflexivity; discriminate).
    repeat acc_step.
    acc_done HQ.
  - (* grouped expression *)
    intros lp e rp Hlp _ [f1 IH] Hrp. exists (S f1).
    intros [|f] Hf st0 st pre rest Q Hs Hq Hn HQ; [lia|].
    cbn [parse_factor]. unfold leaf_tag, open_tag, close_tag.
    assoc_in Hs. repeat acc_step. rewrite Hlp.
    repeat acc_step.
    apply (IH f ltac:(lia) st0 _ (pre ++ [lp]) (rp :: rest) _ Hs Hq).
    { apply next_is_head. unfold no_operator.
      now rewrite (symbol_kind rp _ Hrp). }
    clear Hs Hq. intros ? Hs Hq.
    repeat acc_step. rewrite Hrp. repeat acc_step.
    acc_done HQ.
  - (* end of the factors *)
    exists 1. intros [|f] Hf st0 st pre rest Q Hs Hq Hn HQ; [lia|].
    cbn [parse_term_loop]. cbn [app] in Hs.
    destruct Hn as (u & r & -> & Hu). unfold no_mul_op in Hu.
    apply negb_true_iff in Hu.
    repeat acc_step. rewrite Hu. acc_step.
    apply HQ; [now rewrite app_nil_r | exact Hq].
  - (* one more factor *)
    intros op fl tl Hop _ [f1 IH1] _ [f2 IH2]. exists (S (Nat.max f1 f2)).
    intros [|f] Hf st0 st pre rest Q Hs Hq Hn HQ; [lia|].
    cbn [parse_term_loop]. unfold leaf_tag.
    assoc_in Hs. repeat acc_step. rewrite Hop. repeat acc_step.
    apply (IH1 f ltac:(lia) st0 _ (pre ++ [op]) (tl ++ rest) _ Hs Hq).
    { destruct Hn as (u & r & -> & _). destruct tl; now eapply next_is_head. }
    clear Hs Hq. intros ? Hs Hq.
    apply (IH2 f ltac:(lia) st0 _ _ rest _ Hs Hq Hn).
    clear Hs Hq. intros ? Hs Hq. acc_done HQ.
  - (* term *)
    intros fl tl _ [f1 IH1] _ [f2 IH2]. exists (S (Nat.max f1 f2)).
    intros [|f] Hf st0 st pre rest Q Hs Hq Hn HQ; [lia|].
    cbn [parse_term]. unfold open_tag, close_tag.
    assoc_in Hs. repeat acc_step.
    apply (IH1 f ltac:(lia) st0 _ pre (tl ++ rest) _ Hs Hq).
    { destruct Hn as (u & r & -> & _). destruct tl; now eapply next_is_head. }
    clear Hs Hq. intros ? Hs Hq. repeat acc_step.
    apply (IH2 f ltac:(lia) st0 _ _ rest _ Hs Hq Hn).
    clear Hs Hq. intros ? Hs Hq. repeat acc_step. acc_done HQ.
  - (* end of the terms *)
    exists 1. intros [|f] Hf st0 st pre rest Q Hs Hq Hn HQ; [lia|].
    cbn [parse_simple_expr_loop]. cbn [app] in Hs.
    destruct Hn as (u & r & -> & Hu). unfold no_add_op in Hu.
    apply andb_true_iff in Hu. destruct Hu as [_ Hu].
    apply negb_true_iff in Hu.
    repeat acc_step. rewrite Hu. acc_step.
    apply HQ; [now rewrite app_nil_r | exact Hq].
  - (* one more term *)
    intros op t tl Hop _ [f1 IH1] Htl [f2 IH2]. exists (S (Nat.max f1 f2)).
    intros [|f] Hf st0 st pre rest Q Hs Hq Hn HQ; [lia|].
    cbn [parse_simple_expr_loop]. unfold leaf_tag.
    assoc_in Hs. repeat acc_step. rewrite Hop. repeat acc_step.
    apply (IH1 f ltac:(lia) st0 _ (pre ++ [op]) (tl ++ rest) _ Hs Hq).
    { now apply after_term. }
    clear Hs Hq. intros ? Hs Hq.
    apply (IH2 f ltac:(lia) st0 _ _ rest _ Hs Hq Hn).
    clear Hs Hq. intros ? Hs Hq. acc_done HQ.
  - (* simple expression *)
    intros t tl _ [f1 IH1] Htl [f2 IH2]. exists (S (Nat.max f1 f2)).
    intros [|f] Hf st0 st pre rest Q Hs Hq Hn HQ; [lia|].
    cbn [parse_simple_expr]. unfold open_tag, close_tag.
    assoc_in Hs. repeat acc_step.
    apply (IH1 f ltac:(lia) st0 _ pre (tl ++ rest) _ Hs Hq).
    { now apply after_term. }
    clear Hs Hq. intros ? Hs Hq. repeat acc_step.
    apply (IH2 f ltac:(lia) st0 _ _ rest _ Hs Hq Hn).
    clear Hs Hq. intros ? Hs Hq. repeat acc_step. acc_done HQ.
  - (* expression without a relation *)
    intros s _ [f1 IH1]. exists (S f1).
    intros [|f] Hf st0 st pre rest Q Hs Hq Hn HQ; [lia|].
    cbn [parse_expression]. unfold open_tag, close_tag, leaf_tag.
    destruct Hn as (u & r & -> & Hu). unfold no_operator in Hu.
    apply negb_true_iff in Hu.
    destruct (not_operator u Hu) as (Hm & Ha & _).
    repeat acc_step.
    apply (IH1 f ltac:(lia) st0 _ pre (u :: r) _ Hs Hq).
    { apply next_is_head. unfold no_add_op. now rewrite Hm, Ha. }
    clear Hs Hq. intros ? Hs Hq.
    repeat acc_step. rewrite Hu. cbn [andb]. repeat acc_step.
    acc_done HQ.
  - (* relation *)
    intros s1 op s2 _ [f1 IH1] Hop _ [f2 IH2]. exists (S (Nat.max f1 f2)).
    intros [|f] Hf st0 st pre rest Q Hs Hq Hn HQ; [lia|].
    cbn [parse_expression]. unfold open_tag, close_tag, leaf_tag.
    assoc_in Hs. destruct (rel_op_only op Hop) as [Hm Ha].
    assert (next_is no_add_op rest) as Hn'.
    { revert Hn. apply next_is_weaken. unfold no_operator, no_add_op.
      intros u Hu. apply negb_true_iff in Hu.
      destruct (not_operator u Hu) as (-> & -> & _). reflexivity. }
    repeat acc_step.
    apply (IH1 f ltac:(lia) st0 _ pre (op :: s2 ++ rest) _ Hs Hq).
    { apply next_is_head. unfold no_add_op. now rewrite Hm, Ha. }
    clear Hs Hq. intros ? Hs Hq.
    repeat acc_step. unfold is_rel_op in Hop. rewrite Hop.
    repeat acc_step.
    apply (IH2 f ltac:(lia) st0 _ _ rest _ Hs Hq Hn').
    clear Hs Hq. intros ? Hs Hq. repeat repeat acc_step. acc_done HQ.
Qed.

(** *** Statements *)

Lemma keyword_head (t : ParserToken) (kw : text) :
  is_keyword_tok t kw = true -> kind t = PT_KEYWORD /\ lexeme t = kw.
Proof.
  unfold is_keyword_tok. intros H. apply andb_true_iff in H.
  destruct H as [H1 H2]. apply kind_eqb_eq in H1. now apply str_eq_iff in H2.
Qed.

Lemma statement_head (o : bool) (ts : list ParserToken) :
  Statement o ts ->
  exists t r, ts = t :: r /\ starts_statement t = true.
Proof.
  intros H; destruct H;
    (eexists; eexists; split; [reflexivity|]); unfold starts_statement;
    repeat match goal with
           | H : kind _ = _ |- _ => rewrite H
           | H : is_keyword_tok _ _ = true |- _ => rewrite H
           end; cbn [kind_eqb orb]; rewrite ?orb_true_r; try reflexivity.
  apply orb_true_iff in H. destruct H as [H|H]; rewrite H;
    rewrite ?orb_true_r; reflexivity.
Qed.

Lemma starts_tests (t : ParserToken) :
  starts_statement t = true ->
  kind_eqb (kind t) PT_EOF = false
  /\ (forall s, is_symbol t s = false)
  /\ is_keyword_tok t (str "else") = false.
Proof.
  unfold starts_statement, is_keyword_tok, is_symbol.
  destruct t as [k l]. cbn [kind lexeme]. destruct k; cbn [kind_eqb andb orb];
    try discriminate; try (intros _; repeat split; reflexivity).
  intros H.
  repeat (apply orb_true_iff in H; destruct H as [H|H]);
    try discriminate; apply str_eq_iff in H; subst l; repeat split.
Qed.

Lemma ends_block_not_else (u : ParserToken) :
  ends_block u = true -> is_keyword_tok u (str "else") = false.
Proof.
  unfold ends_block, is_symbol, is_keyword_tok. destruct (kind u);
    cbn [kind_eqb andb orb]; (discriminate || reflexivity).
Qed.

Lemma after_statement (o : bool) (ss rest : list ParserToken) :
  Statements ss -> next_is ends_block rest -> next_is (no_else o) (ss ++ rest).
Proof.
  intros [|o' s ss' Hs _] H.
  - revert H. apply next_is_weaken. intros u Hu. unfold no_else.
    rewrite (ends_block_not_else u Hu). now rewrite andb_false_r.
  - destruct (statement_head _ _ Hs) as (t & r & -> & Ht).
    apply next_is_head. unfold no_else.
    destruct (starts_tests t Ht) as (_ & _ & ->). now rewrite andb_false_r.
Qed.

Lemma acc_expect (f : nat) (sym errmsg : text) (st0 st : PState)
    (pre : list ParserToken) (t : ParserToken) (rest : list ParserToken)
    (Q : unit -> PState -> Prop) :
  stream_at st pre (t :: rest) -> quiet st0 st ->
  is_symbol t sym = true -> rest <> [] ->
  (forall st', stream_at st' (pre ++ [t]) rest -> quiet st0 st' -> Q tt st') ->
  wp true (expect_symbol f sym errmsg) st Q.
Proof.
  intros Hs Hq Ht Hne HQ. unfold expect_symbol, accept_symbol, leaf_tag.
  repeat acc_step. rewrite Ht. repeat acc_step.
  apply HQ; assumption.
Qed.

Ltac test_solve :=
  unfold is_keyword_tok, is_symbol, is_operator;
  repeat match goal with
         | H : kind ?t = _ |- context [kind ?t] => rewrite H
         | H : lexeme ?t = _ |- context [lexeme ?t] => rewrite H
         end;
  reflexivity.

(** Decide the test of the conditional in front from what is known of the
    current token. *)
Ltac take :=
  match goal with
  | |- wp true (if ?c then _ else _) _ _ =>
      first [ replace c with true by (symmetry; test_solve)
            | replace c with false by (symmetry; test_solve) ];
      cbv iota
  end.

Ltac acc_more :=
  first
    [ acc_step
    | lazymatch goal with
      | Hs : stream_at ?st ?pre (?t :: ?rest), Hq : quiet ?st0 ?st
        |- wp true (expect_symbol ?f ?sym ?msg) ?st _ =>
          apply (acc_expect f sym msg st0 st pre t rest _ Hs Hq);
          [ assumption | nonempty | clear Hs Hq; intros ? Hs Hq ]
      end ].

(** Run an expression that is followed by a symbol. *)
Ltac acc_expression IH :=
  lazymatch goal with
  | Hs : stream_at ?st ?pre (?e ++ ?u :: ?rest), Hq : quiet ?st0 ?st
    |- wp true (parse_expression ?f) ?st _ =>
      apply (IH f ltac:(lia) st0 st pre (u :: rest) _ Hs Hq);
      [ apply next_is_head; unfold no_operator;
        match goal with
        | H : is_symbol u _ = true |- _ => now rewrite (symbol_kind u _ H)
        end
      | clear Hs Hq; intros ? Hs Hq ]
  end.

Lemma no_else_weaken (o : bool) (rest : list ParserToken) :
  next_is (no_else true) rest -> next_is (no_else o) rest.
Proof.
  apply next_is_weaken. unfold no_else. intros u. now destruct o.
Qed.

Lemma statements_accepted :
  (forall o ts, Statement o ts ->
     accepts parse_statement ts (next_is (no_else o)))
  /\ (forall o ts, Block o ts ->
        accepts parse_block ts (next_is (no_else o)))
  /\ (forall ts, Statements ts ->
        accepts parse_block_loop ts (next_is ends_block)).
Proof.
  destruct expression_accepted as (_ & _ & _ & _ & _ & HE).
  apply statement_mutind.
  - (* declaration *)
    intros ty id semi Hty Hid Hsemi. exists 1.
    intros [|f] Hf st0 st pre rest Q Hs Hq Hn HQ; [lia|].
    cbn [parse_statement]. unfold parse_decl_stmt, open_tag, close_tag, leaf_tag.
    assoc_in Hs. repeat acc_more. take. repeat acc_more. take.
    repeat acc_more. acc_done HQ.
  - (* input *)
    intros kw id semi Hkw Hid Hsemi. exists 1.
    intros [|f] Hf st0 st pre rest Q Hs Hq Hn HQ; [lia|].
    cbn [parse_statement]. unfold parse_input_stmt, open_tag, close_tag, leaf_tag.
    apply keyword_head in Hkw. destruct Hkw as [Hk Hl].
    assoc_in Hs. repeat acc_more. do 2 take. repeat acc_more. take.
    repeat acc_more. acc_done HQ.
  - (* print *)
    intros kw e semi Hkw He Hsemi. destruct (HE e He) as [f1 IH].
    exists (S f1).
    intros [|f] Hf st0 st pre rest Q Hs Hq Hn HQ; [lia|].
    cbn [parse_statement]. unfold parse_print_stmt, open_tag, close_tag, leaf_tag.
    assoc_in Hs. repeat acc_more.
    assert (kind kw = PT_KEYWORD
            /\ is_keyword_tok kw (str "input") = false) as [Hk Hi].
    { apply orb_true_iff in Hkw.
      destruct Hkw as [H|H]; apply keyword_head in H; destruct H as [Hk Hl];
        (split; [exact Hk | test_solve]). }
    take. rewrite Hi, Hkw. repeat acc_more.
    acc_expression IH. repeat acc_more. acc_done HQ.
  - (* assignment *)
    intros id eq e semi Hid Heq He Hsemi. destruct (HE e He) as [f1 IH].
    exists (S f1).
    intros [|f] Hf st0 st pre rest Q Hs Hq Hn HQ; [lia|].
    cbn [parse_statement]. unfold parse_assign_stmt, open_tag, close_tag, leaf_tag.
    assoc_in Hs. repeat acc_more. do 7 take. repeat acc_more. take.
    repeat acc_more. rewrite Heq. repeat acc_more.
    acc_expression IH. repeat acc_more. acc_done HQ.
  - (* if without else *)
    intros kw lp e rp o b Hkw Hlp He Hrp _ [f2 IHb].
    destruct (HE e He) as [f1 IH]. exists (S (S (f1 + f2))).
    intros [|[|f]] Hf st0 st pre rest Q Hs Hq Hn HQ; [lia|lia|].
    cbn [parse_statement].
    apply keyword_head in Hkw. destruct Hkw as [Hk Hl].
    assoc_in Hs. repeat acc_more. do 4 take.
    cbn [parse_if_stmt]. unfold open_tag, close_tag, leaf_tag.
    repeat acc_more. acc_expression IH. repeat acc_more.
    apply (IHb f ltac:(lia) st0 _ _ rest _ Hs Hq (no_else_weaken o rest Hn)).
    clear Hs Hq. intros ? Hs Hq.
    destruct Hn as (u & r & -> & Hu). unfold no_else in Hu.
    apply negb_true_iff in Hu. cbn [andb] in Hu.
    repeat acc_more. rewrite Hu. repeat acc_more. acc_done HQ.
  - (* if with else *)
    intros kw lp e rp b1 el o b2 Hkw Hlp He Hrp _ [f2 IH1] Hel _ [f3 IH2].
    destruct (HE e He) as [f1 IH]. exists (S (S (f1 + f2 + f3))).
    intros [|[|f]] Hf st0 st pre rest Q Hs Hq Hn HQ; [lia|lia|].
    cbn [parse_statement].
    apply keyword_head in Hkw. destruct Hkw as [Hk Hl].
    assoc_in Hs. repeat acc_more. do 4 take.
    cbn [parse_if_stmt]. unfold open_tag, close_tag, leaf_tag.
    repeat acc_more. acc_expression IH. repeat acc_more.
    apply (IH1 f ltac:(lia) st0 _ _ (el :: b2 ++ rest) _ Hs Hq).
    { now apply next_is_head. }
    clear Hs Hq. intros ? Hs Hq.
    repeat acc_more. rewrite Hel. repeat acc_more.
    apply (IH2 f ltac:(lia) st0 _ _ rest _ Hs Hq Hn).
    clear Hs Hq. intros ? Hs Hq. repeat acc_more. acc_done HQ.
  - (* while *)
    intros kw lp e rp o b Hkw Hlp He Hrp _ [f2 IHb].
    destruct (HE e He) as [f1 IH]. exists (S (S (f1 + f2))).
    intros [|[|f]] Hf st0 st pre rest Q Hs Hq Hn HQ; [lia|lia|].
    cbn [parse_statement].
    apply keyword_head in Hkw. destruct Hkw as [Hk Hl].
    assoc_in Hs. repeat acc_more. do 5 take.
    cbn [parse_while_stmt]. unfold open_tag, close_tag, leaf_tag.
    repeat acc_more. acc_expression IH. repeat acc_more.
    apply (IHb f ltac:(lia) st0 _ _ rest _ Hs Hq Hn).
    clear Hs Hq. intros ? Hs Hq. repeat acc_more. acc_done HQ.
  - (* for *)
    intros kw lp id1 eq1 e1 semi1 e2 semi2 id2 eq2 e3 rp o b
      Hkw Hlp Hid1 Heq1 He1 Hsemi1 He2 Hsemi2 Hid2 Heq2 He3 Hrp _ [f4 IHb].
    destruct (HE e1 He1) as [f1 IH1]. destruct (HE e2 He2) as [f2 IH2].
    destruct (HE e3 He3) as [f3 IH3]. exists (S (S (f1 + f2 + f3 + f4))).
    intros [|[|f]] Hf st0 st pre rest Q Hs Hq Hn HQ; [lia|lia|].
    cbn [parse_statement].
    apply keyword_head in Hkw. destruct Hkw as [Hk Hl].
    assoc_in Hs. repeat acc_more. do 6 take.
    cbn [parse_for_stmt].
    unfold parse_assign_stmt, parse_assign_no_semicolon,
      open_tag, close_tag, leaf_tag.
    repeat acc_more. take. repeat acc_more. rewrite Heq1. repeat acc_more.
    acc_expression IH1. repeat acc_more.
    acc_expression IH2. repeat acc_more. take. repeat acc_more.
    rewrite Heq2. repeat acc_more.
    acc_expression IH3. repeat acc_more.
    apply (IHb f ltac:(lia) st0 _ _ rest _ Hs Hq Hn).
    clear Hs Hq. intros ? Hs Hq. repeat acc_more. acc_done HQ.
  - (* block in braces *)
    intros lb ss rb Hlb _ [f1 IH] Hrb. exists (S f1).
    intros [|f] Hf st0 st pre rest Q Hs Hq Hn HQ; [lia|].
    cbn [parse_block]. unfold open_tag, close_tag, leaf_tag.
    assoc_in Hs. repeat acc_more. rewrite Hlb. repeat acc_more.
    apply (IH f ltac:(lia) st0 _ _ (rb :: rest) _ Hs Hq).
    { apply next_is_head. unfold ends_block. rewrite Hrb. apply orb_true_r. }
    clear Hs Hq. intros ? Hs Hq. repeat acc_more. acc_done HQ.
  - (* block of one statement *)
    intros o s Hst [f1 IH]. exists (S f1).
    intros [|f] Hf st0 st pre rest Q Hs Hq Hn HQ; [lia|].
    cbn [parse_block].
    destruct (statement_head o s Hst) as (t & r & E & Ht).
    destruct (starts_tests t Ht) as (_ & Hsym & _).
    pose proof Hs as Hs'. rewrite E in Hs'. assoc_in Hs'.
    apply wp_bind. apply (acc_cur _ _ _ _ _ Hs'). cbv beta.
    rewrite Hsym. clear Hs'.
    apply (IH f ltac:(lia) st0 _ _ rest _ Hs Hq Hn). exact HQ.
  - (* end of the statements *)
    exists 1. intros [|f] Hf st0 st pre rest Q Hs Hq Hn HQ; [lia|].
    cbn [parse_block_loop]. cbn [app] in Hs.
    destruct Hn as (u & r & -> & Hu). unfold ends_block in Hu.
    repeat acc_more.
    replace (negb (kind_eqb (kind u) PT_EOF) && negb (is_symbol u (str "}")))
      with false
      by (destruct (kind_eqb (kind u) PT_EOF), (is_symbol u (str "}"));
          try reflexivity; discriminate).
    acc_more. apply HQ; [now rewrite app_nil_r | exact Hq].
  - (* one more statement *)
    intros o s ss Hst [f1 IH1] Hss [f2 IH2]. exists (S (f1 + f2)).
    intros [|f] Hf st0 st pre rest Q Hs Hq Hn HQ; [lia|].
    cbn [parse_block_loop].
    destruct (statement_head o s Hst) as (t & r & E & Ht).
    destruct (starts_tests t Ht) as (Heof & Hsym & _).
    assoc_in Hs.
    pose proof Hs as Hs'. rewrite E in Hs'. assoc_in Hs'.
    apply wp_bind. apply (acc_cur _ _ _ _ _ Hs'). cbv beta.
    rewrite Heof, Hsym. cbn [negb andb]. clear Hs'. apply wp_bind.
    apply (IH1 f ltac:(lia) st0 _ _ (ss ++ rest) _ Hs Hq).
    { now apply after_statement. }
    clear Hs Hq. intros ? Hs Hq.
    apply (IH2 f ltac:(lia) st0 _ _ rest _ Hs Hq Hn).
    clear Hs Hq. intros ? Hs Hq. acc_done HQ.
Qed.

Lemma stmt_list_accepted (ss : list ParserToken) :
  Statements ss ->
  exists f0 : nat,
    forall f : nat, f0 <= f ->
    forall (st0 st : PState) (pre : list ParserToken) (e : ParserToken)
           (rest : list ParserToken) (Q : nat -> PState -> Prop),
      stream_at st pre (ss ++ e :: rest) -> quiet st0 st ->
      kind e = PT_EOF ->
      (forall n st', stream_at st' (pre ++ ss) (e :: rest) ->
                     quiet st0 st' -> Q n st') ->
      wp true (parse_stmt_list f) st Q.
Proof.
  destruct statements_accepted as (HS & _ & _).
  induction 1 as [|o s ss Hst Hss [f2 IH2]].
  - exists 1. intros [|f] Hf st0 st pre e rest Q Hs Hq He HQ; [lia|].
    cbn [parse_stmt_list]. cbn [app] in Hs. repeat acc_step.
    rewrite He. cbn [kind_eqb negb]. acc_step.
    apply HQ; [now rewrite app_nil_r | exact Hq].
  - destruct (HS o s Hst) as [f1 IH1]. exists (S (f1 + f2)).
    intros [|f] Hf st0 st pre e rest Q Hs Hq He HQ; [lia|].
    cbn [parse_stmt_list].
    destruct (statement_head o s Hst) as (t & r & E & Ht).
    destruct (starts_tests t Ht) as (Heof & _ & _).
    assoc_in Hs.
    pose proof Hs as Hs'. rewrite E in Hs'. assoc_in Hs'.
    apply wp_bind. apply (acc_cur _ _ _ _ _ Hs'). cbv beta.
    rewrite Heof. cbn [negb]. clear Hs'. apply wp_bind.
    apply (IH1 f ltac:(lia) st0 _ _ (ss ++ e :: rest) _ Hs Hq).
    { apply after_statement; [exact Hss|]. apply next_is_head.
      unfold ends_block. now rewrite He. }
    clear Hs Hq. intros ? Hs Hq. apply wp_bind.
    apply (IH2 f ltac:(lia) st0 _ _ e rest _ Hs Hq He).
    clear Hs Hq. intros n ? Hs Hq. acc_step. acc_done HQ.
Qed.

(** *** Recovery after a stray token *)

Lemma after_statement_top (o : bool) (ss rest : list ParserToken) :
  Statements ss -> next_is (no_else true) rest ->
  next_is (no_else o) (ss ++ rest).
Proof.
  intros [|o' s ss' Hs _] H.
  - now apply no_else_weaken.
  - destruct (statement_head _ _ Hs) as (t & r & -> & Ht).
    apply next_is_head. unfold no_else.
    destruct (starts_tests t Ht) as (_ & _ & ->). now rewrite andb_false_r.
Qed.

(** The loop of [parse_stmt_list] over the statements [ss], with [n]
    iterations, and then over what follows them. *)
Lemma stmt_list_prefix (ss : list ParserToken) :
  Statements ss ->
  exists f0 n : nat,
    forall f : nat, f0 <= f ->
    forall (st0 st : PState) (pre rest : list ParserToken)
           (Q : nat -> PState -> Prop),
      stream_at st pre (ss ++ rest) -> quiet st0 st ->
      next_is (no_else true) rest ->
      (forall st', stream_at st' (pre ++ ss) rest -> quiet st0 st' ->
                   wp true (parse_stmt_list f) st' (fun m => Q (n + m))) ->
      wp true (parse_stmt_list (n + f)) st Q.
Proof.
  destruct statements_accepted as (HS & _ & _).
  induction 1 as [|o s ss Hst Hss (f2 & n2 & IH2)].
  - exists 0, 0. intros f _ st0 st pre rest Q Hs Hq Hn HQ.
    cbn [Nat.add]. cbn [app] in Hs. apply HQ; [now rewrite app_nil_r|exact Hq].
  - destruct (HS o s Hst) as [f1 IH1]. exists (f1 + f2), (S n2).
    intros f Hf st0 st pre rest Q Hs Hq Hn HQ.
    cbn [Nat.add parse_stmt_list].
    destruct (statement_head o s Hst) as (t & r & E & Ht).
    destruct (starts_tests t Ht) as (Heof & _ & _).
    assoc_in Hs.
    pose proof Hs as Hs'. rewrite E in Hs'. assoc_in Hs'.
    apply wp_bind. apply (acc_cur _ _ _ _ _ Hs'). cbv beta.
    rewrite Heof. cbn [negb]. clear Hs'. apply wp_bind.
    apply (IH1 (n2 + f) ltac:(lia) st0 _ _ (ss ++ rest) _ Hs Hq).
    { now apply after_statement_top. }
    clear Hs Hq. intros ? Hs Hq. apply wp_bind.
    apply (IH2 f ltac:(lia) st0 _ _ rest _ Hs Hq Hn).
    clear Hs Hq. intros ? Hs Hq. assoc_in Hs.
    eapply wp_mono; [apply HQ; [assoc; exact Hs | exact Hq]|].
    intros m st2 H. exact H.
Qed.

Lemma syntax_error_at (msg : text) (st : PState) (pre : list ParserToken)
    (t : ParserToken) (rest : list ParserToken) :
  stream_at st pre (t :: rest) ->
  syntax_error msg st = Ok tt (reported st msg t).
Proof.
  intros Hs. unfold syntax_error, bind.
  now rewrite (cur_tok_at st pre t rest Hs).
Qed.

Lemma recovery_run (prog1 : list ParserToken) (t : ParserToken)
    (skip : list ParserToken) (b : ParserToken) (prog2 : list ParserToken)
    (e : ParserToken) :
  Statements prog1 -> Statements prog2 -> kind e = PT_EOF ->
  starts_statement t = false -> is_keyword_tok t (str "else") = false ->
  forallb is_skipped (t :: skip) = true -> is_boundary b = true ->
  exists f0 : nat,
    forall f : nat, f0 <= f ->
    wp true (parse_program f)
      (initial_state (prog1 ++ t :: skip ++ b :: prog2 ++ [e]))
      (fun _ st' =>
         g_error st' = true
         /\ diagnostics st'
            = [(str "Unexpected token at start of statement", near t)]
         /\ stream_at st' (prog1 ++ t :: skip ++ b :: prog2) [e]).
Proof.
  intros H1 H2 He Ht Helse Hskip Hb.
  destruct (stmt_list_prefix prog1 H1) as (f1 & n1 & P1).
  destruct (stmt_list_accepted prog2 H2) as (f2 & P2).
  exists (n1 + (f1 + 5 + length skip + f2)). intros F HF.
  replace F with (n1 + (F - n1)) by lia.
  assert (f1 <= F - n1) as Hf1 by lia.
  destruct (F - n1) as [|h] eqn:EF; [lia|].
  assert (length (t :: skip) < h - 1 /\ f2 <= h /\ 0 < h) as (Hg1 & Hg2 & Hh)
    by (cbn [length]; lia).
  set (toks := prog1 ++ t :: skip ++ b :: prog2 ++ [e]).
  set (st := initial_state toks).
  assert (stream_at st [] toks) as Hs by (split; reflexivity).
  pose proof (quiet_refl st) as Hq.
  unfold parse_program, open_tag, close_tag. repeat acc_step.
  apply (P1 (S h) Hf1 st _ [] (t :: skip ++ b :: prog2 ++ [e]) _ Hs Hq).
  { apply next_is_head. unfold no_else. now rewrite Helse. }
  clear Hs Hq. intros ? Hs Hq. cbn [app] in Hs.
  assert (diagnostics st = []) as Hd0 by reflexivity.
  clearbody st. clear toks.
  (* the stray token *)
  pose proof Hskip as Hskip'. cbn [forallb] in Hskip'.
  apply andb_true_iff in Hskip' as [Hts _]. unfold is_skipped in Hts.
  apply andb_true_iff in Hts as [Hteof _]. apply negb_true_iff in Hteof.
  unfold starts_statement in Ht.
  do 7 (apply orb_false_iff in Ht; destruct Ht as [Ht ?]).
  cbn [parse_stmt_list]. repeat acc_step. rewrite Hteof. cbn [negb].
  repeat acc_step. destruct h as [|g]; [lia|].
  cbn [Nat.sub] in Hg1. rewrite Nat.sub_0_r in Hg1.
  cbn [parse_statement]. repeat acc_step.
  repeat match goal with
         | H : ?c = false |- context [?c] => rewrite H
         end.
  cbn [orb].
  (* the report and the recovery *)
  apply wp_bind. unfold wp at 1.
  match goal with
  | Hs : stream_at ?s ?p _ |- _ =>
      rewrite (syntax_error_at _ s p t _ Hs); cbv beta iota;
      unfold wp at 1;
      rewrite (panic_recover_at (t :: skip) g (reported s _ t) p b
                 (prog2 ++ [e]) Hs Hskip Hg1)
  end.
  assert (is_skipped b = false) as ->
    by (unfold is_skipped; now rewrite Hb, andb_false_r).
  assert (kind_eqb (kind b) PT_EOF = false) as ->.
  { unfold is_boundary, is_symbol in Hb.
    destruct (kind b); try reflexivity; discriminate Hb. }
  destruct (prog2 ++ [e]) as [|u r] eqn:E2; [destruct prog2; discriminate|].
  rewrite <- E2 in *. clear E2 u r. cbv beta iota.
  match goal with
  | |- wp true _ ?s _ => set (st3 := s)
  end.
  assert (stream_at st3 (prog1 ++ t :: skip ++ [b]) (prog2 ++ [e])) as Hs3.
  { destruct Hs as [Hs Hi]. split.
    - cbn. rewrite Hs. assoc. reflexivity.
    - cbn. rewrite !length_app. cbn [length]. rewrite length_app.
      cbn [length]. lia. }
  assert (g_error st3 = true
          /\ diagnostics st3
             = [(str "Unexpected token at start of statement", near t)])
    as [Hf3 Hd3].
  { destruct Hq as (_ & _ & Hd & _). split; [reflexivity|].
    cbn. rewrite Hd, Hd0. reflexivity. }
  clear Hs Hq. pose proof (quiet_refl st3) as Hq3.
  apply wp_bind.
  apply (P2 (S g) Hg2 st3 st3 _ e [] _ Hs3 Hq3 He).
  intros n ? Hs Hq. repeat acc_step.
  destruct Hq as (_ & Hqf & Hqd & _).
  split; [congruence|]. split; [congruence|].
  assoc_in Hs. exact Hs.
Qed.

End Acceptance.

(** X25. The parser accepts the language of the grammar.  When the
    tokens in front of the [eof] token are a list of statements of the
    grammar above (declarations, [input], [print] and [writeln],
    assignments, [if] with and without [else], [while], [for], blocks in
    braces or of one statement, expressions with the three levels of
    operators and parentheses), [parse_program] ends on the [eof] token
    with the error flag clear and without a diagnostic, and the leaves
    of the tree it has printed are the lexemes of the tokens of the
    program, each one once and in their order. *)
Theorem grammar_programs_are_accepted (prog : list Syntax.ParserToken)
    (e : Syntax.ParserToken) (fuel : nat) :
  Statements prog -> Syntax.kind e = Syntax.PT_EOF ->
  10 * (length prog + 1) <= fuel ->
  exists (n : nat) (st' : Syntax.PState),
    Syntax.parse_program fuel (Syntax.initial_state (prog ++ [e]))
    = Syntax.Ok n st'
    /\ Syntax.g_error st' = false /\ Syntax.diagnostics st' = []
    /\ stream_at st' prog [e]
    /\ leaf_texts (Syntax.trace st') = map Syntax.lexeme prog.
Proof.
  intros Hp He Hfuel.
  destruct (stmt_list_accepted prog Hp) as [f0 H].
  set (st := Syntax.initial_state (prog ++ [e])).
  assert (stream_at st [] (prog ++ [e])) as Hs by (split; reflexivity).
  destruct (parse_program_any_fuel (prog ++ [e]) st fuel (fuel + f0))
    as [E _].
  - destruct prog; discriminate.
  - unfold eof_last, token_of. rewrite length_app. cbn [length].
    replace (Z.to_nat (Z.of_nat (length prog + 1) - 1)) with (length prog)
      by lia.
    rewrite nth_middle. exact He.
  - split; reflexivity.
  - rewrite length_app. cbn [length]. lia.
  - lia.
  - rewrite <- E. unfold Syntax.parse_program, Syntax.open_tag, Syntax.close_tag.
    apply wp_total_result.
    apply wp_bind.
    eapply (acc_emit _ st st [] (prog ++ [e]));
      [reflexivity | exact Hs | apply quiet_refl |].
    intros st1 Hs1 Hq1. apply wp_bind.
    apply (H (fuel + f0) ltac:(lia) st st1 [] e [] _ Hs1 Hq1 He).
    intros n st2 Hs2 Hq2. apply wp_bind.
    eapply (acc_emit _ st st2); [reflexivity | exact Hs2 | exact Hq2 |].
    intros st3 Hs3 (_ & Hq3 & Hq4 & Hq5). apply wp_ret.
    split; [exact Hq3|]. split; [exact Hq4|]. split; [exact Hs3|].
    pose proof (tokens_read_at _ _ _ Hs3) as Ht. cbn [app] in Ht.
    assert (faithful st []) as F by reflexivity.
    specialize (Hq5 F). unfold faithful in Hq5.
    now rewrite Ht, app_nil_r in Hq5.
Qed.

Lemma grammar_programs_are_accepted_witness :
  exists (n : nat) (st' : Syntax.PState),
    Syntax.parse_program 80 (Syntax.initial_state (small_program ++ [Syntax.eof_token]))
    = Syntax.Ok n st'
    /\ Syntax.g_error st' = false /\ Syntax.diagnostics st' = []
    /\ stream_at st' small_program [Syntax.eof_token]
    /\ leaf_texts (Syntax.trace st') = map Syntax.lexeme small_program.
Proof.
  apply (grammar_programs_are_accepted small_program Syntax.eof_token 80).
  - apply (@SS_more false [_; _; _] [_; _; _; _]).
    + apply S_decl; reflexivity.
    + apply (@SS_more false [_; _; _; _] []); [|apply SS_end].
      apply (@S_assign _ _ [_] _); try reflexivity.
      apply E_simple.
      apply (@SE_terms [_] []); [|apply AT_end].
      apply (@T_factors [_] []); [|apply MT_end].
      apply F_constant. reflexivity.
  - reflexivity.
  - vm_compute. repeat constructor.
Defined.

(** ** A run that reports nothing has read a program of the grammar *)

Section Recognition.

Import Syntax.
Local Open Scope parser_scope.

Lemma triple_bind (A B : Type) (c : M A) (k : A -> M B)
    (P : PState -> Prop) (R : A -> PState -> Prop)
    (Q : B -> PState -> Prop) :
  triple P c R -> (forall a, triple (R a) (k a) Q) -> triple P (bind c k) Q.
Proof.
  intros Hc Hk st b st' HP H. unfold bind in H.
  destruct (c st) as [a st1| |] eqn:E; try discriminate H.
  exact (Hk a st1 b st' (Hc st a st1 HP E) H).
Qed.

Lemma triple_post (A : Type) (c : M A) (P : PState -> Prop)
    (R Q : A -> PState -> Prop) :
  triple P c R -> (forall a st, R a st -> Q a st) -> triple P c Q.
Proof. intros Hc HQ st a st' HP H. exact (HQ a st' (Hc st a st' HP H)). Qed.

Lemma triple_ex2 (A X Y : Type) (c : M A) (R : X -> Y -> PState -> Prop)
    (Q : A -> PState -> Prop) :
  (forall x y, triple (R x y) c Q) ->
  triple (fun st => exists x y, R x y st) c Q.
Proof. intros H st a st' (x & y & HR) E. exact (H x y st a st' HR E). Qed.

Lemma triple_ret (A : Type) (a : A) (P : PState -> Prop)
    (Q : A -> PState -> Prop) :
  (forall st, P st -> Q a st) -> triple P (ret a) Q.
Proof. intros H st a' st' HP [= <- <-]. now apply H. Qed.

Lemma triple_out_of_fuel (A : Type) (P : PState -> Prop)
    (Q : A -> PState -> Prop) :
  triple P (@out_of_fuel A) Q.
Proof. intros st a st' _ H. discriminate H. Qed.

Lemma so_far_flag (known : Prop) (pre rest : list ParserToken)
    (st : PState) :
  g_error st = true -> so_far known pre rest st.
Proof. intros H. now left. Qed.

Lemma so_far_final (known known' : Prop) (pre pre' rest : list ParserToken)
    (st : PState) :
  (known -> known' /\ pre = pre') ->
  so_far known pre rest st -> so_far known' pre' rest st.
Proof.
  intros H [E|(K & Hs & He)]; [now left|]. right.
  destruct (H K) as [K' <-]. auto.
Qed.

Lemma eof_ended_tail (t : ParserToken) (r : list ParserToken) :
  eof_ended (t :: r) -> kind_eqb (kind t) PT_EOF = false ->
  eof_ended r /\ r <> [].
Proof.
  intros (body & e & E & He) Ht. destruct body as [|b body].
  - injection E as -> ->. apply kind_eqb_neq in Ht. contradiction.
  - injection E as -> ->. split; [now exists body, e|].
    destruct body; discriminate.
Qed.

Lemma cur_tok_state (st : PState) (t : ParserToken) (st' : PState) :
  cur_tok st = Ok t st' -> st' = st.
Proof.
  unfold cur_tok. destruct (token_at st _); [|discriminate].
  now intros [= _ <-].
Qed.

(** The current token is the first of what is left. *)
Lemma rule_cur (A : Type) (k : ParserToken -> M A) (known : Prop)
    (pre rest : list ParserToken) (Q : A -> PState -> Prop) :
  (forall t r, triple (so_far (known /\ rest = t :: r) pre (t :: r)) (k t) Q) ->
  triple (so_far known pre rest) (bind cur_tok k) Q.
Proof.
  intros Hk st b st' HP H. unfold bind in H.
  destruct (cur_tok st) as [t st1| |] eqn:E; try discriminate H.
  pose proof (cur_tok_state _ _ _ E) as ->.
  destruct HP as [Hf|(K & Hs & He)].
  - exact (Hk t [] st b st' (so_far_flag _ _ _ _ Hf) H).
  - destruct rest as [|t0 r].
    { destruct He as ([|? ?] & ? & ? & _); discriminate. }
    rewrite (cur_tok_at st pre t0 r Hs) in E. injection E as <-.
    apply (Hk t0 r st b st'); [|exact H]. right. auto.
Qed.

Lemma rule_emit (e : Event) (known : Prop) (pre rest : list ParserToken) :
  triple (so_far known pre rest) (emit e) (fun _ => so_far known pre rest).
Proof.
  intros st [] st' HP H. unfold emit in H. injection H as <-.
  destruct HP as [Hf|(K & Hs & He)].
  - left. exact Hf.
  - right. split; [exact K|]. split; [exact Hs | exact He].
Qed.

Lemma rule_next (known : Prop) (pre : list ParserToken) (t : ParserToken)
    (r : list ParserToken) :
  (known -> kind_eqb (kind t) PT_EOF = false) ->
  triple (so_far known pre (t :: r)) next_tok
    (fun _ => so_far known (pre ++ [t]) r).
Proof.
  intros Hk st [] st' HP H. destruct HP as [Hf|(K & Hs & He)].
  - left. unfold next_tok in H.
    destruct (_ <? _)%Z; injection H as <-; exact Hf.
  - destruct (eof_ended_tail t r He (Hk K)) as [He' Hne].
    destruct r as [|u r]; [congruence|].
    destruct (next_tok_at st pre t u r Hs) as [E Hs'].
    rewrite E in H. injection H as <-. right. auto.
Qed.

Lemma keeps_flag (A : Type) (c : M A) :
  (forall st0, hoare (grows st0) c (grows st0)) ->
  forall st a st', c st = Ok a st' -> g_error st = true -> g_error st' = true.
Proof.
  intros H st a st' E Hf.
  destruct (H st st a st' (grows_refl st) E) as (_ & _ & _ & d & _ & ->).
  now rewrite Hf.
Qed.

(** After a report, the rest of a production only keeps the flag. *)
Lemma rule_error (A : Type) (msg : text) (k : unit -> M A)
    (P : PState -> Prop) (Q : A -> PState -> Prop) :
  (forall st0, hoare (grows st0) (k tt) (grows st0)) ->
  (forall a st, g_error st = true -> Q a st) ->
  triple P (bind (syntax_error msg) k) Q.
Proof.
  intros Hk HQ st b st' _ H. unfold bind at 1 in H.
  destruct (syntax_error msg st) as [[] st1| |] eqn:E; try discriminate H.
  apply HQ. apply (keeps_flag _ _ Hk st1 b st' H).
  unfold syntax_error, bind in E.
  destruct (cur_tok st) as [t st2| |]; try discriminate E.
  injection E as <-. reflexivity.
Qed.

Lemma rule_error_last (msg : text) (P : PState -> Prop)
    (Q : unit -> PState -> Prop) :
  (forall a st, g_error st = true -> Q a st) ->
  triple P (syntax_error msg) Q.
Proof.
  intros HQ st [] st' _ E. apply HQ.
  unfold syntax_error, bind in E.
  destruct (cur_tok st) as [t st2| |]; try discriminate E.
  injection E as <-. reflexivity.
Qed.

Lemma triple_assoc (A B C : Type) (c : M A) (k1 : A -> M B) (k2 : B -> M C)
    (P : PState -> Prop) (Q : C -> PState -> Prop) :
  triple P (bind c (fun a => bind (k1 a) k2)) Q ->
  triple P (bind (bind c k1) k2) Q.
Proof.
  intros H st b st' HP E. apply (H st b st' HP). revert E.
  unfold bind. now destruct (c st).
Qed.

Lemma triple_ret_bind (A B : Type) (a : A) (k : A -> M B)
    (P : PState -> Prop) (Q : B -> PState -> Prop) :
  triple P (k a) Q -> triple P (bind (ret a) k) Q.
Proof. intros H st b st' HP E. exact (H st b st' HP E). Qed.

Ltac keeps_step :=
  first
    [ apply hoare_ret
    | apply hoare_out_of_fuel
    | apply hoare_cur_tok
    | apply grows_next_tok | apply grows_syntax_error | apply grows_emit
    | apply grows_panic_recover | apply grows_expect_symbol
    | match goal with
      | H : forall st0 : PState, hoare (grows st0) _ (grows st0) |- _ =>
          apply H
      end
    | eapply hoare_bind; [|intro]
    | lazymatch goal with
      | |- hoare _ (if ?b then _ else _) _ => destruct b
      end ].

Ltac flag_post :=
  let H := fresh in
  intros ? ? H; exists [], []; left; exact H.

Ltac rec_error :=
  first
    [ apply rule_error; [ intros; cbv beta; repeat keeps_step | flag_post ]
    | apply rule_error_last; flag_post ].

Ltac use_equations :=
  repeat match goal with
         | H : _ :: _ = _ :: _ |- _ => injection H as ? ?
         end;
  subst.

Ltac not_eof :=
  unfold is_symbol, is_operator, is_keyword_tok, is_mul_op, is_add_op,
    is_constant in *;
  lazymatch goal with
  | |- kind_eqb (kind ?t) PT_EOF = false =>
      repeat match goal with
             | H : context [kind t] |- _ => revert H
             end;
      destruct (kind t); cbn [kind_eqb andb orb]; intros;
      try reflexivity; discriminate
  end.

Ltac side_cond :=
  let K := fresh in
  intros K; decompose [and] K; clear K; use_equations; not_eof.

Ltac rec_sub :=
  match goal with
  | H : reads ?c _ |- triple _ ?c _ => apply H
  | H : forall sym msg, reads (expect_symbol _ sym msg) _ |- _ => apply H
  end.

(** One step of a run, through a [bind]. *)
Ltac rec_step :=
  lazymatch goal with
  | |- triple _ (bind (emit _) _) _ =>
      eapply triple_bind; [apply rule_emit | intros []]
  | |- triple _ (bind next_tok _) _ =>
      eapply triple_bind; [apply rule_next; side_cond | intros []]
  | |- triple _ (bind (syntax_error _) _) _ => rec_error
  | |- triple _ (syntax_error _) _ => rec_error
  | |- triple _ (bind (bind _ _) _) _ => apply triple_assoc; cbv beta
  | |- triple _ (bind (ret _) _) _ => apply triple_ret_bind; cbv beta
  end.

Tactic Notation "rec_cur" ident(t) ident(r) :=
  repeat rec_step; apply rule_cur; intros t r.

Tactic Notation "rec_call" ident(ts) ident(r) :=
  repeat rec_step;
  eapply triple_bind;
  [ rec_sub | intros ?; cbv beta; apply triple_ex2; intros ts r ].

(** The last step of a run: what is known at the end. *)
Ltac rec_last :=
  let H := fresh "Hend" in
  lazymatch goal with
  | |- triple _ (emit _) _ =>
      eapply triple_post; [apply rule_emit | intros [] ? H]
  | |- triple _ next_tok _ =>
      eapply triple_post; [apply rule_next; side_cond | intros [] ? H]
  | |- triple _ (ret _) _ => apply triple_ret; intros ? H
  | |- triple _ _ _ =>
      eapply triple_post;
      [ rec_sub | intros ? ? H; cbv beta in H; destruct H as (? & ? & H) ]
  end.

(** The tokens read are those of the assertion at the end; what is left
    to prove is that they are of the grammar. *)
Ltac finish :=
  lazymatch goal with
  | H : so_far _ _ _ ?st |- exists ts rest', so_far _ _ rest' ?st =>
      let K := fresh in
      eexists; eexists; eapply so_far_final; [|exact H];
      intros K;
      (split;
       [| first [ repeat (progress cbn [app] || rewrite <- app_assoc);
                  reflexivity
                | symmetry; apply app_nil_r ] ]);
      unfold statement_read, block_read in K;
      decompose [and ex] K; clear K; use_equations;
      (split; [assumption|]);
      (split;
       [ repeat (progress cbn [app] || rewrite <- app_assoc);
         first [reflexivity | assumption | congruence] |])
  end.

Lemma expression_recognised (f : nat) :
  reads (parse_factor f) (fun ts _ => Factor ts)
  /\ reads (parse_term_loop f) (fun ts _ => MulTail ts)
  /\ reads (parse_term f) (fun ts _ => Term ts)
  /\ reads (parse_simple_expr_loop f) (fun ts _ => AddTail ts)
  /\ reads (parse_simple_expr f) (fun ts _ => SimpleExpr ts)
  /\ reads (parse_expression f) (fun ts _ => Expression ts).
Proof.
  induction f as [|f (IHf & IHtl & IHt & IHsl & IHs & IHe)].
  - repeat split; intros known pre rest; apply triple_out_of_fuel.
  - destruct (grows_expression f) as (Ge & Gs & Gsl & Gt & Gtl & Gf).
    split; [|split; [|split; [|split; [|split]]]]; intros known pre rest.
    + (* factor *)
      cbn [parse_factor]. unfold leaf_tag, open_tag, close_tag.
      rec_cur t r. destruct (is_symbol t (str "(")) eqn:E1.
      * rec_call e r1. rec_cur t' r2.
        destruct (is_symbol t' (str ")")) eqn:E2; repeat rec_step.
        rec_last. finish. apply F_group; assumption.
      * destruct (kind_eqb (kind t) PT_IDENTIFIER) eqn:E2.
        { repeat rec_step. rec_last. finish.
          apply F_identifier. now apply kind_eqb_eq. }
        destruct (is_constant t) eqn:E3; repeat rec_step.
        rec_last. finish. now apply F_constant.
    + (* the factors of a term *)
      cbn [parse_term_loop]. unfold leaf_tag.
      rec_cur t r. destruct (is_mul_op t) eqn:E1.
      * rec_call fl r1. rec_last. finish. apply MT_more; assumption.
      * rec_last. finish. apply MT_end.
    + (* term *)
      cbn [parse_term]. unfold open_tag, close_tag.
      rec_call fl r1. rec_call tl r2. rec_last. finish.
      apply T_factors; assumption.
    + (* the terms of a simple expression *)
      cbn [parse_simple_expr_loop]. unfold leaf_tag.
      rec_cur t r. destruct (is_add_op t) eqn:E1.
      * rec_call tm r1. rec_last. finish. apply AT_more; assumption.
      * rec_last. finish. apply AT_end.
    + (* simple expression *)
      cbn [parse_simple_expr]. unfold open_tag, close_tag.
      rec_call tm r1. rec_call tl r2. rec_last. finish.
      apply SE_terms; assumption.
    + (* expression *)
      cbn [parse_expression]. unfold open_tag, close_tag, leaf_tag.
      rec_call s1 r1. rec_cur t r2.
      destruct (kind_eqb (kind t) PT_OPERATOR && is_relop (lexeme t)) eqn:E1.
      * rec_call s2 r3. rec_last. finish. apply E_relation; assumption.
      * repeat rec_step. rec_last. finish. apply E_simple; assumption.
Qed.

Lemma expect_symbol_recognised (f : nat) (sym errmsg : text) :
  reads (expect_symbol f sym errmsg)
    (fun ts _ => exists t, ts = [t] /\ is_symbol t sym = true).
Proof.
  intros known pre rest. unfold expect_symbol, accept_symbol, leaf_tag.
  rec_cur t r. destruct (is_symbol t sym) eqn:E; repeat rec_step.
  rec_last. finish. now exists t.
Qed.

Lemma else_free_false (rest : list ParserToken) : else_free false rest.
Proof. intros H. discriminate H. Qed.

Lemma else_free_next (o : bool) (u : ParserToken) (r : list ParserToken) :
  is_keyword_tok u (str "else") = false -> else_free o (u :: r).
Proof. intros H _. now exists u, r. Qed.

Lemma else_free_else (o : bool) (u : ParserToken) (r : list ParserToken) :
  else_free o (u :: r) -> is_keyword_tok u (str "else") = true -> o = false.
Proof.
  intros H Hu. destruct o; [|reflexivity].
  destruct (H eq_refl) as (u' & r' & [= <- <-] & Hu'). congruence.
Qed.

Ltac token_facts :=
  repeat match goal with
         | H : kind_eqb _ _ = true |- _ => apply kind_eqb_eq in H
         end.

Lemma statements_recognised (f : nat) :
  reads (parse_statement f) statement_read
  /\ reads (parse_block f) block_read
  /\ reads (parse_block_loop f) (fun ts _ => Statements ts).
Proof.
  induction f as [f IH] using lt_wf_ind.
  destruct f as [|f].
  { repeat split; intros known pre rest; apply triple_out_of_fuel. }
  destruct (IH f ltac:(lia)) as (IHs & IHb & IHl).
  destruct (expression_recognised f) as (_ & _ & _ & _ & _ & IHe).
  pose proof (expect_symbol_recognised f) as IHx.
  destruct (grows_expression f) as (Ge & _).
  destruct (grows_statement f) as (Gs & Gb & Gl & _).
  split; [|split]; intros known pre rest.
  - (* statement *)
    cbn [parse_statement]. rec_cur t r.
    destruct (kind_eqb (kind t) PT_TYPE) eqn:E1.
    { (* declaration *)
      unfold parse_decl_stmt, open_tag, close_tag, leaf_tag.
      rec_cur ty r1. rec_cur id r2.
      destruct (kind_eqb (kind id) PT_IDENTIFIER) eqn:E2; repeat rec_step.
      rec_call semi r3. rec_last. finish.
      exists false. split; [|apply else_free_false].
      token_facts. now apply S_decl. }
    destruct (is_keyword_tok t (str "input")) eqn:E2.
    { (* input *)
      unfold parse_input_stmt, open_tag, close_tag, leaf_tag.
      rec_cur kw r1. rec_cur id r2.
      destruct (kind_eqb (kind id) PT_IDENTIFIER) eqn:E3; repeat rec_step.
      rec_call semi r3. rec_last. finish.
      exists false. split; [|apply else_free_false].
      token_facts. now apply S_input. }
    destruct (is_keyword_tok t (str "print") || is_keyword_tok t (str "writeln"))
      eqn:E3.
    { (* print *)
      unfold parse_print_stmt, open_tag, close_tag, leaf_tag.
      rec_cur kw r1. rec_call e r2. rec_call semi r3. rec_last. finish.
      exists false. split; [|apply else_free_false].
      now apply S_print. }
    destruct (is_keyword_tok t (str "if")) eqn:E4.
    { (* if *)
      destruct f as [|f']; [apply triple_out_of_fuel|].
      destruct (IH f' ltac:(lia)) as (_ & IHb' & _).
      destruct (expression_recognised f') as (_ & _ & _ & _ & _ & IHe').
      pose proof (expect_symbol_recognised f') as IHx'.
      cbn [parse_if_stmt]. unfold open_tag, close_tag, leaf_tag.
      rec_cur kw r1. rec_call lp r2. rec_call e r3. rec_call rp r4.
      rec_call b1 r5. rec_cur el r6.
      destruct (is_keyword_tok el (str "else")) eqn:E5.
      - rec_call b2 r7. rec_last. finish.
        match goal with
        | H : else_free ?o (el :: _) |- _ =>
            pose proof (else_free_else _ _ _ H E5); subst o
        end.
        eexists. split; [|eassumption].
        apply S_if_else; assumption.
      - repeat rec_step. rec_last. finish.
        exists true. split; [|now apply else_free_next].
        eapply S_if; eassumption. }
    destruct (is_keyword_tok t (str "while")) eqn:E5.
    { (* while *)
      destruct f as [|f']; [apply triple_out_of_fuel|].
      destruct (IH f' ltac:(lia)) as (_ & IHb' & _).
      destruct (expression_recognised f') as (_ & _ & _ & _ & _ & IHe').
      pose proof (expect_symbol_recognised f') as IHx'.
      cbn [parse_while_stmt]. unfold open_tag, close_tag, leaf_tag.
      rec_cur kw r1. rec_call lp r2. rec_call e r3. rec_call rp r4.
      rec_call b r5. rec_last. finish.
      eexists. split; [|eassumption]. apply S_while; assumption. }
    destruct (is_keyword_tok t (str "for")) eqn:E6.
    { (* for *)
      destruct f as [|f']; [apply triple_out_of_fuel|].
      destruct (IH f' ltac:(lia)) as (_ & IHb' & _).
      destruct (expression_recognised f') as (_ & _ & _ & _ & _ & IHe').
      pose proof (expect_symbol_recognised f') as IHx'.
      destruct (grows_expression f') as (Ge' & _).
      destruct (grows_statement f') as (_ & Gb' & _).
      cbn [parse_for_stmt].
      unfold parse_assign_stmt, parse_assign_no_semicolon,
        open_tag, close_tag, leaf_tag.
      rec_cur kw r1. rec_call lp r2. rec_cur id1 r3.
      destruct (kind_eqb (kind id1) PT_IDENTIFIER) eqn:E7; repeat rec_step.
      rec_cur eq1 r4.
      destruct (is_operator eq1 (str "=")) eqn:E8; repeat rec_step.
      rec_call e1 r5. rec_call semi1 r6. rec_call e2 r7. rec_call semi2 r8.
      rec_cur id2 r9.
      destruct (kind_eqb (kind id2) PT_IDENTIFIER) eqn:E9; repeat rec_step.
      rec_cur eq2 r10.
      destruct (is_operator eq2 (str "=")) eqn:E10; repeat rec_step.
      rec_call e3 r11. rec_call rp r12. rec_call b r13. rec_last. finish.
      eexists. split; [|eassumption]. token_facts.
      apply S_for; assumption. }
    destruct (kind_eqb (kind t) PT_IDENTIFIER) eqn:E7.
    { (* assignment *)
      unfold parse_assign_stmt, open_tag, close_tag, leaf_tag.
      rec_cur id r1.
      destruct (kind_eqb (kind id) PT_IDENTIFIER) eqn:E8; repeat rec_step.
      rec_cur eq r2.
      destruct (is_operator eq (str "=")) eqn:E9; repeat rec_step.
      rec_call e r3. rec_call semi r4. rec_last. finish.
      exists false. split; [|apply else_free_false].
      token_facts. now apply S_assign. }
    repeat rec_step.
  - (* block *)
    cbn [parse_block]. unfold open_tag, close_tag, leaf_tag.
    rec_cur t r. destruct (is_symbol t (str "{")) eqn:E1.
    + rec_call ss r1. repeat rec_step. rec_last. finish.
      exists false. split; [|apply else_free_false].
      apply B_braces; assumption.
    + rec_last. finish. eexists. split; [|eassumption].
      now apply B_statement.
  - (* the statements of a block *)
    cbn [parse_block_loop].
    rec_cur t r.
    destruct (negb (kind_eqb (kind t) PT_EOF) && negb (is_symbol t (str "}")))
      eqn:E1.
    + rec_call s1 r1. rec_last. finish. eapply SS_more; eassumption.
    + rec_last. finish. apply SS_end.
Qed.

Lemma stmt_list_recognised (f : nat) :
  reads (parse_stmt_list f)
    (fun ts rest' =>
       Statements ts
       /\ exists e r, rest' = e :: r /\ kind e = PT_EOF).
Proof.
  induction f as [|f IH]; intros known pre rest;
    [apply triple_out_of_fuel|].
  destruct (statements_recognised f) as (IHs & _ & _).
  cbn [parse_stmt_list]. rec_cur t r.
  destruct (negb (kind_eqb (kind t) PT_EOF)) eqn:E1.
  - rec_call s1 r1. rec_call ss r2. rec_last. finish.
    split; [eapply SS_more; eassumption|]. eauto.
  - rec_last. finish. split; [apply SS_end|].
    apply negb_false_iff, kind_eqb_eq in E1. eauto.
Qed.

Lemma program_recognised (f : nat) :
  reads (parse_program f)
    (fun ts rest' =>
       Statements ts
       /\ exists e r, rest' = e :: r /\ kind e = PT_EOF).
Proof.
  intros known pre rest. pose proof (stmt_list_recognised f) as IHl.
  unfold parse_program, open_tag, close_tag.
  rec_call ss r1. repeat rec_step. rec_last. finish. eauto.
Qed.

Lemma eof_last_ended (toks : list ParserToken) :
  toks <> [] -> eof_last toks -> eof_ended toks.
Proof.
  intros Hne Hl. destruct (exists_last Hne) as (body & e & ->).
  exists body, e. split; [reflexivity|]. now apply eof_last_snoc in Hl.
Qed.

End Recognition.

(** X26. The parser accepts exactly the language of the grammar.  For a
    stream that ends with an [eof] token, a run of [parse_program] that
    ends leaves the error flag clear if and only if the tokens in front
    of the first [eof] token are a list of statements of the grammar: a
    program of the grammar is never reported, and every other program
    is. *)
Theorem parser_accepts_exactly_the_grammar (toks : list Syntax.ParserToken)
    (fuel n : nat) (st' : Syntax.PState) :
  toks <> [] -> eof_last toks ->
  Syntax.parse_program fuel (Syntax.initial_state toks) = Syntax.Ok n st' ->
  (Syntax.g_error st' = false
   <-> exists (prog : list Syntax.ParserToken) (e : Syntax.ParserToken)
              (rest : list Syntax.ParserToken),
         toks = prog ++ e :: rest /\ Syntax.kind e = Syntax.PT_EOF
         /\ Statements prog).
Proof.
  intros Hne Hlast Hrun. set (st := Syntax.initial_state toks) in *. split.
  - intros Hflag.
    assert (so_far True [] toks st) as H0.
    { right. split; [exact I|]. split; [split; reflexivity|].
      now apply eof_last_ended. }
    destruct (program_recognised fuel True [] toks st n st' H0 Hrun)
      as (prog & rest' & [Hf|((_ & E & Hp & e & r & -> & He) & _)]).
    + congruence.
    + now exists prog, e, r.
  - intros (prog & e & rest & E & He & Hp).
    destruct (stmt_list_accepted prog Hp) as [f0 H].
    assert (stream_at st [] (prog ++ e :: rest)) as Hs
      by (split; [exact E | reflexivity]).
    pose proof (parse_program_stable fuel (fuel + f0) ltac:(lia) st n st' Hrun)
      as Hrun'.
    assert (wp true (Syntax.parse_program (fuel + f0)) st
              (fun _ st1 => Syntax.g_error st1 = false)) as Hw.
    { unfold Syntax.parse_program, Syntax.open_tag, Syntax.close_tag.
      apply wp_bind.
      eapply (acc_emit _ st st [] (prog ++ e :: rest));
        [reflexivity | exact Hs | apply quiet_refl |].
      intros st1 Hs1 Hq1. apply wp_bind.
      apply (H (fuel + f0) ltac:(lia) st st1 [] e rest _ Hs1 Hq1 He).
      intros k st2 Hs2 Hq2. apply wp_bind.
      eapply (acc_emit _ st st2); [reflexivity | exact Hs2 | exact Hq2 |].
      intros st3 Hs3 (_ & Hq3 & _). apply wp_ret. exact Hq3. }
    unfold wp in Hw. rewrite Hrun' in Hw. exact Hw.
Qed.

Lemma parser_accepts_exactly_the_grammar_witness :
  Syntax.g_error (snd malformed_run) = false
  <-> exists (prog : list Syntax.ParserToken) (e : Syntax.ParserToken)
             (rest : list Syntax.ParserToken),
        malformed_stream = prog ++ e :: rest
        /\ Syntax.kind e = Syntax.PT_EOF /\ Statements prog.
Proof.
  apply (parser_accepts_exactly_the_grammar malformed_stream 60
           (fst malformed_run) (snd malformed_run)).
  - discriminate.
  - reflexivity.
  - vm_compute. reflexivity.
Defined.

(** ** Tokens that the grammar does not have *)

Section StrayTokens.

Import Syntax.

Ltac kind_case t :=
  unfold grammar_kind, is_symbol, is_operator, is_keyword_tok, is_mul_op,
    is_add_op, is_constant, is_rel_op in *;
  repeat match goal with
         | H : context [kind t] |- _ => revert H
         end;
  destruct (kind t); cbn [kind_eqb andb orb]; intros;
  try reflexivity; try discriminate; congruence.

Ltac kinds :=
  intros;
  repeat first
    [ progress cbn [forallb app andb]
    | rewrite forallb_app
    | match goal with
      | H : forallb grammar_kind ?l = true
        |- context [forallb grammar_kind ?l] => rewrite H
      end
    | match goal with
      | |- context [grammar_kind ?t] =>
          replace (grammar_kind t) with true by (symmetry; kind_case t)
      end ];
  reflexivity.

Lemma expression_kinds :
  (forall ts, Factor ts -> forallb grammar_kind ts = true)
  /\ (forall ts, MulTail ts -> forallb grammar_kind ts = true)
  /\ (forall ts, Term ts -> forallb grammar_kind ts = true)
  /\ (forall ts, AddTail ts -> forallb grammar_kind ts = true)
  /\ (forall ts, SimpleExpr ts -> forallb grammar_kind ts = true)
  /\ (forall ts, Expression ts -> forallb grammar_kind ts = true).
Proof. apply expression_mutind; kinds. Qed.

Lemma statement_kinds :
  (forall o ts, Statement o ts -> forallb grammar_kind ts = true)
  /\ (forall o ts, Block o ts -> forallb grammar_kind ts = true)
  /\ (forall ts, Statements ts -> forallb grammar_kind ts = true).
Proof.
  destruct expression_kinds as (_ & _ & _ & _ & _ & HE).
  apply statement_mutind; intros;
    repeat match goal with
           | H : Expression _ |- _ => apply HE in H
           end; kinds.
Qed.

End StrayTokens.

(** X27. Comments, noise words and unknown tokens are syntax errors.
    The parser does not skip any token: when a token of kind [comment],
    [noise] or [unknown] stands in front of the first [eof] token,
    [parse_program] ends with the error flag set, whatever the other
    tokens are.  (String constants and the unknown tokens of the scanner
    reach the parser with the kind [unknown], comments with the kind
    [comment].) *)
Theorem stray_tokens_are_reported (pre : list Syntax.ParserToken)
    (t : Syntax.ParserToken) (rest : list Syntax.ParserToken) (fuel : nat) :
  eof_last (pre ++ t :: rest) ->
  forallb not_eof_token pre = true ->
  Syntax.kind t = Syntax.PT_COMMENT \/ Syntax.kind t = Syntax.PT_NOISE
  \/ Syntax.kind t = Syntax.PT_UNKNOWN ->
  10 * length (pre ++ t :: rest) <= fuel ->
  exists (n : nat) (st' : Syntax.PState),
    Syntax.parse_program fuel (Syntax.initial_state (pre ++ t :: rest))
    = Syntax.Ok n st'
    /\ Syntax.g_error st' = true.
Proof.
  intros Hlast Hpre Ht Hfuel.
  set (toks := pre ++ t :: rest) in *.
  assert (toks <> []) as Hne by (unfold toks; destruct pre; discriminate).
  set (st := Syntax.initial_state toks).
  destruct (parse_program_any_fuel toks st fuel fuel Hne Hlast)
    as (_ & n & st' & Hrun); [split; reflexivity | exact Hfuel | lia |].
  exists n, st'. split; [exact Hrun|].
  destruct (Syntax.g_error st') eqn:Hflag; [reflexivity|]. exfalso.
  assert (so_far True [] toks st) as H0.
  { right. split; [exact I|]. split; [split; reflexivity|].
    now apply eof_last_ended. }
  destruct (program_recognised fuel True [] toks st n st' H0 Hrun)
    as (prog & rest' & [Hf|((_ & E & Hp & e & r & -> & He) & _)]);
    [congruence|].
  destruct statement_kinds as (_ & _ & Hk). apply Hk in Hp.
  assert (grammar_kind t = false /\ not_eof_token t = true) as [Hg Hn].
  { unfold grammar_kind, not_eof_token.
    destruct Ht as [->|[->| ->]]; split; reflexivity. }
  assert (not_eof_token e = false) as Hee
    by (unfold not_eof_token; now rewrite He).
  unfold toks in E. apply app_eq_app in E.
  destruct E as (l & [[E1 E2]|[E1 E2]]).
  - destruct l as [|x l].
    + rewrite app_nil_r in E1. cbn [app] in E2. injection E2 as <- _.
      congruence.
    + injection E2 as <- _. rewrite E1, forallb_app in Hpre.
      cbn [forallb] in Hpre. rewrite Hee in Hpre.
      now rewrite andb_false_r in Hpre.
  - destruct l as [|x l].
    + cbn [app] in E2. injection E2 as <- _. congruence.
    + injection E2 as <- _. rewrite E1, forallb_app in Hp.
      cbn [forallb] in Hp. rewrite Hg in Hp.
      now rewrite andb_false_r in Hp.
Qed.

Lemma stray_tokens_are_reported_witness :
  exists (n : nat) (st' : Syntax.PState),
    Syntax.parse_program 90
      (Syntax.initial_state
         (comment_token :: small_program ++ [Syntax.eof_token]))
    = Syntax.Ok n st'
    /\ Syntax.g_error st' = true.
Proof.
  apply (stray_tokens_are_reported [] comment_token
           (small_program ++ [Syntax.eof_token]) 90).
  - reflexivity.
  - reflexivity.
  - left. reflexivity.
  - vm_compute. repeat constructor.
Defined.

(** ** Characters that start no token *)

(** X28. A character that is not white space and starts no token (such
    as [#], [@], [$], [?], a backslash, a control character or a byte
    from 128 to 254) is read alone as an [unknown] token: its lexeme is
    the character, it has no subtype label, and like punctuation it
    carries the column after the character.  The byte 255 is not such a
    character: [peek] returns it as [EOF]. *)
Theorem next_token_unknown_character (L : Lexer) (pre ws : text) (c : ascii)
    (rest : text) :
  at_cursor L pre (ws ++ c :: rest) -> forallb is_ws ws = true ->
  is_stray c = true ->
  type (fst (next_token L)) = TOK_UNKNOWN
  /\ lexeme (fst (next_token L)) = Some [c]
  /\ extra (fst (next_token L)) = None
  /\ (tline (fst (next_token L)), tcol (fst (next_token L)))
     = line_col (line L) (col L) (ws ++ [c])
  /\ at_cursor (snd (next_token L)) (pre ++ ws ++ [c]) rest.
Proof.
  intros Hat Hws Hc. unfold is_stray in Hc. apply negb_true_iff in Hc.
  do 18 (apply orb_false_iff in Hc; destruct Hc as [Hc ?]).
  apply orb_false_iff in Hc as [Hpc Hc].
  destruct (skip_ws_at L pre ws (c :: rest) Hat Hws) as [K1 K2].
  { simpl. now rewrite Hc. }
  unfold next_token.
  rewrite (@at_cursor_peek_plain _ _ _ _ K1 (proj2 (negb_true_iff _) Hpc)).
  destruct (@at_cursor_advance _ _ _ _ K1) as [_ Ha].
  pose proof (advance_position _ _ _ _ K1) as Hp.
  rewrite <- app_assoc in Ha.
  assert ((line (snd (advance (skip_ws L))), col (snd (advance (skip_ws L))))
          = line_col (line L) (col L) (ws ++ [c])) as Hpos.
  { rewrite line_col_app, Hp, <- K2. reflexivity. }
  repeat match goal with
         | H : ?b = false |- context [?b] => rewrite H
         end.
  cbn [orb fst snd make type lexeme extra tline tcol option_map].
  unfold dup_n. cbn [firstn]. auto.
Qed.

Lemma next_token_unknown_character_witness :
  type (fst (next_token (initial_lexer (str " #")))) = TOK_UNKNOWN
  /\ lexeme (fst (next_token (initial_lexer (str " #")))) = Some ["#"%char].
Proof.
  pose proof (next_token_unknown_character (initial_lexer (str " #")) []
                [" "%char] "#"%char [] (conj eq_refl eq_refl) eq_refl eq_refl)
    as (H1 & H2 & _).
  split; [exact H1 | exact H2].
Defined.

(** ** Recovery after a stray token *)

(** X29. One stray statement costs one diagnostic.  Let a token that
    starts no statement (and is not [else]) stand where a statement is
    expected, between two lists of statements of the grammar, followed by
    tokens that are neither [eof], a semicolon nor a right brace, and then
    by a semicolon or right brace.  [parse_program] reports
    [Unexpected token at start of statement] once, near that token,
    skips to just after the semicolon or brace, and parses the statements
    that follow without any other diagnostic, up to the [eof] token. *)
Theorem stray_statement_costs_one_diagnostic
    (prog1 : list Syntax.ParserToken) (t : Syntax.ParserToken)
    (skip : list Syntax.ParserToken) (b : Syntax.ParserToken)
    (prog2 : list Syntax.ParserToken) (e : Syntax.ParserToken)
    (fuel : nat) :
  Statements prog1 -> Statements prog2 ->
  Syntax.kind e = Syntax.PT_EOF ->
  starts_statement t = false ->
  Syntax.is_keyword_tok t (str "else") = false ->
  forallb is_skipped (t :: skip) = true -> is_boundary b = true ->
  10 * length (prog1 ++ t :: skip ++ b :: prog2 ++ [e]) <= fuel ->
  exists (n : nat) (st' : Syntax.PState),
    Syntax.parse_program fuel
      (Syntax.initial_state (prog1 ++ t :: skip ++ b :: prog2 ++ [e]))
    = Syntax.Ok n st'
    /\ Syntax.g_error st' = true
    /\ Syntax.diagnostics st'
       = [(str "Unexpected token at start of statement", near t)]
    /\ stream_at st' (prog1 ++ t :: skip ++ b :: prog2) [e].
Proof.
  intros H1 H2 He Ht Helse Hskip Hb Hfuel.
  destruct (recovery_run prog1 t skip b prog2 e H1 H2 He Ht Helse Hskip Hb)
    as [f0 H].
  set (toks := prog1 ++ t :: skip ++ b :: prog2 ++ [e]) in *.
  set (st := Syntax.initial_state toks) in *.
  destruct (parse_program_any_fuel toks st fuel (fuel + f0)) as [E _].
  - unfold toks. destruct prog1; discriminate.
  - unfold toks.
    replace (prog1 ++ t :: skip ++ b :: prog2 ++ [e])
      with ((prog1 ++ t :: skip ++ b :: prog2) ++ [e])
      by (rewrite <- app_assoc; cbn [app]; rewrite <- app_assoc;
          reflexivity).
    now apply eof_last_snoc.
  - split; reflexivity.
  - exact Hfuel.
  - lia.
  - rewrite <- E. apply wp_total_result. apply H. lia.
Qed.

Lemma stray_statement_costs_one_diagnostic_witness :
  exists (n : nat) (st' : Syntax.PState),
    Syntax.parse_program 110 (Syntax.initial_state stray_program)
    = Syntax.Ok n st'
    /\ Syntax.g_error st' = true
    /\ Syntax.diagnostics st'
       = [(str "Unexpected token at start of statement", str "#")]
    /\ Syntax.g_tok_index st' = 10%Z.
Proof.
  destruct (stray_statement_costs_one_diagnostic []
              (Syntax.mkParserToken Syntax.PT_UNKNOWN (str "#"))
              [Syntax.mkParserToken Syntax.PT_IDENTIFIER (str "x")]
              (Syntax.mkParserToken Syntax.PT_SYMBOL (str ";"))
              small_program Syntax.eof_token 110)
    as (n & st' & Hrun & Hf & Hd & _ & Hi).
  - apply SS_end.
  - apply (@SS_more false [_; _; _] [_; _; _; _]).
    + apply S_decl; reflexivity.
    + apply (@SS_more false [_; _; _; _] []); [|apply SS_end].
      apply (@S_assign _ _ [_] _); try reflexivity.
      apply E_simple.
      apply (@SE_terms [_] []); [|apply AT_end].
      apply (@T_factors [_] []); [|apply MT_end].
      apply F_constant. reflexivity.
  - reflexivity.
  - reflexivity.
  - reflexivity.
  - reflexivity.
  - reflexivity.
  - vm_compute. repeat constructor.
  - exists n, st'. split; [exact Hrun|]. split; [exact Hf|].
    split; [exact Hd | exact Hi].
Defined.
